(** * ungzip: a shallow embedding of the DEFLATE decoder and its properties

    The development follows the C sources file by file:
    - [huffman_code.c]: canonical Huffman code generation,
    - [huffman_tree.c]: the binary decoding tree built from the codes,
    - [decompress.c]: the bit cursor, the sliding window, the output
      buffer, the three block decoders and the gzip members around them,
    - [ungzip.c]: the check of the file name.

    Machine integers are modelled as [Z] with the truncation of the C type
    written out ([u8], [u16]); C arrays are lists read with [idx] and
    written with [upd]; the mutable [struct decompression_data] is passed
    explicitly through a small state-and-failure monad. *)

From Stdlib Require Import ZArith Lia Bool Ascii.
From Stdlib Require Import Strings.Byte.
From stdpp Require Import base list strings.

Local Open Scope Z_scope.

(** ** Machine integers and arrays *)

Definition u8 (x : Z) : Z := x mod 256.
Definition u16 (x : Z) : Z := x mod 65536.

(** [a[i]] for an array held in a list; every index the program computes is
    unsigned. *)
Definition idx {A} `{Inhabited A} (a : list A) (i : Z) : A := a !!! Z.to_nat i.

(** [a[i] = x]. *)
Definition upd {A} (a : list A) (i : Z) (x : A) : list A := <[Z.to_nat i := x]> a.

#[global] Instance byte_inhabited : Inhabited byte := populate "000"%byte.

(** The value of a byte as an unsigned integer, and the cast [(uint8_t) x]
    back to a byte. *)
Definition byte_val (b : byte) : Z := Z.of_N (Byte.to_N b).

Definition byte_of (x : Z) : byte :=
  default "000"%byte (Byte.of_N (Z.to_N (u8 x))).

(** ** huffman_code.c *)

Record huffman := mk_huffman {
  huffman_code : string; (* characters '1' or '0', most significant bit first *)
  len : Z
}.

#[global] Instance huffman_inhabited : Inhabited huffman :=
  populate (mk_huffman "" 0).

Definition bit_char (b : bool) : ascii := if b then "1"%char else "0"%char.

(** The loop of [get_huffman_code_string]: [n] iterations remain and the
    loop variable is [i]. *)
Fixpoint get_huffman_code_string_from (n : nat) (code len i : Z) : string :=
  match n with
  | O => EmptyString
  | S n' =>
      let bit := Z.testbit code (len - i - 1) in
      String (bit_char bit) (get_huffman_code_string_from n' code len (i + 1))
  end.

Definition get_huffman_code_string (code len : Z) : string :=
  get_huffman_code_string_from (Z.to_nat len) code len 0.

(** First loop of [generate_huffman_codes]: validates every length against
    [limit] and 15 and counts the lengths; [None] is the early
    [return false]. *)
Fixpoint count_code_lengths (code_lengths : list Z) (limit : Z)
    (code_length_counts : list Z) : option (list Z) :=
  match code_lengths with
  | [] => Some code_length_counts
  | l :: rest =>
      if (limit <? l) || (15 <? l) then None
      else count_code_lengths rest limit
             (upd code_length_counts l (u16 (idx code_length_counts l + 1)))
  end.

(** Second loop: the first code of every length, for [bits = 1 .. 15]. *)
Fixpoint first_codes (n : nat) (bits code : Z)
    (code_length_counts next_code_for_length : list Z) : list Z :=
  match n with
  | O => next_code_for_length
  | S n' =>
      let code := u16 (Z.shiftl (code + idx code_length_counts (bits - 1)) 1) in
      first_codes n' (bits + 1) code code_length_counts
        (upd next_code_for_length bits code)
  end.

(** Third loop: one [struct huffman] per symbol, in symbol order. *)
Fixpoint assign_codes (code_lengths : list Z) (next_code_for_length : list Z)
    : list huffman :=
  match code_lengths with
  | [] => []
  | l :: rest =>
      if l =? 0 then mk_huffman "" l :: assign_codes rest next_code_for_length
      else
        mk_huffman (get_huffman_code_string (idx next_code_for_length l) l) l
          :: assign_codes rest
               (upd next_code_for_length l (u16 (idx next_code_for_length l + 1)))
  end.

(** [generate_huffman_codes(code_lengths, codes, length, limit)]: the array
    and its length are the list; the result is the filled [codes] array, or
    [None] where the C function returns [false]. *)
Definition generate_huffman_codes (code_lengths : list Z) (limit : Z)
    : option (list huffman) :=
  if 288 <? Z.of_nat (length code_lengths) then None
  else
    match count_code_lengths code_lengths limit (replicate 16 0) with
    | None => None
    | Some code_length_counts =>
        let code_length_counts := upd code_length_counts 0 0 in
        let next_code_for_length :=
          first_codes 15 1 0 code_length_counts (replicate 16 0) in
        Some (assign_codes code_lengths next_code_for_length)
    end.

(** The code lengths of the fixed literal/length alphabet, as
    [decompress_block_type_01] and the test program fill them in. *)
Definition fixed_lengths : list Z :=
  replicate 144 8 ++ replicate 112 9 ++ replicate 24 7 ++ replicate 8 8.

(** ** huffman_tree.c *)

(** A [struct node *]: [NULL], or a node with its two children and its
    symbol; [code = -1] marks an internal node. *)
Inductive node : Type :=
| NULL
| Node (left right : node) (code : Z).

Definition is_null (p : node) : bool :=
  match p with NULL => true | Node _ _ _ => false end.

(** [p->code]; a null pointer is never dereferenced by the program. *)
Definition node_code (p : node) : Z :=
  match p with NULL => -1 | Node _ _ c => c end.

Definition set_node_code (p : node) (i : Z) : node :=
  match p with NULL => NULL | Node l r _ => Node l r i end.

(** The inner loop of [create_huffman_tree] for symbol [i], standing at
    node [cur] with loop variable [j] and [n] iterations to go. The C code
    links [tmp] under [cur] and moves down; here the subtree below [cur] is
    returned updated. [None] is the [free_huffman_tree(root); return NULL]
    exit. *)
Fixpoint insert_code (n : nat) (c : huffman) (j i : Z) (cur : node)
    : option node :=
  match n with
  | O => Some cur
  | S n' =>
      match cur, String.get (Z.to_nat j) (huffman_code c) with
      | Node l r sym, Some bit =>
          if negb (Ascii.eqb bit "1") && negb (Ascii.eqb bit "0") then None
          else
            let tmp := if Ascii.eqb bit "1" then r else l in
            let last := j =? len c - 1 in
            if (last && negb (is_null tmp))
               || (negb last && negb (is_null tmp) && negb (node_code tmp =? -1))
            then None
            else
              let tmp := if is_null tmp then Node NULL NULL (-1) else tmp in
              let tmp := if last then set_node_code tmp i else tmp in
              match insert_code n' c (j + 1) i tmp with
              | None => None
              | Some tmp' =>
                  Some (if Ascii.eqb bit "1" then Node l tmp' sym
                        else Node tmp' r sym)
              end
      | _, _ => None
      end
  end.

(** The outer loop over the symbols [i, i+1, ...]. *)
Fixpoint insert_codes (codes : list huffman) (i : Z) (root : node) : node :=
  match codes with
  | [] => root
  | c :: rest =>
      match insert_code (Z.to_nat (len c)) c 0 i root with
      | None => NULL
      | Some root' => insert_codes rest (i + 1) root'
      end
  end.

(** [create_huffman_tree(code_lengths, length, max_huffman_code_length)];
    allocation is assumed to succeed. *)
Definition create_huffman_tree (code_lengths : list Z)
    (max_huffman_code_length : Z) : node :=
  if 288 <? Z.of_nat (length code_lengths) then NULL
  else
    match generate_huffman_codes code_lengths max_huffman_code_length with
    | None => NULL
    | Some codes => insert_codes codes 0 (Node NULL NULL (-1))
    end.

(** ** decompress.c *)

Definition MAX_DISTANCE : Z := 32768.
Definition OUT_BUF_SIZE : Z := 8192.

(** The output stream behind [FILE *f]: the bytes written so far and the
    room left on the device. [fwrite] stores as many of the [n] bytes as
    fit and returns that number, so a full device shows up as a short
    write. *)
Record FILE := mk_FILE {
  f_written : list byte;
  f_room : Z
}.

Definition fwrite (ptr : list byte) (n : Z) (stream : FILE) : Z * FILE :=
  let k := Z.max 0 (Z.min n (f_room stream)) in
  (k, mk_FILE (f_written stream ++ take (Z.to_nat k) ptr) (f_room stream - k)).

Record decompression_data := mk_data {
  buf : list byte;           (* input buffer of compressed file *)
  buf_pos : Z;               (* next position in input buffer *)
  byte_pos : Z;              (* next bit position in current byte *)
  back_refs : list byte;     (* last 32768 decompressed bytes (cyclic) *)
  back_refs_pos : Z;         (* where the next decompressed byte goes *)
  back_refs_filled : bool;   (* back refs fully filled at least once *)
  out_buf : list byte;       (* output buffer *)
  out_pos : Z;               (* next position in output buffer *)
  f : FILE                   (* output file stream *)
}.

Definition buf_len (d : decompression_data) : Z := Z.of_nat (length (buf d)).

Definition set_cursor (d : decompression_data) (pos bit : Z) : decompression_data :=
  mk_data (buf d) pos bit (back_refs d) (back_refs_pos d) (back_refs_filled d)
    (out_buf d) (out_pos d) (f d).

Definition set_output (d : decompression_data) (ob : list byte) (op : Z)
    (stream : FILE) : decompression_data :=
  mk_data (buf d) (buf_pos d) (byte_pos d) (back_refs d) (back_refs_pos d)
    (back_refs_filled d) ob op stream.

Definition set_window (d : decompression_data) (br : list byte) (pos : Z)
    (filled : bool) : decompression_data :=
  mk_data (buf d) (buf_pos d) (byte_pos d) br pos filled
    (out_buf d) (out_pos d) (f d).

(** What a call leaves behind. Every C function here returns [bool] and
    mutates [*data]:
    - [Ret a d]: it returned [true] with result [a] (its out-parameter),
    - [Fail msg d]: it returned [false]; [msg] is the first diagnostic sent
      to [stderr] and [d] the data at that point,
    - [Undef]: it wrote outside a local array,
    - [OutOfFuel]: the model's iteration bound for a loop was too small. *)
Inductive outcome (A : Type) : Type :=
| Ret (a : A) (d : decompression_data)
| Fail (msg : string) (d : decompression_data)
| Undef
| OutOfFuel.
Arguments Ret {A} a d.
Arguments Fail {A} msg d.
Arguments Undef {A}.
Arguments OutOfFuel {A}.

Definition M (A : Type) : Type := decompression_data -> outcome A.

Definition ret {A} (a : A) : M A := fun d => Ret a d.
Definition fail {A} (msg : string) : M A := fun d => Fail msg d.

Definition bind {A B} (m : M A) (k : A -> M B) : M B := fun d =>
  match m d with
  | Ret a d' => k a d'
  | Fail msg d' => Fail msg d'
  | Undef => Undef
  | OutOfFuel => OutOfFuel
  end.

Notation "'do' x <- m ; k" := (bind m (fun x => k))
  (at level 10, x name, m at level 100, k at level 200,
   format "'[v' 'do'  x  <-  m ; '/' k ']'").

(** {value, extra_bits} for length codes 257 to 285. *)
Definition length_data : list (Z * Z) :=
  [(3, 0); (4, 0); (5, 0); (6, 0); (7, 0); (8, 0); (9, 0); (10, 0);
   (11, 1); (13, 1); (15, 1); (17, 1); (19, 2); (23, 2); (27, 2); (31, 2);
   (35, 3); (43, 3); (51, 3); (59, 3); (67, 4); (83, 4); (99, 4); (115, 4);
   (131, 5); (163, 5); (195, 5); (227, 5); (258, 0)].

(** {value, extra_bits} for distance codes 0 to 29. *)
Definition dist_data : list (Z * Z) :=
  [(1, 0); (2, 0); (3, 0); (4, 0); (5, 1); (7, 1); (9, 2); (13, 2);
   (17, 3); (25, 3); (33, 4); (49, 4); (65, 5); (97, 5); (129, 6); (193, 6);
   (257, 7); (385, 7); (513, 8); (769, 8); (1025, 9); (1537, 9);
   (2049, 10); (3073, 10); (4097, 11); (6145, 11); (8193, 12); (12289, 12);
   (16385, 13); (24577, 13)].

Definition increment_bit_position (d : decompression_data) : decompression_data :=
  if byte_pos d =? 7 then set_cursor d (buf_pos d + 1) 0
  else set_cursor d (buf_pos d) (byte_pos d + 1).

Definition is_length_code (code : Z) : bool := (257 <=? code) && (code <=? 285).
Definition is_literal_code (code : Z) : bool := (0 <=? code) && (code <=? 255).
Definition is_literal_length_code (code : Z) : bool := (0 <=? code) && (code <=? 285).
Definition is_distance_code (code : Z) : bool := (0 <=? code) && (code <=? 29).
Definition is_code_length_code (code : Z) : bool := (0 <=? code) && (code <=? 18).

(** The bit under the cursor: [(buf[buf_pos] >> byte_pos) & 1]. *)
Definition current_bit (d : decompression_data) : bool :=
  Z.testbit (byte_val (idx (buf d) (buf_pos d))) (byte_pos d).

(** [fwrite(out_buf, 1, out_pos, f) != out_pos] guarded by
    [out_pos == OUT_BUF_SIZE], as it appears twice in
    [handle_literal_codes]. *)
Definition flush_if_full : M unit := fun d =>
  if out_pos d =? OUT_BUF_SIZE then
    let '(k, stream) := fwrite (out_buf d) (out_pos d) (f d) in
    if negb (k =? out_pos d)
    then Fail "Could not write full buffer" (set_output d (out_buf d) (out_pos d) stream)
    else Ret tt (set_output d (out_buf d) 0 stream)
  else Ret tt d.

(** One byte into the output buffer and into the window. *)
Definition put_byte (c : byte) (d : decompression_data) : decompression_data :=
  let d := set_output d (upd (out_buf d) (out_pos d) c) (out_pos d + 1) (f d) in
  let br := upd (back_refs d) (back_refs_pos d) c in
  let pos := u16 ((back_refs_pos d + 1) mod MAX_DISTANCE) in
  let filled :=
    if negb (back_refs_filled d) && (pos =? 0) then true
    else back_refs_filled d in
  set_window d br pos filled.

Fixpoint handle_literal_codes_loop (codes : list byte) : M unit :=
  match codes with
  | [] => ret tt
  | c :: rest =>
      do _ <- flush_if_full;
      fun d => handle_literal_codes_loop rest (put_byte c d)
  end.

(** [handle_literal_codes(data, codes, len)] reads [codes[0 .. len-1]]. *)
Definition handle_literal_codes (codes : list byte) (len : Z) : M unit :=
  do _ <- handle_literal_codes_loop (take (Z.to_nat len) codes);
  flush_if_full.

Definition decompress_block_type_00 : M unit := fun d =>
  let d := if negb (byte_pos d =? 0) then set_cursor d (buf_pos d + 1) 0 else d in
  if (buf_len d <=? buf_pos d) || (buf_len d - buf_pos d <? 4)
  then Fail "Unexpected buffer length" d
  else
    let LEN := u16 (byte_val (idx (buf d) (buf_pos d))
                    + 256 * byte_val (idx (buf d) (buf_pos d + 1))) in
    let NLEN := u16 (byte_val (idx (buf d) (buf_pos d + 2))
                     + 256 * byte_val (idx (buf d) (buf_pos d + 3))) in
    let d := set_cursor d (buf_pos d + 4) (byte_pos d) in
    if negb (LEN =? u16 (Z.lnot NLEN))
    then Fail "LEN doesn't match ~NLEN in block type 00" d
    else if (buf_len d <=? buf_pos d) || (buf_len d - buf_pos d <? LEN)
    then Fail "Unexpected buffer length" d
    else
      (do _ <- handle_literal_codes (drop (Z.to_nat (buf_pos d)) (buf d)) LEN;
       fun d => Ret tt (set_cursor d (buf_pos d + LEN) (byte_pos d))) d.

(** The loop of [read_bits]: bits in order from lsb to msb. *)
Fixpoint read_bits_loop (n : nat) (i tmp : Z) : M Z := fun d =>
  match n with
  | O => Ret tmp d
  | S n' =>
      if buf_len d <=? buf_pos d then Fail "Unexpected buffer length" d
      else
        let bit := current_bit d in
        let d := increment_bit_position d in
        let tmp := if bit then u16 (Z.lor tmp (u16 (Z.shiftl 1 i))) else tmp in
        read_bits_loop n' (i + 1) tmp d
  end.

Definition read_bits (bits : Z) : M Z := read_bits_loop (Z.to_nat bits) 0 0.

(** [find_huffman_code]: the loop [while (cur->code == -1)], by recursion on
    the tree below [cur]; the result is the node reached. *)
Fixpoint find_huffman_code_from (cur : node) : M node := fun d =>
  match cur with
  | NULL => Fail "Unexpected NULL node trying to find huffman code" d
  | Node l r c =>
      if c =? -1 then
        if buf_len d <=? buf_pos d then Fail "Unexpected buffer length" d
        else
          let bit := current_bit d in
          let d := increment_bit_position d in
          let next := if bit then r else l in
          match next with
          | NULL => Fail "Unexpected NULL node trying to find huffman code" d
          | Node _ _ _ => find_huffman_code_from next d
          end
      else Ret cur d
  end.

Definition find_huffman_code (root : node) : M node := fun d =>
  match root with
  | NULL => Fail "Unexpected NULL node given to find huffman code" d
  | _ => find_huffman_code_from root d
  end.

Definition length_from_length_code (code : Z) : M Z :=
  if negb (is_length_code code) then fail "Expecting valid length code"
  else
    let length_start := fst (idx length_data (code - 257)) in
    let extra_bits := snd (idx length_data (code - 257)) in
    do extra_bits_value <- read_bits extra_bits;
    (* for byte 284 extra bits of length 5 don't use the last possible
       value 31 which would make the length 227 + 31 = 258 *)
    if (code =? 284) && (extra_bits_value =? 31)
    then fail "Unexpected length extra value 31 for code 284"
    else
      let len := u16 (length_start + extra_bits_value) in
      if (258 <? len) || (len <? 3)
      then fail "Expecting length to be between 3 and 258"
      else ret len.

Definition distance_from_distance_code (code : Z) : M Z :=
  if negb (is_distance_code code) then fail "Expecting valid distance code"
  else
    let distance_start := fst (idx dist_data code) in
    let extra_bits := snd (idx dist_data code) in
    do extra_bits_value <- read_bits extra_bits;
    let dist := u16 (distance_start + extra_bits_value) in
    if (dist <? 1) || (32768 <? dist)
    then fail "Expecting distance to be between 1 and 32768"
    else ret dist.

(** First loop of [copy_bytes_from_distance]: [bytes_to_copy[i] =
    back_refs[tmp]] for [i < length]. The local array has 258 entries; a
    write at an index beyond it is [None]. *)
Fixpoint gather_bytes (n : nat) (i tmp copy_start_pos : Z)
    (d : decompression_data) (bytes_to_copy : list byte) : option (list byte) :=
  match n with
  | O => Some bytes_to_copy
  | S n' =>
      if 258 <=? i then None
      else
        let bytes_to_copy := upd bytes_to_copy i (idx (back_refs d) tmp) in
        let tmp := u16 ((tmp + 1) mod MAX_DISTANCE) in
        let tmp := if tmp =? back_refs_pos d then copy_start_pos else tmp in
        gather_bytes n' (i + 1) tmp copy_start_pos d bytes_to_copy
  end.

(** [(back_refs_pos - distance + MAX_DISTANCE) % MAX_DISTANCE], computed in
    [int] (C's [%] truncates towards zero) and stored in a [uint16_t]. *)
Definition copy_start (d : decompression_data) (distance : Z) : Z :=
  u16 (Z.rem (back_refs_pos d - distance + MAX_DISTANCE) MAX_DISTANCE).

Definition copy_bytes_from_distance (length distance : Z) : M unit := fun d =>
  let copy_start_pos := copy_start d distance in
  if negb (back_refs_filled d) && (back_refs_pos d <=? copy_start_pos)
  then Fail "Invalid back reference for copying bytes" d
  else
    match gather_bytes (Z.to_nat length) 0 copy_start_pos copy_start_pos d
            (replicate 258 "000"%byte) with
    | None => Undef
    | Some bytes_to_copy =>
        (* now copy them to back_refs and out_buf *)
        handle_literal_codes bytes_to_copy length d
    end.

(** The [while (true)] loop of [decompress_block_type_01]; every iteration
    that does not return consumes at least one input bit, and [fuel] bounds
    the number of iterations. *)
Fixpoint expand_block_type_01 (fuel : nat) (root : node) : M unit :=
  match fuel with
  | O => fun _ => OutOfFuel
  | S fuel' =>
      do edge_node <- find_huffman_code root;
      if negb (is_literal_length_code (node_code edge_node))
      then fail "Invalid literal length code in block type 01"
      else
        let code := u16 (node_code edge_node) in
        if code =? 256 then ret tt (* block end marker *)
        else if is_literal_code code then
          do _ <- handle_literal_codes [byte_of code] 1;
          expand_block_type_01 fuel' root
        else if is_length_code code then
          do length <- length_from_length_code code;
          (* fixed 5 bits for distance codes *)
          do tmp <- read_bits 5;
          let distance_code := u8 tmp in
          do distance <- distance_from_distance_code distance_code;
          do _ <- copy_bytes_from_distance length distance;
          expand_block_type_01 fuel' root
        else expand_block_type_01 fuel' root
  end.

(** Number of input bits from the cursor to the end of the buffer, plus
    one: enough iterations for any loop that consumes a bit per round
    (lemmas [decompress_block_type_01_finishes] and
    [decompress_block_type_10_finishes] below). *)
Definition bits_left (d : decompression_data) : nat :=
  S (Z.to_nat (8 * (buf_len d - buf_pos d))).

Definition decompress_block_type_01 : M unit := fun d =>
  let root := create_huffman_tree fixed_lengths 15 in
  if is_null root
  then Fail "Failed to create huffman tree in block type 01" d
  else expand_block_type_01 (bits_left d) root d.

Definition cl_code_serial : list Z :=
  [16; 17; 18; 0; 8; 7; 9; 6; 10; 5; 11; 4; 12; 3; 13; 2; 14; 1; 15].

(** Reading the code lengths of the code length alphabet, 3 bits each. *)
Fixpoint read_cl_code_lengths (n : nat) (i : Z) (cl_code_lengths : list Z)
    : M (list Z) :=
  match n with
  | O => ret cl_code_lengths
  | S n' =>
      do tmp <- read_bits 3;
      read_cl_code_lengths n' (i + 1)
        (upd cl_code_lengths (idx cl_code_serial i) (u8 tmp))
  end.

(** The locals of [decompress_block_type_10] that the code length loop
    updates. *)
Record cl_state := mk_cl_state {
  ll_code_lengths : list Z;
  d_code_lengths : list Z;
  previous_code_length : Z;
  cnt : Z
}.

(** [ll_code_lengths[cnt] = v] or [d_code_lengths[cnt - ll_code_cnt] = v],
    then [cnt++]. *)
Definition store_code_length (ll_code_cnt v : Z) (st : cl_state) : cl_state :=
  if cnt st <? ll_code_cnt
  then mk_cl_state (upd (ll_code_lengths st) (cnt st) v) (d_code_lengths st)
         (previous_code_length st) (u16 (cnt st + 1))
  else mk_cl_state (ll_code_lengths st)
         (upd (d_code_lengths st) (cnt st - ll_code_cnt) v)
         (previous_code_length st) (u16 (cnt st + 1)).

Definition set_previous (v : Z) (st : cl_state) : cl_state :=
  mk_cl_state (ll_code_lengths st) (d_code_lengths st) v (cnt st).

(** The loops [while (tmp--)] of the repeat codes, storing [v]. *)
Fixpoint repeat_code_length (n : nat) (ll_code_cnt total v : Z)
    (st : cl_state) : M cl_state :=
  match n with
  | O => ret st
  | S n' =>
      if total <=? cnt st
      then fail "Repeat code exceeds HLIT + HDIST + 258 values in block type 10"
      else repeat_code_length n' ll_code_cnt total v
             (store_code_length ll_code_cnt v st)
  end.

(** The body of the code length loop from [uint8_t code = ...] on. *)
Definition code_length_action (ll_code_cnt total code : Z) (st : cl_state)
    : M cl_state :=
  if (code =? 16) && (cnt st =? 0)
  then fail "Repeat code 16 without any previous code length in block type 10"
  else if (0 <=? code) && (code <=? 15) then
    ret (store_code_length ll_code_cnt code (set_previous code st))
  else if code =? 16 then
    (* extra 2 bits for repeat code 16: 0 = 3, ... , 3 = 6 *)
    do tmp <- read_bits 2;
    let tmp := u16 (tmp + 3) in
    repeat_code_length (Z.to_nat tmp) ll_code_cnt total
      (previous_code_length st) st
  else if (code =? 17) || (code =? 18) then
    (* copy zero 3 - 10 times (17), 11 - 138 times (18) *)
    let extra_bits := if code =? 17 then 3 else 7 in
    let plus := if code =? 17 then 3 else 11 in
    do tmp <- read_bits extra_bits;
    let st := set_previous 0 st in
    let tmp := u16 (tmp + plus) in
    repeat_code_length (Z.to_nat tmp) ll_code_cnt total 0 st
  else ret st.

(** One round of [while (cnt < total)]. *)
Definition code_length_step (ll_code_cnt total : Z) (cl_root : node)
    (st : cl_state) : M cl_state :=
  do edge_node <- find_huffman_code cl_root;
  if negb (is_code_length_code (node_code edge_node))
  then fail "Invalid code length code found in block type 10"
  else code_length_action ll_code_cnt total (u8 (node_code edge_node)) st.

Fixpoint read_code_lengths (fuel : nat) (ll_code_cnt total : Z)
    (cl_root : node) (st : cl_state) : M cl_state :=
  if cnt st <? total then
    match fuel with
    | O => fun _ => OutOfFuel
    | S fuel' =>
        do st' <- code_length_step ll_code_cnt total cl_root st;
        read_code_lengths fuel' ll_code_cnt total cl_root st'
    end
  else ret st.

(** The [while (true)] loop of [decompress_block_type_10]. *)
Fixpoint expand_block_type_10 (fuel : nat) (ll_root d_root : node) : M unit :=
  match fuel with
  | O => fun _ => OutOfFuel
  | S fuel' =>
      do edge_node <- find_huffman_code ll_root;
      if negb (is_literal_length_code (node_code edge_node))
      then fail "Expecting valid literal length code in block type 10"
      else
        let code := u16 (node_code edge_node) in
        if code =? 256 then ret tt (* block end marker *)
        else if is_literal_code code then
          do _ <- handle_literal_codes [byte_of code] 1;
          expand_block_type_10 fuel' ll_root d_root
        else if is_length_code code then
          do length <- length_from_length_code code;
          do edge <- find_huffman_code d_root;
          let distance_code := u8 (node_code edge) in
          do distance <- distance_from_distance_code distance_code;
          do _ <- copy_bytes_from_distance length distance;
          expand_block_type_10 fuel' ll_root d_root
        else expand_block_type_10 fuel' ll_root d_root
  end.

Definition decompress_block_type_10 : M unit :=
  (* HLIT 5 bits, HDIST 5 bits, HCLEN 4 bits *)
  do tmp <- read_bits 5;
  let HLIT := u8 tmp in
  let ll_code_cnt := u16 (HLIT + 257) in
  if (ll_code_cnt <? 257) || (286 <? ll_code_cnt)
  then fail "Expecting ll code count to be between 257 to 285  in block type 10"
  else
  do tmp <- read_bits 5;
  let HDIST := u8 tmp in
  let d_code_cnt := u8 (HDIST + 1) in
  if (d_code_cnt <? 1) || (32 <? d_code_cnt)
  then fail "Expecting distance code count to be between 1 to 31 in block type 10"
  else
  do tmp <- read_bits 4;
  let HCLEN := u8 tmp in
  let cl_code_cnt := u8 (HCLEN + 4) in
  if (cl_code_cnt <? 4) || (19 <? cl_code_cnt)
  then fail "Expecting cl code count to be between 4 and 18 in block type 10"
  else
  do cl_code_lengths <-
    read_cl_code_lengths (Z.to_nat cl_code_cnt) 0 (replicate 19 0);
  let cl_root := create_huffman_tree cl_code_lengths 7 in
  if is_null cl_root
  then fail "Failed to generate binary tree for block type 10"
  else
  let total := u16 (ll_code_cnt + d_code_cnt) in
  do st <- read_code_lengths (Z.to_nat total) ll_code_cnt total cl_root
             (mk_cl_state (replicate 286 0) (replicate 32 0) 0 0);
  let ll_root :=
    create_huffman_tree (take (Z.to_nat ll_code_cnt) (ll_code_lengths st)) 15 in
  if is_null ll_root
  then fail "Failed to create binary tree ll codes in block type 10"
  else
  let d_root :=
    create_huffman_tree (take (Z.to_nat d_code_cnt) (d_code_lengths st)) 15 in
  if is_null d_root
  then fail "Failed to generate binary tree distance codes in block type 10"
  else fun d => expand_block_type_10 (bits_left d) ll_root d_root d.

(** *** The gzip member framing *)

(** What [check_member_header] and [check_member_trailer] leave behind.
    Both return [bool] and update [*buf_pos]:
    - [Accepted pos]: [true], with the new value of [*buf_pos],
    - [Rejected msg]: [false], after the diagnostic [msg],
    - [OutOfBounds]: [buf] was read at or beyond [buf_len]. *)
Inductive checked : Type :=
| Accepted (pos : Z)
| Rejected (msg : string)
| OutOfBounds.

(** [buf[pos]] as a number, handed to [k]. *)
Definition read_at (buf : list byte) (pos : Z) (k : Z -> checked) : checked :=
  if pos <? 0 then OutOfBounds
  else
    match buf !! Z.to_nat pos with
    | Some b => k (byte_val b)
    | None => OutOfBounds
    end.

Definition and_then (c : checked) (k : Z -> checked) : checked :=
  match c with
  | Accepted pos => k pos
  | Rejected msg => Rejected msg
  | OutOfBounds => OutOfBounds
  end.

(** [FLG & mask] as a [bool]. *)
Definition flag (FLG mask : Z) : bool := negb (Z.land FLG mask =? 0).

(** The part [if (FEXTRA) { ... }] of [check_member_header]. *)
Definition skip_extra_field (buf : list byte) (pos : Z) : checked :=
  let buf_len := Z.of_nat (length buf) in
  if (buf_len <=? pos) || (buf_len - pos <? 2)
  then Rejected "Unexpected buffer length"
  else
    read_at buf pos (fun x0 =>
    read_at buf (pos + 1) (fun x1 =>
    let XLEN := u16 (x0 + 256 * x1) in
    let pos := pos + 2 in
    if (buf_len <=? pos) || (buf_len - pos <? XLEN)
    then Rejected "Unexpected buffer length"
    else Accepted (pos + XLEN))).

(** The loop [while (buf[pos++])] over a zero-terminated field; [rest] holds
    the bytes of [buf] from [pos] on. *)
Fixpoint skip_to_zero (rest : list byte) (pos buf_len : Z) : checked :=
  match rest with
  | [] => OutOfBounds
  | c :: rest' =>
      let pos := pos + 1 in
      if byte_val c =? 0 then Accepted pos
      else if buf_len <=? pos then Rejected "Unexpected buffer length"
      else skip_to_zero rest' pos buf_len
  end.

(** The parts [if (FNAME) { ... }] and [if (FCOMMENT) { ... }]. *)
Definition skip_zero_terminated (buf : list byte) (pos : Z) : checked :=
  let buf_len := Z.of_nat (length buf) in
  if buf_len <=? pos then Rejected "Unexpected buffer length"
  else if pos <? 0 then OutOfBounds
  else skip_to_zero (drop (Z.to_nat pos) buf) pos buf_len.

(** The part [if (FHCRC) { ... }]. *)
Definition skip_header_crc (buf : list byte) (pos : Z) : checked :=
  let buf_len := Z.of_nat (length buf) in
  if (buf_len <=? pos) || (buf_len - pos <? 2)
  then Rejected "Unexpected buffer length"
  else
    read_at buf pos (fun c0 =>
    read_at buf (pos + 1) (fun c1 =>
    Accepted (pos + 2))).

(** [check_member_header(buf, buf_len, &buf_pos)]. The values of [MTIME],
    [XFL], [OS], [XLEN]'s field and [CRC16] are read and not used. *)
Definition check_member_header (buf : list byte) (buf_pos : Z) : checked :=
  let buf_len := Z.of_nat (length buf) in
  let pos := buf_pos in
  if (buf_len <=? pos) || (buf_len - pos <? 10)
  then Rejected
         "Unexpected buffer length. Expecting at least 10 bytes for member header"
  else
    read_at buf pos (fun ID1 =>
    if negb (ID1 =? 31) then Rejected "Invalid ID1 byte"
    else
    read_at buf (pos + 1) (fun ID2 =>
    if negb (ID2 =? 139) then Rejected "Invalid ID2 byte"
    else
    read_at buf (pos + 2) (fun CM =>
    if negb (CM =? 8) then Rejected "Unknown compression method"
    else
    read_at buf (pos + 3) (fun FLG =>
    let pos := pos + 4 in
    let FHCRC := flag FLG 2 in
    let FEXTRA := flag FLG 4 in
    let FNAME := flag FLG 8 in
    let FCOMMENT := flag FLG 16 in
    let RESERVED_BIT_5 := flag FLG 32 in
    let RESERVED_BIT_6 := flag FLG 64 in
    let RESERVED_BIT_7 := flag FLG 128 in
    (* to be compliant we need to return error if reserved bits are set *)
    if RESERVED_BIT_5 || RESERVED_BIT_6 || RESERVED_BIT_7
    then Rejected "Reserved bits should be set to zero"
    else
    (* MTIME, least significant byte first *)
    read_at buf pos (fun m0 =>
    read_at buf (pos + 1) (fun m1 =>
    read_at buf (pos + 2) (fun m2 =>
    read_at buf (pos + 3) (fun m3 =>
    let pos := pos + 4 in
    read_at buf pos (fun XFL =>
    read_at buf (pos + 1) (fun OS =>
    let pos := pos + 2 in
    and_then (if FEXTRA then skip_extra_field buf pos else Accepted pos) (fun pos =>
    (* original file name, zero-terminated *)
    and_then (if FNAME then skip_zero_terminated buf pos else Accepted pos) (fun pos =>
    (* file comment, zero-terminated *)
    and_then (if FCOMMENT then skip_zero_terminated buf pos else Accepted pos) (fun pos =>
    and_then (if FHCRC then skip_header_crc buf pos else Accepted pos) (fun pos =>
    Accepted pos)))))))))))))).

(** [check_member_trailer(buf, buf_len, &buf_pos)]: [CRC_32] and [ISIZE] are
    read and not compared with anything. *)
Definition check_member_trailer (buf : list byte) (buf_pos : Z) : checked :=
  let buf_len := Z.of_nat (length buf) in
  let pos := buf_pos in
  if (buf_len <=? pos) || (buf_len - pos <? 8)
  then Rejected
         "Unexpected buffer length. Expecting 8 bytes after compressed blocks for CRC32 and ISIZE"
  else
    read_at buf pos (fun c0 =>
    read_at buf (pos + 1) (fun c1 =>
    read_at buf (pos + 2) (fun c2 =>
    read_at buf (pos + 3) (fun c3 =>
    let pos := pos + 4 in
    read_at buf pos (fun i0 =>
    read_at buf (pos + 1) (fun i1 =>
    read_at buf (pos + 2) (fun i2 =>
    read_at buf (pos + 3) (fun i3 =>
    let pos := pos + 4 in
    Accepted pos)))))))).

(** *** The blocks of a member *)

(** One of the three header bits of a block: the bit under the cursor, the
    step to the next bit, and the check that follows it. *)
Definition read_header_bit : M bool := fun d =>
  let bit := current_bit d in
  let d := increment_bit_position d in
  if buf_len d <=? buf_pos d then Fail "Unexpected buffer length" d
  else Ret bit d.

(** The loop [while (true)] of [decompress_blocks], one block per round. *)
Fixpoint decompress_blocks_loop (fuel : nat) : M unit :=
  match fuel with
  | O => fun _ => OutOfFuel
  | S fuel' => fun d =>
      if buf_len d <=? buf_pos d then Fail "Unexpected buffer length" d
      else
        (* 3 header bits: BFINAL (1 bit), BTYPE (2 bits) *)
        (do BFINAL <- read_header_bit;
         do BTYPE_LSB <- read_header_bit;
         do BTYPE_MSB <- read_header_bit;
         if BTYPE_MSB && BTYPE_LSB then fail "Error BTYPE"
         else
           do _ <- (if negb BTYPE_MSB && negb BTYPE_LSB then decompress_block_type_00
                    else if negb BTYPE_MSB && BTYPE_LSB then decompress_block_type_01
                    else if BTYPE_MSB && negb BTYPE_LSB then decompress_block_type_10
                    else ret tt);
           if BFINAL then ret tt else decompress_blocks_loop fuel') d
  end.

(** [if (data.out_pos) { fwrite ... }] after the last block. *)
Definition flush_rest : M unit := fun d =>
  if negb (out_pos d =? 0) then
    let '(k, stream) := fwrite (out_buf d) (out_pos d) (f d) in
    if negb (k =? out_pos d)
    then Fail "Could not write full buffer" (set_output d (out_buf d) (out_pos d) stream)
    else Ret tt (set_output d (out_buf d) 0 stream)
  else Ret tt d.

(** The data [decompress_blocks] starts from. The two arrays are local and
    not initialised in C; they are taken as zero here. *)
Definition blocks_data (input : list byte) (pos : Z) (stream : FILE)
    : decompression_data :=
  mk_data input pos 0
    (replicate (Z.to_nat MAX_DISTANCE) "000"%byte) 0 false
    (replicate (Z.to_nat OUT_BUF_SIZE) "000"%byte) 0 stream.

(** [decompress_blocks(buf, buf_len, &buf_pos, f)]: the value returned is
    the new [*buf_pos], and the stream is the one of the data left. *)
Definition decompress_blocks (input : list byte) (pos : Z) (stream : FILE)
    : outcome Z :=
  let data := blocks_data input pos stream in
  (do _ <- decompress_blocks_loop (bits_left data);
   do _ <- flush_rest;
   fun d =>
     (* CRC32 starts at (next) byte boundary *)
     let d := if negb (byte_pos d =? 0)
              then set_cursor d (buf_pos d + 1) (byte_pos d) else d in
     Ret (buf_pos d) d) data.

(** What [decompress_members] leaves behind: [true] or [false] with the
    first diagnostic, and the stream as it is then. *)
Inductive verdict : Type :=
| Done (stream : FILE)
| Failed (msg : string) (stream : FILE)
| Crashed
| NoFuel.

(** The loop [while (true)] of [decompress_members], one member per
    round. *)
Fixpoint decompress_members_loop (fuel : nat) (input : list byte) (pos : Z)
    (stream : FILE) : verdict :=
  match fuel with
  | O => NoFuel
  | S fuel' =>
      match check_member_header input pos with
      | Rejected msg => Failed msg stream
      | OutOfBounds => Crashed
      | Accepted pos =>
          match decompress_blocks input pos stream with
          | Fail msg d => Failed msg (f d)
          | Undef => Crashed
          | OutOfFuel => NoFuel
          | Ret pos d =>
              match check_member_trailer input pos with
              | Rejected msg => Failed msg (f d)
              | OutOfBounds => Crashed
              | Accepted pos =>
                  if pos =? Z.of_nat (length input) then Done (f d)
                  else decompress_members_loop fuel' input pos (f d)
              end
          end
      end
  end.

(** [decompress_members(buf, buf_len, f)]; a member takes at least 18
    bytes, so one round per byte of input is enough. *)
Definition decompress_members (input : list byte) (stream : FILE) : verdict :=
  decompress_members_loop (S (length input)) input 0 stream.

(** ** ungzip.c *)

(** [gzip_filename(cmd_arg)]: the argument itself, or [None] for [NULL]. *)
Definition gzip_filename (cmd_arg : string) : option string :=
  let len := Z.of_nat (String.length cmd_arg) in
  if (len <? 4)
     || negb (bool_decide (String.get (Z.to_nat (len - 3)) cmd_arg = Some "."%char))
     || negb (bool_decide (String.get (Z.to_nat (len - 2)) cmd_arg = Some "g"%char))
     || negb (bool_decide (String.get (Z.to_nat (len - 1)) cmd_arg = Some "z"%char))
  then None
  else Some cmd_arg.

(** [filename[len - 3] = '\0'] in [main]: the name of the file written. *)
Definition output_filename (filename : string) : string :=
  String.substring 0 (String.length filename - 3) filename.

(** ** Vocabulary of the properties *)

(** Everything the decoder has emitted: what reached the stream, then the
    bytes still waiting in the output buffer. *)
Definition output (d : decompression_data) : list byte :=
  f_written (f d) ++ take (Z.to_nat (out_pos d)) (out_buf d).

(** The shape [decompress_blocks] gives the data and every call keeps: the
    two arrays have their declared sizes and the indices are inside them. *)
Definition wf_data (d : decompression_data) : Prop :=
  length (back_refs d) = Z.to_nat MAX_DISTANCE /\
  length (out_buf d) = Z.to_nat OUT_BUF_SIZE /\
  0 <= out_pos d < OUT_BUF_SIZE /\
  0 <= back_refs_pos d < MAX_DISTANCE /\
  0 <= byte_pos d < 8 /\
  0 <= buf_pos d.

(** The stream has room for [n] more emitted bytes, so no flush fails. *)
Definition sink_accepts (n : Z) (d : decompression_data) : Prop :=
  out_pos d + n <= f_room (f d).

(** The data as [decompress_blocks] sets it up, over the input bytes
    [input] with the cursor at byte [pos], bit [bit]. *)
Definition start_data (input : list Z) (pos bit : Z) : decompression_data :=
  mk_data (map byte_of input) pos bit
    (replicate (Z.to_nat MAX_DISTANCE) "000"%byte) 0 false
    (replicate (Z.to_nat OUT_BUF_SIZE) "000"%byte) 0 (mk_FILE [] 1000000).

(** Reading an outcome: the value returned, the diagnostic of a failure,
    and the bytes emitted up to the return. *)
Definition returned {A} (o : outcome A) : option A :=
  match o with Ret a _ => Some a | _ => None end.

Definition failure {A} (o : outcome A) : option string :=
  match o with Fail msg _ => Some msg | _ => None end.

Definition emitted {A} (o : outcome A) : list Z :=
  match o with
  | Ret _ d | Fail _ d => map byte_val (output d)
  | _ => []
  end.

(** The code lengths of the fixed distance alphabet of RFC 1951, section
    3.2.6: 30 symbols of 5 bits. *)
Definition fixed_distance_lengths : list Z := replicate 30 5.

(** [m] never writes outside a local array. *)
Definition safe {A} (m : M A) : Prop := forall d, m d <> Undef.

(** Every value [m] returns satisfies [Q]. *)
Definition returns {A} (m : M A) (Q : A -> Prop) : Prop :=
  forall d a d', m d = Ret a d' -> Q a.

(** The window after the bytes [codes] went in at [pos], [pos + 1], ...,
    cyclically. *)
Fixpoint window_put (codes : list byte) (br : list byte) (pos : Z) : list byte :=
  match codes with
  | [] => br
  | c :: rest => window_put rest (upd br pos c) ((pos + 1) mod MAX_DISTANCE)
  end.

(** [d'] is [d] after the bytes [codes] were emitted: they are appended to
    the output and stored in the window, the input side is untouched, and
    the room of the stream shrinks accordingly. *)
Definition emits (codes : list byte) (d d' : decompression_data) : Prop :=
  output d' = output d ++ codes /\
  buf d' = buf d /\ buf_pos d' = buf_pos d /\ byte_pos d' = byte_pos d /\
  back_refs d' = window_put codes (back_refs d) (back_refs_pos d) /\
  back_refs_pos d' = (back_refs_pos d + Z.of_nat (length codes)) mod MAX_DISTANCE /\
  back_refs_filled d'
  = back_refs_filled d || (MAX_DISTANCE <=? back_refs_pos d + Z.of_nat (length codes)) /\
  f_room (f d') - out_pos d' = f_room (f d) - out_pos d - Z.of_nat (length codes).

(** A stored block seen from the data at the entry of
    [decompress_block_type_00]: where its header starts once the cursor is
    aligned, its two 16-bit fields, and its payload. *)
Definition stored_header (d : decompression_data) : Z :=
  if byte_pos d =? 0 then buf_pos d else buf_pos d + 1.
Definition stored_LEN (d : decompression_data) : Z :=
  byte_val (idx (buf d) (stored_header d))
  + 256 * byte_val (idx (buf d) (stored_header d + 1)).
Definition stored_NLEN (d : decompression_data) : Z :=
  byte_val (idx (buf d) (stored_header d + 2))
  + 256 * byte_val (idx (buf d) (stored_header d + 3)).
Definition stored_payload (d : decompression_data) : list byte :=
  take (Z.to_nat (stored_LEN d)) (drop (Z.to_nat (stored_header d + 4)) (buf d)).

Definition stored_example : decompression_data :=
  start_data [3; 0; 252; 255; 97; 98; 99; 0] 0 0.

(** Modelled on the spec's words (section 4.8, "the copy is semantically
    byte-by-byte"): [n] times, take the byte [distance] places behind the
    write position of the window and emit it, so that a byte emitted earlier
    in the copy can be the source of a later one. *)
Fixpoint bytewise_copy (n : nat) (distance : Z) : M unit :=
  match n with
  | O => ret tt
  | S n' => fun d =>
      let c := idx (back_refs d) ((back_refs_pos d - distance) mod MAX_DISTANCE) in
      (do _ <- handle_literal_codes [c] 1; bytewise_copy n' distance) d
  end.

(** The bytes such a copy reads, as a function of the window alone. *)
Fixpoint lz_bytes (n : nat) (distance : Z) (br : list byte) (pos : Z) : list byte :=
  match n with
  | O => []
  | S n' =>
      let c := idx br ((pos - distance) mod MAX_DISTANCE) in
      c :: lz_bytes n' distance (upd br pos c) ((pos + 1) mod MAX_DISTANCE)
  end.

(** The bytes of the window from [start] on, repeated with period [dist]:
    what the gathering loop of [copy_bytes_from_distance] collects. *)
Fixpoint cyc_bytes (br : list byte) (start dist : Z) (n : nat) (i : Z) : list byte :=
  match n with
  | O => []
  | S n' => idx br ((start + i mod dist) mod MAX_DISTANCE)
            :: cyc_bytes br start dist n' (i + 1)
  end.

(** [br_i] is the window [br] after the first [i] bytes of a copy at
    distance [dist] went in at [pos]. *)
Definition copied_up_to (br : list byte) (pos dist i : Z) (br_i : list byte)
    : Prop :=
  length br_i = Z.to_nat MAX_DISTANCE /\
  (forall j, 0 <= j < i ->
     idx br_i ((pos + j) mod MAX_DISTANCE)
     = idx br (((pos - dist) mod MAX_DISTANCE + j mod dist) mod MAX_DISTANCE)) /\
  (forall q, 0 <= q < MAX_DISTANCE ->
     (forall j, 0 <= j < i -> q <> (pos + j) mod MAX_DISTANCE) ->
     idx br_i q = idx br q).

(** The byte emitted last, as the window holds it. *)
Definition last_emitted (d : decompression_data) : byte :=
  idx (back_refs d) ((back_refs_pos d - 1) mod MAX_DISTANCE).

(** [n] bytes have been emitted since [decompress_blocks] set up the
    window: before the first wrap the write position counts them. *)
Definition emitted_so_far (n : Z) (d : decompression_data) : Prop :=
  if back_refs_filled d then MAX_DISTANCE <= n else n = back_refs_pos d.

(** The data after the single byte [a] was emitted. *)
Definition one_byte_emitted : decompression_data :=
  put_byte (byte_of 97) (start_data [] 0 0).

(** The data of [decompress_blocks] after [i] bytes [a] were emitted, for
    [i] below the size of the output buffer: they are in the window and
    wait in the output buffer, and nothing has been flushed yet. *)
Definition run_of_a (i : Z) (stream : FILE) : decompression_data :=
  mk_data [] 0 0
    (replicate (Z.to_nat i) (byte_of 97)
     ++ replicate (Z.to_nat (MAX_DISTANCE - i)) "000"%byte) i false
    (replicate (Z.to_nat i) (byte_of 97)
     ++ replicate (Z.to_nat (OUT_BUF_SIZE - i)) "000"%byte) i stream.

(** After 8191 bytes, on a stream that takes no further byte: the output
    buffer lacks one byte to be full. *)
Definition stream_full_example : decompression_data :=
  run_of_a 8191 (mk_FILE [] 0).

(** [d'] differs from [d] in the cursor only. *)
Definition cursor_only (d d' : decompression_data) : Prop :=
  d' = set_cursor d (buf_pos d') (byte_pos d').

(** The code length stored for position [k] of the single sequence of
    literal/length and distance code lengths. *)
Definition code_length_at (ll_code_cnt : Z) (st : cl_state) (k : Z) : Z :=
  if k <? ll_code_cnt then idx (ll_code_lengths st) k
  else idx (d_code_lengths st) (k - ll_code_cnt).

(** The code lengths produced so far, in sequence order. *)
Definition lengths_so_far (ll_code_cnt : Z) (st : cl_state) : list Z :=
  map (code_length_at ll_code_cnt st) (seqZ 0 (cnt st)).

(** What the code length loop keeps: the two arrays have their declared
    sizes, the count stays within the total, and [previous_code_length] is
    the length produced last. *)
Definition cl_wf (ll_code_cnt d_code_cnt : Z) (st : cl_state) : Prop :=
  length (ll_code_lengths st) = 286%nat /\
  length (d_code_lengths st) = 32%nat /\
  0 <= cnt st <= ll_code_cnt + d_code_cnt /\
  (0 < cnt st ->
   last (lengths_so_far ll_code_cnt st) = Some (previous_code_length st)).

(** The repeat codes 16, 17 and 18: extra bits, smallest repeat count and
    the value repeated. *)
Definition repeat_extra_bits (code : Z) : Z :=
  if code =? 16 then 2 else if code =? 17 then 3 else 7.
Definition repeat_base (code : Z) : Z :=
  if code =? 18 then 11 else 3.
Definition repeat_value (code : Z) (st : cl_state) : Z :=
  if code =? 16 then previous_code_length st else 0.

(** The locals at the entry of the code length loop. *)
Definition cl_initial : cl_state := mk_cl_state (replicate 286 0) (replicate 32 0) 0 0.

(** The locals as the loop [while (cnt < total)] can find them at the start
    of a round: as they are at the entry, or as a round that was entered
    with [cnt < total] and did not return [false] left them. *)
Inductive cl_reached (ll_code_cnt total : Z) (cl_root : node) : cl_state -> Prop :=
| cl_reached_entry : cl_reached ll_code_cnt total cl_root cl_initial
| cl_reached_round st d st' d' :
    cl_reached ll_code_cnt total cl_root st ->
    cnt st < total ->
    code_length_step ll_code_cnt total cl_root st d = Ret st' d' ->
    cl_reached ll_code_cnt total cl_root st'.

(** A run of the loop for [HLIT = 0] and [HDIST = 0], 258 code lengths in
    all. The code length alphabet gives symbol 18 the code [0], symbol 5
    the code [10] and symbol 16 the code [11]. The input holds, in stream
    order: symbol 18 with extra bits 127 (138 zeros), symbol 18 with extra
    bits 104 (115 zeros), symbol 5, symbol 16 with extra bits 1 (4 times
    the length 5), and then the bit 1 and zeros. *)
Definition cl_example_root : node :=
  create_huffman_tree (upd (upd (upd (replicate 19 0) 5 2) 16 2) 18 1) 7.

Definition cl_example_data (pos bit : Z) : decompression_data :=
  mk_data (map byte_of [254; 208; 93; 0]) pos bit [] 0 false [] 0 (mk_FILE [] 0).

(** The locals of that run after its third round: 253 zeros and the
    length 5 are stored. *)
Definition cl_example : cl_state :=
  mk_cl_state (upd (replicate 286 0) 253 5) (replicate 32 0) 5 254.

(** [m] never runs out of fuel. *)
Definition finishes {A} (m : M A) : Prop := forall d, m d <> OutOfFuel.

(** *** The cursor *)

(** Input bits from the cursor to the end of the buffer. *)
Definition bits_remaining (d : decompression_data) : Z :=
  8 * (buf_len d - buf_pos d) - byte_pos d.

(** The bit position stays inside a byte. *)
Definition cursor_ok (d : decompression_data) : Prop := 0 <= byte_pos d < 8.

(** [m] moves the cursor forward only, by at least [k] bits. *)
Definition consumes {A} (k : Z) (m : M A) : Prop :=
  forall d a d', cursor_ok d -> m d = Ret a d' ->
    cursor_ok d' /\ buf_len d' = buf_len d /\
    bits_remaining d' + k <= bits_remaining d.

(** [m] never runs out of fuel when started with a cursor inside a byte. *)
Definition finishes_from {A} (m : M A) : Prop :=
  forall d, cursor_ok d -> m d <> OutOfFuel.

(** *** Reading the tree *)

(** The node reached from [t] along the path [p], [false] for the left
    child and [true] for the right one; [NULL] when the path leaves the
    tree. *)
Fixpoint subtree (t : node) (p : list bool) {struct p} : node :=
  match p with
  | [] => t
  | b :: p' =>
      match t with
      | NULL => NULL
      | Node l r _ => subtree (if b then r else l) p'
      end
  end.

(** A symbol sits at the end of [p]; some node does. *)
Definition leaf_at (t : node) (p : list bool) : Prop := node_code (subtree t p) <> -1.
Definition exists_at (t : node) (p : list bool) : Prop := subtree t p <> NULL.

(** The insertion loop of [create_huffman_tree] over the path of a code
    instead of its characters; [insert_code_path] shows that this is what
    [insert_code] computes. *)
Fixpoint insert_path (p : list bool) (i : Z) (cur : node) {struct p} : option node :=
  match p with
  | [] => Some cur
  | b :: p' =>
      match cur with
      | NULL => None
      | Node l r sym =>
          let tmp := if b then r else l in
          let last := match p' with [] => true | _ => false end in
          if (last && negb (is_null tmp))
             || (negb last && negb (is_null tmp) && negb (node_code tmp =? -1))
          then None
          else
            let tmp := if is_null tmp then Node NULL NULL (-1) else tmp in
            let tmp := if last then set_node_code tmp i else tmp in
            match insert_path p' i tmp with
            | None => None
            | Some tmp' => Some (if b then Node l tmp' sym else Node tmp' r sym)
            end
      end
  end.

Definition child (b : bool) (t : node) : node :=
  match t with NULL => NULL | Node l r _ => if b then r else l end.

Definition with_child (b : bool) (t c : node) : node :=
  match t with
  | NULL => NULL
  | Node l r s => if b then Node l c s else Node c r s
  end.

(** One path is a prefix of the other. *)
Definition comparable (p q : list bool) : Prop := p `prefix_of` q \/ q `prefix_of` p.

(** [t] holds exactly the paths [used]: its leaves are these paths and its
    nodes are their prefixes. *)
Definition trie_of (t : node) (used : list (list bool)) : Prop :=
  t <> NULL /\ ([] ∉ used) /\
  (forall q, leaf_at t q <-> q ∈ used) /\
  (forall q, q <> [] -> (exists_at t q <-> exists s, s ∈ used /\ q `prefix_of` s)).

Fixpoint insert_paths (ps : list (list bool)) (i : Z) (root : node) : node :=
  match ps with
  | [] => root
  | p :: rest =>
      match insert_path p i root with
      | None => NULL
      | Some root' => insert_paths rest (i + 1) root'
      end
  end.

(** Some path of [ps] is comparable with a path of [used] or with a later
    path of [ps]; empty paths, of symbols without a code, do not count. *)
Definition clash (used ps : list (list bool)) : Prop :=
  (exists j p s, ps !! j = Some p /\ p <> [] /\ s ∈ used /\ comparable s p) \/
  (exists j k p q, (j < k)%nat /\ ps !! j = Some p /\ ps !! k = Some q /\
                   p <> [] /\ q <> [] /\ comparable p q).

(** The path of a code: a bit per character, ['1'] to the right. *)
Fixpoint bits_of (s : string) : list bool :=
  match s with
  | EmptyString => []
  | String c s' => Ascii.eqb c "1" :: bits_of s'
  end.

Definition code_path (c : huffman) : list bool := bits_of (huffman_code c).

Fixpoint all_bits (s : string) : Prop :=
  match s with
  | EmptyString => True
  | String c s' => (c = "0"%char \/ c = "1"%char) /\ all_bits s'
  end.

Definition wf_code (c : huffman) : Prop :=
  0 <= len c /\
  String.length (huffman_code c) = Z.to_nat (len c) /\
  all_bits (huffman_code c).

(** A code length the generator rejects. *)
Definition bad_length (limit l : Z) : Prop := limit < l \/ 15 < l.

(** Two different symbols with a code each, the first code being a prefix
    of the second; equal codes are the special case of a duplicate. *)
Definition conflicting (codes : list huffman) : Prop :=
  exists i j c1 c2,
    i <> j /\ codes !! i = Some c1 /\ codes !! j = Some c2 /\
    0 < len c1 /\ 0 < len c2 /\
    String.prefix (huffman_code c1) (huffman_code c2) = true.

(** *** Canonical codes *)

(** The number of symbols of length [l]. *)
Fixpoint count_of (l : Z) (L : list Z) : Z :=
  match L with
  | [] => 0
  | x :: rest => (if x =? l then 1 else 0) + count_of l rest
  end.

(** The Kraft sum of the lengths below [b], scaled by [2^15]: the sum of
    [2^(15 - x)] over the lengths [x] of [L] with [0 < x < b]. *)
Fixpoint kraft_below (b : Z) (L : list Z) : Z :=
  match L with
  | [] => 0
  | x :: rest => (if (0 <? x) && (x <? b) then 2 ^ (15 - x) else 0) + kraft_below b rest
  end.

(** [sum 2^(-L[i]) <= 1] over the positive lengths reads
    [kraft_sum L <= 2^15]. *)
Definition kraft_sum (L : list Z) : Z := kraft_below 16 L.

(** The first code of the length [n], as the second loop of
    [generate_huffman_codes] computes it when nothing is truncated. *)
Fixpoint first_code (n : nat) (L : list Z) : Z :=
  match n with
  | O => 0
  | S n' => 2 * (first_code n' L + (if (n' =? 0)%nat then 0 else count_of (Z.of_nat n') L))
  end.


(** A length the generator accepts. *)
Definition length_ok (limit l : Z) : Prop := 0 <= l <= 15 /\ l <= limit.

(** The two orders of the claim: codes by (length, bit string), symbols by
    (length, index). *)
Definition code_compare (c1 c2 : huffman) : comparison :=
  match len c1 ?= len c2 with
  | Eq => String.compare (huffman_code c1) (huffman_code c2)
  | r => r
  end.

Definition symbol_compare (l1 : Z) (i1 : nat) (l2 : Z) (i2 : nat) : comparison :=
  match l1 ?= l2 with
  | Eq => Nat.compare i1 i2
  | r => r
  end.

(** The code value of symbol [i], of length [l], in the canonical
    numbering. *)
Definition canonical_value (L : list Z) (i : nat) (l : Z) : Z :=
  first_code (Z.to_nat l) L + count_of l (take i L).

(** *** The input as a stream of bits *)

(** The position of the cursor, counted in bits from the start of [buf]. *)
Definition bit_index (d : decompression_data) : Z := 8 * buf_pos d + byte_pos d.

(** Bit [k] of the input: bit [k mod 8] of byte [k / 8], the least
    significant bit of a byte first. *)
Definition input_bit (input : list byte) (k : Z) : bool :=
  Z.testbit (byte_val (idx input (k / 8))) (k mod 8).

(** The [n] bits of the input from bit [k] on, and those under and after
    the cursor. *)
Fixpoint input_bits (input : list byte) (k : Z) (n : nat) : list bool :=
  match n with
  | O => []
  | S n' => input_bit input k :: input_bits input (k + 1) n'
  end.

Definition bits_from (d : decompression_data) (n : nat) : list bool :=
  input_bits (buf d) (bit_index d) n.

(** The cursor [n] bits further on. *)
Definition advance (d : decompression_data) (n : Z) : decompression_data :=
  set_cursor d ((bit_index d + n) / 8) ((bit_index d + n) mod 8).

(** The number a list of bits stands for, least significant bit first. *)
Fixpoint bits_value (bs : list bool) : Z :=
  match bs with
  | [] => 0
  | b :: rest => Z.b2z b + 2 * bits_value rest
  end.

(** The cursor has not gone past the end of the input. *)
Definition within_input (d : decompression_data) : Prop :=
  bit_index d <= 8 * buf_len d.

(** [d'] is a later state of the same decoding as [d]: the shape of the data
    is kept, the input is the same with the cursor not before where it was,
    and the stream has only been appended to. *)
Definition runs_on (d d' : decompression_data) : Prop :=
  wf_data d' /\ within_input d' /\ buf d' = buf d /\
  bit_index d <= bit_index d' /\
  f_written (f d) `prefix_of` f_written (f d').

(** Whenever [m] returns, it does so in a later state of the decoding. *)
Definition keeps {A} (m : M A) : Prop :=
  forall d a d', wf_data d -> within_input d -> m d = Ret a d' -> runs_on d d'.

(** The outcome [o] is a return or a failure, never a write outside the
    copy buffer nor a loop cut short; a value returned satisfies [Q]. *)
Definition ends_well {A} (Q : A -> decompression_data -> Prop) (o : outcome A)
    : Prop :=
  match o with
  | Ret a d => Q a d
  | Fail _ _ => True
  | Undef | OutOfFuel => False
  end.

(** The verdict [v] is [true] or [false], never a read of a header or a
    trailer beyond the input, a write outside the copy buffer, nor a loop
    cut short; the stream of a [true] satisfies [Q]. *)
Definition settled (Q : FILE -> Prop) (v : verdict) : Prop :=
  match v with
  | Done stream => Q stream
  | Failed _ _ => True
  | Crashed | NoFuel => False
  end.

(** *** The window and the output *)

(** The window holds the last bytes of [out], the list of all the bytes
    decoded since [decompress_blocks] began: the byte [k] places before the
    end of [out] sits [k] places before [back_refs_pos], cyclically. *)
Definition window_holds (d : decompression_data) (out : list byte) : Prop :=
  emitted_so_far (Z.of_nat (length out)) d /\
  back_refs_pos d = Z.of_nat (length out) mod MAX_DISTANCE /\
  forall k, 0 <= k < Z.of_nat (length out) -> k < MAX_DISTANCE ->
    idx (back_refs d) ((back_refs_pos d - 1 - k) mod MAX_DISTANCE)
    = idx out (Z.of_nat (length out) - 1 - k).

(** A match of LZ77 on the list of the bytes decoded so far: [n] times, the
    byte [distance] places before the end is appended. *)
Fixpoint lz77_bytes (n : nat) (distance : Z) (out : list byte) : list byte :=
  match n with
  | O => []
  | S n' =>
      let c := idx out (Z.of_nat (length out) - distance) in
      c :: lz77_bytes n' distance (out ++ [c])
  end.

(** *** The tables of lengths and distances *)

(** The values a code of [table] stands for: the start value of the code
    plus what its extra bits can add. *)
Definition code_covers (table : list (Z * Z)) (code value : Z) : bool :=
  (fst (idx table code) <=? value)
  && (value <? fst (idx table code) + 2 ^ snd (idx table code)).

(** The pairs of a length code and a length that [length_from_length_code]
    lets through: code 284 with all its extra bits set is refused. *)
Definition length_code_accepts (code length : Z) : bool :=
  code_covers length_data (code - 257) length
  && negb ((code =? 284) && (length =? 258)).

(** *** The input inside a longer input *)

(** The data [d] with its input placed between the bytes [pre] and [post]:
    the cursor stands on the same byte of the input. *)
Definition embed (pre post : list byte) (d : decompression_data)
    : decompression_data :=
  mk_data (pre ++ buf d ++ post) (buf_pos d + Z.of_nat (length pre)) (byte_pos d)
    (back_refs d) (back_refs_pos d) (back_refs_filled d)
    (out_buf d) (out_pos d) (f d).

Definition outcome_map {A} (g : decompression_data -> decompression_data)
    (o : outcome A) : outcome A :=
  match o with
  | Ret a d => Ret a (g d)
  | Fail msg d => Fail msg (g d)
  | Undef => Undef
  | OutOfFuel => OutOfFuel
  end.

(** [m] does not look at the input. *)
Definition blind {A} (m : M A) : Prop :=
  forall pre post d, m (embed pre post d) = outcome_map (embed pre post) (m d).

(** What [m] returns on an input, [m'] returns on that input placed inside
    a longer one. *)
Definition carries {A} (m m' : M A) : Prop :=
  forall pre post d a d', wf_data d -> within_input d ->
    m d = Ret a d' -> m' (embed pre post d) = Ret a (embed pre post d').

(** [m'] returns whatever [m] returns. *)
Definition le_ret {A} (m m' : M A) : Prop :=
  forall d a d', m d = Ret a d' -> m' d = Ret a d'.

(** A gzip file of one member: a header without optional parts, one final
    stored block holding the bytes [abc], and a trailer. *)
Definition gzip_example : list byte :=
  map byte_of
    [31; 139; 8; 0; 0; 0; 0; 0; 0; 3;
     1; 3; 0; 252; 255; 97; 98; 99;
     0; 0; 0; 0; 3; 0; 0; 0].

(** * Properties *)

(** ** The fixed literal/length table *)

(** C8: on the fixed literal/length code lengths with limit 15,
    [generate_huffman_codes] succeeds and symbols 0, 143, 144, 255, 256,
    279, 280 and 287 receive exactly the bit strings of RFC 1951
    section 3.2.6, with the stated lengths. *)
Theorem fixed_literal_codes :
  exists codes,
    generate_huffman_codes fixed_lengths 15 = Some codes /\
    length codes = 288%nat /\
    codes !! 0%nat = Some (mk_huffman "00110000" 8) /\
    codes !! 143%nat = Some (mk_huffman "10111111" 8) /\
    codes !! 144%nat = Some (mk_huffman "110010000" 9) /\
    codes !! 255%nat = Some (mk_huffman "111111111" 9) /\
    codes !! 256%nat = Some (mk_huffman "0000000" 7) /\
    codes !! 279%nat = Some (mk_huffman "0010111" 7) /\
    codes !! 280%nat = Some (mk_huffman "11000000" 8) /\
    codes !! 287%nat = Some (mk_huffman "11000111" 8).
Proof.
  eexists. split; [vm_compute; reflexivity|].
  repeat split; vm_compute; reflexivity.
Qed.

(** ** Reading zero bits *)

(** C10: [read_bits] with a bit count of 0 succeeds with value 0 and leaves
    the data, hence the cursor, unchanged wherever the cursor stands; the
    length codes 257..264 and 285 and the distance codes 0..3 have zero
    extra bits, and decoding them goes through this call: it returns the
    base value with the data unchanged. *)
Theorem read_bits_zero :
  (forall d, read_bits 0 d = Ret 0 d) /\
  Forall (fun code => forall d,
            snd (idx length_data (code - 257)) = 0 /\
            length_from_length_code code d
            = Ret (fst (idx length_data (code - 257))) d)
         [257; 258; 259; 260; 261; 262; 263; 264; 285] /\
  Forall (fun code => forall d,
            snd (idx dist_data code) = 0 /\
            distance_from_distance_code code d = Ret (fst (idx dist_data code)) d)
         [0; 1; 2; 3].
Proof.
  split; [reflexivity|].
  split; repeat (constructor; [intros d; split; reflexivity|]); constructor.
Qed.

(** With one bit to read the same cursor position is an error. *)
Lemma read_bits_one_at_end d :
  buf_len d <= buf_pos d -> read_bits 1 d = Fail "Unexpected buffer length" d.
Proof.
  intros H. unfold read_bits. simpl.
  destruct (buf_len d <=? buf_pos d) eqn:E; [reflexivity|].
  apply Z.leb_gt in E. lia.
Qed.

(** ** No call writes outside the copy buffer *)

Lemma safe_ret {A} (a : A) : safe (ret a).
Proof. intros d; discriminate. Qed.

Lemma safe_fail {A} msg : safe (@fail A msg).
Proof. intros d; discriminate. Qed.

Lemma safe_bind {A B} (m : M A) (k : A -> M B) Q :
  safe m -> returns m Q -> (forall a, Q a -> safe (k a)) -> safe (bind m k).
Proof.
  intros Hm HQ Hk d. unfold bind. destruct (m d) eqn:E; try discriminate.
  - apply (Hk a). eapply HQ; eauto.
  - specialize (Hm d). congruence.
Qed.

Lemma returns_True {A} (m : M A) : returns m (fun _ => True).
Proof. intros ? ? ? ?; exact I. Qed.

Lemma safe_read_bits_loop n : forall i tmp, safe (read_bits_loop n i tmp).
Proof.
  induction n; intros i tmp d; simpl; [discriminate|].
  destruct (buf_len d <=? buf_pos d); [discriminate|]. apply IHn.
Qed.

Lemma safe_read_bits n : safe (read_bits n).
Proof. apply safe_read_bits_loop. Qed.

Lemma safe_flush_if_full : safe flush_if_full.
Proof.
  intros d. unfold flush_if_full.
  destruct (out_pos d =? OUT_BUF_SIZE); [|discriminate].
  destruct (fwrite _ _ _) as [k s]. destruct (negb _); discriminate.
Qed.

Lemma safe_handle_literal_codes_loop codes : safe (handle_literal_codes_loop codes).
Proof.
  induction codes; simpl; [apply safe_ret|].
  eapply safe_bind; [apply safe_flush_if_full|apply returns_True|].
  intros _ _ d. apply IHcodes.
Qed.

Lemma safe_handle_literal_codes codes n : safe (handle_literal_codes codes n).
Proof.
  eapply safe_bind; [apply safe_handle_literal_codes_loop|apply returns_True|].
  intros; apply safe_flush_if_full.
Qed.

Lemma safe_find_huffman_code_from cur : safe (find_huffman_code_from cur).
Proof.
  induction cur; intros d; simpl; [discriminate|].
  destruct (code =? -1); [|discriminate].
  destruct (buf_len d <=? buf_pos d); [discriminate|].
  destruct (current_bit d).
  - destruct cur2; [discriminate|]. apply IHcur2.
  - destruct cur1; [discriminate|]. apply IHcur1.
Qed.

Lemma safe_find_huffman_code root : safe (find_huffman_code root).
Proof. intros d. destruct root; [discriminate|]. apply safe_find_huffman_code_from. Qed.

Lemma length_from_length_code_range code :
  returns (length_from_length_code code) (fun len => 3 <= len <= 258).
Proof.
  intros d len d'. unfold length_from_length_code.
  destruct (negb (is_length_code code)); [discriminate|].
  unfold bind. destruct (read_bits _ d) as [e d1| | |]; try discriminate.
  destruct ((code =? 284) && (e =? 31)); [discriminate|].
  destruct (_ || _) eqn:E; [discriminate|].
  unfold ret. intros [= <- <-]. apply orb_false_iff in E as [E1 E2].
  apply Z.ltb_ge in E1, E2. split; assumption.
Qed.

Lemma safe_length_from_length_code code : safe (length_from_length_code code).
Proof.
  intros d. unfold length_from_length_code.
  destruct (negb _); [discriminate|].
  unfold bind. pose proof (safe_read_bits (snd (idx length_data (code - 257))) d).
  destruct (read_bits _ d) as [e d1| | |]; try discriminate; try congruence.
  destruct (_ && _); [discriminate|]. destruct (_ || _); discriminate.
Qed.

Lemma safe_distance_from_distance_code code : safe (distance_from_distance_code code).
Proof.
  intros d. unfold distance_from_distance_code.
  destruct (negb _); [discriminate|].
  unfold bind. pose proof (safe_read_bits (snd (idx dist_data code)) d).
  destruct (read_bits _ d) as [e d1| | |]; try discriminate; try congruence.
  destruct (_ || _); discriminate.
Qed.

(** The gathering loop stays inside [bytes_to_copy] when it starts at [i]
    and runs [n] rounds with [i + n <= 258]. *)
Lemma gather_bytes_in_bounds n : forall i tmp start d acc,
  0 <= i -> i + Z.of_nat n <= 258 ->
  exists bytes, gather_bytes n i tmp start d acc = Some bytes.
Proof.
  induction n; intros i tmp start d acc Hi Hn; simpl; [eauto|].
  destruct (258 <=? i) eqn:E; [lia|]. apply IHn; lia.
Qed.

(** It leaves it as soon as more than 258 bytes are asked for. *)
Lemma gather_bytes_overflow n : forall i tmp start d acc,
  0 <= i <= 258 -> 258 < i + Z.of_nat n ->
  gather_bytes n i tmp start d acc = None.
Proof.
  induction n; intros i tmp start d acc Hi Hn; simpl; [lia|].
  destruct (258 <=? i) eqn:E; [reflexivity|].
  apply Z.leb_gt in E. apply IHn; lia.
Qed.

Lemma safe_copy_bytes_from_distance length distance :
  length <= 258 -> safe (copy_bytes_from_distance length distance).
Proof.
  intros Hl d. unfold copy_bytes_from_distance.
  destruct (_ && _); [discriminate|].
  destruct (gather_bytes_in_bounds (Z.to_nat length) 0 (copy_start d distance)
              (copy_start d distance) d (replicate 258 "000"%byte))
    as [bytes ->]; [lia|lia|].
  apply safe_handle_literal_codes.
Qed.

Lemma safe_expand_block_type_01 fuel root : safe (expand_block_type_01 fuel root).
Proof.
  induction fuel; simpl; [intros d; discriminate|].
  eapply safe_bind; [apply safe_find_huffman_code|apply returns_True|].
  intros edge _.
  destruct (negb _); [apply safe_fail|].
  destruct (_ =? 256); [apply safe_ret|].
  destruct (is_literal_code _).
  { eapply safe_bind; [apply safe_handle_literal_codes|apply returns_True|]. auto. }
  destruct (is_length_code _); [|assumption].
  eapply safe_bind;
    [apply safe_length_from_length_code|apply length_from_length_code_range|].
  intros len Hlen. cbv beta in Hlen.
  eapply safe_bind; [apply safe_read_bits|apply returns_True|]. intros tmp _.
  eapply safe_bind; [apply safe_distance_from_distance_code|apply returns_True|].
  intros dist _.
  eapply safe_bind;
    [apply safe_copy_bytes_from_distance; lia|apply returns_True|]. auto.
Qed.

Lemma safe_expand_block_type_10 fuel ll_root d_root :
  safe (expand_block_type_10 fuel ll_root d_root).
Proof.
  induction fuel; simpl; [intros d; discriminate|].
  eapply safe_bind; [apply safe_find_huffman_code|apply returns_True|].
  intros edge _.
  destruct (negb _); [apply safe_fail|].
  destruct (_ =? 256); [apply safe_ret|].
  destruct (is_literal_code _).
  { eapply safe_bind; [apply safe_handle_literal_codes|apply returns_True|]. auto. }
  destruct (is_length_code _); [|assumption].
  eapply safe_bind;
    [apply safe_length_from_length_code|apply length_from_length_code_range|].
  intros len Hlen. cbv beta in Hlen.
  eapply safe_bind; [apply safe_find_huffman_code|apply returns_True|]. intros tmp _.
  eapply safe_bind; [apply safe_distance_from_distance_code|apply returns_True|].
  intros dist _.
  eapply safe_bind;
    [apply safe_copy_bytes_from_distance; lia|apply returns_True|]. auto.
Qed.

(** C9: a length that [length_from_length_code] returns lies between 3 and
    258; with such a length every index the gathering loop of
    [copy_bytes_from_distance] writes is below 258, so the call never
    leaves [bytes_to_copy], whatever the distance and the data; and the two
    symbol-expansion loops, which only pass such lengths, never do. *)
Theorem copy_buffer_in_bounds code d length d1 :
  length_from_length_code code d = Ret length d1 ->
  3 <= length <= 258 /\
  (forall distance d2,
     (exists bytes,
        gather_bytes (Z.to_nat length) 0 (copy_start d2 distance)
          (copy_start d2 distance) d2 (replicate 258 "000"%byte) = Some bytes) /\
     copy_bytes_from_distance length distance d2 <> Undef) /\
  (forall fuel root, safe (expand_block_type_01 fuel root)) /\
  (forall fuel ll_root d_root, safe (expand_block_type_10 fuel ll_root d_root)).
Proof.
  intros H. pose proof (length_from_length_code_range code d length d1 H) as Hr.
  cbv beta in Hr. split; [exact Hr|]. split; [|split].
  - intros distance d2. split.
    + apply gather_bytes_in_bounds; lia.
    + apply safe_copy_bytes_from_distance; lia.
  - apply safe_expand_block_type_01.
  - apply safe_expand_block_type_10.
Qed.

Lemma copy_buffer_in_bounds_witness :
  3 <= 258 <= 258 /\
  (forall distance d2,
     (exists bytes,
        gather_bytes (Z.to_nat 258) 0 (copy_start d2 distance)
          (copy_start d2 distance) d2 (replicate 258 "000"%byte) = Some bytes) /\
     copy_bytes_from_distance 258 distance d2 <> Undef) /\
  (forall fuel root, safe (expand_block_type_01 fuel root)) /\
  (forall fuel ll_root d_root, safe (expand_block_type_10 fuel ll_root d_root)).
Proof.
  apply (copy_buffer_in_bounds 285 (start_data [] 0 0) 258 (start_data [] 0 0)).
  reflexivity.
Defined.

(** ** The distance symbol of a fixed block *)

(** C1 (the code departs from the claim): the input [4b 4c 02 42 00] is a
    final fixed-Huffman block holding the literals [a], [b], a match of
    length 3 at distance 2, and the end of block. With the cursor on the
    five distance bits (byte 3, bit 2), [read_bits 5] yields 16 whereas the
    tree of the 30 five-bit codes yields symbol 1. The block decoder takes
    the first reading and rejects the block after [ab]; the loop of the
    dynamic decoder, run over the two fixed trees, produces [ababa]. *)
Theorem fixed_distance_symbol_bit_order :
  let input := [75; 76; 2; 66; 0] in
  let ll_root := create_huffman_tree fixed_lengths 15 in
  let d_root := create_huffman_tree fixed_distance_lengths 15 in
  returned (read_bits 5 (start_data input 3 2)) = Some 16 /\
  returned ((do leaf <- find_huffman_code d_root; ret (node_code leaf))
              (start_data input 3 2)) = Some 1 /\
  failure (decompress_block_type_01 (start_data input 0 3))
  = Some "Invalid back reference for copying bytes" /\
  emitted (decompress_block_type_01 (start_data input 0 3)) = [97; 98] /\
  returned (expand_block_type_10 (bits_left (start_data input 0 3))
              ll_root d_root (start_data input 0 3)) = Some tt /\
  emitted (expand_block_type_10 (bits_left (start_data input 0 3))
             ll_root d_root (start_data input 0 3)) = [97; 98; 97; 98; 97].
Proof.
  cbv zeta. repeat split; vm_compute; reflexivity.
Qed.

(** ** Emitting bytes *)

Lemma window_put_length codes : forall br pos,
  length (window_put codes br pos) = length br.
Proof.
  induction codes; intros; simpl; [reflexivity|].
  rewrite IHcodes. unfold upd. apply length_insert.
Qed.

Lemma flush_if_full_ok d :
  length (out_buf d) = Z.to_nat OUT_BUF_SIZE ->
  0 <= out_pos d <= OUT_BUF_SIZE -> out_pos d <= f_room (f d) ->
  exists d', flush_if_full d = Ret tt d' /\
    output d' = output d /\
    buf d' = buf d /\ buf_pos d' = buf_pos d /\ byte_pos d' = byte_pos d /\
    back_refs d' = back_refs d /\ back_refs_pos d' = back_refs_pos d /\
    back_refs_filled d' = back_refs_filled d /\
    out_buf d' = out_buf d /\ 0 <= out_pos d' < OUT_BUF_SIZE /\
    f_room (f d') - out_pos d' = f_room (f d) - out_pos d.
Proof.
  intros Hl Hp Hs. unfold flush_if_full.
  destruct (out_pos d =? OUT_BUF_SIZE) eqn:E.
  - apply Z.eqb_eq in E. unfold fwrite.
    replace (Z.max 0 (Z.min (out_pos d) (f_room (f d)))) with (out_pos d) by lia.
    rewrite Z.eqb_refl. simpl. eexists; split; [reflexivity|].
    unfold output; simpl. rewrite app_nil_r.
    repeat split; try reflexivity; try (unfold OUT_BUF_SIZE; lia).
  - apply Z.eqb_neq in E. exists d. repeat split; try reflexivity; lia.
Qed.

Lemma put_byte_output c d :
  length (out_buf d) = Z.to_nat OUT_BUF_SIZE -> 0 <= out_pos d < OUT_BUF_SIZE ->
  output (put_byte c d) = output d ++ [c].
Proof.
  intros Hl Hp. unfold output, put_byte; simpl. rewrite <- app_assoc. f_equal.
  unfold upd. rewrite Z2Nat.inj_add by lia.
  change (Z.to_nat 1) with 1%nat. rewrite Nat.add_1_r.
  rewrite (take_S_r _ _ c).
  - f_equal. apply take_insert_ge. lia.
  - apply list_lookup_insert_eq. lia.
Qed.

Lemma handle_literal_codes_loop_ok codes : forall d,
  length (out_buf d) = Z.to_nat OUT_BUF_SIZE ->
  0 <= out_pos d <= OUT_BUF_SIZE ->
  0 <= back_refs_pos d < MAX_DISTANCE ->
  sink_accepts (Z.of_nat (length codes)) d ->
  exists d', handle_literal_codes_loop codes d = Ret tt d' /\
    emits codes d d' /\
    length (out_buf d') = Z.to_nat OUT_BUF_SIZE /\
    0 <= out_pos d' <= OUT_BUF_SIZE.
Proof.
  induction codes as [|c rest IH]; intros d Hl Hp Hw Hs.
  - exists d. split; [reflexivity|]. unfold emits; simpl.
    rewrite app_nil_r, Z.add_0_r, Z.mod_small by lia.
    replace (MAX_DISTANCE <=? back_refs_pos d) with false
      by (symmetry; apply Z.leb_gt; lia).
    rewrite orb_false_r. repeat split; try reflexivity; lia.
  - unfold sink_accepts in Hs. rewrite length_cons, Nat2Z.inj_succ in Hs.
    destruct (flush_if_full_ok d Hl Hp) as (d1 & E1 & Ho & Hb & Hbp & Hby & Hbr & Hbrp & Hbf & Hob & Hop & Hroom); [lia|].
    simpl. unfold bind. rewrite E1.
    destruct (IH (put_byte c d1)) as (d2 & E2 & Hem & Hl2 & Hp2).
    + simpl. unfold upd. rewrite length_insert. congruence.
    + simpl. lia.
    + simpl. rewrite Hbrp. unfold u16, MAX_DISTANCE.
      Z.div_mod_to_equations. lia.
    + unfold sink_accepts. simpl. lia.
    + exists d2. split; [exact E2|]. split; [|auto].
      destruct Hem as (Ho2 & Hb2 & Hbp2 & Hby2 & Hbr2 & Hbrp2 & Hbf2 & Hroom2).
      assert (Hu : u16 ((back_refs_pos d + 1) mod MAX_DISTANCE)
                   = (back_refs_pos d + 1) mod MAX_DISTANCE).
      { unfold u16, MAX_DISTANCE. Z.div_mod_to_equations. lia. }
      unfold emits. rewrite length_cons, Nat2Z.inj_succ.
      repeat split.
      * rewrite Ho2, put_byte_output, Ho by (try congruence; lia).
        rewrite <- app_assoc. reflexivity.
      * rewrite Hb2. simpl. exact Hb.
      * rewrite Hbp2. simpl. exact Hbp.
      * rewrite Hby2. simpl. exact Hby.
      * rewrite Hbr2. simpl. rewrite Hbr, Hbrp, Hu. reflexivity.
      * rewrite Hbrp2. simpl. rewrite Hbrp, Hu. unfold MAX_DISTANCE.
        Z.div_mod_to_equations. lia.
      * rewrite Hbf2. simpl. rewrite Hbf, Hbrp, Hu.
        unfold MAX_DISTANCE in *.
        destruct (back_refs_filled d); simpl; [reflexivity|].
        destruct ((back_refs_pos d + 1) mod 32768 =? 0) eqn:E0.
        -- apply Z.eqb_eq in E0. simpl. symmetry. apply Z.leb_le.
           Z.div_mod_to_equations. lia.
        -- apply Z.eqb_neq in E0. simpl.
           assert ((back_refs_pos d + 1) mod 32768 = back_refs_pos d + 1)
             by (Z.div_mod_to_equations; lia).
           rewrite H. f_equal. lia.
      * rewrite Hroom2. simpl. lia.
Qed.

Lemma handle_literal_codes_ok codes len d :
  wf_data d -> 0 <= len <= Z.of_nat (length codes) -> sink_accepts len d ->
  exists d', handle_literal_codes codes len d = Ret tt d' /\
    emits (take (Z.to_nat len) codes) d d' /\ wf_data d'.
Proof.
  intros (Hbr & Hob & Hop & Hpos & Hby & Hbp) Hlen Hs.
  assert (Hlt : Z.of_nat (length (take (Z.to_nat len) codes)) = len)
    by (rewrite length_take; lia).
  unfold handle_literal_codes, bind.
  destruct (handle_literal_codes_loop_ok (take (Z.to_nat len) codes) d)
    as (d1 & E1 & Hem & Hl1 & Hp1); try assumption; try lia.
  { rewrite Hlt. exact Hs. }
  rewrite E1.
  destruct Hem as (Ho1 & Hb1 & Hbp1 & Hby1 & Hbr1 & Hbrp1 & Hbf1 & Hroom1).
  destruct (flush_if_full_ok d1 Hl1 Hp1)
    as (d2 & E2 & Ho & Hb & Hbp2 & Hby2 & Hbr2 & Hbrp2 & Hbf2 & Hob2 & Hop2 & Hroom2).
  { unfold sink_accepts in Hs. lia. }
  exists d2. split; [exact E2|]. split.
  - unfold emits. repeat split; try congruence; try lia.
  - unfold wf_data. rewrite Hbr2, Hbr1, window_put_length, Hob2, Hbrp2, Hbrp1, Hby2, Hby1, Hbp2, Hbp1.
    repeat split; try assumption; try lia.
    + apply Z.mod_pos_bound. unfold MAX_DISTANCE. lia.
    + apply Z.mod_pos_bound. unfold MAX_DISTANCE. lia.
Qed.

Lemma byte_val_range b : 0 <= byte_val b <= 255.
Proof. unfold byte_val. pose proof (Byte.to_N_bounded b). lia. Qed.


Lemma wf_start_data input pos bit :
  0 <= pos -> 0 <= bit < 8 -> wf_data (start_data input pos bit).
Proof.
  intros Hp Hb. unfold wf_data.
  split; [apply length_replicate|]. split; [apply length_replicate|].
  unfold start_data, MAX_DISTANCE, OUT_BUF_SIZE;
    cbn [out_pos back_refs_pos byte_pos buf_pos]. lia.
Qed.

(** ** Stored blocks *)

Lemma stored_fields_range d :
  0 <= stored_LEN d < 65536 /\ 0 <= stored_NLEN d < 65536.
Proof.
  unfold stored_LEN, stored_NLEN.
  pose proof (byte_val_range (idx (buf d) (stored_header d))).
  pose proof (byte_val_range (idx (buf d) (stored_header d + 1))).
  pose proof (byte_val_range (idx (buf d) (stored_header d + 2))).
  pose proof (byte_val_range (idx (buf d) (stored_header d + 3))).
  lia.
Qed.

Lemma u16_lnot x : 0 <= x < 65536 -> u16 (Z.lnot x) = 65535 - x.
Proof.
  intros H. unfold u16, Z.lnot. symmetry.
  apply (Z.mod_unique_pos _ _ (-1)); lia.
Qed.

Lemma u16_small x : 0 <= x < 65536 -> u16 x = x.
Proof. intros H. unfold u16. apply Z.mod_small. lia. Qed.

Lemma u16_two_bytes b0 b1 :
  u16 (byte_val b0 + 256 * byte_val b1) = byte_val b0 + 256 * byte_val b1.
Proof.
  pose proof (byte_val_range b0). pose proof (byte_val_range b1).
  apply u16_small. lia.
Qed.

Lemma u16_lnot_two_bytes b0 b1 :
  u16 (Z.lnot (byte_val b0 + 256 * byte_val b1))
  = 65535 - (byte_val b0 + 256 * byte_val b1).
Proof.
  pose proof (byte_val_range b0). pose proof (byte_val_range b1).
  apply u16_lnot. lia.
Qed.

(* the block decoder in terms of header fields *)
Lemma decompress_block_type_00_unfold d :
  decompress_block_type_00 d =
  let d0 := set_cursor d (stored_header d) (if byte_pos d =? 0 then byte_pos d else 0) in
  if (buf_len d <=? stored_header d) || (buf_len d - stored_header d <? 4)
  then Fail "Unexpected buffer length" d0
  else
    let d1 := set_cursor d (stored_header d + 4) 0 in
    if negb (stored_LEN d =? 65535 - stored_NLEN d)
    then Fail "LEN doesn't match ~NLEN in block type 00" d1
    else if (buf_len d <=? stored_header d + 4)
            || (buf_len d - (stored_header d + 4) <? stored_LEN d)
    then Fail "Unexpected buffer length" d1
    else
      (do _ <- handle_literal_codes (drop (Z.to_nat (stored_header d + 4)) (buf d)) (stored_LEN d);
       fun d' => Ret tt (set_cursor d' (buf_pos d' + stored_LEN d) (byte_pos d'))) d1.
Proof.
  unfold decompress_block_type_00, stored_LEN, stored_NLEN, stored_header.
  destruct (byte_pos d =? 0) eqn:E; simpl negb; cbv iota zeta;
    unfold buf_len; destruct d; simpl in *;
    (destruct (_ || _); [try apply Z.eqb_eq in E; subst; reflexivity|]);
    rewrite !u16_two_bytes, u16_lnot_two_bytes;
    try apply Z.eqb_eq in E; subst; reflexivity.
Qed.

(** C2, as stated, fails at the end of the input: the block [00 00 ff ff]
    has its four header bytes, [LEN = 0] so its whole payload is present,
    and [NLEN = ~LEN], yet it is rejected, because the decoder wants a byte
    to follow the header. *)
Lemma stored_block_empty_at_end_of_input :
  let d := start_data [0; 0; 255; 255] 0 0 in
  stored_header d + 4 <= buf_len d /\
  stored_LEN d <= buf_len d - (stored_header d + 4) /\
  stored_NLEN d = u16 (Z.lnot (stored_LEN d)) /\
  failure (decompress_block_type_00 d) = Some "Unexpected buffer length" /\
  returned (decompress_block_type_00 d) = None.
Proof.
  cbv zeta. repeat split; try (vm_compute; reflexivity); vm_compute; discriminate.
Qed.

(** C2 (amended): when the aligned cursor leaves the four header bytes and
    at least one byte more, the [LEN] payload bytes are present and the
    stream takes the output, the stored-block decoder succeeds if and only
    if [NLEN] is the 16-bit complement of [LEN]. When it is not, the
    decoder fails with the LEN/NLEN diagnostic, and neither the output nor
    the window has changed; when it is, the payload is appended to the
    output and the cursor stands behind it. *)
Theorem stored_block_len_nlen d :
  wf_data d ->
  stored_header d + 4 < buf_len d ->
  stored_LEN d <= buf_len d - (stored_header d + 4) ->
  sink_accepts (stored_LEN d) d ->
  (returned (decompress_block_type_00 d) = Some tt
   <-> stored_NLEN d = u16 (Z.lnot (stored_LEN d))) /\
  (stored_NLEN d <> u16 (Z.lnot (stored_LEN d)) ->
   exists d',
     decompress_block_type_00 d
     = Fail "LEN doesn't match ~NLEN in block type 00" d' /\
     output d' = output d /\ back_refs d' = back_refs d /\
     back_refs_pos d' = back_refs_pos d) /\
  (stored_NLEN d = u16 (Z.lnot (stored_LEN d)) ->
   exists d',
     decompress_block_type_00 d = Ret tt d' /\
     output d' = output d ++ stored_payload d /\
     buf_pos d' = stored_header d + 4 + stored_LEN d /\ byte_pos d' = 0).
Proof.
  intros Hwf Hmore Hpay Hsink.
  pose proof (stored_fields_range d) as [HL HN].
  assert (Hwf0 : 0 <= stored_header d).
  { destruct Hwf as (_ & _ & _ & _ & _ & Hbp). unfold stored_header.
    destruct (byte_pos d =? 0); lia. }
  rewrite u16_lnot by lia.
  rewrite decompress_block_type_00_unfold. cbv zeta.
  replace ((buf_len d <=? stored_header d) || (buf_len d - stored_header d <? 4))
    with false by (symmetry; apply orb_false_iff; split; [apply Z.leb_gt|apply Z.ltb_ge]; lia).
  replace ((buf_len d <=? stored_header d + 4)
           || (buf_len d - (stored_header d + 4) <? stored_LEN d))
    with false by (symmetry; apply orb_false_iff; split; [apply Z.leb_gt|apply Z.ltb_ge]; lia).
  destruct (stored_LEN d =? 65535 - stored_NLEN d) eqn:E; simpl negb; cbv iota.
  - apply Z.eqb_eq in E.
    set (d1 := set_cursor d (stored_header d + 4) 0).
    destruct (handle_literal_codes_ok
                (drop (Z.to_nat (stored_header d + 4)) (buf d)) (stored_LEN d) d1)
      as (d2 & E2 & Hem & Hwf2).
    { destruct Hwf as (? & ? & ? & ? & ? & ?). unfold wf_data, d1; simpl.
      repeat split; try assumption; lia. }
    { rewrite length_drop. unfold buf_len in *. lia. }
    { exact Hsink. }
    unfold bind. rewrite E2. simpl.
    destruct Hem as (Ho & Hb & Hbp & Hby & _).
    split; [split; [lia|reflexivity]|]. split; [lia|].
    intros _. eexists. split; [reflexivity|]. simpl.
    split; [|split].
    + exact Ho.
    + rewrite Hbp. reflexivity.
    + rewrite Hby. reflexivity.
  - apply Z.eqb_neq in E. simpl.
    split; [split; [discriminate|lia]|]. split; [|lia].
    intros _. eexists. split; [reflexivity|]. repeat split.
Qed.

Lemma stored_block_len_nlen_witness :
  (returned (decompress_block_type_00 stored_example) = Some tt
   <-> stored_NLEN stored_example = u16 (Z.lnot (stored_LEN stored_example))) /\
  (stored_NLEN stored_example <> u16 (Z.lnot (stored_LEN stored_example)) ->
   exists d',
     decompress_block_type_00 stored_example
     = Fail "LEN doesn't match ~NLEN in block type 00" d' /\
     output d' = output stored_example /\
     back_refs d' = back_refs stored_example /\
     back_refs_pos d' = back_refs_pos stored_example) /\
  (stored_NLEN stored_example = u16 (Z.lnot (stored_LEN stored_example)) ->
   exists d',
     decompress_block_type_00 stored_example = Ret tt d' /\
     output d' = output stored_example ++ stored_payload stored_example /\
     buf_pos d' = stored_header stored_example + 4 + stored_LEN stored_example /\
     byte_pos d' = 0).
Proof.
  apply (stored_block_len_nlen stored_example).
  - apply wf_start_data; lia.
  - vm_compute; reflexivity.
  - vm_compute; discriminate.
  - vm_compute; discriminate.
Defined.

(** ** Back references *)

Lemma bind_ext {A B} (m : M A) (k k' : A -> M B) d :
  (forall a d', k a d' = k' a d') -> bind m k d = bind m k' d.
Proof. intros H. unfold bind. destruct (m d); auto. Qed.

Lemma bind_assoc {A B C} (m : M A) (k : A -> M B) (h : B -> M C) d :
  bind (bind m k) h d = bind m (fun a => bind (k a) h) d.
Proof. unfold bind. destruct (m d); auto. Qed.

Lemma flush_if_full_twice d d1 :
  flush_if_full d = Ret tt d1 -> flush_if_full d1 = Ret tt d1.
Proof.
  unfold flush_if_full. destruct (out_pos d =? OUT_BUF_SIZE) eqn:E.
  - destruct (fwrite _ _ _) as [k s]. destruct (negb _); [discriminate|].
    intros [= <-]. reflexivity.
  - intros [= <-]. rewrite E. reflexivity.
Qed.

Lemma flush_if_full_window d d1 :
  flush_if_full d = Ret tt d1 ->
  back_refs d1 = back_refs d /\ back_refs_pos d1 = back_refs_pos d.
Proof.
  unfold flush_if_full. destruct (out_pos d =? OUT_BUF_SIZE) eqn:E.
  - destruct (fwrite _ _ _) as [k s]. destruct (negb _); [discriminate|].
    intros [= <-]. split; reflexivity.
  - intros [= <-]. split; reflexivity.
Qed.

(* a flush in front of an emission that starts with one is absorbed *)
Lemma flush_absorbed codes d :
  bind flush_if_full
    (fun _ => bind (handle_literal_codes_loop codes) (fun _ => flush_if_full)) d
  = bind (handle_literal_codes_loop codes) (fun _ => flush_if_full) d.
Proof.
  unfold bind at 1. destruct (flush_if_full d) as [[] d1| | |] eqn:E.
  - destruct codes as [|c rest]; simpl.
    + unfold bind, ret. rewrite E. apply (flush_if_full_twice d d1 E).
    + unfold bind. rewrite E, (flush_if_full_twice d d1 E). reflexivity.
  - destruct codes as [|c rest]; simpl; unfold bind, ret; rewrite E; reflexivity.
  - destruct codes as [|c rest]; simpl; unfold bind, ret; rewrite E; reflexivity.
  - destruct codes as [|c rest]; simpl; unfold bind, ret; rewrite E; reflexivity.
Qed.

Lemma mod_MAX_u16 x : u16 (x mod MAX_DISTANCE) = x mod MAX_DISTANCE.
Proof. unfold u16, MAX_DISTANCE. Z.div_mod_to_equations. lia. Qed.

Lemma bytewise_copy_flush n distance : forall d,
  bind (bytewise_copy n distance) (fun _ => flush_if_full) d
  = bind (handle_literal_codes_loop
            (lz_bytes n distance (back_refs d) (back_refs_pos d)))
         (fun _ => flush_if_full) d.
Proof.
  induction n as [|n IH]; intros d; [reflexivity|].
  cbn [lz_bytes handle_literal_codes_loop].
  set (c := idx (back_refs d) ((back_refs_pos d - distance) mod MAX_DISTANCE)).
  set (L := lz_bytes n distance _ _).
  unfold bind at 1.
  change (bytewise_copy (S n) distance d)
    with (bind (handle_literal_codes [c] 1) (fun _ => bytewise_copy n distance) d).
  unfold handle_literal_codes. change (take (Z.to_nat 1) [c]) with [c].
  cbn [handle_literal_codes_loop].
  pose proof (flush_absorbed L (put_byte c d)) as Habs.
  unfold bind, ret in *.
  destruct (flush_if_full d) as [[] d1| | |] eqn:E1; try reflexivity.
  cbv beta iota.
  destruct (flush_if_full_window d d1 E1) as [Hbr Hpos].
  clear Habs. pose proof (flush_absorbed L (put_byte c d1)) as Habs.
  unfold bind in Habs. rewrite <- Habs. clear Habs.
  destruct (flush_if_full (put_byte c d1)) as [[] d3| | |] eqn:E3; try reflexivity.
  cbv beta iota.
  destruct (flush_if_full_window _ _ E3) as [Hbr3 Hpos3].
  rewrite IH, Hbr3, Hpos3. simpl. rewrite mod_MAX_u16, Hbr, Hpos. reflexivity.
Qed.

Lemma idx_upd_eq {A} `{Inhabited A} (l : list A) q c :
  0 <= q < Z.of_nat (length l) -> idx (upd l q c) q = c.
Proof. intros Hq. unfold idx, upd. apply list_lookup_total_insert_eq. lia. Qed.

Lemma idx_upd_ne {A} `{Inhabited A} (l : list A) q q' c :
  0 <= q -> 0 <= q' -> q <> q' -> idx (upd l q c) q' = idx l q'.
Proof. intros Hq Hq' Hne. unfold idx, upd. apply list_lookup_total_insert_ne. lia. Qed.

Lemma upd_length {A} (l : list A) q c : length (upd l q c) = length l.
Proof. apply length_insert. Qed.

Lemma succ_mod i m :
  0 <= i -> 0 < m ->
  (i + 1) mod m = if i mod m + 1 =? m then 0 else i mod m + 1.
Proof.
  intros Hi Hm. pose proof (Z.div_mod i m ltac:(lia)) as Hdm.
  pose proof (Z.mod_pos_bound i m Hm) as Hb.
  destruct (i mod m + 1 =? m) eqn:E.
  - apply Z.eqb_eq in E. symmetry. apply (Z.mod_unique_pos _ _ (i / m + 1)); lia.
  - apply Z.eqb_neq in E. symmetry. apply (Z.mod_unique_pos _ _ (i / m)); lia.
Qed.

Lemma copy_start_mod d distance :
  1 <= distance <= MAX_DISTANCE -> 0 <= back_refs_pos d < MAX_DISTANCE ->
  copy_start d distance = (back_refs_pos d - distance) mod MAX_DISTANCE.
Proof.
  intros Hd Hp. unfold copy_start, MAX_DISTANCE in *.
  rewrite Z.rem_mod_nonneg by lia. unfold u16.
  Z.div_mod_to_equations. lia.
Qed.

Section Gather.
Variable d : decompression_data.
Variable dist : Z.
Hypothesis Hdist : 1 <= dist <= MAX_DISTANCE.
Hypothesis Hpos : 0 <= back_refs_pos d < MAX_DISTANCE.
Hypothesis Hlen : length (back_refs d) = Z.to_nat MAX_DISTANCE.
Let start := (back_refs_pos d - dist) mod MAX_DISTANCE.

Lemma gather_bytes_cyc n : forall i tmp acc,
  0 <= i -> i + Z.of_nat n <= 258 -> length acc = 258%nat ->
  tmp = (start + i mod dist) mod MAX_DISTANCE ->
  exists bytes,
    gather_bytes n i tmp start d acc = Some bytes /\
    length bytes = 258%nat /\
    take (Z.to_nat i + n) bytes
    = take (Z.to_nat i) acc ++ cyc_bytes (back_refs d) start dist n i.
Proof.
  induction n as [|n IH]; intros i tmp acc Hi Hn Hacc Htmp.
  - exists acc. simpl. rewrite Nat.add_0_r, app_nil_r. auto.
  - cbn [gather_bytes cyc_bytes].
    destruct (258 <=? i) eqn:E; [apply Z.leb_le in E; lia|].
    rewrite mod_MAX_u16.
    set (tmp' := if (tmp + 1) mod MAX_DISTANCE =? back_refs_pos d
                 then start else (tmp + 1) mod MAX_DISTANCE).
    destruct (IH (i + 1) tmp' (upd acc i (idx (back_refs d) tmp)))
      as (bytes & Hg & Hl & Ht); try lia.
    { rewrite upd_length. exact Hacc. }
    { subst tmp'. rewrite (succ_mod i dist) by lia. subst tmp start.
      pose proof (Z.mod_pos_bound i dist ltac:(lia)) as Hb.
      unfold MAX_DISTANCE in *. clear IH.
      generalize dependent (i mod dist). intros r Hb.
      destruct (r + 1 =? dist) eqn:E1.
      - apply Z.eqb_eq in E1.
        assert (Hc : (((back_refs_pos d - dist) mod 32768 + r) mod 32768 + 1)
                       mod 32768 = back_refs_pos d)
          by (Z.div_mod_to_equations; lia).
        rewrite Hc, Z.eqb_refl, Z.add_0_r, Z.mod_mod by lia. reflexivity.
      - apply Z.eqb_neq in E1.
        assert (Hc : (((back_refs_pos d - dist) mod 32768 + r) mod 32768 + 1)
                       mod 32768 <> back_refs_pos d)
          by (Z.div_mod_to_equations; lia).
        apply Z.eqb_neq in Hc. rewrite Hc.
        Z.div_mod_to_equations; lia. }
    exists bytes. split; [exact Hg|]. split; [exact Hl|].
    replace (Z.to_nat i + S n)%nat with (Z.to_nat (i + 1) + n)%nat by lia.
    rewrite Ht. rewrite <- Htmp.
    replace (Z.to_nat (i + 1)) with (S (Z.to_nat i)) by lia.
    rewrite (take_S_r _ _ (idx (back_refs d) tmp)).
    + unfold upd. rewrite take_insert_ge by lia. rewrite <- app_assoc. reflexivity.
    + unfold upd. apply list_lookup_insert_eq. lia.
Qed.
End Gather.

Section Bytewise.
Variable br : list byte.
Variable pos dist : Z.
Hypothesis Hdist : 1 <= dist <= MAX_DISTANCE.
Hypothesis Hpos : 0 <= pos < MAX_DISTANCE.
Hypothesis Hlen : length br = Z.to_nat MAX_DISTANCE.
Let start := (pos - dist) mod MAX_DISTANCE.
Let src (j : Z) : byte := idx br ((start + j mod dist) mod MAX_DISTANCE).

Lemma lz_bytes_cyc n : forall i br_i,
  0 <= i -> i + Z.of_nat n <= MAX_DISTANCE -> copied_up_to br pos dist i br_i ->
  lz_bytes n dist br_i ((pos + i) mod MAX_DISTANCE)
  = cyc_bytes br start dist n i.
Proof.
  induction n as [|n IH]; intros i br_i Hi Hn (Hl & Ha & Hb); [reflexivity|].
  cbn [lz_bytes cyc_bytes].
  assert (Hc : idx br_i (((pos + i) mod MAX_DISTANCE - dist) mod MAX_DISTANCE)
               = src i).
  { destruct (Z.lt_ge_cases i dist) as [Hlt|Hge].
    - rewrite Hb.
      + unfold src, start. rewrite (Z.mod_small i dist) by lia.
        f_equal. unfold MAX_DISTANCE in *. Z.div_mod_to_equations. lia.
      + apply Z.mod_pos_bound. unfold MAX_DISTANCE. lia.
      + intros j Hj. unfold MAX_DISTANCE in *. Z.div_mod_to_equations. lia.
    - replace (((pos + i) mod MAX_DISTANCE - dist) mod MAX_DISTANCE)
        with ((pos + (i - dist)) mod MAX_DISTANCE)
        by (unfold MAX_DISTANCE in *; Z.div_mod_to_equations; lia).
      rewrite Ha by lia. unfold src.
      replace (i - dist) with (i + (-1) * dist) by lia.
      rewrite Z.mod_add by lia. reflexivity. }
  rewrite Hc. fold (src i). f_equal.
  replace (((pos + i) mod MAX_DISTANCE + 1) mod MAX_DISTANCE)
    with ((pos + (i + 1)) mod MAX_DISTANCE)
    by (unfold MAX_DISTANCE in *; Z.div_mod_to_equations; lia).
  apply IH; [lia|lia|].
  assert (Hq : 0 <= (pos + i) mod MAX_DISTANCE < MAX_DISTANCE)
    by (apply Z.mod_pos_bound; unfold MAX_DISTANCE; lia).
  split; [rewrite upd_length; exact Hl|]. split.
  - intros j Hj. destruct (Z.eq_dec j i) as [->|Hne].
    + apply idx_upd_eq. lia.
    + rewrite idx_upd_ne; [apply Ha; lia|lia| |].
      * apply Z.mod_pos_bound. unfold MAX_DISTANCE. lia.
      * unfold MAX_DISTANCE in *. Z.div_mod_to_equations. lia.
  - intros q Hq' Hne. rewrite idx_upd_ne; [|lia|lia|].
    + apply Hb; [lia|]. intros j Hj. apply Hne. lia.
    + intros Heq. apply (Hne i); [lia|]. congruence.
Qed.

Lemma copied_up_to_0 : copied_up_to br pos dist 0 br.
Proof. split; [exact Hlen|]. split; [intros; lia|auto]. Qed.
End Bytewise.

Lemma bytewise_copy_S_flush n distance d :
  bind (bytewise_copy (S n) distance) (fun _ => flush_if_full) d
  = bytewise_copy (S n) distance d.
Proof.
  revert d. induction n as [|n IH]; intros d.
  - unfold bind at 1. cbn [bytewise_copy]. unfold handle_literal_codes.
    unfold bind, ret.
    destruct (handle_literal_codes_loop _ d) as [[] d1| | |]; try reflexivity.
    destruct (flush_if_full d1) as [[] d2| | |] eqn:E; try reflexivity.
    apply (flush_if_full_twice _ _ E).
  - unfold bind at 1.
    change (bytewise_copy (S (S n)) distance d)
      with (bind (handle_literal_codes
                    [idx (back_refs d) ((back_refs_pos d - distance) mod MAX_DISTANCE)] 1)
                 (fun _ => bytewise_copy (S n) distance) d).
    unfold bind at 1 2.
    destruct (handle_literal_codes _ 1 d) as [[] d1| | |]; try reflexivity.
    specialize (IH d1). unfold bind in IH. exact IH.
Qed.

Lemma copy_is_bytewise d length distance :
  wf_data d -> 1 <= distance <= MAX_DISTANCE -> 0 <= length <= 258 ->
  back_refs_filled d = true \/ distance <= back_refs_pos d ->
  copy_bytes_from_distance length distance d
  = bytewise_copy (Z.to_nat length) distance d.
Proof.
  intros (Hbr & Hob & Hop & Hpos & Hby & Hbp) Hd Hlen Hguard.
  unfold copy_bytes_from_distance.
  rewrite copy_start_mod by assumption.
  replace (negb (back_refs_filled d)
           && (back_refs_pos d <=? (back_refs_pos d - distance) mod MAX_DISTANCE))
    with false.
  2:{ symmetry. destruct Hguard as [->|Hle]; [reflexivity|].
      apply andb_false_iff. right. apply Z.leb_gt.
      unfold MAX_DISTANCE in *. Z.div_mod_to_equations. lia. }
  destruct (gather_bytes_cyc d distance Hd Hpos Hbr (Z.to_nat length) 0
              ((back_refs_pos d - distance) mod MAX_DISTANCE)
              (replicate 258 "000"%byte))
    as (bytes & Hg & Hl & Ht); try lia.
  { apply length_replicate. }
  { rewrite Z.mod_0_l by lia. rewrite Z.add_0_r, Z.mod_mod; [reflexivity|].
    unfold MAX_DISTANCE. lia. }
  rewrite Hg. unfold handle_literal_codes.
  change (Z.to_nat 0) with 0%nat in Ht. rewrite Nat.add_0_l in Ht.
  rewrite Ht. simpl take. rewrite app_nil_l.
  rewrite <- (lz_bytes_cyc (back_refs d) (back_refs_pos d) distance Hd Hpos Hbr
                (Z.to_nat length) 0 (back_refs d)); try lia.
  2:{ unfold MAX_DISTANCE. lia. }
  2:{ apply copied_up_to_0. exact Hbr. }
  rewrite Z.add_0_r, (Z.mod_small (back_refs_pos d)) by lia.
  rewrite <- bytewise_copy_flush.
  destruct (Z.to_nat length) as [|n] eqn:En.
  - unfold bind, bytewise_copy, ret, flush_if_full.
    replace (out_pos d =? OUT_BUF_SIZE) with false; [reflexivity|].
    symmetry. apply Z.eqb_neq. lia.
  - apply bytewise_copy_S_flush.
Qed.

Lemma window_put_other codes : forall br pos q,
  0 <= pos < MAX_DISTANCE -> 0 <= q < MAX_DISTANCE ->
  (forall j, 0 <= j < Z.of_nat (length codes) -> q <> (pos + j) mod MAX_DISTANCE) ->
  idx (window_put codes br pos) q = idx br q.
Proof.
  induction codes as [|c rest IH]; intros br pos q Hp Hq Hne; [reflexivity|].
  cbn [window_put]. rewrite length_cons, Nat2Z.inj_succ in Hne.
  rewrite IH.
  - apply idx_upd_ne; [lia|lia|]. intros ->. apply (Hne 0); [lia|].
    rewrite Z.add_0_r, Z.mod_small; lia.
  - apply Z.mod_pos_bound. unfold MAX_DISTANCE. lia.
  - exact Hq.
  - intros j Hj. specialize (Hne (j + 1) ltac:(lia)).
    unfold MAX_DISTANCE in *. Z.div_mod_to_equations. lia.
Qed.

Lemma window_put_lookup codes : forall br pos i c,
  0 <= pos < MAX_DISTANCE -> length br = Z.to_nat MAX_DISTANCE ->
  Z.of_nat (length codes) <= MAX_DISTANCE ->
  codes !! i = Some c ->
  idx (window_put codes br pos) ((pos + Z.of_nat i) mod MAX_DISTANCE) = c.
Proof.
  induction codes as [|c0 rest IH]; intros br pos i c Hp Hl Hn Hi; [discriminate|].
  cbn [window_put]. rewrite length_cons, Nat2Z.inj_succ in Hn.
  destruct i as [|i]; simpl in Hi.
  - injection Hi as ->. change (Z.of_nat 0) with 0.
    rewrite Z.add_0_r, (Z.mod_small pos) by lia.
    rewrite window_put_other.
    + apply idx_upd_eq. lia.
    + apply Z.mod_pos_bound. unfold MAX_DISTANCE. lia.
    + exact Hp.
    + intros j Hj. unfold MAX_DISTANCE in *. Z.div_mod_to_equations. lia.
  - replace ((pos + Z.of_nat (S i)) mod MAX_DISTANCE)
      with (((pos + 1) mod MAX_DISTANCE + Z.of_nat i) mod MAX_DISTANCE)
      by (unfold MAX_DISTANCE; Z.div_mod_to_equations; lia).
    apply IH; try assumption.
    + apply Z.mod_pos_bound. unfold MAX_DISTANCE. lia.
    + rewrite upd_length. exact Hl.
    + lia.
Qed.

Lemma last_emitted_put_byte c d :
  wf_data d -> last_emitted (put_byte c d) = c.
Proof.
  intros (Hbr & Hob & Hop & Hpos & Hby & Hbp).
  unfold last_emitted, put_byte; simpl. rewrite mod_MAX_u16.
  replace (((back_refs_pos d + 1) mod MAX_DISTANCE - 1) mod MAX_DISTANCE)
    with (back_refs_pos d)
    by (unfold MAX_DISTANCE in *; Z.div_mod_to_equations; lia).
  apply idx_upd_eq. lia.
Qed.

Lemma emitted_so_far_start input pos bit : emitted_so_far 0 (start_data input pos bit).
Proof. reflexivity. Qed.

Lemma emitted_so_far_emits codes n d d' :
  0 <= back_refs_pos d < MAX_DISTANCE -> 0 <= n ->
  emitted_so_far n d -> emits codes d d' ->
  emitted_so_far (n + Z.of_nat (length codes)) d'.
Proof.
  intros Hpos Hn He (_ & _ & _ & _ & _ & Hp' & Hf' & _).
  unfold emitted_so_far in *. rewrite Hf', Hp'.
  destruct (back_refs_filled d); simpl; [lia|]. subst n.
  destruct (MAX_DISTANCE <=? _) eqn:E.
  - apply Z.leb_le in E. lia.
  - apply Z.leb_gt in E. rewrite Z.mod_small; lia.
Qed.

Lemma cyc_bytes_distance_1 br start n : forall i,
  0 <= start < MAX_DISTANCE ->
  cyc_bytes br start 1 n i = replicate n (idx br start).
Proof.
  induction n as [|n IH]; intros i Hs; [reflexivity|].
  cbn [cyc_bytes replicate]. rewrite IH by assumption.
  rewrite Z.mod_1_r, Z.add_0_r, Z.mod_small by lia. reflexivity.
Qed.

Lemma emitted_guard n distance d :
  0 <= back_refs_pos d < MAX_DISTANCE ->
  emitted_so_far n d -> distance <= n -> distance <= MAX_DISTANCE ->
  back_refs_filled d = true \/ distance <= back_refs_pos d.
Proof.
  unfold emitted_so_far. destruct (back_refs_filled d); [auto|]. intros; right; lia.
Qed.

Lemma wf_put_byte c d :
  wf_data d -> out_pos d + 1 < OUT_BUF_SIZE -> wf_data (put_byte c d).
Proof.
  intros (Hbr & Hob & Hop & Hpos & Hby & Hbp) Hlt.
  unfold wf_data, put_byte; simpl. rewrite !upd_length, mod_MAX_u16.
  repeat split; try assumption; try lia;
    apply Z.mod_pos_bound; unfold MAX_DISTANCE; lia.
Qed.

Lemma wf_one_byte_emitted : wf_data one_byte_emitted.
Proof.
  apply wf_put_byte; [apply wf_start_data; lia|].
  unfold start_data, OUT_BUF_SIZE; cbn [out_pos]. lia.
Qed.

Lemma cursor_only_refl d : cursor_only d d.
Proof. destruct d; reflexivity. Qed.

Lemma cursor_only_trans d1 d2 d3 :
  cursor_only d1 d2 -> cursor_only d2 d3 -> cursor_only d1 d3.
Proof. unfold cursor_only. intros -> ->. reflexivity. Qed.

Lemma cursor_only_increment d : cursor_only d (increment_bit_position d).
Proof.
  unfold cursor_only, increment_bit_position.
  destruct (byte_pos d =? 7); reflexivity.
Qed.

Lemma read_bits_loop_cursor_only n : forall i tmp d v d',
  read_bits_loop n i tmp d = Ret v d' -> cursor_only d d'.
Proof.
  induction n as [|n IH]; intros i tmp d v d'; simpl.
  - intros [= _ <-]. apply cursor_only_refl.
  - destruct (buf_len d <=? buf_pos d); [discriminate|].
    intros H. apply IH in H.
    eapply cursor_only_trans; [apply cursor_only_increment|exact H].
Qed.

Lemma cursor_only_frame d d' :
  cursor_only d d' ->
  back_refs d' = back_refs d /\ back_refs_pos d' = back_refs_pos d /\
  back_refs_filled d' = back_refs_filled d /\ output d' = output d.
Proof. unfold cursor_only. intros ->. repeat split. Qed.

Lemma distance_from_distance_code_spec code d dist d1 :
  distance_from_distance_code code d = Ret dist d1 ->
  1 <= dist <= 32768 /\ cursor_only d d1.
Proof.
  unfold distance_from_distance_code.
  destruct (negb (is_distance_code code)); [discriminate|].
  unfold bind. destruct (read_bits _ d) as [e d'| | |] eqn:E; try discriminate.
  destruct (_ || _) eqn:G; [discriminate|].
  unfold ret. intros [= <- <-]. apply orb_false_iff in G as [G1 G2].
  apply Z.ltb_ge in G1, G2. split; [split; assumption|].
  apply (read_bits_loop_cursor_only _ _ _ _ _ _ E).
Qed.

Lemma upd_run {A} (a z : A) i m :
  0 <= i < m ->
  upd (replicate (Z.to_nat i) a ++ replicate (Z.to_nat (m - i)) z) i a
  = replicate (Z.to_nat (i + 1)) a ++ replicate (Z.to_nat (m - (i + 1))) z.
Proof.
  intros Hi. unfold upd.
  rewrite insert_app_r_alt by (rewrite length_replicate; lia).
  rewrite length_replicate, Nat.sub_diag.
  replace (Z.to_nat (m - i)) with (S (Z.to_nat (m - (i + 1)))) by lia.
  cbn [replicate]. simpl.
  replace (Z.to_nat (i + 1)) with (S (Z.to_nat i)) by lia.
  rewrite replicate_S_end, <- app_assoc. reflexivity.
Qed.

Lemma put_byte_run_of_a i stream :
  0 <= i < OUT_BUF_SIZE - 1 ->
  put_byte (byte_of 97) (run_of_a i stream) = run_of_a (i + 1) stream.
Proof.
  intros Hi. unfold OUT_BUF_SIZE in Hi.
  unfold put_byte, run_of_a, set_output, set_window.
  cbn [out_buf out_pos back_refs back_refs_pos back_refs_filled f buf buf_pos byte_pos].
  rewrite (upd_run _ _ i OUT_BUF_SIZE) by (unfold OUT_BUF_SIZE; lia).
  rewrite (upd_run _ _ i MAX_DISTANCE) by (unfold MAX_DISTANCE; lia).
  assert (Hu : u16 ((i + 1) mod MAX_DISTANCE) = i + 1).
  { unfold u16, MAX_DISTANCE. rewrite (Z.mod_small (i + 1) 32768) by lia.
    apply Z.mod_small. lia. }
  rewrite Hu.
  replace (i + 1 =? 0) with false by (symmetry; apply Z.eqb_neq; lia).
  reflexivity.
Qed.

Lemma handle_literal_codes_loop_run_of_a stream n : forall i,
  0 <= i -> i + Z.of_nat n < OUT_BUF_SIZE ->
  handle_literal_codes_loop (replicate n (byte_of 97)) (run_of_a i stream)
  = Ret tt (run_of_a (i + Z.of_nat n) stream).
Proof.
  induction n as [|n IH]; intros i Hi Hn.
  - simpl. rewrite Z.add_0_r. reflexivity.
  - cbn [replicate handle_literal_codes_loop]. unfold bind, flush_if_full.
    change (out_pos (run_of_a i stream)) with i.
    replace (i =? OUT_BUF_SIZE) with false by (symmetry; apply Z.eqb_neq; lia).
    rewrite put_byte_run_of_a by lia.
    rewrite IH by lia. f_equal. f_equal. lia.
Qed.

(** [run_of_a n stream] is the data the decoder is in when, from the start
    of [decompress_blocks], it has emitted [n] bytes [a]. *)
Lemma handle_literal_codes_run_of_a stream n :
  0 <= n < OUT_BUF_SIZE ->
  handle_literal_codes (replicate (Z.to_nat n) (byte_of 97)) n (blocks_data [] 0 stream)
  = Ret tt (run_of_a n stream).
Proof.
  intros Hn. unfold handle_literal_codes, bind.
  rewrite take_ge by (rewrite length_replicate; lia).
  change (blocks_data [] 0 stream) with (run_of_a 0 stream).
  rewrite handle_literal_codes_loop_run_of_a by lia.
  rewrite Z.add_0_l, Z2Nat.id by lia.
  unfold flush_if_full. change (out_pos (run_of_a n stream)) with n.
  replace (n =? OUT_BUF_SIZE) with false by (symmetry; apply Z.eqb_neq; lia).
  reflexivity.
Qed.

Lemma wf_run_of_a i stream : 0 <= i < OUT_BUF_SIZE -> wf_data (run_of_a i stream).
Proof.
  unfold wf_data, run_of_a, MAX_DISTANCE, OUT_BUF_SIZE. intros Hi.
  cbn [back_refs out_buf out_pos back_refs_pos byte_pos buf_pos].
  rewrite !length_app, !length_replicate.
  repeat split; lia.
Qed.

(** C3, as stated for every state of the window, fails when the stream
    takes no further byte. [stream_full_example] is the data of the decoder
    after it emitted 8191 bytes [a], which wait in the output buffer; the
    first copy of the run fills the buffer, the flush that follows writes
    nothing, and the back reference with distance 1 and length 3 returns
    [false] having emitted one copy of the last byte instead of three. *)
Lemma self_referential_run_stream_full :
  let d := stream_full_example in
  handle_literal_codes (replicate (Z.to_nat 8191) (byte_of 97)) 8191
    (blocks_data [] 0 (mk_FILE [] 0)) = Ret tt d /\
  wf_data d /\
  emitted_so_far 8191 d /\
  last_emitted d = byte_of 97 /\
  returned (copy_bytes_from_distance 3 1 d) = None /\
  failure (copy_bytes_from_distance 3 1 d) = Some "Could not write full buffer" /\
  emitted (copy_bytes_from_distance 3 1 d) = map byte_val (output d) ++ [97].
Proof.
  cbv zeta. split; [|split].
  - apply handle_literal_codes_run_of_a. unfold OUT_BUF_SIZE. lia.
  - apply wf_run_of_a. unfold OUT_BUF_SIZE. lia.
  - repeat split; vm_compute; reflexivity.
Qed.

(** C3 (amended): once at least one byte has been emitted, a back reference
    with distance 1 and length [k], [3 <= k <= 258], on a stream that takes
    the output, succeeds and emits [k] copies of the byte emitted last:
    they are appended to the output and stored in the window at the [k]
    positions from the old write position on. More generally, whatever the
    stream, for every distance the window can serve and every length up to
    258 the copy is the byte-by-byte copy, in which a byte emitted earlier
    in the copy can be the source of a later one. *)
Theorem self_referential_run d n k :
  wf_data d -> emitted_so_far n d -> 1 <= n -> 3 <= k <= 258 ->
  (sink_accepts k d ->
   exists d',
     copy_bytes_from_distance k 1 d = Ret tt d' /\
     emits (replicate (Z.to_nat k) (last_emitted d)) d d' /\
     (forall i, 0 <= i < k ->
        idx (back_refs d') ((back_refs_pos d + i) mod MAX_DISTANCE)
        = last_emitted d) /\
     wf_data d' /\ emitted_so_far (n + k) d') /\
  (forall length distance,
     1 <= distance <= MAX_DISTANCE -> distance <= n -> 0 <= length <= 258 ->
     copy_bytes_from_distance length distance d
     = bytewise_copy (Z.to_nat length) distance d).
Proof.
  intros Hwf He Hn Hk.
  pose proof Hwf as (Hbr & Hob & Hop & Hpos & Hby & Hbp).
  split.
  - intros Hs.
    assert (Hg : back_refs_filled d = true \/ 1 <= back_refs_pos d)
      by (apply (emitted_guard n); unfold MAX_DISTANCE; [exact Hpos|exact He|lia|lia]).
    assert (H1 : 1 <= 1 <= MAX_DISTANCE) by (unfold MAX_DISTANCE; lia).
    assert (Hstart : 0 <= (back_refs_pos d - 1) mod MAX_DISTANCE < MAX_DISTANCE)
      by (apply Z.mod_pos_bound; unfold MAX_DISTANCE; lia).
    unfold copy_bytes_from_distance.
    rewrite copy_start_mod by assumption.
    replace (negb (back_refs_filled d)
             && (back_refs_pos d <=? (back_refs_pos d - 1) mod MAX_DISTANCE))
      with false.
    2:{ symmetry. destruct Hg as [->|Hle]; [reflexivity|].
        apply andb_false_iff. right. apply Z.leb_gt.
        unfold MAX_DISTANCE in *. Z.div_mod_to_equations. lia. }
    destruct (gather_bytes_cyc d 1 H1 Hpos Hbr (Z.to_nat k) 0
                ((back_refs_pos d - 1) mod MAX_DISTANCE)
                (replicate 258 "000"%byte))
      as (bytes & Hgb & Hl & Ht); try lia.
    { apply length_replicate. }
    { rewrite Z.mod_1_r, Z.add_0_r, Z.mod_mod; [reflexivity|].
      unfold MAX_DISTANCE. lia. }
    rewrite Hgb.
    change (Z.to_nat 0) with 0%nat in Ht. rewrite Nat.add_0_l in Ht.
    simpl take in Ht. rewrite app_nil_l, cyc_bytes_distance_1 in Ht by assumption.
    fold (last_emitted d) in Ht.
    destruct (handle_literal_codes_ok bytes k d Hwf) as (d' & E & Hem & Hwf');
      [lia|exact Hs|].
    rewrite Ht in Hem.
    exists d'. split; [exact E|]. split; [exact Hem|]. split; [|split].
    + intros i Hi. destruct Hem as (_ & _ & _ & _ & Hbr' & _).
      rewrite Hbr'. rewrite <- (Z2Nat.id i) by lia.
      apply window_put_lookup; try assumption.
      * rewrite length_replicate. unfold MAX_DISTANCE. lia.
      * apply lookup_replicate_2. lia.
    + exact Hwf'.
    + replace k with (Z.of_nat (length (replicate (Z.to_nat k) (last_emitted d)))) at 1
        by (rewrite length_replicate; lia).
      eapply emitted_so_far_emits; eauto. lia.
  - intros length distance Hd Hdn Hlen.
    apply copy_is_bytewise; try assumption.
    apply (emitted_guard n); try assumption. lia.
Qed.

Lemma self_referential_run_witness :
  (sink_accepts 3 one_byte_emitted ->
   exists d',
     copy_bytes_from_distance 3 1 one_byte_emitted = Ret tt d' /\
     emits (replicate (Z.to_nat 3) (last_emitted one_byte_emitted))
       one_byte_emitted d' /\
     (forall i, 0 <= i < 3 ->
        idx (back_refs d') ((back_refs_pos one_byte_emitted + i) mod MAX_DISTANCE)
        = last_emitted one_byte_emitted) /\
     wf_data d' /\ emitted_so_far (1 + 3) d') /\
  (forall length distance,
     1 <= distance <= MAX_DISTANCE -> distance <= 1 -> 0 <= length <= 258 ->
     copy_bytes_from_distance length distance one_byte_emitted
     = bytewise_copy (Z.to_nat length) distance one_byte_emitted).
Proof.
  apply (self_referential_run one_byte_emitted 1 3).
  - exact wf_one_byte_emitted.
  - reflexivity.
  - lia.
  - lia.
Defined.

(** The stream of [one_byte_emitted] has room for the three copies. *)
Lemma sink_accepts_one_byte_emitted : sink_accepts 3 one_byte_emitted.
Proof. unfold sink_accepts. vm_compute. discriminate. Qed.

(** C4: the distance that [distance_from_distance_code] returns lies
    between 1 and 32768; [copy_bytes_from_distance] accepts it only if it
    does not exceed the number of bytes emitted so far; and while the
    window has not wrapped, a back reference whose start position
    [(w - d) mod 32768] is not below [w] fails with the data, hence the
    output, unchanged. *)
Theorem back_reference_distance code length n d dist d1 :
  wf_data d -> emitted_so_far n d ->
  distance_from_distance_code code d = Ret dist d1 ->
  1 <= dist <= 32768 /\
  (returned (copy_bytes_from_distance length dist d1) = Some tt -> dist <= n) /\
  (back_refs_filled d1 = false ->
   back_refs_pos d1 <= (back_refs_pos d1 - dist) mod 32768 ->
   copy_bytes_from_distance length dist d1
   = Fail "Invalid back reference for copying bytes" d1 /\ output d1 = output d).
Proof.
  intros Hwf He Hd.
  pose proof Hwf as (Hbr & Hob & Hop & Hpos & Hby & Hbp).
  destruct (distance_from_distance_code_spec _ _ _ _ Hd) as (Hr & Hco).
  destruct (cursor_only_frame _ _ Hco) as (Hb1 & Hp1 & Hf1 & Ho1).
  split; [exact Hr|].
  assert (Hcs : copy_start d1 dist = (back_refs_pos d1 - dist) mod 32768).
  { apply copy_start_mod; unfold MAX_DISTANCE in *; lia. }
  split.
  - unfold copy_bytes_from_distance. rewrite Hcs.
    destruct (negb (back_refs_filled d1)
              && (back_refs_pos d1 <=? (back_refs_pos d1 - dist) mod 32768)) eqn:G;
      [discriminate|].
    intros _. unfold emitted_so_far in He. rewrite Hf1, Hp1 in G.
    destruct (back_refs_filled d); [unfold MAX_DISTANCE in *; lia|].
    simpl in G. apply Z.leb_gt in G. subst n.
    unfold MAX_DISTANCE in *. Z.div_mod_to_equations. lia.
  - intros Hnf Hge. split; [|exact Ho1].
    unfold copy_bytes_from_distance. rewrite Hcs, Hnf.
    apply Z.leb_le in Hge. rewrite Hge. reflexivity.
Qed.

Lemma back_reference_distance_witness :
  1 <= 2 <= 32768 /\
  (returned (copy_bytes_from_distance 3 2 one_byte_emitted) = Some tt -> 2 <= 1) /\
  (back_refs_filled one_byte_emitted = false ->
   back_refs_pos one_byte_emitted <= (back_refs_pos one_byte_emitted - 2) mod 32768 ->
   copy_bytes_from_distance 3 2 one_byte_emitted
   = Fail "Invalid back reference for copying bytes" one_byte_emitted /\
   output one_byte_emitted = output one_byte_emitted).
Proof.
  apply (back_reference_distance 1 3 1 one_byte_emitted 2 one_byte_emitted).
  - exact wf_one_byte_emitted.
  - reflexivity.
  - reflexivity.
Defined.

(** ** The code length sequence of a dynamic block *)

Lemma lor_lt_pow2 a b n :
  0 <= n -> 0 <= a < 2 ^ n -> 0 <= b < 2 ^ n -> 0 <= Z.lor a b < 2 ^ n.
Proof.
  intros Hn Ha Hb. split; [apply Z.lor_nonneg; lia|].
  destruct (Z.eq_dec a 0) as [->|Ha0]; [rewrite Z.lor_0_l; lia|].
  destruct (Z.eq_dec b 0) as [->|Hb0]; [rewrite Z.lor_0_r; lia|].
  assert (0 < Z.lor a b).
  { assert (0 <= Z.lor a b) by (apply Z.lor_nonneg; lia).
    assert (Z.lor a b <> 0) by (rewrite Z.lor_eq_0_iff; lia). lia. }
  apply Z.log2_lt_pow2; [lia|].
  rewrite Z.log2_lor by lia.
  apply Z.max_lub_lt; apply Z.log2_lt_pow2; lia.
Qed.

Lemma read_bits_loop_range n : forall i tmp d v d',
  0 <= i -> i + Z.of_nat n <= 16 -> 0 <= tmp < 2 ^ i ->
  read_bits_loop n i tmp d = Ret v d' -> 0 <= v < 2 ^ (i + Z.of_nat n).
Proof.
  induction n as [|n IH]; intros i tmp d v d' Hi Hn Ht; simpl read_bits_loop.
  - intros [= <- _]. rewrite Z.add_0_r. exact Ht.
  - destruct (buf_len d <=? buf_pos d); [discriminate|].
    intros H. apply IH in H; try lia.
    + replace (i + Z.of_nat (S n)) with (i + 1 + Z.of_nat n) by lia. exact H.
    + assert (Hp : 2 ^ (i + 1) = 2 * 2 ^ i) by (rewrite Z.pow_add_r; lia).
      assert (H16 : 2 ^ (i + 1) <= 2 ^ 16) by (apply Z.pow_le_mono_r; lia).
      change (2 ^ 16) with 65536 in H16.
      destruct (current_bit d); [|lia].
      rewrite Z.shiftl_1_l.
      assert (Hu : u16 (2 ^ i) = 2 ^ i) by (apply Z.mod_small; lia).
      rewrite Hu.
      pose proof (lor_lt_pow2 tmp (2 ^ i) (i + 1) ltac:(lia) ltac:(lia) ltac:(lia)) as Hl.
      unfold u16. rewrite Z.mod_small; lia.
Qed.

Lemma read_bits_range bits d v d' :
  0 <= bits <= 16 -> read_bits bits d = Ret v d' -> 0 <= v < 2 ^ bits.
Proof.
  intros Hb H. apply read_bits_loop_range in H; try lia.
  rewrite Z2Nat.id in H by lia. exact H.
Qed.

Section CodeLengths.
Variables ll_code_cnt d_code_cnt : Z.
Hypothesis Hll : 257 <= ll_code_cnt <= 286.
Hypothesis Hdc : 1 <= d_code_cnt <= 32.
Let total := ll_code_cnt + d_code_cnt.

Lemma store_code_length_spec v st :
  length (ll_code_lengths st) = 286%nat ->
  length (d_code_lengths st) = 32%nat ->
  0 <= cnt st < total ->
  let st' := store_code_length ll_code_cnt v st in
  lengths_so_far ll_code_cnt st' = lengths_so_far ll_code_cnt st ++ [v] /\
  cnt st' = cnt st + 1 /\
  previous_code_length st' = previous_code_length st /\
  length (ll_code_lengths st') = 286%nat /\
  length (d_code_lengths st') = 32%nat.
Proof.
  intros Hl Hd Hc. subst total. cbv zeta.
  assert (Hu : u16 (cnt st + 1) = cnt st + 1) by (apply Z.mod_small; lia).
  unfold lengths_so_far, store_code_length.
  destruct (cnt st <? ll_code_cnt) eqn:E; cbn [cnt ll_code_lengths d_code_lengths previous_code_length];
    rewrite Hu, ?upd_length;
    (split; [|auto]);
    rewrite seqZ_app by lia; rewrite map_app; simpl; f_equal.
  - apply Z.ltb_lt in E. apply map_ext_in. intros k Hk.
    rewrite <- list_elem_of_In, elem_of_seqZ in Hk.
    unfold code_length_at; simpl. destruct (k <? ll_code_cnt); [|reflexivity].
    apply idx_upd_ne; lia.
  - apply Z.ltb_lt in E. unfold code_length_at; simpl.
    change (Z.of_nat 0) with 0. rewrite !Z.add_0_l. apply Z.ltb_lt in E. rewrite E.
    f_equal. apply idx_upd_eq. lia.
  - apply Z.ltb_ge in E. apply map_ext_in. intros k Hk.
    rewrite <- list_elem_of_In, elem_of_seqZ in Hk.
    unfold code_length_at; simpl. destruct (k <? ll_code_cnt) eqn:E'; [reflexivity|].
    apply Z.ltb_ge in E'. apply idx_upd_ne; lia.
  - apply Z.ltb_ge in E. unfold code_length_at; simpl.
    change (Z.of_nat 0) with 0. rewrite !Z.add_0_l. apply Z.ltb_ge in E. rewrite E.
    f_equal. apply idx_upd_eq. lia.
Qed.

Lemma repeat_code_length_ok n v : forall st d,
  length (ll_code_lengths st) = 286%nat ->
  length (d_code_lengths st) = 32%nat ->
  0 <= cnt st -> cnt st + Z.of_nat n <= total ->
  exists st',
    repeat_code_length n ll_code_cnt total v st d = Ret st' d /\
    lengths_so_far ll_code_cnt st' = lengths_so_far ll_code_cnt st ++ replicate n v /\
    cnt st' = cnt st + Z.of_nat n /\
    previous_code_length st' = previous_code_length st /\
    length (ll_code_lengths st') = 286%nat /\
    length (d_code_lengths st') = 32%nat.
Proof.
  induction n as [|n IH]; intros st d Hl Hd Hc Hn.
  - exists st. simpl. rewrite app_nil_r, Z.add_0_r. auto 10.
  - cbn [repeat_code_length].
    replace (total <=? cnt st) with false by (symmetry; apply Z.leb_gt; lia).
    destruct (store_code_length_spec v st Hl Hd ltac:(lia))
      as (Hs & Hc' & Hp' & Hl' & Hd').
    destruct (IH (store_code_length ll_code_cnt v st) d Hl' Hd' ltac:(lia) ltac:(lia))
      as (st' & E & Hs2 & Hc2 & Hp2 & Hl2 & Hd2).
    exists st'. split; [exact E|].
    rewrite Hs2, Hs, Hc2, Hc', Hp2, Hp', <- app_assoc.
    repeat split; auto. lia.
Qed.

Lemma repeat_code_length_overrun n v : forall st d,
  length (ll_code_lengths st) = 286%nat ->
  length (d_code_lengths st) = 32%nat ->
  0 <= cnt st <= total -> total < cnt st + Z.of_nat n ->
  repeat_code_length n ll_code_cnt total v st d
  = Fail "Repeat code exceeds HLIT + HDIST + 258 values in block type 10" d.
Proof.
  induction n as [|n IH]; intros st d Hl Hd Hc Hn; [lia|].
  cbn [repeat_code_length].
  destruct (total <=? cnt st) eqn:E; [reflexivity|].
  apply Z.leb_gt in E.
  destruct (store_code_length_spec v st Hl Hd ltac:(lia))
    as (Hs & Hc' & Hp' & Hl' & Hd').
  apply IH; auto; lia.
Qed.

Lemma last_app_replicate {A} (l : list A) n v :
  (0 < n)%nat -> last (l ++ replicate n v) = Some v.
Proof.
  intros Hn. destruct n as [|n]; [lia|].
  rewrite replicate_S_end, app_assoc. apply last_snoc.
Qed.

Lemma code_length_action_literal code st d :
  cl_wf ll_code_cnt d_code_cnt st -> cnt st < total -> 0 <= code <= 15 ->
  exists st',
    code_length_action ll_code_cnt total code st d = Ret st' d /\
    lengths_so_far ll_code_cnt st' = lengths_so_far ll_code_cnt st ++ [code] /\
    cnt st' = cnt st + 1 /\
    cl_wf ll_code_cnt d_code_cnt st'.
Proof.
  intros (Hl & Hd & Hc & Hp) Hlt Hcode. unfold code_length_action.
  replace (code =? 16) with false by (symmetry; apply Z.eqb_neq; lia).
  replace ((0 <=? code) && (code <=? 15)) with true
    by (symmetry; apply andb_true_iff; split; apply Z.leb_le; lia).
  simpl andb. cbv iota.
  destruct (store_code_length_spec code (set_previous code st) Hl Hd ltac:(simpl; lia))
    as (Hs & Hc' & Hp' & Hl' & Hd').
  eexists. split; [reflexivity|].
  change (lengths_so_far ll_code_cnt (set_previous code st))
    with (lengths_so_far ll_code_cnt st) in Hs.
  simpl in Hc', Hp'.
  split; [exact Hs|]. split; [exact Hc'|].
  split; [exact Hl'|]. split; [exact Hd'|]. split; [subst total; lia|].
  intros _. rewrite Hs, Hp'. apply last_snoc.
Qed.

Lemma code_length_action_repeat code st d e d1 :
  cl_wf ll_code_cnt d_code_cnt st -> cnt st < total ->
  code = 16 \/ code = 17 \/ code = 18 ->
  (code = 16 -> 0 < cnt st) ->
  read_bits (repeat_extra_bits code) d = Ret e d1 ->
  0 <= e < 2 ^ repeat_extra_bits code /\
  (cnt st + (e + repeat_base code) <= total ->
   exists st',
     code_length_action ll_code_cnt total code st d = Ret st' d1 /\
     lengths_so_far ll_code_cnt st'
     = lengths_so_far ll_code_cnt st
       ++ replicate (Z.to_nat (e + repeat_base code)) (repeat_value code st) /\
     cnt st' = cnt st + (e + repeat_base code) /\
     cl_wf ll_code_cnt d_code_cnt st') /\
  (total < cnt st + (e + repeat_base code) ->
   code_length_action ll_code_cnt total code st d
   = Fail "Repeat code exceeds HLIT + HDIST + 258 values in block type 10" d1).
Proof.
  intros (Hl & Hd & Hc & Hp) Hlt Hcode H16 Hread.
  assert (He : 0 <= e < 2 ^ repeat_extra_bits code).
  { apply (read_bits_range _ d e d1); [|exact Hread].
    unfold repeat_extra_bits. destruct Hcode as [->|[->| ->]]; simpl; lia. }
  split; [exact He|].
  assert (He' : 0 <= e < 128).
  { unfold repeat_extra_bits in He.
    destruct Hcode as [->|[->| ->]]; simpl in He; lia. }
  assert (Hb : 3 <= repeat_base code <= 11)
    by (unfold repeat_base; destruct (code =? 18); lia).
  assert (Hu : u16 (e + repeat_base code) = e + repeat_base code)
    by (apply Z.mod_small; lia).
  assert (Hact : code_length_action ll_code_cnt total code st d
                 = repeat_code_length (Z.to_nat (e + repeat_base code)) ll_code_cnt
                     total (repeat_value code st)
                     (set_previous (repeat_value code st) st) d1).
  { unfold code_length_action, repeat_value, repeat_base, repeat_extra_bits in *.
    destruct Hcode as [->|[->| ->]]; simpl in *.
    - replace (cnt st =? 0) with false by (symmetry; apply Z.eqb_neq; lia).
      unfold bind. rewrite Hread, Hu. destruct st; reflexivity.
    - unfold bind. rewrite Hread, Hu. reflexivity.
    - unfold bind. rewrite Hread, Hu. reflexivity. }
  rewrite Hact. split.
  - intros Hfit.
    destruct (repeat_code_length_ok (Z.to_nat (e + repeat_base code))
                (repeat_value code st) (set_previous (repeat_value code st) st) d1
                Hl Hd ltac:(simpl; lia) ltac:(simpl; lia))
      as (st' & E & Hs & Hc' & Hp' & Hl' & Hd').
    exists st'. split; [exact E|].
    change (lengths_so_far ll_code_cnt (set_previous (repeat_value code st) st))
      with (lengths_so_far ll_code_cnt st) in Hs.
    simpl in Hc', Hp'. rewrite Z2Nat.id in Hc' by lia.
    split; [exact Hs|]. split; [exact Hc'|].
    split; [exact Hl'|]. split; [exact Hd'|]. split; [subst total; lia|].
    intros _. rewrite Hs, Hp'. apply last_app_replicate. lia.
  - intros Hover. apply repeat_code_length_overrun; auto; simpl; lia.
Qed.
End CodeLengths.

Lemma finishes_bind {A B} (m : M A) (k : A -> M B) :
  finishes m -> (forall a, finishes (k a)) -> finishes (bind m k).
Proof.
  intros Hm Hk d. unfold bind. destruct (m d) eqn:E; try discriminate.
  - apply Hk.
  - specialize (Hm d). congruence.
Qed.

Lemma finishes_read_bits_loop n : forall i tmp, finishes (read_bits_loop n i tmp).
Proof.
  induction n as [|n IH]; intros i tmp d; simpl; [discriminate|].
  destruct (buf_len d <=? buf_pos d); [discriminate|]. apply IH.
Qed.

Lemma finishes_read_bits bits : finishes (read_bits bits).
Proof. apply finishes_read_bits_loop. Qed.

Lemma finishes_find_huffman_code root : finishes (find_huffman_code root).
Proof.
  intros d. destruct root as [|l r c]; [discriminate|].
  unfold find_huffman_code. revert d.
  induction (Node l r c) as [|l' IHl r' IHr c']; intros d; simpl; [discriminate|].
  destruct (c' =? -1); [|discriminate].
  destruct (buf_len d <=? buf_pos d); [discriminate|].
  destruct (current_bit d).
  - destruct r'; [discriminate|]. apply IHr.
  - destruct l'; [discriminate|]. apply IHl.
Qed.

Lemma finishes_repeat_code_length n ll_code_cnt total v : forall st,
  finishes (repeat_code_length n ll_code_cnt total v st).
Proof.
  induction n as [|n IH]; intros st d; simpl; [discriminate|].
  destruct (total <=? cnt st); [discriminate|]. apply IH.
Qed.

Lemma finishes_code_length_action ll_code_cnt total code st :
  finishes (code_length_action ll_code_cnt total code st).
Proof.
  unfold code_length_action.
  destruct (_ && _); [intros d; discriminate|].
  destruct (_ && _); [intros d; discriminate|].
  destruct (code =? 16).
  { apply finishes_bind; [apply finishes_read_bits|].
    intros; apply finishes_repeat_code_length. }
  destruct (_ || _); [|intros d; discriminate].
  apply finishes_bind; [apply finishes_read_bits|].
  intros; apply finishes_repeat_code_length.
Qed.

Lemma finishes_code_length_step ll_code_cnt total cl_root st :
  finishes (code_length_step ll_code_cnt total cl_root st).
Proof.
  apply finishes_bind; [apply finishes_find_huffman_code|]. intros edge.
  destruct (negb _); [intros d; discriminate|].
  apply finishes_code_length_action.
Qed.

Section CodeLengthLoop.
Variables ll_code_cnt d_code_cnt : Z.
Hypothesis Hll : 257 <= ll_code_cnt <= 286.
Hypothesis Hdc : 1 <= d_code_cnt <= 32.
Let total := ll_code_cnt + d_code_cnt.

Lemma code_length_action_progress code st d st' d' :
  cl_wf ll_code_cnt d_code_cnt st -> cnt st < total -> 0 <= code <= 18 ->
  code_length_action ll_code_cnt total code st d = Ret st' d' ->
  cl_wf ll_code_cnt d_code_cnt st' /\ cnt st < cnt st'.
Proof.
  intros Hwf Hlt Hcode Hact.
  destruct (Z_le_gt_dec code 15) as [Hlit|Hrep].
  - destruct (code_length_action_literal ll_code_cnt d_code_cnt Hll Hdc code st d Hwf Hlt)
      as (st1 & E & _ & Hc & Hwf1); [lia|].
    fold total in E. rewrite E in Hact. injection Hact as <- <-. split; [exact Hwf1|lia].
  - assert (Hc : code = 16 \/ code = 17 \/ code = 18) by lia.
    destruct (Z.eq_dec (cnt st) 0) as [H0|H0].
    { destruct (Z.eq_dec code 16) as [->|Hne].
      - unfold code_length_action in Hact. rewrite H0 in Hact. discriminate.
      - destruct (read_bits (repeat_extra_bits code) d) as [e d1| | |] eqn:Er.
        + destruct (code_length_action_repeat ll_code_cnt d_code_cnt Hll Hdc code st d e d1
                      Hwf Hlt Hc ltac:(lia) Er) as (He & Hok & Hover).
          assert (Hb : 3 <= repeat_base code)
            by (unfold repeat_base; destruct (code =? 18); lia).
          destruct (Z_le_gt_dec (cnt st + (e + repeat_base code)) total) as [Hfit|Hno].
          * destruct (Hok Hfit) as (st1 & E & _ & Hc1 & Hwf1).
            fold total in E. rewrite E in Hact. injection Hact as <- <-.
            split; [exact Hwf1|lia].
          * fold total in Hover. rewrite Hover in Hact by lia. discriminate.
        + exfalso. unfold code_length_action, repeat_extra_bits in *.
          destruct Hc as [->|[->| ->]]; try lia; simpl in *;
            unfold bind in Hact; rewrite Er in Hact; discriminate.
        + exfalso. unfold code_length_action, repeat_extra_bits in *.
          destruct Hc as [->|[->| ->]]; try lia; simpl in *;
            unfold bind in Hact; rewrite Er in Hact; discriminate.
        + exfalso. unfold code_length_action, repeat_extra_bits in *.
          destruct Hc as [->|[->| ->]]; try lia; simpl in *;
            unfold bind in Hact; rewrite Er in Hact; discriminate. }
    assert (Hpos : 0 < cnt st) by (destruct Hwf as (_ & _ & ? & _); lia).
    destruct (read_bits (repeat_extra_bits code) d) as [e d1| | |] eqn:Er.
    + destruct (code_length_action_repeat ll_code_cnt d_code_cnt Hll Hdc code st d e d1
                  Hwf Hlt Hc ltac:(lia) Er) as (He & Hok & Hover).
      assert (Hb : 3 <= repeat_base code)
        by (unfold repeat_base; destruct (code =? 18); lia).
      destruct (Z_le_gt_dec (cnt st + (e + repeat_base code)) total) as [Hfit|Hno].
      * destruct (Hok Hfit) as (st1 & E & _ & Hc1 & Hwf1).
        fold total in E. rewrite E in Hact. injection Hact as <- <-.
        split; [exact Hwf1|lia].
      * fold total in Hover. rewrite Hover in Hact by lia. discriminate.
    + exfalso. unfold code_length_action, repeat_extra_bits in *.
      apply Z.eqb_neq in H0.
      destruct Hc as [->|[->| ->]]; simpl in *; try rewrite H0 in Hact; simpl in *;
        unfold bind in Hact; rewrite Er in Hact; discriminate.
    + exfalso. unfold code_length_action, repeat_extra_bits in *.
      apply Z.eqb_neq in H0.
      destruct Hc as [->|[->| ->]]; simpl in *; try rewrite H0 in Hact; simpl in *;
        unfold bind in Hact; rewrite Er in Hact; discriminate.
    + exfalso. unfold code_length_action, repeat_extra_bits in *.
      apply Z.eqb_neq in H0.
      destruct Hc as [->|[->| ->]]; simpl in *; try rewrite H0 in Hact; simpl in *;
        unfold bind in Hact; rewrite Er in Hact; discriminate.
Qed.

Lemma code_length_step_progress cl_root st d st' d' :
  cl_wf ll_code_cnt d_code_cnt st -> cnt st < total ->
  code_length_step ll_code_cnt total cl_root st d = Ret st' d' ->
  cl_wf ll_code_cnt d_code_cnt st' /\ cnt st < cnt st'.
Proof.
  intros Hwf Hlt. unfold code_length_step, bind.
  destruct (find_huffman_code cl_root d) as [edge d1| | |]; try discriminate.
  destruct (is_code_length_code (node_code edge)) eqn:E; simpl; [|discriminate].
  unfold is_code_length_code in E. apply andb_true_iff in E as [E1 E2].
  apply Z.leb_le in E1, E2.
  assert (Hu : u8 (node_code edge) = node_code edge) by (apply Z.mod_small; lia).
  rewrite Hu. apply code_length_action_progress; auto; lia.
Qed.

Lemma read_code_lengths_total cl_root fuel : forall st d,
  cl_wf ll_code_cnt d_code_cnt st -> total - cnt st <= Z.of_nat fuel ->
  read_code_lengths fuel ll_code_cnt total cl_root st d <> OutOfFuel /\
  forall st' d',
    read_code_lengths fuel ll_code_cnt total cl_root st d = Ret st' d' ->
    cnt st' = total /\ cl_wf ll_code_cnt d_code_cnt st'.
Proof.
  induction fuel as [|fuel IH]; intros st d Hwf Hf.
  - simpl. destruct (cnt st <? total) eqn:E.
    + apply Z.ltb_lt in E. lia.
    + apply Z.ltb_ge in E. split; [discriminate|].
      intros st' d' [= <- <-]. destruct Hwf as (? & ? & ? & ?).
      split; [subst total; lia|repeat split; auto; lia].
  - cbn [read_code_lengths]. destruct (cnt st <? total) eqn:E.
    + apply Z.ltb_lt in E. unfold bind.
      pose proof (finishes_code_length_step ll_code_cnt total cl_root st d) as Hfin.
      destruct (code_length_step ll_code_cnt total cl_root st d) as [st1 d1| | |] eqn:Es;
        try (split; [discriminate|discriminate]); [|congruence].
      destruct (code_length_step_progress _ _ _ _ _ Hwf E Es) as [Hwf1 Hlt1].
      apply IH; [exact Hwf1|lia].
    + apply Z.ltb_ge in E. split; [discriminate|].
      intros st' d' [= <- <-]. destruct Hwf as (? & ? & ? & ?).
      split; [subst total; lia|repeat split; auto; lia].
Qed.
End CodeLengthLoop.

Lemma cl_wf_initial ll_code_cnt d_code_cnt :
  0 <= ll_code_cnt + d_code_cnt -> cl_wf ll_code_cnt d_code_cnt cl_initial.
Proof.
  intros H. unfold cl_wf, cl_initial.
  cbn [ll_code_lengths d_code_lengths cnt previous_code_length].
  rewrite !length_replicate. repeat split; try lia.
Qed.

Lemma cl_reached_wf ll_code_cnt d_code_cnt cl_root st :
  257 <= ll_code_cnt <= 286 -> 1 <= d_code_cnt <= 32 ->
  cl_reached ll_code_cnt (ll_code_cnt + d_code_cnt) cl_root st ->
  cl_wf ll_code_cnt d_code_cnt st.
Proof.
  intros Hll Hdc Hr. induction Hr as [|st d st' d' _ IH Hlt Hstep].
  - apply cl_wf_initial. lia.
  - apply (code_length_step_progress ll_code_cnt d_code_cnt Hll Hdc
             cl_root st d st' d' IH Hlt Hstep).
Qed.

(** The three rounds that lead to [cl_example]. *)
Lemma cl_example_reached : cl_reached 257 (257 + 1) cl_example_root cl_example.
Proof.
  apply (cl_reached_round 257 (257 + 1) cl_example_root
           (mk_cl_state (replicate 286 0) (replicate 32 0) 0 253)
           (cl_example_data 2 0) cl_example (cl_example_data 2 2)).
  - apply (cl_reached_round 257 (257 + 1) cl_example_root
             (mk_cl_state (replicate 286 0) (replicate 32 0) 0 138)
             (cl_example_data 1 0) _ (cl_example_data 2 0)).
    + apply (cl_reached_round 257 (257 + 1) cl_example_root
               cl_initial (cl_example_data 0 0) _ (cl_example_data 1 0)).
      * apply cl_reached_entry.
      * simpl. lia.
      * vm_compute. reflexivity.
    + simpl. lia.
    + vm_compute. reflexivity.
  - simpl. lia.
  - vm_compute. reflexivity.
Qed.

(** The whole run: the loop of the code, started at the entry with the
    fuel [decompress_block_type_10] gives it, stores 253 zeros followed by
    five times the length 5. *)
Lemma cl_example_run :
  exists st',
    read_code_lengths (Z.to_nat (257 + 1)) 257 (257 + 1) cl_example_root
      cl_initial (cl_example_data 0 0)
    = Ret st' (cl_example_data 2 6) /\
    lengths_so_far 257 st' = replicate 253 0 ++ replicate 5 5.
Proof. eexists. split; vm_compute; reflexivity. Qed.

(** C7: at the start of any round of the code length loop, the locals being
    what the rounds before left and the count below the total
    [ll_code_cnt + d_code_cnt]: symbol 16 as the first symbol of the
    sequence ([cnt = 0]) fails; later it reads 2 extra bits giving a repeat
    count in 3..6 and appends that many copies of the code length emitted
    last, whatever symbol emitted it; a repeat symbol 16, 17 or 18 whose
    count would carry past the total fails; and the loop, given one round
    of fuel per missing length, always completes, a successful run having
    produced exactly [total] code lengths. *)
Theorem code_length_repeat_codes ll_code_cnt d_code_cnt cl_root st d d_round :
  257 <= ll_code_cnt <= 286 -> 1 <= d_code_cnt <= 32 ->
  cl_reached ll_code_cnt (ll_code_cnt + d_code_cnt) cl_root st ->
  cnt st < ll_code_cnt + d_code_cnt ->
  let total := ll_code_cnt + d_code_cnt in
  (cnt st = 0 ->
   lengths_so_far ll_code_cnt st = [] /\
   code_length_action ll_code_cnt total 16 st d
   = Fail "Repeat code 16 without any previous code length in block type 10" d) /\
  (0 < cnt st ->
   exists v,
     last (lengths_so_far ll_code_cnt st) = Some v /\
     forall e d1, read_bits 2 d = Ret e d1 ->
       3 <= e + 3 <= 6 /\
       (cnt st + (e + 3) <= total ->
        exists st',
          code_length_action ll_code_cnt total 16 st d = Ret st' d1 /\
          lengths_so_far ll_code_cnt st'
          = lengths_so_far ll_code_cnt st ++ replicate (Z.to_nat (e + 3)) v /\
          cnt st' = cnt st + (e + 3))) /\
  (forall code e d1,
     code = 16 \/ code = 17 \/ code = 18 -> (code = 16 -> 0 < cnt st) ->
     read_bits (repeat_extra_bits code) d = Ret e d1 ->
     total < cnt st + (e + repeat_base code) ->
     code_length_action ll_code_cnt total code st d
     = Fail "Repeat code exceeds HLIT + HDIST + 258 values in block type 10" d1) /\
  (forall fuel,
     total - cnt st <= Z.of_nat fuel ->
     read_code_lengths fuel ll_code_cnt total cl_root st d_round <> OutOfFuel /\
     forall st' d',
       read_code_lengths fuel ll_code_cnt total cl_root st d_round = Ret st' d' ->
       cnt st' = total /\
       length (lengths_so_far ll_code_cnt st') = Z.to_nat total).
Proof.
  intros Hll Hdc Hr Hlt. cbv zeta.
  pose proof (cl_reached_wf ll_code_cnt d_code_cnt cl_root st Hll Hdc Hr) as Hwf.
  split; [|split; [|split]].
  - intros H0. split.
    + unfold lengths_so_far. rewrite H0. reflexivity.
    + unfold code_length_action. rewrite H0. reflexivity.
  - intros Hpos. exists (previous_code_length st).
    split; [destruct Hwf as (_ & _ & _ & Hp); auto|].
    intros e d1 Hread.
    destruct (code_length_action_repeat ll_code_cnt d_code_cnt Hll Hdc 16 st d e d1
                Hwf Hlt ltac:(auto) ltac:(auto) Hread) as (He & Hok & _).
    change (2 ^ repeat_extra_bits 16) with 4 in He.
    change (repeat_base 16) with 3 in Hok.
    change (repeat_value 16 st) with (previous_code_length st) in Hok.
    split; [lia|].
    intros Hfit. destruct (Hok Hfit) as (st' & E & Hs & Hc & _).
    exists st'. auto.
  - intros code e d1 Hcode H16 Hread Hover.
    destruct (code_length_action_repeat ll_code_cnt d_code_cnt Hll Hdc code st d e d1
                Hwf Hlt Hcode H16 Hread) as (_ & _ & Hfail).
    apply Hfail. exact Hover.
  - intros fuel Hfuel.
    destruct (read_code_lengths_total ll_code_cnt d_code_cnt Hll Hdc cl_root fuel st d_round
                Hwf Hfuel) as [Hfin Hret].
    split; [exact Hfin|]. intros st' d' E.
    destruct (Hret st' d' E) as [Hc _]. split; [exact Hc|].
    unfold lengths_so_far. rewrite length_map, length_seqZ, Hc. reflexivity.
Qed.

Lemma code_length_repeat_codes_witness :
  let total := 257 + 1 in
  let st := cl_example in
  let d := cl_example_data 2 4 in
  let d_round := cl_example_data 2 2 in
  (cnt st = 0 ->
   lengths_so_far 257 st = [] /\
   code_length_action 257 total 16 st d
   = Fail "Repeat code 16 without any previous code length in block type 10" d) /\
  (0 < cnt st ->
   exists v,
     last (lengths_so_far 257 st) = Some v /\
     forall e d1, read_bits 2 d = Ret e d1 ->
       3 <= e + 3 <= 6 /\
       (cnt st + (e + 3) <= total ->
        exists st',
          code_length_action 257 total 16 st d = Ret st' d1 /\
          lengths_so_far 257 st'
          = lengths_so_far 257 st ++ replicate (Z.to_nat (e + 3)) v /\
          cnt st' = cnt st + (e + 3))) /\
  (forall code e d1,
     code = 16 \/ code = 17 \/ code = 18 -> (code = 16 -> 0 < cnt st) ->
     read_bits (repeat_extra_bits code) d = Ret e d1 ->
     total < cnt st + (e + repeat_base code) ->
     code_length_action 257 total code st d
     = Fail "Repeat code exceeds HLIT + HDIST + 258 values in block type 10" d1) /\
  (forall fuel,
     total - cnt st <= Z.of_nat fuel ->
     read_code_lengths fuel 257 total cl_example_root st d_round <> OutOfFuel /\
     forall st' d',
       read_code_lengths fuel 257 total cl_example_root st d_round = Ret st' d' ->
       cnt st' = total /\
       length (lengths_so_far 257 st') = Z.to_nat total).
Proof.
  apply (code_length_repeat_codes 257 1 cl_example_root cl_example
           (cl_example_data 2 4) (cl_example_data 2 2)).
  - lia.
  - lia.
  - exact cl_example_reached.
  - simpl. lia.
Defined.

(** What the statement of C7 says at [cl_example], with the input of the
    run: the symbol 16 read there has the extra bits 1 and appends four
    times the length 5, the length emitted last, which completes the 258
    lengths; the symbols 17 and 18 in its place would both have read the
    extra bits 5 and carried past the total; and the loop, entered there
    with the symbol 16 still to be read, returns with the count at the
    total. *)
Lemma cl_example_repeat :
  last (lengths_so_far 257 cl_example) = Some 5 /\
  read_bits 2 (cl_example_data 2 4) = Ret 1 (cl_example_data 2 6) /\
  (exists st',
     code_length_action 257 (257 + 1) 16 cl_example (cl_example_data 2 4)
     = Ret st' (cl_example_data 2 6) /\
     lengths_so_far 257 st' = lengths_so_far 257 cl_example ++ replicate 4 5 /\
     cnt st' = 257 + 1) /\
  read_bits 3 (cl_example_data 2 4) = Ret 5 (cl_example_data 2 7) /\
  read_bits 7 (cl_example_data 2 4) = Ret 5 (cl_example_data 3 3) /\
  code_length_action 257 (257 + 1) 17 cl_example (cl_example_data 2 4)
  = Fail "Repeat code exceeds HLIT + HDIST + 258 values in block type 10"
      (cl_example_data 2 7) /\
  code_length_action 257 (257 + 1) 18 cl_example (cl_example_data 2 4)
  = Fail "Repeat code exceeds HLIT + HDIST + 258 values in block type 10"
      (cl_example_data 3 3) /\
  (exists st',
     read_code_lengths 4 257 (257 + 1) cl_example_root cl_example (cl_example_data 2 2)
     = Ret st' (cl_example_data 2 6) /\
     cnt st' = 257 + 1).
Proof.
  split; [vm_compute; reflexivity|]. split; [vm_compute; reflexivity|].
  split; [eexists; repeat split; vm_compute; reflexivity|].
  split; [vm_compute; reflexivity|]. split; [vm_compute; reflexivity|].
  split; [vm_compute; reflexivity|]. split; [vm_compute; reflexivity|].
  eexists. split; vm_compute; reflexivity.
Qed.

(** ** The block loops come to an end *)

(** The loops [while (true)] of the fixed and dynamic blocks are modelled
    with fuel. Every round begins with [find_huffman_code] on an inner
    root, which reads at least one bit or fails, and nothing moves the
    cursor back; so [bits_left] rounds are enough and [OutOfFuel] is never
    the outcome of a block. *)

Lemma consumes_ret {A} (a : A) : consumes 0 (ret a).
Proof. intros d a' d' Hc [= _ <-]. split; [exact Hc|split; [reflexivity|lia]]. Qed.

Lemma consumes_fail {A} k msg : consumes k (@fail A msg).
Proof. intros d a d' _ H. discriminate. Qed.

Lemma consumes_weaken {A} k k' (m : M A) : k' <= k -> consumes k m -> consumes k' m.
Proof.
  intros Hk Hm d a d' Hc H. destruct (Hm d a d' Hc H) as (? & ? & ?).
  split; [assumption|split; [congruence|lia]].
Qed.

Lemma consumes_bind {A B} k1 k2 (m : M A) (f : A -> M B) :
  consumes k1 m -> (forall a, consumes k2 (f a)) -> consumes (k1 + k2) (bind m f).
Proof.
  intros Hm Hf d b d' Hc. unfold bind.
  destruct (m d) as [a d1| | |] eqn:E; try discriminate.
  intros H. destruct (Hm d a d1 Hc E) as (Hc1 & Hl1 & Hb1).
  destruct (Hf a d1 b d' Hc1 H) as (Hc2 & Hl2 & Hb2).
  split; [assumption|split; [congruence|lia]].
Qed.

Lemma increment_bit_position_consumes d :
  cursor_ok d ->
  cursor_ok (increment_bit_position d) /\
  buf_len (increment_bit_position d) = buf_len d /\
  bits_remaining (increment_bit_position d) + 1 = bits_remaining d.
Proof.
  unfold cursor_ok, increment_bit_position, bits_remaining, buf_len.
  intros Hc. destruct (byte_pos d =? 7) eqn:E; simpl.
  - apply Z.eqb_eq in E. lia.
  - apply Z.eqb_neq in E. lia.
Qed.

Lemma consumes_read_bits_loop n : forall i tmp, consumes 0 (read_bits_loop n i tmp).
Proof.
  induction n as [|n IH]; intros i tmp d v d' Hc; simpl.
  - intros [= _ <-]. split; [exact Hc|split; [reflexivity|lia]].
  - destruct (buf_len d <=? buf_pos d); [discriminate|]. intros H.
    destruct (increment_bit_position_consumes d Hc) as (Hc1 & Hl1 & Hb1).
    destruct (IH _ _ _ _ _ Hc1 H) as (Hc2 & Hl2 & Hb2).
    split; [assumption|split; [congruence|lia]].
Qed.

Lemma consumes_read_bits bits : consumes 0 (read_bits bits).
Proof. apply consumes_read_bits_loop. Qed.

Lemma consumes_find_huffman_code_from cur :
  consumes 0 (find_huffman_code_from cur).
Proof.
  induction cur as [|l IHl r IHr c]; intros d leaf d' Hc; simpl; [discriminate|].
  destruct (c =? -1).
  - destruct (buf_len d <=? buf_pos d); [discriminate|].
    destruct (increment_bit_position_consumes d Hc) as (Hc1 & Hl1 & Hb1).
    destruct (current_bit d).
    + destruct r as [|rl rr rc]; [discriminate|]. intros H.
      destruct (IHr _ _ _ Hc1 H) as (Hc2 & Hl2 & Hb2).
      split; [assumption|split; [congruence|lia]].
    + destruct l as [|ll lr lc]; [discriminate|]. intros H.
      destruct (IHl _ _ _ Hc1 H) as (Hc2 & Hl2 & Hb2).
      split; [assumption|split; [congruence|lia]].
  - intros [= _ <-]. split; [exact Hc|split; [reflexivity|lia]].
Qed.

Lemma consumes_find_huffman_code root :
  node_code root = -1 -> consumes 1 (find_huffman_code root).
Proof.
  destruct root as [|l r c]; [intros _ d a d' _ H; discriminate|].
  simpl. intros -> d leaf d' Hc. simpl.
  destruct (buf_len d <=? buf_pos d); [discriminate|].
  destruct (increment_bit_position_consumes d Hc) as (Hc1 & Hl1 & Hb1).
  destruct (current_bit d).
  - destruct r as [|rl rr rc]; [discriminate|]. intros H.
    destruct (consumes_find_huffman_code_from _ _ _ _ Hc1 H) as (Hc2 & Hl2 & Hb2).
    split; [assumption|split; [congruence|lia]].
  - destruct l as [|ll lr lc]; [discriminate|]. intros H.
    destruct (consumes_find_huffman_code_from _ _ _ _ Hc1 H) as (Hc2 & Hl2 & Hb2).
    split; [assumption|split; [congruence|lia]].
Qed.

Lemma consumes_flush_if_full : consumes 0 flush_if_full.
Proof.
  intros d a d' Hc. unfold flush_if_full.
  destruct (out_pos d =? OUT_BUF_SIZE).
  - destruct (fwrite _ _ _) as [k s]. destruct (negb _); [discriminate|].
    intros [= _ <-]. split; [exact Hc|split; [reflexivity|]].
    unfold bits_remaining, buf_len. simpl. lia.
  - intros [= _ <-]. split; [exact Hc|split; [reflexivity|lia]].
Qed.

Lemma consumes_handle_literal_codes_loop codes : consumes 0 (handle_literal_codes_loop codes).
Proof.
  induction codes as [|c rest IH]; [apply consumes_ret|].
  cbn [handle_literal_codes_loop].
  apply (consumes_bind 0 0); [apply consumes_flush_if_full|].
  intros _ d a d' Hc H.
  assert (Hc1 : cursor_ok (put_byte c d)) by exact Hc.
  destruct (IH _ _ _ Hc1 H) as (Hc2 & Hl2 & Hb2).
  split; [assumption|split; [exact Hl2|exact Hb2]].
Qed.

Lemma consumes_handle_literal_codes codes n : consumes 0 (handle_literal_codes codes n).
Proof.
  apply (consumes_bind 0 0); [apply consumes_handle_literal_codes_loop|].
  intros _. apply consumes_flush_if_full.
Qed.

Lemma consumes_length_from_length_code code : consumes 0 (length_from_length_code code).
Proof.
  unfold length_from_length_code. destruct (negb _); [apply consumes_fail|].
  apply (consumes_bind 0 0); [apply consumes_read_bits|]. intros e.
  destruct (_ && _); [apply consumes_fail|].
  destruct (_ || _); [apply consumes_fail|apply consumes_ret].
Qed.

Lemma consumes_distance_from_distance_code code :
  consumes 0 (distance_from_distance_code code).
Proof.
  unfold distance_from_distance_code. destruct (negb _); [apply consumes_fail|].
  apply (consumes_bind 0 0); [apply consumes_read_bits|]. intros e.
  destruct (_ || _); [apply consumes_fail|apply consumes_ret].
Qed.

Lemma consumes_copy_bytes_from_distance length distance :
  consumes 0 (copy_bytes_from_distance length distance).
Proof.
  intros d a d' Hc. unfold copy_bytes_from_distance.
  destruct (_ && _); [discriminate|].
  destruct (gather_bytes _ _ _ _ _ _); [|discriminate].
  apply consumes_handle_literal_codes. exact Hc.
Qed.

(** No bit is read at or beyond the end of the input: after a bit was read
    the count of the bits left is not negative. *)
Lemma increment_bit_position_nonneg d :
  cursor_ok d -> buf_pos d < buf_len d ->
  0 <= bits_remaining (increment_bit_position d).
Proof.
  unfold cursor_ok, increment_bit_position, bits_remaining, buf_len.
  intros Hc Hp. destruct (byte_pos d =? 7) eqn:E; simpl; lia.
Qed.

Lemma find_huffman_code_from_nonneg cur : forall d leaf d',
  cursor_ok d -> 0 <= bits_remaining d ->
  find_huffman_code_from cur d = Ret leaf d' -> 0 <= bits_remaining d'.
Proof.
  induction cur as [|l IHl r IHr c]; intros d leaf d' Hc Hb; simpl; [discriminate|].
  destruct (c =? -1).
  - destruct (buf_len d <=? buf_pos d) eqn:E; [discriminate|]. apply Z.leb_gt in E.
    destruct (increment_bit_position_consumes d Hc) as (Hc1 & _ & _).
    pose proof (increment_bit_position_nonneg d Hc E) as Hb1.
    destruct (current_bit d).
    + destruct r as [|rl rr rc]; [discriminate|]. apply IHr; assumption.
    + destruct l as [|ll lr lc]; [discriminate|]. apply IHl; assumption.
  - intros [= _ <-]. exact Hb.
Qed.

Lemma find_huffman_code_nonneg root d leaf d' :
  node_code root = -1 -> cursor_ok d ->
  find_huffman_code root d = Ret leaf d' -> 0 <= bits_remaining d'.
Proof.
  destruct root as [|l r c]; [discriminate|]. simpl. intros -> Hc. simpl.
  destruct (buf_len d <=? buf_pos d) eqn:E; [discriminate|]. apply Z.leb_gt in E.
  destruct (increment_bit_position_consumes d Hc) as (Hc1 & _ & _).
  pose proof (increment_bit_position_nonneg d Hc E) as Hb1.
  destruct (current_bit d).
  - destruct r as [|rl rr rc]; [discriminate|].
    apply find_huffman_code_from_nonneg; assumption.
  - destruct l as [|ll lr lc]; [discriminate|].
    apply find_huffman_code_from_nonneg; assumption.
Qed.

Lemma finishes_flush_if_full : finishes flush_if_full.
Proof.
  intros d. unfold flush_if_full. destruct (_ =? _); [|discriminate].
  destruct (fwrite _ _ _). destruct (negb _); discriminate.
Qed.

Lemma finishes_handle_literal_codes_loop codes : finishes (handle_literal_codes_loop codes).
Proof.
  induction codes as [|c rest IH]; [intros d; discriminate|].
  cbn [handle_literal_codes_loop].
  apply finishes_bind; [apply finishes_flush_if_full|]. intros _ d. apply IH.
Qed.

Lemma finishes_handle_literal_codes codes n : finishes (handle_literal_codes codes n).
Proof.
  apply finishes_bind; [apply finishes_handle_literal_codes_loop|].
  intros _. apply finishes_flush_if_full.
Qed.

Lemma finishes_length_from_length_code code : finishes (length_from_length_code code).
Proof.
  unfold length_from_length_code. destruct (negb _); [intros d; discriminate|].
  apply finishes_bind; [apply finishes_read_bits|]. intros e.
  destruct (_ && _); [intros d; discriminate|].
  destruct (_ || _); intros d; discriminate.
Qed.

Lemma finishes_distance_from_distance_code code :
  finishes (distance_from_distance_code code).
Proof.
  unfold distance_from_distance_code. destruct (negb _); [intros d; discriminate|].
  apply finishes_bind; [apply finishes_read_bits|]. intros e.
  destruct (_ || _); intros d; discriminate.
Qed.

Lemma finishes_copy_bytes_from_distance length distance :
  finishes (copy_bytes_from_distance length distance).
Proof.
  intros d. unfold copy_bytes_from_distance.
  destruct (_ && _); [discriminate|].
  destruct (gather_bytes _ _ _ _ _ _); [|discriminate].
  apply finishes_handle_literal_codes.
Qed.

(** A loop body after the symbol was read: it consumes no fuel of its own
    and hands over to the next round with no more bits left than before. *)
Lemma next_round_finishes (loop : M unit) (bound : Z) (m : M unit) d :
  (forall d', cursor_ok d' -> bits_remaining d' <= bound -> loop d' <> OutOfFuel) ->
  consumes 0 m -> finishes m -> cursor_ok d -> bits_remaining d <= bound ->
  bind m (fun _ => loop) d <> OutOfFuel.
Proof.
  intros Hloop Hm Hfm Hc Hb. unfold bind. specialize (Hfm d).
  destruct (m d) as [[] d1| | |] eqn:E; try discriminate; [|congruence].
  destruct (Hm d tt d1 Hc E) as (Hc1 & _ & Hb1). apply Hloop; [exact Hc1|lia].
Qed.

(** With more fuel than bits left, the loop of a fixed block does not run
    out of fuel: every round reads at least one bit. *)
Lemma expand_block_type_01_finishes root fuel : forall d,
  node_code root = -1 -> cursor_ok d ->
  bits_remaining d < Z.of_nat fuel -> (0 < fuel)%nat ->
  expand_block_type_01 fuel root d <> OutOfFuel.
Proof.
  induction fuel as [|fuel IH]; intros d Hroot Hc Hfuel Hpos; [lia|].
  cbn [expand_block_type_01]. unfold bind at 1.
  pose proof (finishes_find_huffman_code root d) as Hfin.
  destruct (find_huffman_code root d) as [edge d1| | |] eqn:E; try discriminate;
    [|congruence].
  destruct (consumes_find_huffman_code root Hroot d edge d1 Hc E) as (Hc1 & Hl1 & Hb1).
  pose proof (find_huffman_code_nonneg root d edge d1 Hroot Hc E) as Hn1.
  assert (Hloop : forall d', cursor_ok d' -> bits_remaining d' <= bits_remaining d1 ->
                    expand_block_type_01 fuel root d' <> OutOfFuel).
  { intros d' Hc' Hb'. apply IH; auto; lia. }
  destruct (negb _); [discriminate|].
  destruct (_ =? 256); [discriminate|].
  destruct (is_literal_code _).
  { apply (next_round_finishes _ (bits_remaining d1)); auto; try lia.
    - apply consumes_handle_literal_codes.
    - apply finishes_handle_literal_codes. }
  destruct (is_length_code _); [|apply Hloop; [exact Hc1|lia]].
  unfold bind at 1.
  pose proof (finishes_length_from_length_code (u16 (node_code edge)) d1) as Hf2.
  destruct (length_from_length_code _ d1) as [len d2| | |] eqn:E2; try discriminate;
    [|congruence].
  destruct (consumes_length_from_length_code _ _ _ _ Hc1 E2) as (Hc2 & _ & Hb2).
  unfold bind at 1.
  pose proof (finishes_read_bits 5 d2) as Hf3.
  destruct (read_bits 5 d2) as [tmp d3| | |] eqn:E3; try discriminate; [|congruence].
  destruct (consumes_read_bits _ _ _ _ Hc2 E3) as (Hc3 & _ & Hb3).
  unfold bind at 1.
  pose proof (finishes_distance_from_distance_code (u8 tmp) d3) as Hf4.
  destruct (distance_from_distance_code _ d3) as [dist d4| | |] eqn:E4;
    try discriminate; [|congruence].
  destruct (consumes_distance_from_distance_code _ _ _ _ Hc3 E4) as (Hc4 & _ & Hb4).
  apply (next_round_finishes _ (bits_remaining d1)); auto; try lia.
  - apply consumes_copy_bytes_from_distance.
  - apply finishes_copy_bytes_from_distance.
Qed.

Lemma bits_left_enough d :
  cursor_ok d -> bits_remaining d < Z.of_nat (bits_left d) /\ (0 < bits_left d)%nat.
Proof.
  unfold cursor_ok, bits_remaining, bits_left. intros Hc. split; lia.
Qed.

(** A fixed block never runs out of fuel. *)
Theorem decompress_block_type_01_finishes d :
  cursor_ok d -> decompress_block_type_01 d <> OutOfFuel.
Proof.
  intros Hc. unfold decompress_block_type_01.
  destruct (is_null _); [discriminate|].
  destruct (bits_left_enough d Hc) as [H1 H2].
  apply expand_block_type_01_finishes; auto.
Qed.

(** *** Dynamic blocks *)

Lemma insert_code_root_code n c j i cur cur' :
  insert_code n c j i cur = Some cur' -> node_code cur' = node_code cur.
Proof.
  destruct n as [|n]; simpl; [congruence|].
  destruct cur as [|l r sym]; [discriminate|].
  destruct (String.get _ _) as [bit|]; [|discriminate].
  destruct (_ && _); [discriminate|].
  destruct (_ || _); [discriminate|].
  destruct (insert_code _ _ _ _ _); [|discriminate].
  intros [= <-]. destruct (Ascii.eqb bit "1"); reflexivity.
Qed.

Lemma insert_codes_root_code codes : forall i root,
  is_null (insert_codes codes i root) = false ->
  node_code (insert_codes codes i root) = node_code root.
Proof.
  induction codes as [|c rest IH]; intros i root; simpl; [reflexivity|].
  destruct (insert_code _ _ _ _ _) as [root'|] eqn:E; [|discriminate].
  intros H. rewrite (IH _ _ H). exact (insert_code_root_code _ _ _ _ _ _ E).
Qed.

(** The root of a tree that was built is an inner node. *)
Lemma create_huffman_tree_root L limit :
  is_null (create_huffman_tree L limit) = false ->
  node_code (create_huffman_tree L limit) = -1.
Proof.
  unfold create_huffman_tree. destruct (288 <? _); [discriminate|].
  destruct (generate_huffman_codes L limit) as [codes|]; [|discriminate].
  intros H. rewrite (insert_codes_root_code _ _ _ H). reflexivity.
Qed.

Lemma consumes_find_huffman_code_any root : consumes 0 (find_huffman_code root).
Proof.
  destruct root as [|l r c]; [intros d a d' _ H; discriminate|].
  apply consumes_find_huffman_code_from.
Qed.

Lemma expand_block_type_10_finishes ll_root d_root fuel : forall d,
  node_code ll_root = -1 -> cursor_ok d ->
  bits_remaining d < Z.of_nat fuel -> (0 < fuel)%nat ->
  expand_block_type_10 fuel ll_root d_root d <> OutOfFuel.
Proof.
  induction fuel as [|fuel IH]; intros d Hroot Hc Hfuel Hpos; [lia|].
  cbn [expand_block_type_10]. unfold bind at 1.
  pose proof (finishes_find_huffman_code ll_root d) as Hfin.
  destruct (find_huffman_code ll_root d) as [edge d1| | |] eqn:E; try discriminate;
    [|congruence].
  destruct (consumes_find_huffman_code ll_root Hroot d edge d1 Hc E) as (Hc1 & Hl1 & Hb1).
  pose proof (find_huffman_code_nonneg ll_root d edge d1 Hroot Hc E) as Hn1.
  assert (Hloop : forall d', cursor_ok d' -> bits_remaining d' <= bits_remaining d1 ->
                    expand_block_type_10 fuel ll_root d_root d' <> OutOfFuel).
  { intros d' Hc' Hb'. apply IH; auto; lia. }
  destruct (negb _); [discriminate|].
  destruct (_ =? 256); [discriminate|].
  destruct (is_literal_code _).
  { apply (next_round_finishes _ (bits_remaining d1)); auto; try lia.
    - apply consumes_handle_literal_codes.
    - apply finishes_handle_literal_codes. }
  destruct (is_length_code _); [|apply Hloop; [exact Hc1|lia]].
  unfold bind at 1.
  pose proof (finishes_length_from_length_code (u16 (node_code edge)) d1) as Hf2.
  destruct (length_from_length_code _ d1) as [len d2| | |] eqn:E2; try discriminate;
    [|congruence].
  destruct (consumes_length_from_length_code _ _ _ _ Hc1 E2) as (Hc2 & _ & Hb2).
  unfold bind at 1.
  pose proof (finishes_find_huffman_code d_root d2) as Hf3.
  destruct (find_huffman_code d_root d2) as [tmp d3| | |] eqn:E3; try discriminate;
    [|congruence].
  destruct (consumes_find_huffman_code_any _ _ _ _ Hc2 E3) as (Hc3 & _ & Hb3).
  unfold bind at 1.
  pose proof (finishes_distance_from_distance_code (u8 (node_code tmp)) d3) as Hf4.
  destruct (distance_from_distance_code _ d3) as [dist d4| | |] eqn:E4;
    try discriminate; [|congruence].
  destruct (consumes_distance_from_distance_code _ _ _ _ Hc3 E4) as (Hc4 & _ & Hb4).
  apply (next_round_finishes _ (bits_remaining d1)); auto; try lia.
  - apply consumes_copy_bytes_from_distance.
  - apply finishes_copy_bytes_from_distance.
Qed.

Lemma finishes_from_bind {A B} (m : M A) (k : A -> M B) (Q : A -> Prop) :
  consumes 0 m -> finishes m -> returns m Q ->
  (forall a, Q a -> finishes_from (k a)) -> finishes_from (bind m k).
Proof.
  intros Hm Hfm HQ Hk d Hc. unfold bind. specialize (Hfm d).
  destruct (m d) as [a d1| | |] eqn:E; try discriminate; [|congruence].
  destruct (Hm d a d1 Hc E) as (Hc1 & _). apply Hk; [|exact Hc1].
  exact (HQ d a d1 E).
Qed.

Lemma finishes_from_fail {A} msg : finishes_from (@fail A msg).
Proof. intros d _. discriminate. Qed.

Lemma consumes_read_cl_code_lengths n : forall i l,
  consumes 0 (read_cl_code_lengths n i l).
Proof.
  induction n as [|n IH]; intros i l; cbn [read_cl_code_lengths].
  - apply consumes_ret.
  - apply (consumes_bind 0 0); [|intros tmp; apply IH].
    apply consumes_read_bits.
Qed.

Lemma finishes_read_cl_code_lengths n : forall i l,
  finishes (read_cl_code_lengths n i l).
Proof.
  induction n as [|n IH]; intros i l; cbn [read_cl_code_lengths].
  - intros d. discriminate.
  - apply finishes_bind; [apply finishes_read_bits|]. intros tmp. apply IH.
Qed.

Lemma consumes_repeat_code_length n ll_code_cnt total v : forall st,
  consumes 0 (repeat_code_length n ll_code_cnt total v st).
Proof.
  induction n as [|n IH]; intros st; cbn [repeat_code_length].
  - apply consumes_ret.
  - destruct (total <=? cnt st); [apply consumes_fail|apply IH].
Qed.

Lemma consumes_code_length_action ll_code_cnt total code st :
  consumes 0 (code_length_action ll_code_cnt total code st).
Proof.
  unfold code_length_action.
  destruct (_ && _); [apply consumes_fail|].
  destruct (_ && _); [apply consumes_ret|].
  destruct (code =? 16).
  { apply (consumes_bind 0 0); [apply consumes_read_bits|]. intros tmp.
    apply consumes_repeat_code_length. }
  destruct (_ || _); [|apply consumes_ret].
  apply (consumes_bind 0 0); [apply consumes_read_bits|]. intros tmp.
  apply consumes_repeat_code_length.
Qed.

Lemma consumes_code_length_step ll_code_cnt total cl_root st :
  consumes 0 (code_length_step ll_code_cnt total cl_root st).
Proof.
  apply (consumes_bind 0 0); [apply consumes_find_huffman_code_any|]. intros edge.
  destruct (negb _); [apply consumes_fail|apply consumes_code_length_action].
Qed.

Lemma consumes_read_code_lengths ll_code_cnt total cl_root fuel : forall st,
  consumes 0 (read_code_lengths fuel ll_code_cnt total cl_root st).
Proof.
  induction fuel as [|fuel IH]; intros st; cbn [read_code_lengths];
    destruct (cnt st <? total); try apply consumes_ret.
  - intros d a d' _ H. discriminate.
  - apply (consumes_bind 0 0); [apply consumes_code_length_step|]. intros st'.
    apply IH.
Qed.

Lemma expand_from_cursor ll_root d_root :
  node_code ll_root = -1 ->
  finishes_from (fun d => expand_block_type_10 (bits_left d) ll_root d_root d).
Proof.
  intros Hroot d Hc. destruct (bits_left_enough d Hc) as [H1 H2].
  apply expand_block_type_10_finishes; assumption.
Qed.

Ltac check_guard E :=
  match goal with
  | |- finishes_from (if ?b then _ else _) =>
      destruct b eqn:E; [apply finishes_from_fail|]
  end.

(** A dynamic block never runs out of fuel either: the code length loop
    gets one round for each code length, the expansion loop one for each
    bit left. *)
Theorem decompress_block_type_10_finishes d :
  cursor_ok d -> decompress_block_type_10 d <> OutOfFuel.
Proof.
  revert d. change (finishes_from decompress_block_type_10).
  unfold decompress_block_type_10.
  eapply finishes_from_bind;
    [apply consumes_read_bits|apply finishes_read_bits|
     intros d v d'; exact (read_bits_range 5 d v d' ltac:(lia))|].
  intros hlit Hhlit. cbv beta in Hhlit.
  check_guard Ell.
  eapply finishes_from_bind;
    [apply consumes_read_bits|apply finishes_read_bits|
     intros d v d'; exact (read_bits_range 5 d v d' ltac:(lia))|].
  intros hdist Hhdist. cbv beta in Hhdist.
  check_guard Ed.
  eapply finishes_from_bind;
    [apply consumes_read_bits|apply finishes_read_bits|
     intros d v d'; exact (read_bits_range 4 d v d' ltac:(lia))|].
  intros hclen Hhclen. cbv beta in Hhclen.
  check_guard Ecl.
  eapply finishes_from_bind with (Q := fun _ => True);
    [apply consumes_read_cl_code_lengths|apply finishes_read_cl_code_lengths|
     intros ? ? ? _; exact I|].
  intros cl _.
  check_guard Ecl_root.
  apply orb_false_iff in Ell as [Ell1 Ell2]. apply Z.ltb_ge in Ell1, Ell2.
  apply orb_false_iff in Ed as [Ed1 Ed2]. apply Z.ltb_ge in Ed1, Ed2.
  set (ll_code_cnt := u16 (u8 hlit + 257)) in *.
  set (d_code_cnt := u8 (u8 hdist + 1)) in *.
  assert (Ht : u16 (ll_code_cnt + d_code_cnt) = ll_code_cnt + d_code_cnt)
    by (apply Z.mod_small; lia).
  rewrite Ht.
  eapply finishes_from_bind with (Q := fun _ => True);
    [apply consumes_read_code_lengths| |intros ? ? ? _; exact I|].
  { intros d0.
    apply (read_code_lengths_total ll_code_cnt d_code_cnt ltac:(lia) ltac:(lia)).
    - apply cl_wf_initial. lia.
    - cbn [cnt]. lia. }
  intros st _.
  check_guard Enull. check_guard Ednull.
  apply expand_from_cursor. apply create_huffman_tree_root. exact Enull.
Qed.

(** ** Building the tree *)

Lemma subtree_NULL p : subtree NULL p = NULL.
Proof. destruct p; reflexivity. Qed.

Lemma subtree_fresh c p : p <> [] -> subtree (Node NULL NULL c) p = NULL.
Proof. destruct p as [|[] p]; [congruence| |]; intros _; simpl; apply subtree_NULL. Qed.

Lemma subtree_app t p q : subtree t (p ++ q) = subtree (subtree t p) q.
Proof.
  revert t. induction p as [|b p IH]; intros t; [reflexivity|].
  simpl. destruct t; [symmetry; apply subtree_NULL|]. apply IH.
Qed.


Lemma subtree_cons t b q : subtree t (b :: q) = subtree (child b t) q.
Proof. destruct t; simpl; [symmetry; apply subtree_NULL|reflexivity]. Qed.

Lemma child_with_child b b' t c :
  t <> NULL -> child b' (with_child b t c) = if Bool.eqb b b' then c else child b' t.
Proof. destruct t; [congruence|]. intros _. destruct b, b'; reflexivity. Qed.

Lemma node_code_with_child b t c : node_code (with_child b t c) = node_code t.
Proof. destruct t; [reflexivity|]. destruct b; reflexivity. Qed.

(* one round of the insertion loop, on a non-null node *)
Lemma insert_path_cons b p' i cur :
  cur <> NULL ->
  insert_path (b :: p') i cur =
    let tmp := child b cur in
    match p' with
    | [] => if is_null tmp then Some (with_child b cur (Node NULL NULL i)) else None
    | _ :: _ =>
        if negb (is_null tmp) && negb (node_code tmp =? -1) then None
        else
          match insert_path p' i (if is_null tmp then Node NULL NULL (-1) else tmp) with
          | None => None
          | Some tmp' => Some (with_child b cur tmp')
          end
    end.
Proof.
  destruct cur as [|l r sym]; [congruence|]. intros _.
  cbn [insert_path child with_child]. cbv zeta.
  destruct p' as [|b' p''].
  - cbn [andb negb orb]. destruct (if b then r else l) eqn:E; simpl.
    + destruct b; reflexivity.
    + reflexivity.
  - cbn [andb negb orb]. reflexivity.
Qed.

Lemma leaf_at_NULL q : ~ leaf_at NULL q.
Proof. unfold leaf_at. rewrite subtree_NULL. simpl. congruence. Qed.

Lemma leaf_at_fresh q : ~ leaf_at (Node NULL NULL (-1)) q.
Proof.
  unfold leaf_at. destruct q as [|b q]; [simpl; congruence|].
  rewrite subtree_fresh by congruence. simpl. congruence.
Qed.

Lemma insert_path_not_null p : forall i cur cur',
  insert_path p i cur = Some cur' -> cur <> NULL -> cur' <> NULL.
Proof.
  destruct p as [|b p']; intros i cur cur' H Hc; [simpl in H; congruence|].
  rewrite insert_path_cons in H by assumption. cbv zeta in H.
  destruct cur as [|l r s]; [congruence|].
  destruct p'.
  - destruct (is_null _); [|discriminate]. injection H as <-. destruct b; discriminate.
  - destruct (_ && _); [discriminate|]. destruct (insert_path _ _ _); [|discriminate].
    injection H as <-. destruct b; discriminate.
Qed.

Lemma insert_path_root_code p : forall i cur cur',
  insert_path p i cur = Some cur' -> p <> [] -> node_code cur' = node_code cur.
Proof.
  destruct p as [|b p']; intros i cur cur' H Hp; [congruence|].
  destruct cur as [|l r s]; [discriminate|].
  set (cur := Node l r s) in *.
  rewrite insert_path_cons in H by discriminate. cbv zeta in H.
  destruct p'.
  - destruct (is_null _); [|discriminate]. injection H as <-. destruct b; reflexivity.
  - destruct (_ && _); [discriminate|]. destruct (insert_path _ _ _); [|discriminate].
    injection H as <-. destruct b; reflexivity.
Qed.

(* the leaves after an insertion: the old ones and the new path *)
Lemma insert_path_leaf p : forall i cur cur' q,
  insert_path p i cur = Some cur' -> p <> [] -> i <> -1 ->
  (leaf_at cur' q <-> leaf_at cur q \/ q = p).
Proof.
  induction p as [|b p' IH]; intros i cur cur' q H Hp Hi; [congruence|].
  destruct cur as [|l r s]; [discriminate|].
  set (cur := Node l r s) in *.
  assert (Hcur : cur <> NULL) by discriminate.
  rewrite insert_path_cons in H by assumption. cbv zeta in H.
  destruct q as [|b' q'].
  { (* the root keeps its symbol *)
    unfold leaf_at. simpl subtree.
    assert (node_code cur' = node_code cur).
    { destruct p'.
      - destruct (is_null _); [|discriminate]. injection H as <-. destruct b; reflexivity.
      - destruct (_ && _); [discriminate|]. destruct (insert_path _ _ _); [|discriminate].
        injection H as <-. destruct b; reflexivity. }
    rewrite H0. split; [auto|]. intros [?|?]; [assumption|discriminate]. }
  unfold leaf_at. rewrite !subtree_cons. fold (leaf_at (child b' cur') q') (leaf_at (child b' cur) q').
  destruct p' as [|b'' p''].
  - destruct (is_null (child b cur)) eqn:En; [|discriminate].
    assert (cur' = with_child b cur (Node NULL NULL i)) as -> by congruence. clear H.
    rewrite child_with_child by assumption.
    destruct (Bool.eqb b b') eqn:Eb.
    + apply Bool.eqb_prop in Eb. subst b'.
      destruct (child b cur) eqn:Ec; [|discriminate].
      split.
      * intros Hl. right. destruct q' as [|? ?]; [reflexivity|].
        exfalso. unfold leaf_at in Hl. rewrite subtree_fresh in Hl by congruence.
        simpl in Hl. congruence.
      * intros [Hl|Hq]; [exfalso; exact (leaf_at_NULL _ Hl)|].
        injection Hq as ->. unfold leaf_at. simpl. exact Hi.
    + split; [auto|]. intros [?|Hq]; [assumption|].
      injection Hq as -> _. destruct b; discriminate.
  - destruct (negb (is_null (child b cur)) && negb (node_code (child b cur) =? -1));
      [discriminate|].
    destruct (insert_path (b'' :: p'') i _) as [tmp'|] eqn:Ei; [|discriminate].
    assert (cur' = with_child b cur tmp') as -> by congruence. clear H.
    rewrite child_with_child by assumption.
    destruct (Bool.eqb b b') eqn:Eb.
    + apply Bool.eqb_prop in Eb. subst b'.
      rewrite (IH i _ tmp' q' Ei) by (congruence || assumption).
      destruct (child b cur) eqn:Ec; simpl is_null; cbv iota.
      * split; intros [Hl|Hq]; try (right; congruence).
        -- exfalso; exact (leaf_at_fresh _ Hl).
        -- exfalso; exact (leaf_at_NULL _ Hl).
      * split; intros [Hl|Hq]; auto; right; congruence.
    + split; [auto|]. intros [?|Hq]; [assumption|].
      injection Hq as -> _. destruct b; discriminate.
Qed.

Lemma exists_at_NULL q : ~ exists_at NULL q.
Proof. unfold exists_at. rewrite subtree_NULL. congruence. Qed.

Lemma exists_at_fresh c q : exists_at (Node NULL NULL c) q <-> q = [].
Proof.
  unfold exists_at. destruct q as [|b q].
  - simpl. split; [reflexivity|discriminate].
  - rewrite subtree_fresh by congruence. split; [congruence|discriminate].
Qed.

Lemma prefix_cons_iff {A} (x y : A) l1 l2 :
  x :: l1 `prefix_of` y :: l2 <-> x = y /\ l1 `prefix_of` l2.
Proof.
  split.
  - intros H. split; [eapply prefix_cons_inv_1; eauto|eapply prefix_cons_inv_2; eauto].
  - intros [-> H]. apply prefix_cons. exact H.
Qed.

(* the nodes after an insertion: the old ones and those along the new path *)
Lemma insert_path_exists p : forall i cur cur' q,
  insert_path p i cur = Some cur' -> p <> [] ->
  (exists_at cur' q <-> exists_at cur q \/ q `prefix_of` p).
Proof.
  induction p as [|b p' IH]; intros i cur cur' q H Hp; [congruence|].
  destruct cur as [|l r s]; [discriminate|].
  set (cur := Node l r s) in *.
  assert (Hcur : cur <> NULL) by discriminate.
  destruct q as [|b' q'].
  { pose proof (insert_path_not_null _ _ _ _ H Hcur).
    unfold exists_at; simpl. split; [intros _; right; apply prefix_nil|auto]. }
  rewrite insert_path_cons in H by assumption. cbv zeta in H.
  unfold exists_at. rewrite !subtree_cons.
  fold (exists_at (child b' cur') q') (exists_at (child b' cur) q').
  rewrite prefix_cons_iff.
  destruct p' as [|b'' p''].
  - destruct (is_null (child b cur)) eqn:En; [|discriminate].
    assert (cur' = with_child b cur (Node NULL NULL i)) as -> by congruence. clear H.
    rewrite child_with_child by assumption.
    destruct (Bool.eqb b b') eqn:Eb.
    + apply Bool.eqb_prop in Eb. subst b'.
      destruct (child b cur) eqn:Ec; [|discriminate].
      rewrite exists_at_fresh. split.
      * intros ->. right. split; [reflexivity|apply prefix_nil].
      * intros [He|[_ Hq]]; [exfalso; exact (exists_at_NULL _ He)|].
        apply prefix_nil_inv. exact Hq.
    + split; [auto|]. intros [?|[-> _]]; [assumption|].
      destruct b; discriminate.
  - destruct (negb (is_null (child b cur)) && negb (node_code (child b cur) =? -1));
      [discriminate|].
    destruct (insert_path (b'' :: p'') i _) as [tmp'|] eqn:Ei; [|discriminate].
    assert (cur' = with_child b cur tmp') as -> by congruence. clear H.
    rewrite child_with_child by assumption.
    destruct (Bool.eqb b b') eqn:Eb.
    + apply Bool.eqb_prop in Eb. subst b'.
      rewrite (IH i _ tmp' q' Ei) by congruence.
      destruct (child b cur) eqn:Ec; simpl is_null; cbv iota.
      * rewrite exists_at_fresh. split.
        -- intros [->|Hq]; right; (split; [reflexivity|]); [apply prefix_nil|exact Hq].
        -- intros [He|[_ Hq]]; [exfalso; exact (exists_at_NULL _ He)|auto].
      * split; intros [He|Hq]; auto. right. tauto.
    + split; [auto|]. intros [?|[-> _]]; [assumption|].
      destruct b; discriminate.
Qed.

(* when an insertion fails *)
Lemma insert_path_None p : forall i cur,
  cur <> NULL -> p <> [] ->
  (insert_path p i cur = None <->
   (exists q k, p = q ++ k /\ q <> [] /\ k <> [] /\ leaf_at cur q)
   \/ exists_at cur p).
Proof.
  induction p as [|b p' IH]; intros i cur Hcur Hp; [congruence|].
  rewrite insert_path_cons by assumption. cbv zeta.
  destruct p' as [|b'' p''].
  - unfold exists_at. rewrite subtree_cons. simpl subtree.
    destruct (child b cur) eqn:Ec; simpl is_null; cbv iota.
    + split; [discriminate|]. intros [(q & k & E & Hq & Hk & _)|He]; [|congruence].
      exfalso. destruct q as [|? [|? ?]]; destruct k; simpl in E; congruence.
    + split; [intros _; right; discriminate|reflexivity].
  - set (p' := b'' :: p'') in *.
    assert (Hp' : p' <> []) by discriminate.
    assert (Hsplit : forall P : list bool -> Prop,
               (exists q k, b :: p' = q ++ k /\ q <> [] /\ k <> [] /\ P q) <->
               P [b] \/ exists q' k, p' = q' ++ k /\ q' <> [] /\ k <> [] /\ P (b :: q')).
    { intros P. split.
      - intros (q & k & E & Hq & Hk & HP). destruct q as [|x q']; [congruence|].
        simpl in E. injection E as <- E. destruct q' as [|y q''].
        + left. exact HP.
        + right. exists (y :: q''), k. repeat split; auto; discriminate.
      - intros [HP|(q' & k & E & Hq & Hk & HP)].
        + exists [b], p'. repeat split; auto; discriminate.
        + exists (b :: q'), k. rewrite E. repeat split; auto; discriminate. }
    rewrite Hsplit. unfold exists_at at 1. rewrite subtree_cons.
    fold (exists_at (child b cur) p').
    assert (Hleaf : forall q', leaf_at cur (b :: q') <-> leaf_at (child b cur) q').
    { intros q'. unfold leaf_at. rewrite subtree_cons. reflexivity. }
    rewrite Hleaf.
    destruct (child b cur) as [|l' r' c'] eqn:Ec; simpl is_null; cbn [negb andb]; cbv iota.
    + (* a fresh node: the rest of the path always goes in *)
      destruct (insert_path p' i (Node NULL NULL (-1))) as [t'|] eqn:Ei.
      * split; [discriminate|]. intros [[Hl|(q' & k & E & Hq & Hk & Hl)]|He].
        -- exfalso. exact (leaf_at_NULL _ Hl).
        -- exfalso. rewrite Hleaf in Hl. exact (leaf_at_NULL _ Hl).
        -- exfalso. exact (exists_at_NULL _ He).
      * exfalso. apply IH in Ei; [|discriminate|assumption].
        destruct Ei as [(q' & k & E & Hq & Hk & Hl)|He].
        -- exact (leaf_at_fresh _ Hl).
        -- apply exists_at_fresh in He. congruence.
    + unfold leaf_at at 1. simpl subtree. simpl node_code.
      destruct (c' =? -1) eqn:Ecode; simpl negb; cbv iota.
      * apply Z.eqb_eq in Ecode. subst c'.
        destruct (insert_path p' i (Node l' r' (-1))) as [t'|] eqn:Ei.
        -- split; [discriminate|]. intros Hbad. exfalso.
           assert (Hn : insert_path p' i (Node l' r' (-1)) = None); [|congruence].
           apply IH; [discriminate|assumption|].
           destruct Hbad as [[Hl|(q' & k & E & Hq & Hk & Hl)]|He].
           ++ congruence.
           ++ left. exists q', k. rewrite Hleaf in Hl. auto.
           ++ right. exact He.
        -- split; [intros _|reflexivity].
           apply IH in Ei; [|discriminate|assumption].
           destruct Ei as [(q' & k & E & Hq & Hk & Hl)|He].
           ++ left. right. exists q', k. rewrite Hleaf. auto.
           ++ right. exact He.
      * apply Z.eqb_neq in Ecode. split; [intros _|reflexivity].
        left. left. exact Ecode.
Qed.

Lemma trie_of_root : trie_of (Node NULL NULL (-1)) [].
Proof.
  split; [discriminate|]. split; [apply not_elem_of_nil|]. split.
  - intros q. split; [intros H; exfalso; exact (leaf_at_fresh _ H)|].
    intros H. exfalso. exact (not_elem_of_nil _ H).
  - intros q Hq. rewrite exists_at_fresh. split; [congruence|].
    intros (s & Hs & _). exfalso. exact (not_elem_of_nil _ Hs).
Qed.

Lemma insert_path_trie t used p i :
  trie_of t used -> p <> [] -> i <> -1 ->
  (insert_path p i t = None <-> exists s, s ∈ used /\ comparable s p) /\
  (forall t', insert_path p i t = Some t' -> trie_of t' (p :: used)).
Proof.
  intros (Ht & Hnil & Hleaf & Hex) Hp Hi. split.
  - rewrite insert_path_None by assumption. rewrite (Hex p Hp). split.
    + intros [(q & k & E & Hq & Hk & Hl)|(s & Hs & Hps)].
      * exists q. split; [apply Hleaf; exact Hl|]. left. exists k. exact E.
      * exists s. split; [exact Hs|]. right. exact Hps.
    + intros (s & Hs & [[k E]|Hps]).
      * destruct k as [|x k].
        -- right. exists s. split; [exact Hs|]. rewrite app_nil_r in E. subst. reflexivity.
        -- left. exists s, (x :: k). repeat split; auto.
           ++ intros ->. contradiction.
           ++ apply Hleaf. exact Hs.
      * right. exists s. auto.
  - intros t' H. split; [eapply insert_path_not_null; eauto|]. split.
    { rewrite elem_of_cons. intros [E|E]; [congruence|contradiction]. }
    split.
    + intros q. rewrite (insert_path_leaf _ _ _ _ q H Hp Hi), Hleaf, elem_of_cons. tauto.
    + intros q Hq. rewrite (insert_path_exists _ _ _ _ q H Hp), (Hex q Hq). split.
      * intros [(s & Hs & Hqs)|Hqp].
        -- exists s. split; [apply elem_of_cons; auto|exact Hqs].
        -- exists p. split; [apply elem_of_cons; auto|exact Hqp].
      * intros (s & Hs & Hqs). apply elem_of_cons in Hs as [->|Hs]; [auto|].
        left. exists s. auto.
Qed.

Lemma clash_nil used : ~ clash used [].
Proof.
  intros [(j & p & s & H & _)|(j & k & p & q & _ & H & _)]; discriminate.
Qed.

Lemma clash_cons_nil used rest : clash used ([] :: rest) <-> clash used rest.
Proof.
  split.
  - intros [(j & p & s & H & Hp & Hs & Hc)|(j & k & p & q & Hjk & Hj & Hk & Hp & Hq & Hc)].
    + destruct j as [|j]; simpl in H; [congruence|]. left. exists j, p, s. auto.
    + destruct j as [|j]; simpl in Hj; [congruence|].
      destruct k as [|k]; [lia|]. simpl in Hk.
      right. exists j, k, p, q. repeat split; auto. lia.
  - intros [(j & p & s & H & Hp & Hs & Hc)|(j & k & p & q & Hjk & Hj & Hk & Hp & Hq & Hc)].
    + left. exists (S j), p, s. auto.
    + right. exists (S j), (S k), p, q. repeat split; auto. lia.
Qed.

Lemma clash_cons used p rest :
  p <> [] ->
  (clash used (p :: rest) <-> (exists s, s ∈ used /\ comparable s p) \/ clash (p :: used) rest).
Proof.
  intros Hp. split.
  - intros [(j & p' & s & H & Hp' & Hs & Hc)|(j & k & p' & q & Hjk & Hj & Hk & Hp' & Hq & Hc)].
    + destruct j as [|j]; simpl in H.
      * injection H as <-. left. exists s. auto.
      * right. left. exists j, p', s. repeat split; auto. apply elem_of_cons. auto.
    + destruct k as [|k]; [lia|]. simpl in Hk. destruct j as [|j]; simpl in Hj.
      * injection Hj as <-. right. left. exists k, q, p. repeat split; auto.
        apply elem_of_cons. auto.
      * right. right. exists j, k, p', q. repeat split; auto. lia.
  - intros [(s & Hs & Hc)|[(j & p' & s & H & Hp' & Hs & Hc)|(j & k & p' & q & Hjk & Hj & Hk & Hp' & Hq & Hc)]].
    + left. exists 0%nat, p, s. auto.
    + apply elem_of_cons in Hs as [->|Hs].
      * right. exists 0%nat, (S j), p, p'. repeat split; auto. lia.
      * left. exists (S j), p', s. auto.
    + right. exists (S j), (S k), p', q. repeat split; auto. lia.
Qed.

Lemma insert_paths_NULL ps : forall i t used,
  0 <= i -> trie_of t used ->
  (insert_paths ps i t = NULL <-> clash used ps).
Proof.
  induction ps as [|p rest IH]; intros i t used Hi Ht.
  - simpl. split; [intros H; destruct Ht as (Hn & _); congruence|].
    intros H. exfalso. exact (clash_nil _ H).
  - destruct p as [|b p'].
    + simpl. rewrite clash_cons_nil. apply IH; [lia|exact Ht].
    + cbn [insert_paths]. rewrite clash_cons by discriminate.
      destruct (insert_path_trie t used (b :: p') i Ht ltac:(discriminate) ltac:(lia))
        as [Hnone Hsome].
      destruct (insert_path (b :: p') i t) as [t'|] eqn:E.
      * rewrite (IH (i + 1) t' ((b :: p') :: used)) by (try lia; auto).
        split; [auto|]. intros [Hc|Hc]; [|exact Hc].
        apply Hnone in Hc. discriminate.
      * split; [intros _; left; apply Hnone; reflexivity|reflexivity].
Qed.

Lemma length_bits_of s : length (bits_of s) = String.length s.
Proof. induction s; simpl; congruence. Qed.

Lemma get_bits_of s : forall j,
  all_bits s -> (j < String.length s)%nat ->
  exists ch, String.get j s = Some ch /\ (ch = "0"%char \/ ch = "1"%char) /\
             bits_of s !! j = Some (Ascii.eqb ch "1").
Proof.
  induction s as [|c s IH]; intros j Hb Hj; simpl in *; [lia|].
  destruct Hb as [Hc Hb]. destruct j as [|j].
  - exists c. auto.
  - apply IH; [exact Hb|lia].
Qed.

Lemma insert_code_path c i : 
  wf_code c ->
  forall n j cur, Z.of_nat n + j = len c -> 0 <= j ->
  insert_code n c j i cur = insert_path (drop (Z.to_nat j) (code_path c)) i cur.
Proof.
  intros (Hlen & Hsl & Hbits) n.
  induction n as [|n IH]; intros j cur Hn Hj.
  - rewrite drop_ge; [reflexivity|].
    unfold code_path. rewrite length_bits_of, Hsl. lia.
  - cbn [insert_code].
    destruct (get_bits_of (huffman_code c) (Z.to_nat j) Hbits ltac:(lia))
      as (ch & Hget & Hch & Hlk).
    rewrite Hget. fold (code_path c) in Hlk.
    rewrite (drop_S _ _ _ Hlk).
    replace (S (Z.to_nat j)) with (Z.to_nat (j + 1)) by lia.
    cbn [insert_path].
    destruct cur as [|l r sym]; [reflexivity|].
    replace (negb (Ascii.eqb ch "1") && negb (Ascii.eqb ch "0")) with false
      by (destruct Hch as [-> | ->]; reflexivity).
    assert (Hlast : (j =? len c - 1)
                    = match drop (Z.to_nat (j + 1)) (code_path c) with
                      | [] => true | _ :: _ => false end).
    { destruct n as [|n].
      - rewrite drop_ge by (unfold code_path; rewrite length_bits_of, Hsl; lia).
        apply Z.eqb_eq. lia.
      - destruct (drop (Z.to_nat (j + 1)) (code_path c)) eqn:Ed.
        + exfalso. apply (f_equal length) in Ed. rewrite length_drop in Ed.
          unfold code_path in Ed. rewrite length_bits_of, Hsl in Ed. simpl in Ed. lia.
        + apply Z.eqb_neq. lia. }
    cbv zeta. rewrite <- Hlast.
    destruct (_ || _); [reflexivity|].
    rewrite IH by lia. reflexivity.
Qed.

Lemma insert_codes_paths codes : forall i root,
  Forall wf_code codes ->
  insert_codes codes i root = insert_paths (map code_path codes) i root.
Proof.
  induction codes as [|c rest IH]; intros i root Hwf; [reflexivity|].
  apply Forall_cons in Hwf as [Hc Hrest].
  cbn [insert_codes map insert_paths].
  rewrite (insert_code_path c i Hc) by (destruct Hc; lia).
  change (Z.to_nat 0) with 0%nat. rewrite drop_0.
  destruct (insert_path _ _ _); [|reflexivity]. apply IH. exact Hrest.
Qed.

Lemma get_huffman_code_string_from_spec n code l : forall i,
  String.length (get_huffman_code_string_from n code l i) = n /\
  all_bits (get_huffman_code_string_from n code l i).
Proof.
  induction n as [|n IH]; intros i; simpl; [auto|].
  destruct (IH (i + 1)) as [-> Hb]. split; [reflexivity|]. split; [|exact Hb].
  destruct (Z.testbit _ _); simpl; auto.
Qed.

Lemma assign_codes_wf L : forall next,
  Forall (fun l => 0 <= l) L ->
  Forall wf_code (assign_codes L next) /\ map len (assign_codes L next) = L.
Proof.
  induction L as [|l rest IH]; intros next HL; [split; constructor|].
  apply Forall_cons in HL as [Hl Hrest]. cbn [assign_codes].
  destruct (l =? 0) eqn:E.
  - apply Z.eqb_eq in E. subst l. destruct (IH next Hrest) as [Hw Hm].
    split; [|simpl; congruence].
    constructor; [|exact Hw]. repeat split; simpl; lia.
  - destruct (IH (upd next l (u16 (idx next l + 1))) Hrest) as [Hw Hm].
    split; [|simpl; congruence].
    constructor; [|exact Hw].
    destruct (get_huffman_code_string_from_spec (Z.to_nat l) (idx next l) l 0) as [Hs Hb].
    repeat split; simpl; auto.
Qed.

Lemma count_code_lengths_None L limit : forall counts,
  count_code_lengths L limit counts = None <-> Exists (bad_length limit) L.
Proof.
  induction L as [|l rest IH]; intros counts; simpl.
  - split; [discriminate|]. intros H. inversion H.
  - rewrite Exists_cons. destruct ((limit <? l) || (15 <? l)) eqn:E.
    + split; [intros _; left|reflexivity].
      apply orb_true_iff in E. unfold bad_length.
      destruct E as [E|E]; apply Z.ltb_lt in E; auto.
    + rewrite IH. apply orb_false_iff in E as [E1 E2].
      apply Z.ltb_ge in E1, E2. unfold bad_length. split; [auto|].
      intros [[?|?]|?]; [lia|lia|assumption].
Qed.

Lemma generate_huffman_codes_None L limit :
  (length L <= 288)%nat ->
  (generate_huffman_codes L limit = None <-> Exists (bad_length limit) L).
Proof.
  intros Hn. unfold generate_huffman_codes.
  replace (288 <? Z.of_nat (length L)) with false by (symmetry; apply Z.ltb_ge; lia).
  destruct (count_code_lengths L limit (replicate 16 0)) eqn:E.
  - split; [discriminate|]. intros H.
    rewrite <- (count_code_lengths_None _ _ (replicate 16 0)) in H. congruence.
  - split; [intros _|reflexivity]. eapply count_code_lengths_None. exact E.
Qed.

Lemma generate_huffman_codes_wf L limit codes :
  Forall (fun l => 0 <= l) L ->
  generate_huffman_codes L limit = Some codes ->
  Forall wf_code codes /\ map len codes = L.
Proof.
  intros HL. unfold generate_huffman_codes.
  destruct (288 <? _); [discriminate|].
  destruct (count_code_lengths _ _ _); [|discriminate].
  intros [= <-]. apply assign_codes_wf. exact HL.
Qed.

Lemma prefix_bits_of s1 : forall s2,
  all_bits s1 -> all_bits s2 ->
  (String.prefix s1 s2 = true <-> bits_of s1 `prefix_of` bits_of s2).
Proof.
  induction s1 as [|a s1 IH]; intros s2 H1 H2.
  - destruct s2; simpl; (split; [intros _; apply prefix_nil|reflexivity]).
  - destruct s2 as [|b s2]; simpl.
    + split; [discriminate|]. intros H. exfalso. exact (prefix_nil_not _ _ H).
    + destruct H1 as [Ha H1], H2 as [Hb H2].
      rewrite prefix_cons_iff. destruct (ascii_dec a b) as [->|Hne].
      * rewrite (IH s2 H1 H2). tauto.
      * split; [discriminate|]. intros [E _]. exfalso. apply Hne.
        destruct Ha as [-> | ->], Hb as [-> | ->]; simpl in E; congruence.
Qed.

Lemma wf_code_path_nil c : wf_code c -> (code_path c <> [] <-> 0 < len c).
Proof.
  intros (Hl & Hs & _). unfold code_path.
  destruct (huffman_code c) eqn:E; simpl in *.
  - split; [congruence|lia].
  - split; [lia|discriminate].
Qed.

Lemma clash_conflicting codes :
  Forall wf_code codes ->
  (clash [] (map code_path codes) <-> conflicting codes).
Proof.
  intros Hwf. rewrite Forall_lookup in Hwf. split.
  - intros [(j & p & s & _ & _ & Hs & _)|(j & k & p & q & Hjk & Hj & Hk & Hp & Hq & Hc)].
    { exfalso. exact (not_elem_of_nil _ Hs). }
    rewrite list_lookup_fmap in Hj, Hk.
    destruct (codes !! j) as [c1|] eqn:E1; [|discriminate].
    destruct (codes !! k) as [c2|] eqn:E2; [|discriminate].
    simpl in Hj, Hk. injection Hj as <-. injection Hk as <-.
    pose proof (Hwf _ _ E1) as Hw1. pose proof (Hwf _ _ E2) as Hw2.
    apply (wf_code_path_nil _ Hw1) in Hp. apply (wf_code_path_nil _ Hw2) in Hq.
    destruct Hc as [Hc|Hc].
    + exists j, k, c1, c2. repeat split; auto; [lia|].
      apply prefix_bits_of; [apply Hw1|apply Hw2|exact Hc].
    + exists k, j, c2, c1. repeat split; auto; [lia|].
      apply prefix_bits_of; [apply Hw2|apply Hw1|exact Hc].
  - intros (i & j & c1 & c2 & Hij & E1 & E2 & H1 & H2 & Hp).
    pose proof (Hwf _ _ E1) as Hw1. pose proof (Hwf _ _ E2) as Hw2.
    apply prefix_bits_of in Hp; [|apply Hw1|apply Hw2].
    right. destruct (Nat.lt_ge_cases i j) as [Hlt|Hge].
    + exists i, j, (code_path c1), (code_path c2).
      rewrite !list_lookup_fmap, E1, E2.
      repeat split; auto; try (apply wf_code_path_nil; assumption). left. exact Hp.
    + exists j, i, (code_path c2), (code_path c1).
      rewrite !list_lookup_fmap, E1, E2.
      repeat split; auto; try (apply wf_code_path_nil; assumption); [lia|]. right. exact Hp.
Qed.

(** C5: for every code-length vector, that is at most 288 lengths, none
    negative, building the tree fails exactly when the vector holds a length
    above the caller's limit or above 15, or when two symbols receive
    conflicting codes: the same code, or one code a prefix of the other;
    otherwise the build succeeds. Allocation is taken to succeed. *)
Theorem create_huffman_tree_NULL L limit :
  Forall (fun l => 0 <= l) L -> (length L <= 288)%nat ->
  (create_huffman_tree L limit = NULL <->
   Exists (bad_length limit) L \/
   exists codes, generate_huffman_codes L limit = Some codes /\ conflicting codes).
Proof.
  intros HL Hn. unfold create_huffman_tree.
  replace (288 <? Z.of_nat (length L)) with false by (symmetry; apply Z.ltb_ge; lia).
  destruct (generate_huffman_codes L limit) as [codes|] eqn:E.
  - destruct (generate_huffman_codes_wf L limit codes HL E) as [Hwf _].
    rewrite (insert_codes_paths codes 0 _ Hwf).
    rewrite (insert_paths_NULL _ 0 _ [] ltac:(lia) trie_of_root).
    rewrite (clash_conflicting codes Hwf). split.
    + intros H. right. exists codes. auto.
    + intros [H|(codes' & [= <-] & H)]; [|exact H].
      apply generate_huffman_codes_None in H; [congruence|exact Hn].
  - split; [intros _; left|reflexivity].
    apply generate_huffman_codes_None in E; assumption.
Qed.

(** The bound of 288 entries is a guard of the code: a longer array, which
    no caller passes, is refused whatever it holds. *)
Lemma create_huffman_tree_too_long :
  create_huffman_tree (replicate 289 0) 15 = NULL /\
  Forall (fun l => l = 0) (replicate 289 0) /\
  ~ Exists (bad_length 15) (replicate 289 0).
Proof.
  split; [vm_compute; reflexivity|]. split.
  - apply Forall_replicate. reflexivity.
  - rewrite <- Forall_Exists_neg. apply Forall_replicate.
    unfold bad_length. lia.
Qed.

Lemma create_huffman_tree_NULL_witness :
  create_huffman_tree [2; 1; 1] 15 = NULL <->
  Exists (bad_length 15) [2; 1; 1] \/
  exists codes, generate_huffman_codes [2; 1; 1] 15 = Some codes /\ conflicting codes.
Proof.
  apply (create_huffman_tree_NULL [2; 1; 1] 15).
  - repeat constructor; lia.
  - simpl. lia.
Defined.

(** ** Canonical codes *)

Lemma count_of_nonneg l L : 0 <= count_of l L.
Proof. induction L as [|x rest IH]; simpl; [lia|]. destruct (x =? l); lia. Qed.

Lemma count_of_le_length l L : count_of l L <= Z.of_nat (length L).
Proof.
  induction L as [|x rest IH]; simpl length; [simpl; lia|].
  cbn [count_of]. destruct (x =? l); lia.
Qed.

Lemma count_of_app l L1 L2 : count_of l (L1 ++ L2) = count_of l L1 + count_of l L2.
Proof. induction L1 as [|x rest IH]; simpl; [reflexivity|]. rewrite IH. lia. Qed.

Lemma kraft_below_nonneg b L : 0 <= kraft_below b L.
Proof.
  induction L as [|x rest IH]; simpl; [lia|].
  destruct (_ && _); [|lia]. pose proof (Z.pow_nonneg 2 (15 - x)). lia.
Qed.

Lemma kraft_below_succ b L :
  0 < b ->
  kraft_below (b + 1) L = kraft_below b L + count_of b L * 2 ^ (15 - b).
Proof.
  intros Hb. induction L as [|x rest IH]; simpl; [lia|]. rewrite IH.
  destruct (0 <? x) eqn:E0; simpl.
  - apply Z.ltb_lt in E0.
    destruct (x =? b) eqn:Eb.
    + apply Z.eqb_eq in Eb. subst x.
      replace (b <? b + 1) with true by (symmetry; apply Z.ltb_lt; lia).
      replace (b <? b) with false by (symmetry; apply Z.ltb_ge; lia). lia.
    + apply Z.eqb_neq in Eb.
      destruct (x <? b) eqn:E1.
      * apply Z.ltb_lt in E1.
        replace (x <? b + 1) with true by (symmetry; apply Z.ltb_lt; lia). lia.
      * apply Z.ltb_ge in E1.
        replace (x <? b + 1) with false by (symmetry; apply Z.ltb_ge; lia). lia.
  - apply Z.ltb_ge in E0.
    destruct (x =? b) eqn:Eb; [apply Z.eqb_eq in Eb; lia|]. lia.
Qed.

Lemma kraft_below_mono b b' L : b <= b' -> kraft_below b L <= kraft_below b' L.
Proof.
  intros Hb. induction L as [|x rest IH]; simpl; [lia|].
  pose proof (Z.pow_nonneg 2 (15 - x) ltac:(lia)).
  destruct (0 <? x); simpl; [|lia].
  destruct (x <? b) eqn:E1.
  - apply Z.ltb_lt in E1.
    replace (x <? b') with true by (symmetry; apply Z.ltb_lt; lia). lia.
  - destruct (x <? b'); lia.
Qed.

Lemma first_code_scaled n L :
  (1 <= n <= 15)%nat ->
  first_code n L * 2 ^ (15 - Z.of_nat n) = kraft_below (Z.of_nat n) L.
Proof.
  induction n as [|n IH]; intros Hn; [lia|].
  destruct n as [|n].
  - simpl first_code. simpl.
    assert (H1 : forall L', kraft_below 1 L' = 0).
    { induction L' as [|x rest IHr]; simpl; [reflexivity|]. rewrite IHr.
      destruct (0 <? x) eqn:E0; simpl; [|reflexivity].
      apply Z.ltb_lt in E0.
      replace (x <? 1) with false by (symmetry; apply Z.ltb_ge; lia). reflexivity. }
    rewrite H1. reflexivity.
  - change (first_code (S (S n)) L)
      with (2 * (first_code (S n) L + count_of (Z.of_nat (S n)) L)).
    specialize (IH ltac:(lia)).
    replace (Z.of_nat (S (S n))) with (Z.of_nat (S n) + 1) by lia.
    rewrite kraft_below_succ by lia. rewrite <- IH.
    assert (Hp : 2 ^ (15 - Z.of_nat (S n)) = 2 * 2 ^ (15 - (Z.of_nat (S n) + 1))).
    { replace (15 - Z.of_nat (S n)) with (1 + (15 - (Z.of_nat (S n) + 1))) by lia.
      rewrite Z.pow_add_r by lia. reflexivity. }
    rewrite Hp. ring.
Qed.

Lemma count_code_lengths_spec L limit : forall counts0,
  Forall (length_ok limit) L -> length counts0 = 16%nat ->
  (forall l, 0 <= l <= 15 -> 0 <= idx counts0 l /\ idx counts0 l + count_of l L < 65536) ->
  exists counts,
    count_code_lengths L limit counts0 = Some counts /\ length counts = 16%nat /\
    forall l, 0 <= l <= 15 -> idx counts l = idx counts0 l + count_of l L.
Proof.
  induction L as [|x rest IH]; intros counts0 HL Hlen Hb.
  - exists counts0. simpl. repeat split; auto. intros; lia.
  - apply Forall_cons in HL as [[Hx Hlim] Hrest]. cbn [count_code_lengths].
    replace ((limit <? x) || (15 <? x)) with false
      by (symmetry; apply orb_false_iff; split; apply Z.ltb_ge; lia).
    pose proof (count_of_nonneg x rest) as Hcx.
    assert (Hu : u16 (idx counts0 x + 1) = idx counts0 x + 1).
    { apply Z.mod_small. specialize (Hb x Hx). simpl in Hb.
      rewrite Z.eqb_refl in Hb. lia. }
    rewrite Hu.
    destruct (IH (upd counts0 x (idx counts0 x + 1)) Hrest) as (counts & E & Hl & Hc).
    + rewrite upd_length. exact Hlen.
    + intros l Hl. specialize (Hb l Hl). simpl in Hb.
      destruct (Z.eq_dec x l) as [->|Hne].
      * rewrite idx_upd_eq by lia. rewrite Z.eqb_refl in Hb. lia.
      * rewrite idx_upd_ne by lia. apply Z.eqb_neq in Hne. rewrite Hne in Hb. lia.
    + exists counts. split; [exact E|]. split; [exact Hl|].
      intros l Hl'. rewrite (Hc l Hl'). simpl.
      destruct (Z.eq_dec x l) as [->|Hne].
      * rewrite idx_upd_eq by lia. rewrite Z.eqb_refl. lia.
      * rewrite idx_upd_ne by lia. apply Z.eqb_neq in Hne. rewrite Hne. lia.
Qed.

Section Canonical.
Variable L : list Z.
Variable limit : Z.
Hypothesis HL : Forall (length_ok limit) L.
Hypothesis Hkraft : kraft_sum L <= 2 ^ 15.

Lemma first_code_nonneg n : 0 <= first_code n L.
Proof.
  induction n as [|n IH]; simpl; [lia|].
  destruct (n =? 0)%nat; [lia|]. pose proof (count_of_nonneg (Z.of_nat n) L). lia.
Qed.

Lemma first_code_fits n :
  (1 <= n <= 15)%nat ->
  first_code n L + count_of (Z.of_nat n) L <= 2 ^ Z.of_nat n.
Proof.
  intros Hn.
  assert (H : (first_code n L + count_of (Z.of_nat n) L) * 2 ^ (15 - Z.of_nat n)
              <= 2 ^ Z.of_nat n * 2 ^ (15 - Z.of_nat n)).
  { rewrite <- Z.pow_add_r by lia.
    replace (Z.of_nat n + (15 - Z.of_nat n)) with 15 by lia.
    rewrite Z.mul_add_distr_r, first_code_scaled by lia.
    rewrite <- kraft_below_succ by lia.
    etransitivity; [|exact Hkraft]. apply kraft_below_mono. lia. }
  assert (0 < 2 ^ (15 - Z.of_nat n)) by (apply Z.pow_pos_nonneg; lia).
  nia.
Qed.

Lemma first_codes_spec counts : 
  length counts = 16%nat -> idx counts 0 = 0 ->
  (forall l, 1 <= l <= 15 -> idx counts l = count_of l L) ->
  forall n b next,
    1 <= b -> b + Z.of_nat n = 16 -> length next = 16%nat ->
    let res := first_codes n b (first_code (Z.to_nat (b - 1)) L) counts next in
    length res = 16%nat /\
    (forall l, b <= l <= 15 -> idx res l = first_code (Z.to_nat l) L) /\
    (forall l, 0 <= l < b -> idx res l = idx next l).
Proof.
  intros Hlen H0 Hc n.
  induction n as [|n IH]; intros b next Hb Hn Hnext; cbv zeta.
  - simpl. repeat split; auto. intros; lia.
  - cbn [first_codes].
    assert (Hstep : u16 (Z.shiftl (first_code (Z.to_nat (b - 1)) L + idx counts (b - 1)) 1)
                    = first_code (Z.to_nat b) L).
    { rewrite Z.shiftl_mul_pow2 by lia. change (2 ^ 1) with 2.
      replace (Z.to_nat b) with (S (Z.to_nat (b - 1))) by lia.
      cbn [first_code].
      assert (Hcnt : idx counts (b - 1)
                     = if (Z.to_nat (b - 1) =? 0)%nat then 0
                       else count_of (Z.of_nat (Z.to_nat (b - 1))) L).
      { destruct (Z.eq_dec b 1) as [->|Hne].
        - simpl. exact H0.
        - replace (Z.to_nat (b - 1) =? 0)%nat with false
            by (symmetry; apply Nat.eqb_neq; lia).
          rewrite Z2Nat.id by lia. apply Hc. lia. }
      rewrite Hcnt.
      set (v := first_code (Z.to_nat (b - 1)) L + _).
      assert (Hv : 2 * v = first_code (Z.to_nat b) L).
      { subst v. replace (Z.to_nat b) with (S (Z.to_nat (b - 1))) by lia.
        reflexivity. }
      pose proof (first_code_fits (Z.to_nat b) ltac:(lia)) as Hf.
      pose proof (first_code_nonneg (Z.to_nat b)) as Hnn.
      pose proof (count_of_nonneg (Z.of_nat (Z.to_nat b)) L) as Hcn.
      assert (2 ^ Z.of_nat (Z.to_nat b) <= 2 ^ 15) by (apply Z.pow_le_mono_r; lia).
      change (2 ^ 15) with 32768 in *.
      unfold u16. rewrite Z.mod_small; lia. }
    rewrite Hstep.
    replace (first_code (Z.to_nat b) L) with (first_code (Z.to_nat (b + 1 - 1)) L)
      by (f_equal; lia).
    destruct (IH (b + 1) (upd next b (first_code (Z.to_nat (b + 1 - 1)) L))
                ltac:(lia) ltac:(lia) ltac:(rewrite upd_length; exact Hnext))
      as (Hl & Hhi & Hlo).
    split; [exact Hl|]. split.
    + intros l Hl'. destruct (Z.eq_dec l b) as [->|Hne].
      * rewrite Hlo by lia. rewrite idx_upd_eq by lia. f_equal. lia.
      * apply Hhi. lia.
    + intros l Hl'. rewrite Hlo by lia. apply idx_upd_ne; lia.
Qed.

Lemma count_of_zero_pre l pre :
  1 <= l -> count_of l (pre ++ [0]) = count_of l pre.
Proof.
  intros Hl. rewrite count_of_app. cbn [count_of].
  replace (0 =? l) with false by (symmetry; apply Z.eqb_neq; lia). lia.
Qed.

Lemma assign_codes_spec rest : forall pre next,
  L = pre ++ rest -> length next = 16%nat ->
  (forall l, 1 <= l <= 15 ->
     idx next l = first_code (Z.to_nat l) L + count_of l pre) ->
  forall k l, rest !! k = Some l ->
    assign_codes rest next !! k
    = Some (if l =? 0 then mk_huffman "" l
            else mk_huffman
                   (get_huffman_code_string
                      (first_code (Z.to_nat l) L + count_of l (pre ++ take k rest)) l) l).
Proof.
  induction rest as [|x rest IH]; intros pre next HLe Hlen Hnext k l Hk; [discriminate|].
  assert (Hx : length_ok limit x).
  { rewrite Forall_forall in HL. apply HL. rewrite HLe.
    apply elem_of_app. right. apply elem_of_cons. auto. }
  destruct Hx as [Hx _].
  cbn [assign_codes]. destruct (x =? 0) eqn:E0.
  - apply Z.eqb_eq in E0. subst x. destruct k as [|k]; simpl in Hk.
    + injection Hk as <-. reflexivity.
    + simpl lookup at 1. 
      rewrite (IH (pre ++ [0]) next) with (l := l); auto.
      * simpl take. replace ((pre ++ [0]) ++ take k rest) with (pre ++ 0 :: take k rest)
          by (rewrite <- app_assoc; reflexivity). reflexivity.
      * rewrite <- app_assoc. exact HLe.
      * intros l' Hl'. rewrite count_of_zero_pre by lia. apply Hnext. exact Hl'.
  - apply Z.eqb_neq in E0. destruct k as [|k]; simpl in Hk.
    + injection Hk as <-. apply Z.eqb_neq in E0. rewrite E0.
      simpl. rewrite app_nil_r, Hnext by lia. reflexivity.
    + simpl lookup at 1.
      rewrite (IH (pre ++ [x]) (upd next x (u16 (idx next x + 1)))) with (l := l); auto.
      * simpl take. replace ((pre ++ [x]) ++ take k rest) with (pre ++ x :: take k rest)
          by (rewrite <- app_assoc; reflexivity). reflexivity.
      * rewrite <- app_assoc. exact HLe.
      * rewrite upd_length. exact Hlen.
      * intros l' Hl'. rewrite count_of_app. simpl.
        assert (Hu : u16 (idx next x + 1) = idx next x + 1).
        { rewrite Hnext by lia.
          pose proof (first_code_fits (Z.to_nat x) ltac:(lia)) as Hf.
          rewrite Z2Nat.id in Hf by lia.
          pose proof (first_code_nonneg (Z.to_nat x)) as Hnn.
          pose proof (count_of_nonneg x pre) as Hcp.
          assert (Hcount : count_of x pre + 1 <= count_of x L).
          { rewrite HLe, count_of_app. simpl. rewrite Z.eqb_refl.
            pose proof (count_of_nonneg x rest). lia. }
          assert (2 ^ x <= 2 ^ 15) by (apply Z.pow_le_mono_r; lia).
          change (2 ^ 15) with 32768 in *.
          apply Z.mod_small. lia. }
        rewrite Hu. destruct (Z.eq_dec x l') as [->|Hne].
        -- rewrite idx_upd_eq by lia. rewrite Z.eqb_refl, Hnext by lia. lia.
        -- rewrite idx_upd_ne by lia. apply Z.eqb_neq in Hne. rewrite Hne, Hnext by lia. lia.
Qed.
End Canonical.

Lemma top_bit v n :
  0 <= n -> 0 <= v < 2 ^ (n + 1) ->
  v = (if Z.testbit v n then 2 ^ n else 0) + v mod 2 ^ n.
Proof.
  intros Hn Hv.
  assert (Hp : 0 < 2 ^ n) by (apply Z.pow_pos_nonneg; lia).
  assert (Hp1 : 2 ^ (n + 1) = 2 * 2 ^ n) by (rewrite Z.pow_add_r; lia).
  pose proof (Z.div_mod v (2 ^ n) ltac:(lia)) as Hdm.
  pose proof (Z.mod_pos_bound v (2 ^ n) Hp) as Hm.
  assert (Hq : v / 2 ^ n = 0 \/ v / 2 ^ n = 1).
  { assert (0 <= v / 2 ^ n) by (apply Z.div_pos; lia).
    assert (v / 2 ^ n < 2) by (apply Z.div_lt_upper_bound; lia). lia. }
  destruct (Z.testbit v n) eqn:E.
  - apply Z.testbit_true in E; [|exact Hn]. destruct Hq as [Hq|Hq]; rewrite Hq in *.
    + simpl in E. discriminate.
    + lia.
  - apply Z.testbit_false in E; [|exact Hn]. destruct Hq as [Hq|Hq]; rewrite Hq in *.
    + lia.
    + simpl in E. discriminate.
Qed.

Lemma get_huffman_code_string_from_mod m : forall n code l i,
  l - i = Z.of_nat m -> (m <= n)%nat ->
  get_huffman_code_string_from m code l i
  = get_huffman_code_string_from m (code mod 2 ^ Z.of_nat n) l i.
Proof.
  induction m as [|m IH]; intros n code l i Hl Hm; [reflexivity|].
  cbn [get_huffman_code_string_from].
  rewrite (Z.mod_pow2_bits_low code (Z.of_nat n) (l - i - 1)) by lia.
  rewrite (IH n code l (i + 1)) by lia. reflexivity.
Qed.

Lemma compare_code_strings n : forall v w l i,
  l - i = Z.of_nat n -> 0 <= v < 2 ^ Z.of_nat n -> 0 <= w < 2 ^ Z.of_nat n ->
  String.compare (get_huffman_code_string_from n v l i)
                 (get_huffman_code_string_from n w l i)
  = (v ?= w).
Proof.
  induction n as [|n IH]; intros v w l i Hl Hv Hw.
  - simpl in *. symmetry. apply Z.compare_eq_iff. lia.
  - cbn [get_huffman_code_string_from String.compare].
    replace (l - i - 1) with (Z.of_nat n) by lia.
    rewrite (get_huffman_code_string_from_mod n n v) by lia.
    rewrite (get_huffman_code_string_from_mod n n w) by lia.
    assert (Hp : 0 < 2 ^ Z.of_nat n) by (apply Z.pow_pos_nonneg; lia).
    rewrite IH; try lia; try (apply Z.mod_pos_bound; exact Hp).
    replace (Z.of_nat (S n)) with (Z.of_nat n + 1) in Hv, Hw by lia.
    pose proof (top_bit v (Z.of_nat n) ltac:(lia) Hv) as Ev.
    pose proof (top_bit w (Z.of_nat n) ltac:(lia) Hw) as Ew.
    pose proof (Z.mod_pos_bound v (2 ^ Z.of_nat n) Hp) as Hmv.
    pose proof (Z.mod_pos_bound w (2 ^ Z.of_nat n) Hp) as Hmw.
    destruct (Z.testbit v (Z.of_nat n)), (Z.testbit w (Z.of_nat n)); simpl bit_char.
    + change (Ascii.compare "1" "1") with Eq. cbv iota.
      destruct (Z.compare_spec (v mod 2 ^ Z.of_nat n) (w mod 2 ^ Z.of_nat n));
        symmetry; [apply Z.compare_eq_iff|apply Z.compare_lt_iff|apply Z.compare_gt_iff]; lia.
    + change (Ascii.compare "1" "0") with Gt. cbv iota.
      symmetry. apply Z.compare_gt_iff. lia.
    + change (Ascii.compare "0" "1") with Lt. cbv iota.
      symmetry. apply Z.compare_lt_iff. lia.
    + change (Ascii.compare "0" "0") with Eq. cbv iota.
      destruct (Z.compare_spec (v mod 2 ^ Z.of_nat n) (w mod 2 ^ Z.of_nat n));
        symmetry; [apply Z.compare_eq_iff|apply Z.compare_lt_iff|apply Z.compare_gt_iff]; lia.
Qed.

Lemma count_of_take_lt l L i j :
  L !! i = Some l -> (i < j)%nat ->
  count_of l (take i L) + 1 <= count_of l (take j L).
Proof.
  intros Hi Hij.
  assert (E : take j L = take (S i) L ++ drop (S i) (take j L)).
  { rewrite <- (take_drop (S i) (take j L)) at 1. rewrite take_take.
    replace (S i `min` j)%nat with (S i) by lia. reflexivity. }
  rewrite E, (take_S_r _ _ _ Hi), !count_of_app. cbn [count_of].
  rewrite Z.eqb_refl. pose proof (count_of_nonneg l (drop (S i) (take j L))). lia.
Qed.

Lemma idx_replicate_0 n l :
  0 <= l < Z.of_nat n -> idx (replicate n 0) l = 0.
Proof. intros H. unfold idx. apply lookup_total_replicate_2. lia. Qed.

Lemma generate_huffman_codes_canonical L limit :
  (length L <= 288)%nat -> Forall (length_ok limit) L -> kraft_sum L <= 2 ^ 15 ->
  exists codes,
    generate_huffman_codes L limit = Some codes /\
    forall i l, L !! i = Some l ->
      codes !! i
      = Some (if l =? 0 then mk_huffman "" l
              else mk_huffman (get_huffman_code_string (canonical_value L i l) l) l).
Proof.
  intros Hn HL Hk. unfold generate_huffman_codes.
  replace (288 <? Z.of_nat (length L)) with false by (symmetry; apply Z.ltb_ge; lia).
  destruct (count_code_lengths_spec L limit (replicate 16 0) HL)
    as (counts & -> & Hcl & Hc).
  { apply length_replicate. }
  { intros l Hl. rewrite idx_replicate_0 by (simpl; lia).
    pose proof (count_of_nonneg l L). pose proof (count_of_le_length l L). lia. }
  cbv zeta. eexists. split; [reflexivity|].
  intros i l Hi.
  destruct (first_codes_spec L Hk (upd counts 0 0)) with (n := 15%nat) (b := 1)
    (next := replicate 16 0) as (Hl & Hhi & _).
  { rewrite upd_length. exact Hcl. }
  { apply idx_upd_eq. lia. }
  { intros l' Hl'. rewrite idx_upd_ne by lia. rewrite Hc by lia.
    rewrite idx_replicate_0 by (simpl; lia). lia. }
  { lia. } { lia. } { apply length_replicate. }
  change (first_code (Z.to_nat (1 - 1)) L) with 0 in Hl, Hhi.
  rewrite (assign_codes_spec L limit HL Hk L [] _ eq_refl Hl) with (l := l); auto.
  intros l' Hl'. simpl. rewrite Z.add_0_r. apply Hhi. lia.
Qed.

(** C6: for a code-length vector of at most 288 entries whose lengths are
    at most 15 and at most the limit and whose Kraft sum is at most 1,
    [generate_huffman_codes] succeeds; every symbol receives a string of
    exactly its length in bits (none for length 0); and comparing the codes
    of two symbols by (length, bit string) gives the same result as
    comparing the symbols by (length, index), so both sort the same way. *)
Theorem canonical_codes_order L limit :
  (length L <= 288)%nat -> Forall (length_ok limit) L -> kraft_sum L <= 2 ^ 15 ->
  exists codes,
    generate_huffman_codes L limit = Some codes /\
    (forall i l, L !! i = Some l ->
       exists c, codes !! i = Some c /\ len c = l /\
                 String.length (huffman_code c) = Z.to_nat l /\
                 all_bits (huffman_code c)) /\
    (forall i j li lj ci cj,
       L !! i = Some li -> L !! j = Some lj ->
       codes !! i = Some ci -> codes !! j = Some cj ->
       0 < li -> 0 < lj ->
       code_compare ci cj = symbol_compare li i lj j).
Proof.
  intros Hn HL Hk.
  destruct (generate_huffman_codes_canonical L limit Hn HL Hk) as (codes & E & Hc).
  exists codes. split; [exact E|]. split.
  - intros i l Hi. rewrite (Hc i l Hi). eexists. split; [reflexivity|].
    destruct (l =? 0) eqn:E0.
    + apply Z.eqb_eq in E0. subst l. simpl. auto.
    + destruct (get_huffman_code_string_from_spec (Z.to_nat l) (canonical_value L i l) l 0)
        as [Hs Hb].
      simpl. auto.
  - intros i j li lj ci cj Hi Hj Hci Hcj Hli Hlj.
    rewrite (Hc i li Hi) in Hci. rewrite (Hc j lj Hj) in Hcj.
    replace (li =? 0) with false in Hci by (symmetry; apply Z.eqb_neq; lia).
    replace (lj =? 0) with false in Hcj by (symmetry; apply Z.eqb_neq; lia).
    injection Hci as <-. injection Hcj as <-.
    unfold code_compare, symbol_compare. simpl len.
    destruct (Z.compare_spec li lj) as [Heq|Hlt|Hgt]; try reflexivity.
    subst lj. simpl huffman_code. unfold get_huffman_code_string.
    assert (Hrange : forall k, L !! k = Some li ->
              0 <= canonical_value L k li < 2 ^ Z.of_nat (Z.to_nat li)).
    { intros k Hk'.
      assert (Hok : length_ok limit li).
      { rewrite Forall_forall in HL. apply HL. eapply list_elem_of_lookup_2. exact Hk'. }
      destruct Hok as [Hok _].
      pose proof (first_code_fits L Hk (Z.to_nat li) ltac:(lia)) as Hf.
      rewrite Z2Nat.id in * by lia.
      pose proof (first_code_nonneg L (Z.to_nat li)).
      pose proof (count_of_nonneg li (take k L)).
      assert (count_of li (take k L) + 1 <= count_of li L).
      { rewrite <- (take_drop k L) at 2. rewrite count_of_app.
        rewrite (drop_S _ _ _ Hk'). cbn [count_of]. rewrite Z.eqb_refl.
        pose proof (count_of_nonneg li (drop (S k) L)). lia. }
      unfold canonical_value. lia. }
    rewrite compare_code_strings; [|lia|apply Hrange; assumption|apply Hrange; assumption].
    unfold canonical_value.
    destruct (Nat.compare_spec i j) as [->|Hlt|Hgt].
    + apply Z.compare_eq_iff. reflexivity.
    + apply Z.compare_lt_iff. pose proof (count_of_take_lt li L i j Hi Hlt). lia.
    + apply Z.compare_gt_iff. pose proof (count_of_take_lt li L j i Hj Hgt). lia.
Qed.

Lemma canonical_codes_order_witness :
  exists codes,
    generate_huffman_codes [2; 1; 3; 3] 15 = Some codes /\
    (forall i l, [2; 1; 3; 3] !! i = Some l ->
       exists c, codes !! i = Some c /\ len c = l /\
                 String.length (huffman_code c) = Z.to_nat l /\
                 all_bits (huffman_code c)) /\
    (forall i j li lj ci cj,
       [2; 1; 3; 3] !! i = Some li -> [2; 1; 3; 3] !! j = Some lj ->
       codes !! i = Some ci -> codes !! j = Some cj ->
       0 < li -> 0 < lj ->
       code_compare ci cj = symbol_compare li i lj j).
Proof.
  apply (canonical_codes_order [2; 1; 3; 3] 15).
  - simpl. lia.
  - repeat constructor; lia.
  - vm_compute. discriminate.
Defined.

(** * The decoder as a whole *)

(** ** The state between two calls *)

Lemma runs_on_refl d : wf_data d -> within_input d -> runs_on d d.
Proof. intros Hw Hi. repeat split; auto; try lia; try apply Hw. Qed.

Lemma runs_on_trans d1 d2 d3 : runs_on d1 d2 -> runs_on d2 d3 -> runs_on d1 d3.
Proof.
  intros (Hw2 & Hi2 & Hb2 & Hx2 & Hf2) (Hw3 & Hi3 & Hb3 & Hx3 & Hf3).
  repeat split; try apply Hw3; auto; try congruence; try lia.
  etrans; eassumption.
Qed.

Lemma keeps_ret {A} (a : A) : keeps (ret a).
Proof. intros d a' d' Hw Hi [= _ <-]. apply runs_on_refl; assumption. Qed.

Lemma keeps_fail {A} msg : keeps (@fail A msg).
Proof. intros d a d' _ _ H. discriminate. Qed.

Lemma keeps_bind {A B} (m : M A) (k : A -> M B) :
  keeps m -> (forall a, keeps (k a)) -> keeps (bind m k).
Proof.
  intros Hm Hk d b d' Hw Hi. unfold bind.
  destruct (m d) as [a d1| | |] eqn:E; try discriminate. intros H.
  pose proof (Hm d a d1 Hw Hi E) as H1.
  eapply runs_on_trans; [exact H1|].
  destruct H1 as (Hw1 & Hi1 & _). exact (Hk a d1 b d' Hw1 Hi1 H).
Qed.

Lemma bit_index_increment d :
  0 <= byte_pos d < 8 ->
  bit_index (increment_bit_position d) = bit_index d + 1 /\
  0 <= byte_pos (increment_bit_position d) < 8.
Proof.
  unfold increment_bit_position, bit_index. intros Hb.
  destruct (byte_pos d =? 7) eqn:E; simpl.
  - apply Z.eqb_eq in E. lia.
  - apply Z.eqb_neq in E. lia.
Qed.

(** After a bit was read inside the input, the cursor is still inside. *)
Lemma runs_on_increment d :
  wf_data d -> buf_pos d < buf_len d -> runs_on d (increment_bit_position d).
Proof.
  intros Hw Hp. pose proof Hw as (Hbr & Hob & Hop & Hbp & Hby & Hpos).
  destruct (bit_index_increment d Hby) as [Hi Hb].
  assert (Hbuf : buf (increment_bit_position d) = buf d)
    by (unfold increment_bit_position; destruct (_ =? _); reflexivity).
  assert (Hpos' : 0 <= buf_pos (increment_bit_position d))
    by (unfold increment_bit_position; destruct (_ =? _); simpl; lia).
  assert (Hrest : back_refs (increment_bit_position d) = back_refs d /\
                  out_buf (increment_bit_position d) = out_buf d /\
                  out_pos (increment_bit_position d) = out_pos d /\
                  back_refs_pos (increment_bit_position d) = back_refs_pos d /\
                  f (increment_bit_position d) = f d)
    by (unfold increment_bit_position; destruct (_ =? _); repeat split).
  destruct Hrest as (E1 & E2 & E3 & E4 & E5).
  split; [|split; [|split; [|split]]].
  - unfold wf_data. rewrite E1, E2, E3, E4. repeat split; try lia; assumption.
  - unfold within_input, buf_len. rewrite Hi, Hbuf. unfold bit_index, buf_len in *. lia.
  - exact Hbuf.
  - lia.
  - rewrite E5. reflexivity.
Qed.

Lemma keeps_read_bits_loop n : forall i tmp, keeps (read_bits_loop n i tmp).
Proof.
  induction n as [|n IH]; intros i tmp d v d' Hw Hi; simpl.
  - intros [= _ <-]. apply runs_on_refl; assumption.
  - destruct (buf_len d <=? buf_pos d) eqn:E; [discriminate|]. apply Z.leb_gt in E.
    intros H. pose proof (runs_on_increment d Hw E) as H1.
    eapply runs_on_trans; [exact H1|].
    destruct H1 as (Hw1 & Hi1 & _). exact (IH _ _ _ _ _ Hw1 Hi1 H).
Qed.

Lemma keeps_read_bits bits : keeps (read_bits bits).
Proof. apply keeps_read_bits_loop. Qed.

Lemma keeps_find_huffman_code_from cur : keeps (find_huffman_code_from cur).
Proof.
  induction cur as [|l IHl r IHr c]; intros d leaf d' Hw Hi; simpl; [discriminate|].
  destruct (c =? -1).
  - destruct (buf_len d <=? buf_pos d) eqn:E; [discriminate|]. apply Z.leb_gt in E.
    pose proof (runs_on_increment d Hw E) as H1.
    destruct (current_bit d).
    + destruct r as [|rl rr rc]; [discriminate|]. intros H.
      eapply runs_on_trans; [exact H1|].
      destruct H1 as (Hw1 & Hi1 & _). exact (IHr _ _ _ Hw1 Hi1 H).
    + destruct l as [|ll lr lc]; [discriminate|]. intros H.
      eapply runs_on_trans; [exact H1|].
      destruct H1 as (Hw1 & Hi1 & _). exact (IHl _ _ _ Hw1 Hi1 H).
  - intros [= _ <-]. apply runs_on_refl; assumption.
Qed.

Lemma keeps_find_huffman_code root : keeps (find_huffman_code root).
Proof.
  destruct root as [|l r c]; [intros d a d' _ _ H; discriminate|].
  apply keeps_find_huffman_code_from.
Qed.

(** The two steps of [handle_literal_codes], with the output buffer
    possibly full in between. *)
Lemma flush_if_full_step d d' :
  length (out_buf d) = Z.to_nat OUT_BUF_SIZE -> 0 <= out_pos d <= OUT_BUF_SIZE ->
  flush_if_full d = Ret tt d' ->
  0 <= out_pos d' < OUT_BUF_SIZE /\
  buf d' = buf d /\ buf_pos d' = buf_pos d /\ byte_pos d' = byte_pos d /\
  back_refs d' = back_refs d /\ back_refs_pos d' = back_refs_pos d /\
  back_refs_filled d' = back_refs_filled d /\ out_buf d' = out_buf d /\
  f_written (f d) `prefix_of` f_written (f d').
Proof.
  intros Hlen Hop. unfold flush_if_full.
  destruct (out_pos d =? OUT_BUF_SIZE) eqn:E.
  - destruct (fwrite _ _ _) as [k s] eqn:Ew. destruct (negb _); [discriminate|].
    intros [= <-]. simpl. unfold fwrite in Ew. injection Ew as _ <-. simpl.
    unfold OUT_BUF_SIZE in *. repeat split; try lia. apply prefix_app_r. reflexivity.
  - apply Z.eqb_neq in E. intros [= <-]. repeat split; try lia; reflexivity.
Qed.

Lemma put_byte_step c d :
  length (out_buf d) = Z.to_nat OUT_BUF_SIZE ->
  length (back_refs d) = Z.to_nat MAX_DISTANCE ->
  0 <= out_pos d < OUT_BUF_SIZE -> 0 <= back_refs_pos d < MAX_DISTANCE ->
  length (out_buf (put_byte c d)) = Z.to_nat OUT_BUF_SIZE /\
  length (back_refs (put_byte c d)) = Z.to_nat MAX_DISTANCE /\
  0 <= out_pos (put_byte c d) <= OUT_BUF_SIZE /\
  0 <= back_refs_pos (put_byte c d) < MAX_DISTANCE /\
  buf (put_byte c d) = buf d /\ buf_pos (put_byte c d) = buf_pos d /\
  byte_pos (put_byte c d) = byte_pos d /\ f (put_byte c d) = f d.
Proof.
  intros H1 H2 H3 H4. unfold put_byte. simpl. rewrite !upd_length, mod_MAX_u16.
  unfold MAX_DISTANCE in *.
  pose proof (Z.mod_pos_bound (back_refs_pos d + 1) 32768 ltac:(lia)).
  repeat split; try lia; assumption.
Qed.

Lemma handle_literal_codes_loop_step codes : forall d d',
  length (out_buf d) = Z.to_nat OUT_BUF_SIZE ->
  length (back_refs d) = Z.to_nat MAX_DISTANCE ->
  0 <= out_pos d <= OUT_BUF_SIZE -> 0 <= back_refs_pos d < MAX_DISTANCE ->
  handle_literal_codes_loop codes d = Ret tt d' ->
  length (out_buf d') = Z.to_nat OUT_BUF_SIZE /\
  length (back_refs d') = Z.to_nat MAX_DISTANCE /\
  0 <= out_pos d' <= OUT_BUF_SIZE /\
  0 <= back_refs_pos d' < MAX_DISTANCE /\
  buf d' = buf d /\ buf_pos d' = buf_pos d /\ byte_pos d' = byte_pos d /\
  f_written (f d) `prefix_of` f_written (f d').
Proof.
  induction codes as [|c rest IH]; intros d d' H1 H2 H3 H4.
  - intros [= <-]. repeat split; try lia; auto.
  - cbn [handle_literal_codes_loop]. unfold bind.
    destruct (flush_if_full d) as [[] d1| | |] eqn:E; try discriminate.
    destruct (flush_if_full_step d d1 H1 H3 E)
      as (Ho & Eb & Ep & Ey & Ebr & Ebp & _ & Eob & Hpre).
    intros H.
    destruct (put_byte_step c d1) as (P1 & P2 & P3 & P4 & P5 & P6 & P7 & P8);
      try congruence; try lia.
    destruct (IH _ _ P1 P2 P3 P4 H) as (Q1 & Q2 & Q3 & Q4 & Q5 & Q6 & Q7 & Q8).
    repeat split; try lia; try congruence.
    etrans; [exact Hpre|]. rewrite <- P8. exact Q8.
Qed.

Lemma keeps_handle_literal_codes codes len : keeps (handle_literal_codes codes len).
Proof.
  intros d a d' Hw Hi. pose proof Hw as (Hbr & Hob & Hop & Hbp & Hby & Hpos).
  unfold handle_literal_codes, bind.
  destruct (handle_literal_codes_loop _ d) as [[] d1| | |] eqn:E; try discriminate.
  destruct (handle_literal_codes_loop_step _ _ _ Hob Hbr ltac:(lia) Hbp E)
    as (Q1 & Q2 & Q3 & Q4 & Q5 & Q6 & Q7 & Q8).
  intros H. destruct a.
  destruct (flush_if_full_step d1 d' Q1 Q3 H)
    as (Ho & Eb & Ep & Ey & Ebr & Ebp & _ & Eob & Hpre).
  unfold runs_on, wf_data, within_input, bit_index, buf_len in *.
  rewrite Ebr, Eob, Ebp, Eb, Ep, Ey, Q5, Q6, Q7.
  repeat split; try lia; try assumption.
  etrans; eassumption.
Qed.

Lemma keeps_length_from_length_code code : keeps (length_from_length_code code).
Proof.
  unfold length_from_length_code. destruct (negb _); [apply keeps_fail|].
  apply keeps_bind; [apply keeps_read_bits|]. intros e.
  destruct (_ && _); [apply keeps_fail|].
  destruct (_ || _); [apply keeps_fail|apply keeps_ret].
Qed.

Lemma keeps_distance_from_distance_code code :
  keeps (distance_from_distance_code code).
Proof.
  unfold distance_from_distance_code. destruct (negb _); [apply keeps_fail|].
  apply keeps_bind; [apply keeps_read_bits|]. intros e.
  destruct (_ || _); [apply keeps_fail|apply keeps_ret].
Qed.

Lemma keeps_copy_bytes_from_distance length distance :
  keeps (copy_bytes_from_distance length distance).
Proof.
  intros d a d' Hw Hi. unfold copy_bytes_from_distance.
  destruct (_ && _); [discriminate|].
  destruct (gather_bytes _ _ _ _ _ _); [|discriminate].
  apply keeps_handle_literal_codes; assumption.
Qed.

Lemma keeps_expand_block_type_01 root fuel : keeps (expand_block_type_01 fuel root).
Proof.
  induction fuel as [|fuel IH]; [intros d a d' _ _ H; discriminate|].
  cbn [expand_block_type_01].
  apply keeps_bind; [apply keeps_find_huffman_code|]. intros edge.
  destruct (negb _); [apply keeps_fail|].
  destruct (_ =? 256); [apply keeps_ret|].
  destruct (is_literal_code _).
  { apply keeps_bind; [apply keeps_handle_literal_codes|]. intros _. exact IH. }
  destruct (is_length_code _); [|exact IH].
  apply keeps_bind; [apply keeps_length_from_length_code|]. intros len.
  apply keeps_bind; [apply keeps_read_bits|]. intros tmp.
  apply keeps_bind; [apply keeps_distance_from_distance_code|]. intros dist.
  apply keeps_bind; [apply keeps_copy_bytes_from_distance|]. intros _. exact IH.
Qed.

Lemma keeps_decompress_block_type_01 : keeps decompress_block_type_01.
Proof.
  intros d a d' Hw Hi. unfold decompress_block_type_01.
  destruct (is_null _); [discriminate|]. apply keeps_expand_block_type_01; assumption.
Qed.

Lemma keeps_expand_block_type_10 ll_root d_root fuel :
  keeps (expand_block_type_10 fuel ll_root d_root).
Proof.
  induction fuel as [|fuel IH]; [intros d a d' _ _ H; discriminate|].
  cbn [expand_block_type_10].
  apply keeps_bind; [apply keeps_find_huffman_code|]. intros edge.
  destruct (negb _); [apply keeps_fail|].
  destruct (_ =? 256); [apply keeps_ret|].
  destruct (is_literal_code _).
  { apply keeps_bind; [apply keeps_handle_literal_codes|]. intros _. exact IH. }
  destruct (is_length_code _); [|exact IH].
  apply keeps_bind; [apply keeps_length_from_length_code|]. intros len.
  apply keeps_bind; [apply keeps_find_huffman_code|]. intros tmp.
  apply keeps_bind; [apply keeps_distance_from_distance_code|]. intros dist.
  apply keeps_bind; [apply keeps_copy_bytes_from_distance|]. intros _. exact IH.
Qed.

Lemma keeps_read_cl_code_lengths n : forall i l, keeps (read_cl_code_lengths n i l).
Proof.
  induction n as [|n IH]; intros i l; cbn [read_cl_code_lengths].
  - apply keeps_ret.
  - apply keeps_bind; [apply keeps_read_bits|]. intros tmp. apply IH.
Qed.

Lemma keeps_repeat_code_length n ll_code_cnt total v : forall st,
  keeps (repeat_code_length n ll_code_cnt total v st).
Proof.
  induction n as [|n IH]; intros st; cbn [repeat_code_length].
  - apply keeps_ret.
  - destruct (total <=? cnt st); [apply keeps_fail|apply IH].
Qed.

Lemma keeps_code_length_step ll_code_cnt total cl_root st :
  keeps (code_length_step ll_code_cnt total cl_root st).
Proof.
  apply keeps_bind; [apply keeps_find_huffman_code|]. intros edge.
  destruct (negb _); [apply keeps_fail|].
  unfold code_length_action.
  destruct (_ && _); [apply keeps_fail|].
  destruct (_ && _); [apply keeps_ret|].
  destruct (_ =? 16).
  { apply keeps_bind; [apply keeps_read_bits|]. intros tmp.
    apply keeps_repeat_code_length. }
  destruct (_ || _); [|apply keeps_ret].
  apply keeps_bind; [apply keeps_read_bits|]. intros tmp.
  apply keeps_repeat_code_length.
Qed.

Lemma keeps_read_code_lengths ll_code_cnt total cl_root fuel : forall st,
  keeps (read_code_lengths fuel ll_code_cnt total cl_root st).
Proof.
  induction fuel as [|fuel IH]; intros st; cbn [read_code_lengths];
    destruct (cnt st <? total); try apply keeps_ret.
  - intros d a d' _ _ H. discriminate.
  - apply keeps_bind; [apply keeps_code_length_step|]. intros st'. apply IH.
Qed.

Ltac keeps_guard :=
  match goal with
  | |- keeps (if ?b then _ else _) => destruct b; [apply keeps_fail|]
  end.

Lemma keeps_decompress_block_type_10 : keeps decompress_block_type_10.
Proof.
  unfold decompress_block_type_10.
  apply keeps_bind; [apply keeps_read_bits|]. intros hlit. keeps_guard.
  apply keeps_bind; [apply keeps_read_bits|]. intros hdist. keeps_guard.
  apply keeps_bind; [apply keeps_read_bits|]. intros hclen. keeps_guard.
  apply keeps_bind; [apply keeps_read_cl_code_lengths|]. intros cl. keeps_guard.
  apply keeps_bind; [apply keeps_read_code_lengths|]. intros st.
  keeps_guard. keeps_guard.
  intros d a d' Hw Hi. apply keeps_expand_block_type_10; assumption.
Qed.

Lemma keeps_decompress_block_type_00 : keeps decompress_block_type_00.
Proof.
  intros d a d' Hw Hi. rewrite decompress_block_type_00_unfold. cbv zeta.
  match goal with |- (if ?b then _ else _) = _ -> _ => destruct b eqn:E1 end;
    [discriminate|].
  destruct (negb _); [discriminate|].
  match goal with |- (if ?b then _ else _) = _ -> _ => destruct b eqn:E2 end;
    [discriminate|].
  apply orb_false_iff in E1 as [E1a E1b], E2 as [E2a E2b].
  apply Z.leb_gt in E1a, E2a. apply Z.ltb_ge in E1b, E2b.
  pose proof Hw as (Hbr & Hob & Hop & Hbp & Hby & Hpos).
  assert (Hh : buf_pos d <= stored_header d /\ bit_index d <= 8 * stored_header d).
  { unfold stored_header, bit_index. destruct (byte_pos d =? 0) eqn:E.
    - apply Z.eqb_eq in E. lia.
    - lia. }
  pose proof (stored_fields_range d) as [HL _].
  set (d1 := set_cursor d (stored_header d + 4) 0).
  assert (Hw1 : wf_data d1) by (unfold wf_data, d1; simpl; repeat split; try lia; assumption).
  assert (Hi1 : within_input d1)
    by (unfold within_input, bit_index, buf_len, d1 in *; simpl; lia).
  unfold bind.
  destruct (handle_literal_codes _ _ d1) as [[] d2| | |] eqn:E; try discriminate.
  intros [= _ <-].
  destruct (keeps_handle_literal_codes _ _ _ _ _ Hw1 Hi1 E) as (Hw2 & Hi2 & Hb2 & Hx2 & Hf2).
  assert (Hcur : buf_pos d2 = stored_header d + 4 /\ byte_pos d2 = 0).
  { unfold handle_literal_codes, bind in E.
    destruct (handle_literal_codes_loop _ d1) as [[] d3| | |] eqn:E3; try discriminate.
    pose proof Hw1 as (Hbr1 & Hob1 & Hop1 & Hbp1 & _).
    destruct (handle_literal_codes_loop_step _ _ _ Hob1 Hbr1 ltac:(lia) Hbp1 E3)
      as (Q1 & Q2 & Q3 & Q4 & Q5 & Q6 & Q7 & Q8).
    destruct (flush_if_full_step d3 d2 Q1 Q3 E) as (_ & _ & Ep & Ey & _).
    split; [rewrite Ep, Q6|rewrite Ey, Q7]; reflexivity. }
  destruct Hcur as [Hp2 Hy2].
  pose proof Hw2 as (Hbr2 & Hob2 & Hop2 & Hbp2 & _).
  unfold runs_on, wf_data, within_input, bit_index, buf_len in *. simpl.
  rewrite Hb2 in *. simpl in *. rewrite Hp2, Hy2.
  repeat split; try lia; try assumption.
Qed.

(** ** The member header and trailer *)

Lemma read_at_inside input pos k :
  0 <= pos < Z.of_nat (length input) ->
  read_at input pos k = k (byte_val (idx input pos)).
Proof.
  intros Hp. unfold read_at, idx.
  destruct (pos <? 0) eqn:E; [apply Z.ltb_lt in E; lia|].
  destruct (lookup_lt_is_Some_2 input (Z.to_nat pos) ltac:(lia)) as [b Hb].
  rewrite Hb. erewrite list_lookup_total_correct by exact Hb. reflexivity.
Qed.

(** A part of the header that starts inside the input reads inside the
    input and, when it accepts, stops at or before the end. *)
Lemma skip_extra_field_inside input pos :
  0 <= pos <= Z.of_nat (length input) ->
  skip_extra_field input pos <> OutOfBounds /\
  forall pos', skip_extra_field input pos = Accepted pos' ->
    pos <= pos' <= Z.of_nat (length input).
Proof.
  intros Hp. unfold skip_extra_field.
  destruct (_ || _) eqn:E; [split; [discriminate|intros ? [=]]|].
  apply orb_false_iff in E as [E1 E2]. apply Z.leb_gt in E1. apply Z.ltb_ge in E2.
  rewrite !read_at_inside by lia. cbv zeta.
  pose proof (u16_two_bytes (idx input pos) (idx input (pos + 1))) as Hu.
  pose proof (byte_val_range (idx input pos)).
  pose proof (byte_val_range (idx input (pos + 1))).
  destruct (_ || _) eqn:E'; [split; [discriminate|intros ? [=]]|].
  apply orb_false_iff in E' as [E3 E4]. apply Z.leb_gt in E3. apply Z.ltb_ge in E4.
  split; [discriminate|]. intros pos' [= <-]. rewrite Hu in *. lia.
Qed.

Lemma skip_to_zero_inside rest : forall pos buf_len,
  Z.of_nat (length rest) = buf_len - pos -> pos < buf_len ->
  skip_to_zero rest pos buf_len <> OutOfBounds /\
  forall pos', skip_to_zero rest pos buf_len = Accepted pos' -> pos + 1 <= pos' <= buf_len.
Proof.
  induction rest as [|c rest IH]; intros pos buf_len Hl Hp; simpl in *; [lia|].
  destruct (byte_val c =? 0).
  - split; [discriminate|]. intros pos' [= <-]. lia.
  - destruct (buf_len <=? pos + 1) eqn:E; [split; [discriminate|intros ? [=]]|].
    apply Z.leb_gt in E. destruct (IH (pos + 1) buf_len ltac:(lia) E) as [H1 H2].
    split; [exact H1|]. intros pos' H. specialize (H2 pos' H). lia.
Qed.

Lemma skip_zero_terminated_inside input pos :
  0 <= pos <= Z.of_nat (length input) ->
  skip_zero_terminated input pos <> OutOfBounds /\
  forall pos', skip_zero_terminated input pos = Accepted pos' ->
    pos <= pos' <= Z.of_nat (length input).
Proof.
  intros Hp. unfold skip_zero_terminated.
  destruct (_ <=? pos) eqn:E; [split; [discriminate|intros ? [=]]|].
  apply Z.leb_gt in E.
  destruct (pos <? 0) eqn:E0; [apply Z.ltb_lt in E0; lia|].
  destruct (skip_to_zero_inside (drop (Z.to_nat pos) input) pos
              (Z.of_nat (length input))) as [H1 H2]; [rewrite length_drop; lia|exact E|].
  split; [exact H1|]. intros pos' H. specialize (H2 pos' H). lia.
Qed.

Lemma skip_header_crc_inside input pos :
  0 <= pos <= Z.of_nat (length input) ->
  skip_header_crc input pos <> OutOfBounds /\
  forall pos', skip_header_crc input pos = Accepted pos' ->
    pos <= pos' <= Z.of_nat (length input).
Proof.
  intros Hp. unfold skip_header_crc.
  destruct (_ || _) eqn:E; [split; [discriminate|intros ? [=]]|].
  apply orb_false_iff in E as [E1 E2]. apply Z.leb_gt in E1. apply Z.ltb_ge in E2.
  rewrite !read_at_inside by lia.
  split; [discriminate|]. intros pos' [= <-]. lia.
Qed.

Lemma and_then_inside (c : checked) (k : Z -> checked) lo hi mid :
  (c <> OutOfBounds /\ forall p, c = Accepted p -> mid <= p <= hi) ->
  lo <= mid ->
  (forall p, mid <= p <= hi ->
     k p <> OutOfBounds /\ forall p', k p = Accepted p' -> p <= p' <= hi) ->
  and_then c k <> OutOfBounds /\
  forall p', and_then c k = Accepted p' -> lo <= p' <= hi.
Proof.
  intros [Hc1 Hc2] Hlo Hk. destruct c as [p| |]; simpl; [|split; [discriminate|intros ? [=]]|congruence].
  specialize (Hc2 p eq_refl). destruct (Hk p Hc2) as [H1 H2].
  split; [exact H1|]. intros p' E. specialize (H2 p' E). lia.
Qed.

Lemma optional_inside (flagged : bool) (part : Z -> checked) hi pos :
  (part pos <> OutOfBounds /\ forall p, part pos = Accepted p -> pos <= p <= hi) ->
  pos <= hi ->
  (if flagged then part pos else Accepted pos) <> OutOfBounds /\
  forall p, (if flagged then part pos else Accepted pos) = Accepted p -> pos <= p <= hi.
Proof.
  intros H Hp. destruct flagged; [exact H|].
  split; [discriminate|]. intros p [= <-]. lia.
Qed.

(** [check_member_header] reads [buf] below [buf_len] only; when it
    accepts, the new position is at least 10 bytes further and not beyond
    the end of the input. *)
Lemma check_member_header_bounds input pos :
  0 <= pos ->
  check_member_header input pos <> OutOfBounds /\
  forall pos', check_member_header input pos = Accepted pos' ->
    pos + 10 <= pos' <= Z.of_nat (length input).
Proof.
  intros Hp. unfold check_member_header. cbv zeta.
  destruct (_ || _) eqn:E; [split; [discriminate|intros ? [=]]|].
  apply orb_false_iff in E as [E1 E2]. apply Z.leb_gt in E1. apply Z.ltb_ge in E2.
  rewrite (read_at_inside input pos) by lia.
  destruct (negb _); [split; [discriminate|intros ? [=]]|].
  rewrite (read_at_inside input (pos + 1)) by lia.
  destruct (negb _); [split; [discriminate|intros ? [=]]|].
  rewrite (read_at_inside input (pos + 2)) by lia.
  destruct (negb _); [split; [discriminate|intros ? [=]]|].
  rewrite (read_at_inside input (pos + 3)) by lia.
  destruct (_ || _); [split; [discriminate|intros ? [=]]|].
  rewrite !read_at_inside by lia.
  set (len := Z.of_nat (length input)) in *.
  apply (and_then_inside _ _ (pos + 10) len (pos + 4 + 4 + 2)); [|lia|].
  { apply optional_inside; [|lia]. apply skip_extra_field_inside. lia. }
  intros p1 Hp1.
  apply (and_then_inside _ _ p1 len p1); [|lia|].
  { apply optional_inside; [|lia]. apply skip_zero_terminated_inside. lia. }
  intros p2 Hp2.
  apply (and_then_inside _ _ p2 len p2); [|lia|].
  { apply optional_inside; [|lia]. apply skip_zero_terminated_inside. lia. }
  intros p3 Hp3.
  apply (and_then_inside _ _ p3 len p3); [|lia|].
  { apply optional_inside; [|lia]. apply skip_header_crc_inside. lia. }
  intros p4 Hp4. split; [discriminate|]. intros p' [= <-]. lia.
Qed.

Lemma check_member_trailer_inside input pos :
  0 <= pos ->
  check_member_trailer input pos <> OutOfBounds /\
  forall pos', check_member_trailer input pos = Accepted pos' ->
    pos' = pos + 8 /\ pos' <= Z.of_nat (length input).
Proof.
  intros Hp. unfold check_member_trailer. cbv zeta.
  destruct (_ || _) eqn:E; [split; [discriminate|intros ? [=]]|].
  apply orb_false_iff in E as [E1 E2]. apply Z.leb_gt in E1. apply Z.ltb_ge in E2.
  rewrite !read_at_inside by lia.
  split; [discriminate|]. intros p' [= <-]. lia.
Qed.

(** ** The blocks of a member *)

Lemma safe_decompress_block_type_00 : safe decompress_block_type_00.
Proof.
  intros d. rewrite decompress_block_type_00_unfold. cbv zeta.
  destruct (_ || _); [discriminate|].
  destruct (negb _); [discriminate|].
  destruct (_ || _); [discriminate|].
  unfold bind.
  pose proof (safe_handle_literal_codes
                (drop (Z.to_nat (stored_header d + 4)) (buf d)) (stored_LEN d)
                (set_cursor d (stored_header d + 4) 0)) as H.
  destruct (handle_literal_codes _ _ _); congruence.
Qed.

Lemma finishes_decompress_block_type_00 : finishes decompress_block_type_00.
Proof.
  intros d. rewrite decompress_block_type_00_unfold. cbv zeta.
  destruct (_ || _); [discriminate|].
  destruct (negb _); [discriminate|].
  destruct (_ || _); [discriminate|].
  unfold bind.
  pose proof (finishes_handle_literal_codes
                (drop (Z.to_nat (stored_header d + 4)) (buf d)) (stored_LEN d)
                (set_cursor d (stored_header d + 4) 0)) as H.
  destruct (handle_literal_codes _ _ _); congruence.
Qed.

Lemma safe_decompress_block_type_01 : safe decompress_block_type_01.
Proof.
  intros d. unfold decompress_block_type_01. destruct (is_null _); [discriminate|].
  apply safe_expand_block_type_01.
Qed.

Lemma safe_read_cl_code_lengths n : forall i l, safe (read_cl_code_lengths n i l).
Proof.
  induction n as [|n IH]; intros i l; cbn [read_cl_code_lengths].
  - apply safe_ret.
  - eapply safe_bind; [apply safe_read_bits|apply returns_True|]. intros tmp _. apply IH.
Qed.

Lemma safe_repeat_code_length n ll_code_cnt total v : forall st,
  safe (repeat_code_length n ll_code_cnt total v st).
Proof.
  induction n as [|n IH]; intros st; cbn [repeat_code_length].
  - apply safe_ret.
  - destruct (total <=? cnt st); [apply safe_fail|apply IH].
Qed.

Lemma safe_code_length_step ll_code_cnt total cl_root st :
  safe (code_length_step ll_code_cnt total cl_root st).
Proof.
  eapply safe_bind; [apply safe_find_huffman_code|apply returns_True|]. intros edge _.
  destruct (negb _); [apply safe_fail|].
  unfold code_length_action.
  destruct (_ && _); [apply safe_fail|].
  destruct (_ && _); [apply safe_ret|].
  destruct (_ =? 16).
  { eapply safe_bind; [apply safe_read_bits|apply returns_True|]. intros tmp _.
    apply safe_repeat_code_length. }
  destruct (_ || _); [|apply safe_ret].
  eapply safe_bind; [apply safe_read_bits|apply returns_True|]. intros tmp _.
  apply safe_repeat_code_length.
Qed.

Lemma safe_read_code_lengths ll_code_cnt total cl_root fuel : forall st,
  safe (read_code_lengths fuel ll_code_cnt total cl_root st).
Proof.
  induction fuel as [|fuel IH]; intros st; cbn [read_code_lengths];
    destruct (cnt st <? total); try apply safe_ret.
  - intros d. discriminate.
  - eapply safe_bind; [apply safe_code_length_step|apply returns_True|].
    intros st' _. apply IH.
Qed.

Ltac safe_guard :=
  match goal with
  | |- safe (if ?b then _ else _) => destruct b; [apply safe_fail|]
  end.

Lemma safe_decompress_block_type_10 : safe decompress_block_type_10.
Proof.
  unfold decompress_block_type_10.
  eapply safe_bind; [apply safe_read_bits|apply returns_True|]. intros hlit _. safe_guard.
  eapply safe_bind; [apply safe_read_bits|apply returns_True|]. intros hdist _. safe_guard.
  eapply safe_bind; [apply safe_read_bits|apply returns_True|]. intros hclen _. safe_guard.
  eapply safe_bind; [apply safe_read_cl_code_lengths|apply returns_True|].
  intros cl _. safe_guard.
  eapply safe_bind; [apply safe_read_code_lengths|apply returns_True|]. intros st _.
  safe_guard. safe_guard.
  intros d. apply safe_expand_block_type_10.
Qed.

Lemma read_header_bit_step d b d' :
  wf_data d -> buf_pos d < buf_len d -> read_header_bit d = Ret b d' ->
  runs_on d d' /\ bit_index d' = bit_index d + 1 /\ buf_pos d' < buf_len d'.
Proof.
  intros Hw Hp. unfold read_header_bit.
  destruct (_ <=? _) eqn:E; [discriminate|]. apply Z.leb_gt in E.
  intros [= _ <-]. split; [apply runs_on_increment; assumption|].
  split; [|exact E]. apply bit_index_increment. apply Hw.
Qed.

(** The block a pair of type bits selects. *)
Lemma block_by_type (msb lsb : bool) :
  let block := if negb msb && negb lsb then decompress_block_type_00
               else if negb msb && lsb then decompress_block_type_01
               else if msb && negb lsb then decompress_block_type_10
               else ret tt in
  keeps block /\ safe block /\ finishes_from block.
Proof.
  destruct msb, lsb; simpl.
  - split; [apply keeps_ret|]. split; [apply safe_ret|]. intros d _. discriminate.
  - split; [apply keeps_decompress_block_type_10|].
    split; [apply safe_decompress_block_type_10|].
    intros d. apply decompress_block_type_10_finishes.
  - split; [apply keeps_decompress_block_type_01|].
    split; [apply safe_decompress_block_type_01|].
    intros d. apply decompress_block_type_01_finishes.
  - split; [apply keeps_decompress_block_type_00|].
    split; [apply safe_decompress_block_type_00|].
    intros d _. apply finishes_decompress_block_type_00.
Qed.

Lemma decompress_blocks_loop_runs fuel : forall d,
  wf_data d -> within_input d -> 8 * buf_len d - bit_index d < Z.of_nat fuel ->
  ends_well (fun _ d' => runs_on d d' /\ bit_index d + 3 <= bit_index d')
    (decompress_blocks_loop fuel d).
Proof.
  induction fuel as [|fuel IH]; intros d Hw Hi Hfuel.
  { unfold within_input in Hi. lia. }
  cbn [decompress_blocks_loop].
  destruct (buf_len d <=? buf_pos d) eqn:E0; [exact I|].
  apply Z.leb_gt in E0. unfold bind at 1.
  destruct (read_header_bit d) as [bfinal d1| | |] eqn:E1; try exact I;
    try (unfold read_header_bit in E1; destruct (_ <=? _) in E1; discriminate).
  destruct (read_header_bit_step d bfinal d1 Hw E0 E1) as (R1 & X1 & P1).
  unfold bind at 1.
  destruct (read_header_bit d1) as [lsb d2| | |] eqn:E2; try exact I;
    try (unfold read_header_bit in E2; destruct (_ <=? _) in E2; discriminate).
  destruct (read_header_bit_step d1 lsb d2 ltac:(apply R1) P1 E2) as (R2 & X2 & P2).
  unfold bind at 1.
  destruct (read_header_bit d2) as [msb d3| | |] eqn:E3; try exact I;
    try (unfold read_header_bit in E3; destruct (_ <=? _) in E3; discriminate).
  destruct (read_header_bit_step d2 msb d3 ltac:(apply R2) P2 E3) as (R3 & X3 & P3).
  assert (R03 : runs_on d d3) by (eapply runs_on_trans; [eapply runs_on_trans|]; eassumption).
  destruct (msb && lsb) eqn:Etype; [exact I|].
  destruct (block_by_type msb lsb) as (Hk & Hs & Hf). cbv zeta in Hk, Hs, Hf.
  unfold bind.
  set (block := if negb msb && negb lsb then decompress_block_type_00
                else if negb msb && lsb then decompress_block_type_01
                else if msb && negb lsb then decompress_block_type_10
                else ret tt) in *.
  specialize (Hs d3). specialize (Hf d3 ltac:(apply R3)).
  destruct (block d3) as [[] d4| | |] eqn:E4; try congruence; [|exact I].
  pose proof (Hk d3 tt d4 ltac:(apply R3) ltac:(apply R3) E4) as R4.
  assert (R04 : runs_on d d4) by (eapply runs_on_trans; eassumption).
  assert (X4 : bit_index d + 3 <= bit_index d4) by (destruct R4 as (_ & _ & _ & ? & _); lia).
  destruct bfinal.
  - split; assumption.
  - destruct R04 as (Hw4 & Hi4 & Hb4 & Hx4 & Hf4).
    assert (Hfuel4 : 8 * buf_len d4 - bit_index d4 < Z.of_nat fuel)
      by (unfold buf_len in *; rewrite Hb4; lia).
    specialize (IH d4 Hw4 Hi4 Hfuel4).
    destruct (decompress_blocks_loop fuel d4) as [[] d5| | |]; try exact IH.
    destruct IH as [R5 X5]. split; [|lia].
    eapply runs_on_trans; [|exact R5]. repeat split; try apply Hw4; auto.
Qed.

Lemma wf_blocks_data input pos stream : 0 <= pos -> wf_data (blocks_data input pos stream).
Proof.
  intros Hp. unfold wf_data, blocks_data. cbn [back_refs out_buf out_pos back_refs_pos byte_pos buf_pos].
  rewrite !length_replicate. unfold OUT_BUF_SIZE, MAX_DISTANCE. repeat split; lia.
Qed.

Lemma flush_rest_step d :
  wf_data d ->
  ends_well (fun _ d' =>
               out_pos d' = 0 /\ buf_pos d' = buf_pos d /\ byte_pos d' = byte_pos d /\
               buf d' = buf d /\ f_written (f d') = output d)
    (flush_rest d).
Proof.
  intros Hw. unfold flush_rest.
  destruct (negb (out_pos d =? 0)) eqn:E.
  - destruct (fwrite _ _ _) as [k s] eqn:Ew.
    destruct (negb (k =? out_pos d)) eqn:Ek; [exact I|].
    apply negb_false_iff, Z.eqb_eq in Ek. subst k.
    unfold fwrite in Ew. injection Ew as Hk <-. unfold output. simpl.
    repeat split. rewrite Hk. reflexivity.
  - apply negb_false_iff, Z.eqb_eq in E. simpl.
    repeat split; [exact E|]. unfold output. rewrite E. change (Z.to_nat 0) with 0%nat.
    rewrite take_0, app_nil_r. reflexivity.
Qed.

(** [decompress_blocks] comes to an end on every input and writes inside
    its arrays; when it returns [true], the new position is further on and
    at most at the end of the input, the output buffer is empty, and every
    byte decoded is in the stream behind the bytes that were there. *)
Lemma decompress_blocks_ends input pos stream :
  0 <= pos ->
  ends_well (fun pos' d =>
               (pos < pos' <= Z.of_nat (length input)) /\
               out_pos d = 0 /\
               f_written stream `prefix_of` f_written (f d))
    (decompress_blocks input pos stream).
Proof.
  intros Hp. unfold decompress_blocks. cbv zeta.
  assert (Hw : wf_data (blocks_data input pos stream)) by (apply wf_blocks_data; exact Hp).
  assert (Dbuf : buf (blocks_data input pos stream) = input) by reflexivity.
  assert (Dpos : buf_pos (blocks_data input pos stream) = pos) by reflexivity.
  assert (Dbit : byte_pos (blocks_data input pos stream) = 0) by reflexivity.
  assert (Df : f (blocks_data input pos stream) = stream) by reflexivity.
  generalize dependent (blocks_data input pos stream). intros data Hw Dbuf Dpos Dbit Df.
  assert (Dlen : buf_len data = Z.of_nat (length input))
    by (unfold buf_len; rewrite Dbuf; reflexivity).
  destruct (Z_le_gt_dec (buf_len data) pos) as [Hout|Hin].
  { unfold bits_left. cbn [decompress_blocks_loop]. unfold bind at 1.
    assert (E : (buf_len data <=? buf_pos data) = true) by (apply Z.leb_le; lia).
    rewrite E. exact I. }
  assert (Hi : within_input data) by (unfold within_input, bit_index; lia).
  assert (Hfuel : 8 * buf_len data - bit_index data < Z.of_nat (bits_left data))
    by (unfold bits_left, bit_index; lia).
  pose proof (decompress_blocks_loop_runs (bits_left data) data Hw Hi Hfuel) as Hloop.
  unfold bind at 1.
  destruct (decompress_blocks_loop (bits_left data) data) as [[] d1| | |];
    try exact Hloop.
  destruct Hloop as [R1 X1].
  destruct R1 as (Hw1 & Hi1 & Hb1 & Hx1 & Hf1).
  pose proof (flush_rest_step d1 Hw1) as Hfl. unfold bind.
  destruct (flush_rest d1) as [[] d2| | |]; try exact Hfl.
  destruct Hfl as (Ho & Ep & Ey & Eb & Ef). cbn [ends_well].
  assert (Hlen : buf_len d1 = Z.of_nat (length input))
    by (unfold buf_len; rewrite Hb1, Dbuf; reflexivity).
  pose proof Hw1 as (_ & _ & _ & _ & Hby & _).
  unfold within_input, bit_index in *. rewrite Df in Hf1.
  assert (Hpre : f_written stream `prefix_of` f_written (f d2)).
  { rewrite Ef. unfold output. etrans; [exact Hf1|]. apply prefix_app_r. reflexivity. }
  destruct (negb (byte_pos d2 =? 0)) eqn:E0.
  - apply negb_true_iff, Z.eqb_neq in E0. cbn [buf_pos set_cursor out_pos f]. rewrite Ep.
    repeat split; try assumption; lia.
  - apply negb_false_iff, Z.eqb_eq in E0. rewrite Ep.
    repeat split; try assumption; lia.
Qed.

(** ** The members of a file *)

Lemma decompress_members_loop_settles input fuel : forall pos stream,
  0 <= pos -> Z.of_nat (length input) - pos < Z.of_nat fuel -> (0 < fuel)%nat ->
  settled (fun s => f_written stream `prefix_of` f_written s)
    (decompress_members_loop fuel input pos stream).
Proof.
  induction fuel as [|fuel IH]; intros pos stream Hp Hfuel Hpos; [lia|].
  cbn [decompress_members_loop].
  destruct (check_member_header_bounds input pos Hp) as [H1 H2].
  destruct (check_member_header input pos) as [pos1| |]; [|exact I|congruence].
  specialize (H2 pos1 eq_refl).
  pose proof (decompress_blocks_ends input pos1 stream ltac:(lia)) as Hb.
  destruct (decompress_blocks input pos1 stream) as [pos2 d| | |]; try exact Hb.
  destruct Hb as (Hp2 & _ & Hpre).
  destruct (check_member_trailer_inside input pos2 ltac:(lia)) as [T1 T2].
  destruct (check_member_trailer input pos2) as [pos3| |]; [|exact I|congruence].
  destruct (T2 pos3 eq_refl) as [-> Hp3].
  destruct (_ =? _) eqn:E; [exact Hpre|]. apply Z.eqb_neq in E.
  specialize (IH (pos2 + 8) (f d) ltac:(lia) ltac:(lia) ltac:(lia)).
  destruct (decompress_members_loop fuel input (pos2 + 8) (f d)); try exact IH.
  cbn [settled] in *. etrans; eassumption.
Qed.

(** X4: on every input the loop of [decompress_members] comes to an end,
    with [true] or with [false] and a diagnostic: every member accepted
    moves the position forward, the reads of the member headers and
    trailers stay below [buf_len], and no copy leaves the copy buffer. When
    it returns [true], the stream holds the bytes it held before, followed
    by what was decoded. *)
Theorem decompress_members_settles input stream :
  settled (fun s => f_written stream `prefix_of` f_written s)
    (decompress_members input stream).
Proof.
  apply decompress_members_loop_settles; lia.
Qed.

(** ** Reading bits *)

Lemma div_mod_8 p b : 0 <= b < 8 -> (8 * p + b) / 8 = p /\ (8 * p + b) mod 8 = b.
Proof. intros Hb. Z.div_mod_to_equations. lia. Qed.

Lemma current_bit_input d :
  cursor_ok d -> current_bit d = input_bit (buf d) (bit_index d).
Proof.
  intros Hc. unfold cursor_ok in Hc. unfold current_bit, input_bit, bit_index.
  destruct (div_mod_8 (buf_pos d) (byte_pos d) Hc) as [-> ->].
  reflexivity.
Qed.

Lemma bit_index_advance d n : bit_index (advance d n) = bit_index d + n.
Proof.
  unfold advance, bit_index at 1. cbn [buf_pos byte_pos set_cursor].
  pose proof (Z.div_mod (bit_index d + n) 8 ltac:(lia)). lia.
Qed.

Lemma cursor_ok_advance d n : cursor_ok (advance d n).
Proof. unfold cursor_ok, advance. cbn [byte_pos set_cursor]. apply Z.mod_pos_bound. lia. Qed.

Lemma advance_0 d : cursor_ok d -> advance d 0 = d.
Proof.
  intros Hc. unfold cursor_ok in Hc. unfold advance, bit_index. rewrite Z.add_0_r.
  destruct (div_mod_8 (buf_pos d) (byte_pos d) Hc) as [-> ->].
  destruct d; reflexivity.
Qed.

Lemma advance_advance d n m : advance (advance d n) m = advance d (n + m).
Proof.
  unfold advance at 1. rewrite bit_index_advance.
  unfold advance. cbn [set_cursor buf back_refs back_refs_pos back_refs_filled out_buf out_pos f].
  rewrite Z.add_assoc. reflexivity.
Qed.

Lemma increment_advance d : cursor_ok d -> increment_bit_position d = advance d 1.
Proof.
  intros Hc. unfold cursor_ok in Hc. unfold increment_bit_position, advance, bit_index.
  destruct (byte_pos d =? 7) eqn:E.
  - apply Z.eqb_eq in E.
    replace (8 * buf_pos d + byte_pos d + 1) with (8 * (buf_pos d + 1) + 0) by lia.
    destruct (div_mod_8 (buf_pos d + 1) 0 ltac:(lia)) as [-> ->]. reflexivity.
  - apply Z.eqb_neq in E.
    replace (8 * buf_pos d + byte_pos d + 1) with (8 * buf_pos d + (byte_pos d + 1)) by lia.
    destruct (div_mod_8 (buf_pos d) (byte_pos d + 1) ltac:(lia)) as [-> ->]. reflexivity.
Qed.

Lemma bits_from_S d n :
  bits_from d (S n) = input_bit (buf d) (bit_index d) :: bits_from (advance d 1) n.
Proof. unfold bits_from. rewrite bit_index_advance. reflexivity. Qed.

Lemma inside_byte d :
  cursor_ok d -> (buf_pos d < buf_len d <-> bit_index d + 1 <= 8 * buf_len d).
Proof. unfold cursor_ok, bit_index. lia. Qed.

Lemma set_bit tmp i (bit : bool) :
  0 <= i < 16 -> 0 <= tmp < 2 ^ i ->
  (if bit then u16 (Z.lor tmp (u16 (Z.shiftl 1 i))) else tmp)
  = tmp + 2 ^ i * Z.b2z bit.
Proof.
  intros Hi Ht. destruct bit; simpl; [|lia].
  rewrite Z.shiftl_1_l.
  assert (H16 : 2 ^ i < 65536).
  { change 65536 with (2 ^ 16). apply Z.pow_lt_mono_r; lia. }
  assert (Hp : 0 < 2 ^ i) by (apply Z.pow_pos_nonneg; lia).
  unfold u16 at 2. rewrite (Z.mod_small (2 ^ i)) by lia.
  assert (Hl : Z.land tmp (2 ^ i) = 0).
  { apply Z.bits_inj'. intros k Hk. rewrite Z.land_spec, Z.bits_0, Z.pow2_bits_eqb by lia.
    destruct (Z.eqb_spec i k) as [->|Hne]; [|apply andb_false_r].
    rewrite andb_true_r. destruct (Z.eq_dec tmp 0) as [->|Hnz]; [apply Z.bits_0|].
    apply Z.bits_above_log2; [lia|]. apply Z.log2_lt_pow2; lia. }
  assert (Hadd : Z.lor tmp (2 ^ i) = tmp + 2 ^ i)
    by (pose proof (Z.add_lor_land tmp (2 ^ i)); lia).
  rewrite Hadd. unfold u16. rewrite Z.mod_small; [lia|].
  assert (2 ^ i + 2 ^ i <= 65536).
  { replace (2 ^ i + 2 ^ i) with (2 ^ (i + 1)) by (rewrite Z.pow_add_r by lia; lia).
    change 65536 with (2 ^ 16). apply Z.pow_le_mono_r; lia. }
  lia.
Qed.

Lemma bits_value_range bs : 0 <= bits_value bs < 2 ^ Z.of_nat (length bs).
Proof.
  induction bs as [|b bs IH]; [simpl; lia|].
  cbn [bits_value length]. rewrite Nat2Z.inj_succ, Z.pow_succ_r by lia.
  destruct b; simpl Z.b2z; lia.
Qed.

Lemma length_bits_from d n : length (bits_from d n) = n.
Proof.
  unfold bits_from. generalize (bit_index d). induction n as [|n IH]; intros k; simpl;
    [reflexivity|]. rewrite IH. reflexivity.
Qed.

Lemma read_bits_loop_stream n : forall i tmp d,
  cursor_ok d -> 0 <= i -> i + Z.of_nat n <= 16 -> 0 <= tmp < 2 ^ i ->
  bit_index d + Z.of_nat n <= 8 * buf_len d ->
  read_bits_loop n i tmp d
  = Ret (tmp + 2 ^ i * bits_value (bits_from d n)) (advance d (Z.of_nat n)).
Proof.
  induction n as [|n IH]; intros i tmp d Hc Hi Hn Ht Hin.
  - simpl. rewrite advance_0 by exact Hc. f_equal. lia.
  - cbn [read_bits_loop].
    assert (E : (buf_len d <=? buf_pos d) = false)
      by (apply Z.leb_gt, inside_byte; [exact Hc|lia]).
    rewrite E. cbv zeta. rewrite set_bit by lia.
    rewrite current_bit_input, increment_advance by exact Hc.
    pose proof (bits_value_range (bits_from (advance d 1) n)) as Hr.
    rewrite length_bits_from in Hr.
    rewrite IH.
    + rewrite advance_advance, bits_from_S. cbn [bits_value].
      f_equal; [|f_equal; lia]. rewrite Z.pow_add_r by lia. ring.
    + apply cursor_ok_advance.
    + lia.
    + lia.
    + rewrite Z.pow_add_r by lia.
      destruct (input_bit (buf d) (bit_index d)); simpl Z.b2z; lia.
    + rewrite bit_index_advance. unfold buf_len, advance. cbn [buf set_cursor].
      unfold buf_len in Hin. lia.
Qed.

Lemma read_bits_loop_short n : forall i tmp d,
  cursor_ok d -> (0 < n)%nat -> 8 * buf_len d < bit_index d + Z.of_nat n ->
  failure (read_bits_loop n i tmp d) = Some "Unexpected buffer length"%string.
Proof.
  induction n as [|n IH]; intros i tmp d Hc Hn Hout; [lia|].
  cbn [read_bits_loop].
  destruct (buf_len d <=? buf_pos d) eqn:E; [reflexivity|].
  apply Z.leb_gt, inside_byte in E; [|exact Hc]. cbv zeta.
  rewrite increment_advance by exact Hc. apply IH.
  - apply cursor_ok_advance.
  - lia.
  - rewrite bit_index_advance. unfold buf_len, advance. cbn [buf set_cursor].
    unfold buf_len in Hout. lia.
Qed.

(** X7: [read_bits] takes the next [bits] bits of the input, the first one
    as the least significant bit of the value, and leaves the cursor behind
    them; it fails exactly when fewer than [bits] bits are left. *)
Theorem read_bits_stream bits d :
  cursor_ok d -> 0 <= bits <= 16 ->
  (bit_index d + bits <= 8 * buf_len d ->
   read_bits bits d
   = Ret (bits_value (bits_from d (Z.to_nat bits))) (advance d bits)) /\
  (0 < bits -> 8 * buf_len d < bit_index d + bits ->
   failure (read_bits bits d) = Some "Unexpected buffer length"%string).
Proof.
  intros Hc Hb. unfold read_bits. split.
  - intros Hin. rewrite read_bits_loop_stream; try lia; try assumption.
    rewrite Z2Nat.id by lia. f_equal. lia.
  - intros Hpos Hout. apply read_bits_loop_short; try assumption; lia.
Qed.

(** ** Decoding a symbol *)

Lemma node_code_fresh q : node_code (subtree (Node NULL NULL (-1)) q) = -1.
Proof. destruct q; [reflexivity|]. rewrite subtree_fresh by discriminate. reflexivity. Qed.

Lemma node_code_subtree_NULL q : node_code (subtree NULL q) = -1.
Proof. rewrite subtree_NULL. reflexivity. Qed.

(** The symbols after an insertion: the new one at the end of the path, and
    the old ones everywhere else. *)
Lemma insert_path_code p : forall i cur cur' q,
  insert_path p i cur = Some cur' -> p <> [] ->
  node_code (subtree cur' q)
  = if decide (q = p) then i else node_code (subtree cur q).
Proof.
  induction p as [|b p' IH]; intros i cur cur' q H Hp; [congruence|].
  destruct cur as [|l r s]; [discriminate|].
  set (cur := Node l r s) in *.
  assert (Hcur : cur <> NULL) by discriminate.
  pose proof (insert_path_root_code _ _ _ _ H Hp) as Hroot.
  rewrite insert_path_cons in H by assumption. cbv zeta in H.
  destruct q as [|b' q'].
  { destruct (decide ([] = b :: p')); [discriminate|]. exact Hroot. }
  rewrite !subtree_cons.
  destruct p' as [|b'' p''].
  - destruct (is_null (child b cur)) eqn:En; [|discriminate].
    assert (cur' = with_child b cur (Node NULL NULL i)) as -> by congruence. clear H.
    rewrite child_with_child by assumption.
    destruct (Bool.eqb b b') eqn:Eb.
    + apply Bool.eqb_prop in Eb. subst b'.
      destruct (child b cur) eqn:Ec; [|discriminate].
      destruct (decide (b :: q' = [b])) as [E|E].
      * injection E as ->. reflexivity.
      * destruct q' as [|? ?]; [congruence|].
        rewrite subtree_fresh by discriminate. rewrite subtree_NULL. reflexivity.
    + destruct (decide (b' :: q' = [b])) as [E|E]; [|reflexivity].
      injection E as -> _. destruct b; discriminate.
  - destruct (negb (is_null (child b cur)) && negb (node_code (child b cur) =? -1));
      [discriminate|].
    destruct (insert_path (b'' :: p'') i _) as [tmp'|] eqn:Ei; [|discriminate].
    assert (cur' = with_child b cur tmp') as -> by congruence. clear H.
    rewrite child_with_child by assumption.
    destruct (Bool.eqb b b') eqn:Eb.
    + apply Bool.eqb_prop in Eb. subst b'.
      rewrite (IH i _ tmp' q' Ei) by congruence.
      destruct (decide (q' = b'' :: p'')) as [->|E].
      * destruct (decide (b :: b'' :: p'' = b :: b'' :: p'')); congruence.
      * destruct (decide (b :: q' = b :: b'' :: p'')) as [E'|_]; [congruence|].
        destruct (child b cur) eqn:Ec; simpl is_null; cbv iota; [|reflexivity].
        rewrite node_code_fresh, node_code_subtree_NULL. reflexivity.
    + destruct (decide (b' :: q' = b :: b'' :: p'')) as [E|E]; [|reflexivity].
      injection E as -> _. destruct b; discriminate.
Qed.

Lemma insert_paths_not_null ps : forall i t,
  insert_paths ps i t <> NULL -> t <> NULL.
Proof.
  induction ps as [|p rest IH]; intros i t H; [exact H|].
  cbn [insert_paths] in H. intros ->. destruct p as [|b p]; simpl in H.
  - exact (IH _ _ H eq_refl).
  - congruence.
Qed.

(** A path that is in the tree cannot be inserted again. *)
Lemma insert_paths_again ps : forall i t q,
  t <> NULL -> exists_at t q -> q <> [] -> q ∈ ps -> insert_paths ps i t = NULL.
Proof.
  induction ps as [|p rest IH]; intros i t q Ht Hex Hq Hin.
  { exfalso. exact (not_elem_of_nil _ Hin). }
  cbn [insert_paths].
  destruct (insert_path p i t) as [t1|] eqn:E; [|reflexivity].
  apply elem_of_cons in Hin as [<-|Hin].
  - exfalso. assert (insert_path q i t = None); [|congruence].
    apply insert_path_None; auto.
  - apply (IH _ _ q); auto.
    + exact (insert_path_not_null _ _ _ _ E Ht).
    + destruct p as [|b p]; [simpl in E; congruence|].
      apply (insert_path_exists _ _ _ _ q E); [discriminate|]. left. exact Hex.
Qed.

Lemma insert_paths_other ps : forall i t q,
  insert_paths ps i t <> NULL ->
  (forall p, p ∈ ps -> p <> [] -> p <> q) ->
  node_code (subtree (insert_paths ps i t) q) = node_code (subtree t q).
Proof.
  induction ps as [|p rest IH]; intros i t q Hn Hq; [reflexivity|].
  cbn [insert_paths] in *.
  destruct (insert_path p i t) as [t1|] eqn:E; [|congruence].
  rewrite IH; [|exact Hn|intros p' Hp'; apply Hq; right; exact Hp'].
  destruct p as [|b p]; [simpl in E; congruence|].
  rewrite (insert_path_code _ _ _ _ q E) by discriminate.
  destruct (decide (q = b :: p)) as [->|_]; [|reflexivity].
  exfalso. exact (Hq (b :: p) ltac:(left) ltac:(discriminate) eq_refl).
Qed.

Lemma insert_paths_code ps : forall i t j p,
  insert_paths ps i t <> NULL ->
  ps !! j = Some p -> p <> [] ->
  node_code (subtree (insert_paths ps i t) p) = i + Z.of_nat j.
Proof.
  induction ps as [|p0 rest IH]; intros i t j p Hn Hj Hp; [discriminate|].
  pose proof (insert_paths_not_null _ _ _ Hn) as Ht.
  cbn [insert_paths] in *.
  destruct (insert_path p0 i t) as [t1|] eqn:E; [|congruence].
  assert (Ht1 : t1 <> NULL) by exact (insert_paths_not_null _ _ _ Hn).
  destruct j as [|j].
  - injection Hj as ->.
    rewrite insert_paths_other; [| exact Hn |].
    + rewrite (insert_path_code _ _ _ _ p E Hp).
      destruct (decide (p = p)); [lia|congruence].
    + intros p' Hin Hp' ->. apply Hn.
      apply (insert_paths_again rest _ t1 p); auto.
      apply (insert_path_exists _ _ _ _ p E Hp). right. reflexivity.
  - rewrite (IH (i + 1) t1 j p Hn Hj Hp). lia.
Qed.

(** The decoding loop follows a path of inner nodes down to a symbol. *)
Lemma find_huffman_code_from_path p : forall cur d,
  cursor_ok d -> bits_from d (length p) = p ->
  bit_index d + Z.of_nat (length p) <= 8 * buf_len d ->
  (forall q r, p = q ++ r -> r <> [] -> node_code (subtree cur q) = -1) ->
  node_code (subtree cur p) <> -1 ->
  find_huffman_code_from cur d = Ret (subtree cur p) (advance d (Z.of_nat (length p))).
Proof.
  induction p as [|b p IH]; intros cur d Hc Hbits Hin Hinner Hleaf.
  - simpl in *. destruct cur as [|l r c]; [simpl in Hleaf; congruence|].
    simpl in *. destruct (Z.eqb_spec c (-1)); [congruence|].
    rewrite advance_0 by exact Hc. reflexivity.
  - assert (Hcur : cur <> NULL).
    { intros ->. rewrite subtree_NULL in Hleaf. simpl in Hleaf. congruence. }
    destruct cur as [|l r c]; [congruence|].
    pose proof (Hinner [] (b :: p) eq_refl ltac:(discriminate)) as Hc0. simpl in Hc0.
    subst c. cbn [find_huffman_code_from]. simpl (-1 =? -1).
    cbn [length] in Hin. rewrite Nat2Z.inj_succ in Hin.
    assert (E : (buf_len d <=? buf_pos d) = false)
      by (apply Z.leb_gt, inside_byte; [exact Hc|lia]).
    rewrite E. cbv zeta.
    cbn [length] in Hbits. rewrite bits_from_S in Hbits. injection Hbits as Hb Hrest.
    rewrite current_bit_input, Hb by exact Hc.
    rewrite increment_advance by exact Hc.
    change (subtree (Node l r (-1)) (b :: p)) with (subtree (if b then r else l) p) in *.
    assert (Hnext : (if b then r else l) <> NULL).
    { intros Hn. rewrite Hn, subtree_NULL in Hleaf. simpl in Hleaf. congruence. }
    destruct (if b then r else l) as [|nl nr nc] eqn:En; [congruence|].
    rewrite (IH (Node nl nr nc) (advance d 1)).
    + rewrite advance_advance. f_equal. cbn [length]. f_equal. lia.
    + apply cursor_ok_advance.
    + exact Hrest.
    + rewrite bit_index_advance. unfold buf_len, advance. cbn [buf set_cursor].
      unfold buf_len in Hin. lia.
    + intros q r' Hq Hr.
      specialize (Hinner (b :: q) r' ltac:(simpl; congruence) Hr).
      simpl in Hinner. rewrite En in Hinner. exact Hinner.
    + exact Hleaf.
Qed.

Lemma find_huffman_code_from_inv cur : forall d leaf d',
  cursor_ok d -> find_huffman_code_from cur d = Ret leaf d' ->
  exists p,
    leaf = subtree cur p /\ node_code leaf <> -1 /\
    bits_from d (length p) = p /\ d' = advance d (Z.of_nat (length p)).
Proof.
  induction cur as [|l IHl r IHr c]; intros d leaf d' Hc; simpl; [discriminate|].
  destruct (Z.eqb_spec c (-1)) as [->|Hne].
  - destruct (buf_len d <=? buf_pos d) eqn:E; [discriminate|].
    rewrite increment_advance by exact Hc. rewrite current_bit_input by exact Hc.
    assert (Hstep : forall next,
              next = (if input_bit (buf d) (bit_index d) then r else l) ->
              (forall d0 leaf0 d0', cursor_ok d0 ->
                 find_huffman_code_from next d0 = Ret leaf0 d0' ->
                 exists p, leaf0 = subtree next p /\ node_code leaf0 <> -1 /\
                   bits_from d0 (length p) = p /\ d0' = advance d0 (Z.of_nat (length p))) ->
              find_huffman_code_from next (advance d 1) = Ret leaf d' ->
              exists p, leaf = subtree (Node l r (-1)) p /\ node_code leaf <> -1 /\
                bits_from d (length p) = p /\ d' = advance d (Z.of_nat (length p))).
    { intros next Hnext IH H.
      destruct (IH _ _ _ (cursor_ok_advance d 1) H) as (p & H1 & H2 & H3 & H4).
      exists (input_bit (buf d) (bit_index d) :: p).
      split; [simpl; rewrite <- Hnext; exact H1|]. split; [exact H2|].
      split; [cbn [length]; rewrite bits_from_S, H3; reflexivity|].
      rewrite H4, advance_advance; cbn [length]; f_equal; lia. }
    destruct (input_bit (buf d) (bit_index d)).
    + destruct r as [|rl rr rc]; [discriminate|]. apply (Hstep _ eq_refl IHr).
    + destruct l as [|ll lr lc]; [discriminate|]. apply (Hstep _ eq_refl IHl).
  - intros [= <- <-]. exists []. simpl. rewrite advance_0 by exact Hc.
    repeat split; auto.
Qed.

Lemma comparable_sym (p q : list bool) : comparable p q -> comparable q p.
Proof. intros [H|H]; [right|left]; exact H. Qed.

(** What a tree that was built is made of. *)
Lemma created_tree L limit :
  Forall (fun l => 0 <= l) L -> is_null (create_huffman_tree L limit) = false ->
  exists codes,
    generate_huffman_codes L limit = Some codes /\
    Forall wf_code codes /\ map len codes = L /\
    create_huffman_tree L limit = insert_paths (map code_path codes) 0 (Node NULL NULL (-1)) /\
    insert_paths (map code_path codes) 0 (Node NULL NULL (-1)) <> NULL /\
    ~ clash [] (map code_path codes).
Proof.
  intros HL Hn. unfold create_huffman_tree in *.
  destruct (288 <? _); [discriminate|].
  destruct (generate_huffman_codes L limit) as [codes|] eqn:E; [|discriminate].
  destruct (generate_huffman_codes_wf L limit codes HL E) as [Hwf Hlen].
  rewrite insert_codes_paths in * by exact Hwf.
  exists codes. repeat split; auto.
  - intros H. rewrite H in Hn. discriminate.
  - intros Hc. apply (insert_paths_NULL _ 0 (Node NULL NULL (-1)) []) in Hc;
      [|lia|apply trie_of_root].
    rewrite Hc in Hn. discriminate.
Qed.

Lemma no_clash_distinct ps i j p q :
  ~ clash [] ps -> ps !! i = Some p -> ps !! j = Some q ->
  p <> [] -> q <> [] -> comparable p q -> i = j.
Proof.
  intros Hc Hi Hj Hp Hq Hcmp.
  destruct (Nat.lt_trichotomy i j) as [Hlt|[Heq|Hgt]]; [|exact Heq|].
  - exfalso. apply Hc. right. exists i, j, p, q. repeat split; auto.
  - exfalso. apply Hc. right. exists j, i, q, p. repeat split; auto.
    apply comparable_sym. exact Hcmp.
Qed.

Lemma length_code_path c : wf_code c -> length (code_path c) = Z.to_nat (len c).
Proof. intros (_ & Hl & _). unfold code_path. rewrite length_bits_of. exact Hl. Qed.

(** X8: in a tree that [create_huffman_tree] built, the bits of the code of
    a symbol, read from the input in the order of the code string, lead
    [find_huffman_code] to the node of that symbol, and the cursor is left
    behind them. *)
Theorem find_huffman_code_of_code L limit codes s c d :
  Forall (fun l => 0 <= l) L ->
  is_null (create_huffman_tree L limit) = false ->
  generate_huffman_codes L limit = Some codes ->
  codes !! s = Some c -> 0 < len c ->
  cursor_ok d ->
  bits_from d (Z.to_nat (len c)) = code_path c ->
  bit_index d + len c <= 8 * buf_len d ->
  exists leaf,
    find_huffman_code (create_huffman_tree L limit) d = Ret leaf (advance d (len c)) /\
    node_code leaf = Z.of_nat s.
Proof.
  intros HL Hn Hgen Hs Hlen Hc Hbits Hin.
  destruct (created_tree L limit HL Hn) as (codes' & Hgen' & Hwf & Hmap & Htree & Hnn & Hclash).
  assert (codes' = codes) as -> by congruence.
  assert (Hwfc : wf_code c) by (eapply Forall_lookup_1; eassumption).
  set (ps := map code_path codes) in *.
  set (tree := insert_paths ps 0 (Node NULL NULL (-1))) in *.
  assert (Hps : ps !! s = Some (code_path c)) by (unfold ps; rewrite list_lookup_fmap, Hs; reflexivity).
  assert (Hp : code_path c <> []) by (apply wf_code_path_nil; assumption).
  assert (Hl : Z.of_nat (length (code_path c)) = len c)
    by (rewrite length_code_path by assumption; lia).
  assert (Hcode : node_code (subtree tree (code_path c)) = Z.of_nat s).
  { unfold tree. rewrite (insert_paths_code ps 0 _ s) by assumption. lia. }
  rewrite Htree. exists (subtree tree (code_path c)). split; [|exact Hcode].
  unfold find_huffman_code. destruct tree as [|tl tr tc] eqn:Et; [congruence|].
  rewrite <- Et in *. rewrite <- Hl.
  apply find_huffman_code_from_path.
  - exact Hc.
  - rewrite length_code_path by assumption. exact Hbits.
  - lia.
  - intros q r Hq Hr. unfold tree. rewrite insert_paths_other.
    + apply node_code_fresh.
    + exact Hnn.
    + intros p' Hin' Hp' ->.
      apply list_elem_of_lookup in Hin' as [j Hj].
      assert (j = s).
      { apply (no_clash_distinct ps j s q (code_path c) Hclash Hj Hps Hp' Hp).
        left. exists r. exact Hq. }
      subst j. rewrite Hps in Hj. injection Hj as Hj. rewrite Hq in Hj.
      apply (f_equal length) in Hj. rewrite length_app in Hj.
      destruct r; [congruence|simpl in Hj; lia].
  - rewrite Hcode. lia.
Qed.

(** X9: conversely, a node that [find_huffman_code] returns from such a
    tree is the node of a symbol with a code, and the bits that were read
    are the bits of that code. *)
Theorem find_huffman_code_is_code L limit d leaf d' :
  Forall (fun l => 0 <= l) L -> cursor_ok d ->
  find_huffman_code (create_huffman_tree L limit) d = Ret leaf d' ->
  exists codes s c,
    generate_huffman_codes L limit = Some codes /\
    codes !! s = Some c /\ L !! s = Some (len c) /\ 0 < len c /\
    node_code leaf = Z.of_nat s /\
    bits_from d (Z.to_nat (len c)) = code_path c /\
    d' = advance d (len c).
Proof.
  intros HL Hc Hfind.
  assert (Hn : is_null (create_huffman_tree L limit) = false).
  { destruct (create_huffman_tree L limit); [discriminate|reflexivity]. }
  destruct (created_tree L limit HL Hn) as (codes & Hgen & Hwf & Hmap & Htree & Hnn & Hclash).
  set (ps := map code_path codes) in *.
  set (tree := insert_paths ps 0 (Node NULL NULL (-1))) in *.
  rewrite Htree in Hfind. unfold find_huffman_code in Hfind.
  destruct tree as [|tl tr tc] eqn:Et; [congruence|]. rewrite <- Et in *.
  destruct (find_huffman_code_from_inv tree d leaf d' Hc Hfind) as (p & H1 & H2 & H3 & H4).
  destruct (decide (Exists (fun p' => p' <> [] /\ p' = p) ps)) as [Hex|Hno].
  - apply Exists_exists in Hex as (p' & Hin & Hp' & ->).
    apply list_elem_of_lookup in Hin as [s Hs].
    unfold ps in Hs. rewrite list_lookup_fmap in Hs.
    destruct (codes !! s) as [c|] eqn:Ecs; [|discriminate]. injection Hs as Hs.
    assert (Hwfc : wf_code c) by (eapply Forall_lookup_1; eassumption).
    assert (Hps : ps !! s = Some (code_path c))
      by (unfold ps; rewrite list_lookup_fmap, Ecs; reflexivity).
    assert (Hlen : 0 < len c) by (apply wf_code_path_nil; [assumption|congruence]).
    assert (Hl : Z.of_nat (length p) = len c)
      by (rewrite <- Hs, length_code_path by assumption; lia).
    exists codes, s, c. split; [exact Hgen|]. split; [exact Ecs|].
    split; [rewrite <- Hmap, list_lookup_fmap, Ecs; reflexivity|].
    split; [exact Hlen|]. split.
    + rewrite H1. unfold tree. rewrite <- Hs.
      rewrite (insert_paths_code ps 0 _ s) by (assumption || congruence). lia.
    + split; [|rewrite <- Hl; exact H4].
      rewrite Hs, <- Hl, Nat2Z.id. exact H3.
  - exfalso. apply H2. rewrite H1. unfold tree. rewrite insert_paths_other.
    + apply node_code_fresh.
    + exact Hnn.
    + intros p' Hin Hp' ->. apply Hno. apply Exists_exists. exists p. auto.
Qed.

Lemma find_huffman_code_of_code_witness :
  exists leaf,
    find_huffman_code (create_huffman_tree [2; 1; 3; 3] 15) (start_data [1] 0 0)
    = Ret leaf (advance (start_data [1] 0 0) (len (mk_huffman "10" 2))) /\
    node_code leaf = Z.of_nat 0.
Proof.
  apply (find_huffman_code_of_code [2; 1; 3; 3] 15
           [mk_huffman "10" 2; mk_huffman "0" 1; mk_huffman "110" 3; mk_huffman "111" 3]
           0%nat (mk_huffman "10" 2) (start_data [1] 0 0)).
  - repeat constructor; lia.
  - reflexivity.
  - reflexivity.
  - reflexivity.
  - simpl; lia.
  - unfold cursor_ok; simpl; lia.
  - reflexivity.
  - vm_compute. discriminate.
Defined.

(** ** Zero-terminated fields of the header *)

Lemma skip_to_zero_found rest : forall pos buf_len (k : nat) b,
  Z.of_nat (length rest) = buf_len - pos ->
  Forall (fun c => byte_val c <> 0) (take k rest) ->
  rest !! k = Some b -> byte_val b = 0 ->
  skip_to_zero rest pos buf_len = Accepted (pos + Z.of_nat k + 1).
Proof.
  induction rest as [|c rest IH]; intros pos buf_len k b Hl Hnz Hk Hb; [discriminate|].
  cbn [skip_to_zero]. cbv zeta. destruct k as [|k].
  - injection Hk as ->. rewrite Hb. simpl. f_equal. lia.
  - cbn [take] in Hnz. apply Forall_cons in Hnz as [Hc Hnz].
    destruct (Z.eqb_spec (byte_val c) 0) as [?|_]; [congruence|].
    simpl in Hk. apply lookup_lt_Some in Hk as Hlt. cbn [length] in Hl.
    destruct (buf_len <=? pos + 1) eqn:E; [apply Z.leb_le in E; lia|].
    rewrite (IH (pos + 1) buf_len k b) by (assumption || lia). f_equal. lia.
Qed.

Lemma skip_to_zero_missing rest : forall pos buf_len,
  rest <> [] -> Z.of_nat (length rest) = buf_len - pos ->
  Forall (fun c => byte_val c <> 0) rest ->
  skip_to_zero rest pos buf_len = Rejected "Unexpected buffer length".
Proof.
  induction rest as [|c rest IH]; intros pos buf_len Hne Hl Hnz; [congruence|].
  cbn [skip_to_zero]. cbv zeta. apply Forall_cons in Hnz as [Hc Hnz].
  destruct (Z.eqb_spec (byte_val c) 0) as [?|_]; [congruence|].
  cbn [length] in Hl.
  destruct (buf_len <=? pos + 1) eqn:E; [reflexivity|]. apply Z.leb_gt in E.
  apply IH; [|lia|exact Hnz]. intros ->. simpl in Hl. lia.
Qed.

(** X2: the file name and the comment of a header are skipped up to and
    including their first zero byte; when no zero byte follows, the header
    is rejected. *)
Theorem skip_zero_terminated_first_zero input pos :
  0 <= pos < Z.of_nat (length input) ->
  (forall (k : nat) b,
     Forall (fun c => byte_val c <> 0) (take k (drop (Z.to_nat pos) input)) ->
     drop (Z.to_nat pos) input !! k = Some b -> byte_val b = 0 ->
     skip_zero_terminated input pos = Accepted (pos + Z.of_nat k + 1)) /\
  (Forall (fun c => byte_val c <> 0) (drop (Z.to_nat pos) input) ->
   skip_zero_terminated input pos = Rejected "Unexpected buffer length").
Proof.
  intros Hp. unfold skip_zero_terminated.
  assert (E : (Z.of_nat (length input) <=? pos) = false) by (apply Z.leb_gt; lia).
  assert (E0 : (pos <? 0) = false) by (apply Z.ltb_ge; lia).
  rewrite E, E0.
  assert (Hl : Z.of_nat (length (drop (Z.to_nat pos) input)) = Z.of_nat (length input) - pos)
    by (rewrite length_drop; lia).
  split.
  - intros k b Hnz Hk Hb. eapply skip_to_zero_found; eassumption.
  - intros Hnz. apply skip_to_zero_missing; [|exact Hl|exact Hnz].
    intros Hd. rewrite Hd in Hl. simpl in Hl. lia.
Qed.

Lemma skip_zero_terminated_first_zero_witness :
  (forall (k : nat) b,
     Forall (fun c => byte_val c <> 0) (take k (drop (Z.to_nat 1) (map byte_of [8; 97; 0; 98]))) ->
     drop (Z.to_nat 1) (map byte_of [8; 97; 0; 98]) !! k = Some b -> byte_val b = 0 ->
     skip_zero_terminated (map byte_of [8; 97; 0; 98]) 1 = Accepted (1 + Z.of_nat k + 1)) /\
  (Forall (fun c => byte_val c <> 0) (drop (Z.to_nat 1) (map byte_of [8; 97; 0; 98])) ->
   skip_zero_terminated (map byte_of [8; 97; 0; 98]) 1 = Rejected "Unexpected buffer length").
Proof.
  apply (skip_zero_terminated_first_zero (map byte_of [8; 97; 0; 98]) 1). simpl. lia.
Defined.

(** ** The name of the file *)

Lemma string_last3 s : forall a b c,
  (3 <= String.length s)%nat ->
  String.get (String.length s - 3) s = Some a ->
  String.get (String.length s - 2) s = Some b ->
  String.get (String.length s - 1) s = Some c ->
  s = (String.substring 0 (String.length s - 3) s
       +:+ String a (String b (String c EmptyString)))%string.
Proof.
  induction s as [|x s IH]; intros a b c Hl Ha Hb Hc; [simpl in Hl; lia|].
  destruct (le_lt_dec 3 (String.length s)) as [H3|H3].
  - cbn [String.length] in *.
    replace (S (String.length s) - 3)%nat with (S (String.length s - 3)) in * by lia.
    replace (S (String.length s) - 2)%nat with (S (String.length s - 2)) in * by lia.
    replace (S (String.length s) - 1)%nat with (S (String.length s - 1)) in * by lia.
    cbn [String.get String.substring] in *.
    change (String x ?u +:+ ?v)%string with (String x (u +:+ v)%string).
    f_equal. apply IH; assumption.
  - destruct s as [|y [|z [|w s]]]; simpl in Hl, H3; try lia.
    simpl in Ha, Hb, Hc. injection Ha as ->. injection Hb as ->. injection Hc as ->.
    reflexivity.
Qed.

Lemma string_get_app_r s1 s2 (n : nat) :
  String.get (String.length s1 + n) (s1 +:+ s2)%string = String.get n s2.
Proof. induction s1 as [|x s1 IH]; [reflexivity|exact IH]. Qed.

Lemma string_substring_app s1 s2 :
  String.substring 0 (String.length s1) (s1 +:+ s2)%string = s1.
Proof.
  induction s1 as [|x s1 IH]; simpl.
  - destruct s2; reflexivity.
  - f_equal. exact IH.
Qed.

Lemma string_length_app s1 s2 :
  String.length (s1 +:+ s2)%string = (String.length s1 + String.length s2)%nat.
Proof. induction s1 as [|x s1 IH]; simpl; [reflexivity|]. f_equal. exact IH. Qed.

(** X13: [gzip_filename] accepts exactly the names made of a non-empty base
    followed by [.gz], and the file [main] writes carries the base as its
    name. *)
Theorem gzip_filename_suffix cmd_arg :
  (forall filename, gzip_filename cmd_arg = Some filename ->
     filename = cmd_arg /\
     output_filename filename <> EmptyString /\
     (output_filename filename +:+ ".gz")%string = cmd_arg) /\
  (forall base, base <> EmptyString -> cmd_arg = (base +:+ ".gz")%string ->
     gzip_filename cmd_arg = Some cmd_arg /\ output_filename cmd_arg = base).
Proof.
  split.
  - intros filename. unfold gzip_filename. cbv zeta.
    destruct (_ || _) eqn:E; [discriminate|]. intros [= <-].
    repeat (apply orb_false_iff in E as [E ?]).
    apply Z.ltb_ge in E.
    repeat match goal with
           | H : negb (bool_decide _) = false |- _ =>
               apply negb_false_iff, bool_decide_eq_true in H
           end.
    replace (Z.to_nat (Z.of_nat (String.length cmd_arg) - 1))
      with (String.length cmd_arg - 1)%nat in * by lia.
    replace (Z.to_nat (Z.of_nat (String.length cmd_arg) - 2))
      with (String.length cmd_arg - 2)%nat in * by lia.
    replace (Z.to_nat (Z.of_nat (String.length cmd_arg) - 3))
      with (String.length cmd_arg - 3)%nat in * by lia.
    pose proof (string_last3 cmd_arg _ _ _ ltac:(lia) H1 H0 H) as Hs.
    split; [reflexivity|]. split; [|symmetry; exact Hs].
    unfold output_filename. intros He. rewrite He in Hs.
    apply (f_equal String.length) in Hs. simpl in Hs. lia.
  - intros base Hb ->. unfold gzip_filename, output_filename. cbv zeta.
    rewrite string_length_app. cbn [String.length].
    replace (Z.to_nat (Z.of_nat (String.length base + 3) - 3))
      with (String.length base + 0)%nat by lia.
    replace (Z.to_nat (Z.of_nat (String.length base + 3) - 2))
      with (String.length base + 1)%nat by lia.
    replace (Z.to_nat (Z.of_nat (String.length base + 3) - 1))
      with (String.length base + 2)%nat by lia.
    rewrite !string_get_app_r. cbn [String.get].
    assert (Hlen : (Z.of_nat (String.length base + 3) <? 4) = false).
    { apply Z.ltb_ge. destruct base; [congruence|simpl; lia]. }
    rewrite Hlen. simpl. split; [reflexivity|].
    replace (String.length base + 3 - 3)%nat with (String.length base) by lia.
    apply string_substring_app.
Qed.

(** ** A match copies from the output *)

Lemma idx_app_l {A} `{Inhabited A} (l1 l2 : list A) i :
  0 <= i < Z.of_nat (length l1) -> idx (l1 ++ l2) i = idx l1 i.
Proof. intros Hi. unfold idx. apply lookup_total_app_l. lia. Qed.

Lemma idx_app_last {A} `{Inhabited A} (l : list A) x :
  idx (l ++ [x]) (Z.of_nat (length l)) = x.
Proof.
  unfold idx. rewrite Nat2Z.id. rewrite lookup_total_app_r by lia.
  rewrite Nat.sub_diag. reflexivity.
Qed.

Lemma window_holds_emit c d d1 out :
  wf_data d -> window_holds d out -> emits [c] d d1 ->
  window_holds d1 (out ++ [c]).
Proof.
  intros Hw (He & Hpos & Hbytes) Hem.
  pose proof Hw as (Hbr & Hob & Hop & Hbp & Hby & Hp0).
  pose proof Hem as (_ & _ & _ & _ & Ebr & Epos & Efill & _).
  cbn [window_put length] in Ebr, Epos. change (Z.of_nat 1) with 1 in Epos.
  unfold window_holds. rewrite length_app. cbn [length]. rewrite Nat2Z.inj_add.
  change (Z.of_nat 1) with 1.
  split; [|split].
  - apply (emitted_so_far_emits [c] _ d d1); auto. lia.
  - rewrite Epos, Hpos. unfold MAX_DISTANCE. rewrite Z.add_mod_idemp_l by lia. reflexivity.
  - intros k Hk HkM. rewrite Ebr, Epos.
    assert (Hidx : ((back_refs_pos d + 1) mod MAX_DISTANCE - 1 - k) mod MAX_DISTANCE
                   = (back_refs_pos d - k) mod MAX_DISTANCE).
    { unfold MAX_DISTANCE in *. Z.div_mod_to_equations. lia. }
    rewrite Hidx.
    destruct (Z.eq_dec k 0) as [->|Hk0].
    + rewrite Z.sub_0_r, Z.mod_small by lia.
      rewrite idx_upd_eq by (rewrite Hbr; unfold MAX_DISTANCE in *; lia).
      replace (Z.of_nat (length out) + 1 - 1 - 0) with (Z.of_nat (length out)) by lia.
      rewrite idx_app_last. reflexivity.
    + rewrite idx_upd_ne.
      * replace (back_refs_pos d - k) with (back_refs_pos d - 1 - (k - 1)) by lia.
        rewrite Hbytes by lia.
        rewrite idx_app_l by lia. f_equal. lia.
      * lia.
      * apply Z.mod_pos_bound. unfold MAX_DISTANCE. lia.
      * unfold MAX_DISTANCE in *. Z.div_mod_to_equations. lia.
Qed.

Lemma window_holds_guard d out distance :
  wf_data d -> window_holds d out ->
  1 <= distance <= Z.of_nat (length out) -> distance <= MAX_DISTANCE ->
  back_refs_filled d = true \/ distance <= back_refs_pos d.
Proof.
  intros Hw (He & _) Hd HdM. apply (emitted_guard (Z.of_nat (length out))); auto; try lia.
  apply Hw.
Qed.

Lemma bytewise_copy_lz77 distance n : forall d out,
  wf_data d -> window_holds d out ->
  1 <= distance <= Z.of_nat (length out) -> distance <= MAX_DISTANCE ->
  sink_accepts (Z.of_nat n) d ->
  exists d',
    bytewise_copy n distance d = Ret tt d' /\
    output d' = output d ++ lz77_bytes n distance out /\
    window_holds d' (out ++ lz77_bytes n distance out) /\
    wf_data d' /\
    buf d' = buf d /\ buf_pos d' = buf_pos d /\ byte_pos d' = byte_pos d.
Proof.
  induction n as [|n IH]; intros d out Hw Hh Hd HdM Hs.
  - exists d. simpl. rewrite !app_nil_r.
    split; [reflexivity|]. split; [reflexivity|]. split; [exact Hh|].
    split; [exact Hw|]. repeat split.
  - cbn [bytewise_copy lz77_bytes]. cbv zeta.
    destruct Hh as (He & Hpos & Hbytes).
    assert (Hc : idx (back_refs d) ((back_refs_pos d - distance) mod MAX_DISTANCE)
                 = idx out (Z.of_nat (length out) - distance)).
    { replace (back_refs_pos d - distance) with (back_refs_pos d - 1 - (distance - 1)) by lia.
      rewrite Hbytes by lia. f_equal. lia. }
    rewrite Hc. set (c := idx out (Z.of_nat (length out) - distance)).
    destruct (handle_literal_codes_ok [c] 1 d Hw) as (d1 & E1 & Hem & Hw1).
    { simpl. lia. }
    { unfold sink_accepts in *. lia. }
    change (take (Z.to_nat 1) [c]) with [c] in Hem.
    assert (Hh1 : window_holds d1 (out ++ [c]))
      by (apply (window_holds_emit c d d1); [assumption|repeat split; assumption|assumption]).
    destruct Hem as (Eo & Eb & Ep & Ey & _ & _ & _ & Er).
    destruct (IH d1 (out ++ [c]) Hw1 Hh1) as (d' & E' & Eo' & Hh' & Hw' & Eb' & Ep' & Ey').
    { rewrite length_app. simpl. lia. }
    { exact HdM. }
    { unfold sink_accepts in *. simpl in Er. lia. }
    exists d'. unfold bind. rewrite E1.
    split; [exact E'|]. split; [rewrite Eo', Eo, <- app_assoc; reflexivity|].
    split; [rewrite <- app_assoc in Hh'; exact Hh'|].
    split; [exact Hw'|]. repeat split; congruence.
Qed.

(** X10: on a stream that has room for them, a match of [length] bytes at
    [distance], taken from a window that holds the end of the output [out],
    succeeds and appends to the output exactly the bytes LZ77 names: each
    one is the byte [distance] places before the end of the output as it is
    then, bytes of the same match included; the window again holds the end
    of the longer output. *)
Theorem copy_bytes_from_output d out length distance :
  wf_data d -> window_holds d out ->
  1 <= distance <= Z.of_nat (Datatypes.length out) -> distance <= MAX_DISTANCE ->
  0 <= length <= 258 -> sink_accepts length d ->
  exists d',
    copy_bytes_from_distance length distance d = Ret tt d' /\
    output d' = output d ++ lz77_bytes (Z.to_nat length) distance out /\
    window_holds d' (out ++ lz77_bytes (Z.to_nat length) distance out) /\
    wf_data d'.
Proof.
  intros Hw Hh Hd HdM Hl Hs.
  rewrite copy_is_bytewise; try assumption; try lia.
  - destruct (bytewise_copy_lz77 distance (Z.to_nat length) d out Hw Hh Hd HdM)
      as (d' & E & Eo & Hh' & Hw' & _).
    { rewrite Z2Nat.id by lia. exact Hs. }
    exists d'. auto.
  - apply (window_holds_guard d out); assumption.
Qed.

Lemma window_holds_one_byte_emitted : window_holds one_byte_emitted [byte_of 97].
Proof.
  split; [reflexivity|]. split; [reflexivity|].
  intros k Hk _. simpl in Hk. assert (k = 0) as -> by lia. reflexivity.
Qed.

Lemma copy_bytes_from_output_witness :
  exists d',
    copy_bytes_from_distance 3 1 one_byte_emitted = Ret tt d' /\
    output d' = output one_byte_emitted ++ lz77_bytes (Z.to_nat 3) 1 [byte_of 97] /\
    window_holds d' ([byte_of 97] ++ lz77_bytes (Z.to_nat 3) 1 [byte_of 97]) /\
    wf_data d'.
Proof.
  apply (copy_bytes_from_output one_byte_emitted [byte_of 97] 3 1).
  - exact wf_one_byte_emitted.
  - exact window_holds_one_byte_emitted.
  - simpl. lia.
  - unfold MAX_DISTANCE. lia.
  - lia.
  - unfold sink_accepts. simpl. lia.
Defined.

(** ** The tables of lengths and distances *)

Lemma forallb_seqZ (P : Z -> bool) lo n :
  forallb P (seqZ lo n) = true -> forall x, lo <= x < lo + n -> P x = true.
Proof.
  intros H x Hx. rewrite forallb_forall in H. apply H.
  apply list_elem_of_In, elem_of_seqZ. lia.
Qed.

(** A table whose codes follow one another without a gap: each value
    between the start of the first code and the end of the last belongs to
    exactly one code. *)
Section Partition.
Variable table : list (Z * Z).
Variable n : Z.
Let lo (c : Z) : Z := fst (idx table c).
Let hi (c : Z) : Z := fst (idx table c) + 2 ^ snd (idx table c).
Hypothesis chain : forall c, 0 <= c < n - 1 -> hi c = lo (c + 1).
Hypothesis wide : forall c, 0 <= c < n -> lo c < hi c.

Lemma code_covers_iff c v : code_covers table c v = true <-> lo c <= v < hi c.
Proof.
  unfold code_covers, lo, hi. rewrite andb_true_iff, Z.leb_le, Z.ltb_lt. reflexivity.
Qed.

Lemma hi_le_lo (k : nat) : forall c,
  0 <= c -> c + 1 + Z.of_nat k < n -> hi c <= lo (c + 1 + Z.of_nat k).
Proof.
  induction k as [|k IH]; intros c Hc Hn.
  - rewrite Z.add_0_r. rewrite chain by lia. lia.
  - specialize (IH c Hc ltac:(lia)).
    pose proof (wide (c + 1 + Z.of_nat k) ltac:(lia)) as Hw.
    pose proof (chain (c + 1 + Z.of_nat k) ltac:(lia)) as Hch.
    replace (c + 1 + Z.of_nat (S k)) with (c + 1 + Z.of_nat k + 1) by lia. lia.
Qed.

Lemma code_covers_unique c c' v :
  0 <= c < n -> 0 <= c' < n ->
  code_covers table c v = true -> code_covers table c' v = true -> c = c'.
Proof.
  intros Hc Hc' H H'. apply code_covers_iff in H, H'.
  destruct (Z.lt_trichotomy c c') as [Hlt|[Heq|Hgt]]; [|exact Heq|]; exfalso.
  - pose proof (hi_le_lo (Z.to_nat (c' - c - 1)) c ltac:(lia)) as Hle.
    replace (c + 1 + Z.of_nat (Z.to_nat (c' - c - 1))) with c' in Hle by lia.
    specialize (Hle ltac:(lia)). lia.
  - pose proof (hi_le_lo (Z.to_nat (c - c' - 1)) c' ltac:(lia)) as Hle.
    replace (c' + 1 + Z.of_nat (Z.to_nat (c - c' - 1))) with c in Hle by lia.
    specialize (Hle ltac:(lia)). lia.
Qed.

Lemma code_covers_some (k : nat) : forall v,
  Z.of_nat k < n -> lo 0 <= v < hi (Z.of_nat k) ->
  exists c, 0 <= c <= Z.of_nat k /\ code_covers table c v = true.
Proof.
  induction k as [|k IH]; intros v Hk Hv.
  - exists 0. split; [lia|]. apply code_covers_iff. exact Hv.
  - destruct (Z_lt_ge_dec v (hi (Z.of_nat k))) as [Hlt|Hge].
    + destruct (IH v ltac:(lia) ltac:(lia)) as (c & Hc & Hcov).
      exists c. split; [lia|exact Hcov].
    + exists (Z.of_nat (S k)). split; [lia|]. apply code_covers_iff.
      pose proof (chain (Z.of_nat k) ltac:(lia)) as Hch.
      replace (Z.of_nat k + 1) with (Z.of_nat (S k)) in Hch by lia. lia.
Qed.
End Partition.

Lemma dist_data_chain c :
  0 <= c < 29 ->
  fst (idx dist_data c) + 2 ^ snd (idx dist_data c) = fst (idx dist_data (c + 1)).
Proof.
  intros Hc.
  pose proof (forallb_seqZ
    (fun c => fst (idx dist_data c) + 2 ^ snd (idx dist_data c)
              =? fst (idx dist_data (c + 1)))
    0 29 ltac:(vm_compute; reflexivity) c ltac:(lia)) as H.
  apply Z.eqb_eq in H. exact H.
Qed.

Lemma length_data_chain c :
  0 <= c < 27 ->
  fst (idx length_data c) + 2 ^ snd (idx length_data c) = fst (idx length_data (c + 1)).
Proof.
  intros Hc.
  pose proof (forallb_seqZ
    (fun c => fst (idx length_data c) + 2 ^ snd (idx length_data c)
              =? fst (idx length_data (c + 1)))
    0 27 ltac:(vm_compute; reflexivity) c ltac:(lia)) as H.
  apply Z.eqb_eq in H. exact H.
Qed.

Lemma dist_data_range code :
  0 <= code <= 29 ->
  0 <= snd (idx dist_data code) <= 13 /\
  1 <= fst (idx dist_data code) /\
  fst (idx dist_data code) + 2 ^ snd (idx dist_data code) <= 32769.
Proof.
  intros Hc.
  pose proof (forallb_seqZ
    (fun code => (0 <=? snd (idx dist_data code)) && (snd (idx dist_data code) <=? 13)
                 && (1 <=? fst (idx dist_data code))
                 && (fst (idx dist_data code) + 2 ^ snd (idx dist_data code) <=? 32769))
    0 30 ltac:(vm_compute; reflexivity) code ltac:(lia)) as H.
  cbv beta in H. repeat (apply andb_true_iff in H as [H ?]).
  repeat match goal with H : (_ <=? _) = true |- _ => apply Z.leb_le in H end. lia.
Qed.

Lemma length_data_range code :
  257 <= code <= 285 ->
  0 <= snd (idx length_data (code - 257)) <= 5 /\
  3 <= fst (idx length_data (code - 257)) /\
  fst (idx length_data (code - 257)) + 2 ^ snd (idx length_data (code - 257)) <= 259.
Proof.
  intros Hc.
  pose proof (forallb_seqZ
    (fun code => (0 <=? snd (idx length_data (code - 257)))
                 && (snd (idx length_data (code - 257)) <=? 5)
                 && (3 <=? fst (idx length_data (code - 257)))
                 && (fst (idx length_data (code - 257))
                     + 2 ^ snd (idx length_data (code - 257)) <=? 259))
    257 29 ltac:(vm_compute; reflexivity) code ltac:(lia)) as H.
  cbv beta in H. repeat (apply andb_true_iff in H as [H ?]).
  repeat match goal with H : (_ <=? _) = true |- _ => apply Z.leb_le in H end. lia.
Qed.

Lemma extra_bits_value d n :
  0 <= n -> 0 <= bits_value (bits_from d (Z.to_nat n)) < 2 ^ n.
Proof.
  intros Hn. pose proof (bits_value_range (bits_from d (Z.to_nat n))) as H.
  rewrite length_bits_from, Z2Nat.id in H by lia. exact H.
Qed.

Lemma read_bits_inside bits d :
  cursor_ok d -> 0 <= bits <= 16 -> bit_index d + bits <= 8 * buf_len d ->
  read_bits bits d = Ret (bits_value (bits_from d (Z.to_nat bits))) (advance d bits).
Proof.
  intros Hc Hb Hin. unfold read_bits. rewrite read_bits_loop_stream; try lia; try assumption.
  rewrite Z2Nat.id by lia. f_equal. lia.
Qed.

(** X11: a distance code stands for its start value plus the number its extra
    bits make, least significant bit first; and the codes 0 to 29 share the
    distances 1 to 32768 among them, each distance belonging to exactly one
    code. *)
Theorem distance_codes_partition code d distance :
  0 <= code <= 29 -> cursor_ok d ->
  bit_index d + snd (idx dist_data code) <= 8 * buf_len d ->
  1 <= distance <= 32768 ->
  distance_from_distance_code code d
  = Ret (fst (idx dist_data code)
         + bits_value (bits_from d (Z.to_nat (snd (idx dist_data code)))))
        (advance d (snd (idx dist_data code))) /\
  exists code0,
    0 <= code0 <= 29 /\ code_covers dist_data code0 distance = true /\
    forall code', 0 <= code' <= 29 -> code_covers dist_data code' distance = true ->
      code' = code0.
Proof.
  intros Hcode Hc Hin Hd. split.
  - destruct (dist_data_range code Hcode) as (Hx & Hs & Hsx).
    assert (Hx0 : 0 <= snd (idx dist_data code)) by lia.
    pose proof (extra_bits_value d (snd (idx dist_data code)) Hx0) as He.
    unfold distance_from_distance_code, is_distance_code.
    replace ((0 <=? code) && (code <=? 29)) with true
      by (symmetry; apply andb_true_iff; split; apply Z.leb_le; lia).
    cbn [negb]. cbv zeta. unfold bind. rewrite read_bits_inside by (assumption || lia).
    rewrite u16_small by lia.
    replace ((_ <? 1) || (32768 <? _)) with false; [reflexivity|].
    symmetry. apply orb_false_iff. split; [apply Z.ltb_ge|apply Z.ltb_ge]; lia.
  - assert (Hwide : forall c, 0 <= c < 30 ->
              fst (idx dist_data c) < fst (idx dist_data c) + 2 ^ snd (idx dist_data c)).
    { intros c Hr. destruct (dist_data_range c ltac:(lia)) as (Hx & _).
      assert (0 < 2 ^ snd (idx dist_data c)) by (apply Z.pow_pos_nonneg; lia). lia. }
    assert (Hchain : forall c, 0 <= c < 30 - 1 ->
              fst (idx dist_data c) + 2 ^ snd (idx dist_data c)
              = fst (idx dist_data (c + 1)))
      by (intros c Hr; apply dist_data_chain; lia).
    destruct (code_covers_some dist_data 30 Hchain 29 distance ltac:(lia))
      as (c & Hc1 & Hc2).
    { assert (E0 : fst (idx dist_data 0) = 1) by reflexivity.
      assert (E29 : fst (idx dist_data (Z.of_nat 29))
                    + 2 ^ snd (idx dist_data (Z.of_nat 29)) = 32769) by reflexivity.
      rewrite E0, E29. lia. }
    exists c. split; [lia|]. split; [exact Hc2|].
    intros c' Hr Hc'.
    apply (code_covers_unique dist_data 30 Hchain Hwide c' c distance); auto; lia.
Qed.

Lemma distance_codes_partition_witness :
  distance_from_distance_code 4 (start_data [1] 0 0)
  = Ret (fst (idx dist_data 4)
         + bits_value (bits_from (start_data [1] 0 0) (Z.to_nat (snd (idx dist_data 4)))))
        (advance (start_data [1] 0 0) (snd (idx dist_data 4))) /\
  exists code0,
    0 <= code0 <= 29 /\ code_covers dist_data code0 6 = true /\
    forall code', 0 <= code' <= 29 -> code_covers dist_data code' 6 = true ->
      code' = code0.
Proof.
  apply (distance_codes_partition 4 (start_data [1] 0 0) 6).
  - lia.
  - unfold cursor_ok. simpl. lia.
  - vm_compute. discriminate.
  - lia.
Defined.

(** X12: a length code stands for its start value plus the number its extra
    bits make, except that code 284 with all five extra bits set is
    refused; and each length from 3 to 258 is let through for exactly one
    of the codes 257 to 285. *)
Theorem length_codes_partition code d length :
  257 <= code <= 285 -> cursor_ok d ->
  bit_index d + snd (idx length_data (code - 257)) <= 8 * buf_len d ->
  3 <= length <= 258 ->
  length_from_length_code code d
  = (let extra_bits := snd (idx length_data (code - 257)) in
     let value := bits_value (bits_from d (Z.to_nat extra_bits)) in
     if (code =? 284) && (value =? 31)
     then Fail "Unexpected length extra value 31 for code 284" (advance d extra_bits)
     else Ret (fst (idx length_data (code - 257)) + value) (advance d extra_bits)) /\
  exists code0,
    257 <= code0 <= 285 /\ length_code_accepts code0 length = true /\
    forall code', 257 <= code' <= 285 -> length_code_accepts code' length = true ->
      code' = code0.
Proof.
  intros Hcode Hc Hin Hl. split.
  - destruct (length_data_range code Hcode) as (Hx & Hs & Hsx).
    assert (Hx0 : 0 <= snd (idx length_data (code - 257))) by lia.
    pose proof (extra_bits_value d (snd (idx length_data (code - 257))) Hx0) as He.
    unfold length_from_length_code, is_length_code.
    replace ((257 <=? code) && (code <=? 285)) with true
      by (symmetry; apply andb_true_iff; split; apply Z.leb_le; lia).
    cbn [negb]. cbv zeta. unfold bind. rewrite read_bits_inside by (assumption || lia).
    destruct (_ && _); [reflexivity|].
    rewrite u16_small by lia.
    replace ((258 <? _) || (_ <? 3)) with false; [reflexivity|].
    symmetry. apply orb_false_iff. split; [apply Z.ltb_ge|apply Z.ltb_ge]; lia.
  - assert (Hwide : forall c, 0 <= c < 28 ->
              fst (idx length_data c) < fst (idx length_data c) + 2 ^ snd (idx length_data c)).
    { intros c Hr. destruct (length_data_range (c + 257) ltac:(lia)) as (Hx & _).
      replace (c + 257 - 257) with c in Hx by lia.
      assert (0 < 2 ^ snd (idx length_data c)) by (apply Z.pow_pos_nonneg; lia). lia. }
    assert (Hchain : forall c, 0 <= c < 28 - 1 ->
              fst (idx length_data c) + 2 ^ snd (idx length_data c)
              = fst (idx length_data (c + 1)))
      by (intros c Hr; apply length_data_chain; lia).
    assert (E0 : fst (idx length_data 0) = 3) by reflexivity.
    assert (E27 : fst (idx length_data 27) = 227 /\ snd (idx length_data 27) = 5)
      by (split; reflexivity).
    assert (E28 : fst (idx length_data 28) = 258 /\ snd (idx length_data 28) = 0)
      by (split; reflexivity).
    destruct E27 as [E27a E27b], E28 as [E28a E28b].
    assert (Hacc : forall code' v, 257 <= code' <= 285 ->
              length_code_accepts code' v = true ->
              (code' = 285 /\ v = 258) \/
              (code' <= 284 /\ v <> 258 /\ code_covers length_data (code' - 257) v = true)).
    { intros code' v Hr. unfold length_code_accepts.
      rewrite andb_true_iff, negb_true_iff, andb_false_iff, !Z.eqb_neq.
      intros [Hcov Hnot].
      destruct (Z.eq_dec code' 285) as [->|Hne].
      - left. split; [reflexivity|]. unfold code_covers in Hcov.
        change (285 - 257) with 28 in Hcov. rewrite E28a, E28b in Hcov.
        apply andb_true_iff in Hcov as [H1 H2]. apply Z.leb_le in H1. apply Z.ltb_lt in H2.
        change (2 ^ 0) with 1 in H2. lia.
      - right. split; [lia|]. split; [|exact Hcov].
        intros ->. destruct Hnot as [Hnot|Hnot]; [|congruence].
        assert (Hcov27 : code_covers length_data 27 258 = true).
        { unfold code_covers. rewrite E27a, E27b. reflexivity. }
        pose proof (code_covers_unique length_data 28 Hchain Hwide (code' - 257) 27 258
                      ltac:(lia) ltac:(lia) Hcov Hcov27). lia. }
    destruct (Z.eq_dec length 258) as [->|Hne].
    + exists 285. split; [lia|]. split; [reflexivity|].
      intros code' Hr Ha. destruct (Hacc code' 258 Hr Ha) as [[? _]|(_ & ? & _)]; congruence.
    + destruct (code_covers_some length_data 28 Hchain 27 length ltac:(lia))
        as (c & Hc1 & Hc2).
      { change (Z.of_nat 27) with 27. rewrite E0, E27a, E27b. change (2 ^ 5) with 32. lia. }
      exists (c + 257). split; [lia|]. split.
      * unfold length_code_accepts. replace (c + 257 - 257) with c by lia.
        rewrite Hc2. simpl. apply negb_true_iff, andb_false_iff. right.
        apply Z.eqb_neq. exact Hne.
      * intros code' Hr Ha. destruct (Hacc code' length Hr Ha) as [[_ ?]|(Hle & _ & Hcov)];
          [congruence|].
        pose proof (code_covers_unique length_data 28 Hchain Hwide (code' - 257) c length
                      ltac:(lia) ltac:(lia) Hcov Hc2). lia.
Qed.

Lemma length_codes_partition_witness :
  length_from_length_code 284 (start_data [31] 0 0)
  = (let extra_bits := snd (idx length_data (284 - 257)) in
     let value := bits_value (bits_from (start_data [31] 0 0) (Z.to_nat extra_bits)) in
     if (284 =? 284) && (value =? 31)
     then Fail "Unexpected length extra value 31 for code 284"
            (advance (start_data [31] 0 0) extra_bits)
     else Ret (fst (idx length_data (284 - 257)) + value)
            (advance (start_data [31] 0 0) extra_bits)) /\
  exists code0,
    257 <= code0 <= 285 /\ length_code_accepts code0 258 = true /\
    forall code', 257 <= code' <= 285 -> length_code_accepts code' 258 = true ->
      code' = code0.
Proof.
  apply (length_codes_partition 284 (start_data [31] 0 0) 258).
  - lia.
  - unfold cursor_ok. simpl. lia.
  - vm_compute. discriminate.
  - lia.
Defined.

(** ** The input inside a longer input *)

Lemma buf_len_embed pre post d :
  buf_len (embed pre post d)
  = Z.of_nat (length pre) + buf_len d + Z.of_nat (length post).
Proof. unfold buf_len, embed. cbn [buf]. rewrite !length_app. lia. Qed.

Lemma idx_embed (pre post input : list byte) p :
  0 <= p < Z.of_nat (length input) ->
  idx (pre ++ input ++ post) (p + Z.of_nat (length pre)) = idx input p.
Proof.
  intros Hp. unfold idx.
  replace (Z.to_nat (p + Z.of_nat (length pre))) with (length pre + Z.to_nat p)%nat by lia.
  rewrite lookup_total_app_r by lia.
  replace (length pre + Z.to_nat p - length pre)%nat with (Z.to_nat p) by lia.
  apply lookup_total_app_l. lia.
Qed.

Lemma check_embed pre post d :
  buf_pos d < buf_len d ->
  (buf_len (embed pre post d) <=? buf_pos (embed pre post d)) = false.
Proof. intros H. apply Z.leb_gt. rewrite buf_len_embed. cbn [embed buf_pos]. lia. Qed.

Lemma current_bit_embed pre post d :
  0 <= buf_pos d < buf_len d -> current_bit (embed pre post d) = current_bit d.
Proof.
  intros H. unfold current_bit. cbn [embed buf buf_pos byte_pos].
  rewrite idx_embed by exact H. reflexivity.
Qed.

Lemma increment_embed pre post d :
  increment_bit_position (embed pre post d) = embed pre post (increment_bit_position d).
Proof.
  unfold increment_bit_position. cbn [embed byte_pos].
  destruct (byte_pos d =? 7); unfold embed, set_cursor; cbn; f_equal; lia.
Qed.

Lemma le_ret_refl {A} (m : M A) : le_ret m m.
Proof. intros d a d' H. exact H. Qed.

Lemma le_ret_bind {A B} (m : M A) (k k' : A -> M B) :
  (forall a, le_ret (k a) (k' a)) -> le_ret (bind m k) (bind m k').
Proof.
  intros Hk d b d'. unfold bind. destruct (m d) as [a d1| | |]; try discriminate.
  apply Hk.
Qed.

Lemma carries_ret {A} (a : A) : carries (ret a) (ret a).
Proof. intros pre post d a' d' _ _ [= <- <-]. reflexivity. Qed.

Lemma carries_fail {A} msg (m' : M A) : carries (fail msg) m'.
Proof. intros pre post d a d' _ _ H. discriminate. Qed.

Lemma carries_bind {A B} (m m' : M A) (k k' : A -> M B) :
  carries m m' -> keeps m -> (forall a, carries (k a) (k' a)) ->
  carries (bind m k) (bind m' k').
Proof.
  intros Hm Hkeep Hk pre post d b d' Hw Hi. unfold bind.
  destruct (m d) as [a d1| | |] eqn:E; try discriminate. intros H.
  rewrite (Hm pre post d a d1 Hw Hi E).
  destruct (Hkeep d a d1 Hw Hi E) as (Hw1 & Hi1 & _).
  exact (Hk a pre post d1 b d' Hw1 Hi1 H).
Qed.

Lemma carries_le {A} (m m' m'' : M A) : carries m m' -> le_ret m' m'' -> carries m m''.
Proof. intros H1 H2 pre post d a d' Hw Hi E. apply H2. exact (H1 pre post d a d' Hw Hi E). Qed.

Lemma blind_carries {A} (m : M A) : blind m -> carries m m.
Proof. intros Hb pre post d a d' _ _ E. rewrite Hb, E. reflexivity. Qed.

Lemma carries_read_bits_loop n : forall i tmp,
  carries (read_bits_loop n i tmp) (read_bits_loop n i tmp).
Proof.
  induction n as [|n IH]; intros i tmp pre post d v d' Hw Hi; simpl.
  - intros [= <- <-]. reflexivity.
  - destruct (buf_len d <=? buf_pos d) eqn:E; [discriminate|]. apply Z.leb_gt in E.
    pose proof Hw as (_ & _ & _ & _ & _ & Hp).
    fold (buf_len (embed pre post d)).
    rewrite check_embed by exact E.
    rewrite current_bit_embed by lia. rewrite increment_embed. intros H.
    destruct (runs_on_increment d Hw E) as (Hw1 & Hi1 & _).
    exact (IH _ _ pre post _ _ _ Hw1 Hi1 H).
Qed.

Lemma carries_read_bits bits : carries (read_bits bits) (read_bits bits).
Proof. apply carries_read_bits_loop. Qed.

Lemma carries_find_huffman_code_from cur :
  carries (find_huffman_code_from cur) (find_huffman_code_from cur).
Proof.
  induction cur as [|l IHl r IHr c]; intros pre post d leaf d' Hw Hi; simpl;
    [discriminate|].
  destruct (c =? -1).
  - destruct (buf_len d <=? buf_pos d) eqn:E; [discriminate|]. apply Z.leb_gt in E.
    pose proof Hw as (_ & _ & _ & _ & _ & Hp).
    fold (buf_len (embed pre post d)).
    rewrite check_embed by exact E.
    rewrite current_bit_embed by lia. rewrite increment_embed.
    destruct (runs_on_increment d Hw E) as (Hw1 & Hi1 & _).
    destruct (current_bit d).
    + destruct r as [|rl rr rc]; [discriminate|]. intros H.
      exact (IHr pre post _ _ _ Hw1 Hi1 H).
    + destruct l as [|ll lr lc]; [discriminate|]. intros H.
      exact (IHl pre post _ _ _ Hw1 Hi1 H).
  - intros [= <- <-]. reflexivity.
Qed.

Lemma carries_find_huffman_code root :
  carries (find_huffman_code root) (find_huffman_code root).
Proof.
  destruct root as [|l r c]; [intros pre post d a d' _ _ H; discriminate|].
  apply carries_find_huffman_code_from.
Qed.

Lemma blind_flush_if_full : blind flush_if_full.
Proof.
  intros pre post d. unfold flush_if_full. cbn [embed out_pos out_buf f].
  destruct (out_pos d =? OUT_BUF_SIZE); [|reflexivity].
  destruct (fwrite _ _ _) as [k s]. destruct (negb _); reflexivity.
Qed.

Lemma put_byte_embed pre post c d :
  put_byte c (embed pre post d) = embed pre post (put_byte c d).
Proof. reflexivity. Qed.

Lemma blind_handle_literal_codes_loop codes : blind (handle_literal_codes_loop codes).
Proof.
  induction codes as [|c rest IH]; intros pre post d; [reflexivity|].
  cbn [handle_literal_codes_loop]. unfold bind. rewrite blind_flush_if_full.
  destruct (flush_if_full d) as [[] d1| | |]; try reflexivity. cbn [outcome_map].
  rewrite put_byte_embed. apply IH.
Qed.

Lemma blind_handle_literal_codes codes n : blind (handle_literal_codes codes n).
Proof.
  intros pre post d. unfold handle_literal_codes, bind.
  rewrite blind_handle_literal_codes_loop.
  destruct (handle_literal_codes_loop _ d) as [[] d1| | |]; try reflexivity.
  cbn [outcome_map]. apply blind_flush_if_full.
Qed.

Lemma gather_bytes_embed pre post n : forall i tmp start d acc,
  gather_bytes n i tmp start (embed pre post d) acc = gather_bytes n i tmp start d acc.
Proof.
  induction n as [|n IH]; intros i tmp start d acc; [reflexivity|].
  cbn [gather_bytes]. destruct (258 <=? i); [reflexivity|]. cbv zeta.
  cbn [embed back_refs back_refs_pos]. apply IH.
Qed.

Lemma blind_copy_bytes_from_distance length distance :
  blind (copy_bytes_from_distance length distance).
Proof.
  intros pre post d. unfold copy_bytes_from_distance. cbv zeta.
  change (copy_start (embed pre post d) distance) with (copy_start d distance).
  cbn [embed back_refs_filled back_refs_pos].
  destruct (_ && _); [reflexivity|].
  rewrite gather_bytes_embed.
  destruct (gather_bytes _ _ _ _ _ _); [|reflexivity].
  apply blind_handle_literal_codes.
Qed.

Lemma carries_length_from_length_code code :
  carries (length_from_length_code code) (length_from_length_code code).
Proof.
  unfold length_from_length_code. destruct (negb _); [apply carries_fail|].
  apply carries_bind; [apply carries_read_bits|apply keeps_read_bits|]. intros e.
  destruct (_ && _); [apply carries_fail|].
  destruct (_ || _); [apply carries_fail|apply carries_ret].
Qed.

Lemma carries_distance_from_distance_code code :
  carries (distance_from_distance_code code) (distance_from_distance_code code).
Proof.
  unfold distance_from_distance_code. destruct (negb _); [apply carries_fail|].
  apply carries_bind; [apply carries_read_bits|apply keeps_read_bits|]. intros e.
  destruct (_ || _); [apply carries_fail|apply carries_ret].
Qed.

Lemma carries_expand_block_type_01 root fuel :
  carries (expand_block_type_01 fuel root) (expand_block_type_01 fuel root).
Proof.
  induction fuel as [|fuel IH]; [intros pre post d a d' _ _ H; discriminate|].
  cbn [expand_block_type_01].
  apply carries_bind; [apply carries_find_huffman_code|apply keeps_find_huffman_code|].
  intros edge.
  destruct (negb _); [apply carries_fail|].
  destruct (_ =? 256); [apply carries_ret|].
  destruct (is_literal_code _).
  { apply carries_bind; [apply blind_carries, blind_handle_literal_codes
                        |apply keeps_handle_literal_codes|]. intros _. exact IH. }
  destruct (is_length_code _); [|exact IH].
  apply carries_bind; [apply carries_length_from_length_code
                      |apply keeps_length_from_length_code|]. intros len.
  apply carries_bind; [apply carries_read_bits|apply keeps_read_bits|]. intros tmp.
  apply carries_bind; [apply carries_distance_from_distance_code
                      |apply keeps_distance_from_distance_code|]. intros dist.
  apply carries_bind; [apply blind_carries, blind_copy_bytes_from_distance
                      |apply keeps_copy_bytes_from_distance|]. intros _. exact IH.
Qed.

Lemma carries_expand_block_type_10 ll_root d_root fuel :
  carries (expand_block_type_10 fuel ll_root d_root)
          (expand_block_type_10 fuel ll_root d_root).
Proof.
  induction fuel as [|fuel IH]; [intros pre post d a d' _ _ H; discriminate|].
  cbn [expand_block_type_10].
  apply carries_bind; [apply carries_find_huffman_code|apply keeps_find_huffman_code|].
  intros edge.
  destruct (negb _); [apply carries_fail|].
  destruct (_ =? 256); [apply carries_ret|].
  destruct (is_literal_code _).
  { apply carries_bind; [apply blind_carries, blind_handle_literal_codes
                        |apply keeps_handle_literal_codes|]. intros _. exact IH. }
  destruct (is_length_code _); [|exact IH].
  apply carries_bind; [apply carries_length_from_length_code
                      |apply keeps_length_from_length_code|]. intros len.
  apply carries_bind; [apply carries_find_huffman_code|apply keeps_find_huffman_code|].
  intros tmp.
  apply carries_bind; [apply carries_distance_from_distance_code
                      |apply keeps_distance_from_distance_code|]. intros dist.
  apply carries_bind; [apply blind_carries, blind_copy_bytes_from_distance
                      |apply keeps_copy_bytes_from_distance|]. intros _. exact IH.
Qed.

(** More fuel changes nothing to what a loop returns. *)
Lemma le_ret_expand_block_type_01 root fuel :
  le_ret (expand_block_type_01 fuel root) (expand_block_type_01 (S fuel) root).
Proof.
  induction fuel as [|fuel IH]; [intros d a d' H; discriminate|].
  change (expand_block_type_01 (S (S fuel)) root) with
    (do edge_node <- find_huffman_code root;
     if negb (is_literal_length_code (node_code edge_node))
     then fail "Invalid literal length code in block type 01"
     else
       let code := u16 (node_code edge_node) in
       if code =? 256 then ret tt
       else if is_literal_code code then
         do _ <- handle_literal_codes [byte_of code] 1;
         expand_block_type_01 (S fuel) root
       else if is_length_code code then
         do length <- length_from_length_code code;
         do tmp <- read_bits 5;
         let distance_code := u8 tmp in
         do distance <- distance_from_distance_code distance_code;
         do _ <- copy_bytes_from_distance length distance;
         expand_block_type_01 (S fuel) root
       else expand_block_type_01 (S fuel) root).
  cbn [expand_block_type_01].
  apply le_ret_bind. intros edge.
  destruct (negb _); [apply le_ret_refl|]. cbv zeta.
  destruct (_ =? 256); [apply le_ret_refl|].
  destruct (is_literal_code _); [apply le_ret_bind; intros _; exact IH|].
  destruct (is_length_code _); [|exact IH].
  repeat (apply le_ret_bind; intros ?). exact IH.
Qed.

Lemma le_ret_expand_block_type_10 ll_root d_root fuel :
  le_ret (expand_block_type_10 fuel ll_root d_root)
         (expand_block_type_10 (S fuel) ll_root d_root).
Proof.
  induction fuel as [|fuel IH]; [intros d a d' H; discriminate|].
  change (expand_block_type_10 (S (S fuel)) ll_root d_root) with
    (do edge_node <- find_huffman_code ll_root;
     if negb (is_literal_length_code (node_code edge_node))
     then fail "Expecting valid literal length code in block type 10"
     else
       let code := u16 (node_code edge_node) in
       if code =? 256 then ret tt
       else if is_literal_code code then
         do _ <- handle_literal_codes [byte_of code] 1;
         expand_block_type_10 (S fuel) ll_root d_root
       else if is_length_code code then
         do length <- length_from_length_code code;
         do edge <- find_huffman_code d_root;
         let distance_code := u8 (node_code edge) in
         do distance <- distance_from_distance_code distance_code;
         do _ <- copy_bytes_from_distance length distance;
         expand_block_type_10 (S fuel) ll_root d_root
       else expand_block_type_10 (S fuel) ll_root d_root).
  cbn [expand_block_type_10].
  apply le_ret_bind. intros edge.
  destruct (negb _); [apply le_ret_refl|]. cbv zeta.
  destruct (_ =? 256); [apply le_ret_refl|].
  destruct (is_literal_code _); [apply le_ret_bind; intros _; exact IH|].
  destruct (is_length_code _); [|exact IH].
  repeat (apply le_ret_bind; intros ?). exact IH.
Qed.

Lemma le_ret_trans {A} (m1 m2 m3 : M A) : le_ret m1 m2 -> le_ret m2 m3 -> le_ret m1 m3.
Proof. intros H1 H2 d a d' E. apply H2, H1, E. Qed.

Lemma le_ret_fuel {A} (loop : nat -> M A) :
  (forall fuel, le_ret (loop fuel) (loop (S fuel))) ->
  forall fuel fuel', (fuel <= fuel')%nat -> le_ret (loop fuel) (loop fuel').
Proof.
  intros Hstep fuel fuel' Hle. induction Hle as [|fuel' Hle IH]; [apply le_ret_refl|].
  eapply le_ret_trans; [exact IH|apply Hstep].
Qed.

Lemma bits_left_embed pre post d :
  0 <= buf_pos d -> (bits_left d <= bits_left (embed pre post d))%nat.
Proof.
  intros Hp. unfold bits_left. rewrite buf_len_embed. cbn [embed buf_pos]. lia.
Qed.

Lemma carries_decompress_block_type_01 :
  carries decompress_block_type_01 decompress_block_type_01.
Proof.
  intros pre post d a d' Hw Hi. unfold decompress_block_type_01.
  destruct (is_null _); [discriminate|]. intros H.
  apply (carries_expand_block_type_01 _ _ pre post d a d' Hw Hi) in H.
  revert H. apply (le_ret_fuel (fun fuel => expand_block_type_01 fuel _)).
  - intros fuel. apply le_ret_expand_block_type_01.
  - apply bits_left_embed. apply Hw.
Qed.

Lemma carries_read_cl_code_lengths n : forall i l,
  carries (read_cl_code_lengths n i l) (read_cl_code_lengths n i l).
Proof.
  induction n as [|n IH]; intros i l; cbn [read_cl_code_lengths].
  - apply carries_ret.
  - apply carries_bind; [apply carries_read_bits|apply keeps_read_bits|].
    intros tmp. apply IH.
Qed.

Lemma blind_ret {A} (a : A) : blind (ret a).
Proof. intros pre post d. reflexivity. Qed.

Lemma blind_fail {A} msg : blind (@fail A msg).
Proof. intros pre post d. reflexivity. Qed.

Lemma blind_repeat_code_length n ll_code_cnt total v : forall st,
  blind (repeat_code_length n ll_code_cnt total v st).
Proof.
  induction n as [|n IH]; intros st; cbn [repeat_code_length].
  - apply blind_ret.
  - destruct (total <=? cnt st); [apply blind_fail|apply IH].
Qed.

Lemma carries_code_length_step ll_code_cnt total cl_root st :
  carries (code_length_step ll_code_cnt total cl_root st)
          (code_length_step ll_code_cnt total cl_root st).
Proof.
  apply carries_bind; [apply carries_find_huffman_code|apply keeps_find_huffman_code|].
  intros edge.
  destruct (negb _); [apply carries_fail|].
  unfold code_length_action.
  destruct (_ && _); [apply carries_fail|].
  destruct (_ && _); [apply carries_ret|].
  destruct (_ =? 16).
  { apply carries_bind; [apply carries_read_bits|apply keeps_read_bits|]. intros tmp.
    apply blind_carries, blind_repeat_code_length. }
  destruct (_ || _); [|apply carries_ret].
  apply carries_bind; [apply carries_read_bits|apply keeps_read_bits|]. intros tmp.
  apply blind_carries, blind_repeat_code_length.
Qed.

Lemma carries_read_code_lengths ll_code_cnt total cl_root fuel : forall st,
  carries (read_code_lengths fuel ll_code_cnt total cl_root st)
          (read_code_lengths fuel ll_code_cnt total cl_root st).
Proof.
  induction fuel as [|fuel IH]; intros st; cbn [read_code_lengths];
    destruct (cnt st <? total); try apply carries_ret.
  - intros pre post d a d' _ _ H. discriminate.
  - apply carries_bind; [apply carries_code_length_step|apply keeps_code_length_step|].
    intros st'. apply IH.
Qed.

Ltac carries_guard :=
  match goal with
  | |- carries (if ?b then _ else _) _ => destruct b; [apply carries_fail|]
  end.

Lemma carries_decompress_block_type_10 :
  carries decompress_block_type_10 decompress_block_type_10.
Proof.
  unfold decompress_block_type_10.
  apply carries_bind; [apply carries_read_bits|apply keeps_read_bits|].
  intros hlit. carries_guard.
  apply carries_bind; [apply carries_read_bits|apply keeps_read_bits|].
  intros hdist. carries_guard.
  apply carries_bind; [apply carries_read_bits|apply keeps_read_bits|].
  intros hclen. carries_guard.
  apply carries_bind; [apply carries_read_cl_code_lengths|apply keeps_read_cl_code_lengths|].
  intros cl. carries_guard.
  apply carries_bind; [apply carries_read_code_lengths|apply keeps_read_code_lengths|].
  intros st. carries_guard. carries_guard.
  intros pre post d a d' Hw Hi H.
  apply (carries_expand_block_type_10 _ _ _ pre post d a d' Hw Hi) in H.
  revert H. apply (le_ret_fuel (fun fuel => expand_block_type_10 fuel _ _)).
  - intros fuel. apply le_ret_expand_block_type_10.
  - apply bits_left_embed. apply Hw.
Qed.

Lemma handle_literal_codes_take codes codes' len d :
  take (Z.to_nat len) codes = take (Z.to_nat len) codes' ->
  handle_literal_codes codes len d = handle_literal_codes codes' len d.
Proof. intros H. unfold handle_literal_codes. rewrite H. reflexivity. Qed.

Lemma stored_header_embed pre post d :
  stored_header (embed pre post d) = stored_header d + Z.of_nat (length pre).
Proof.
  unfold stored_header. cbn [embed byte_pos buf_pos]. destruct (byte_pos d =? 0); lia.
Qed.

Lemma carries_decompress_block_type_00 :
  carries decompress_block_type_00 decompress_block_type_00.
Proof.
  intros pre post d a d' Hw Hi. rewrite !decompress_block_type_00_unfold. cbv zeta.
  pose proof Hw as (_ & _ & _ & _ & Hby & Hp).
  assert (Hh : 0 <= stored_header d)
    by (unfold stored_header; destruct (byte_pos d =? 0); lia).
  match goal with |- (if ?b then _ else _) = _ -> _ => destruct b eqn:E1 end;
    [discriminate|].
  apply orb_false_iff in E1 as [E1a E1b]. apply Z.leb_gt in E1a. apply Z.ltb_ge in E1b.
  unfold buf_len in E1a, E1b.
  assert (EL : stored_LEN (embed pre post d) = stored_LEN d).
  { unfold stored_LEN. rewrite stored_header_embed. cbn [embed buf].
    replace (stored_header d + Z.of_nat (length pre) + 1)
      with (stored_header d + 1 + Z.of_nat (length pre)) by lia.
    rewrite !idx_embed by lia. reflexivity. }
  assert (EN : stored_NLEN (embed pre post d) = stored_NLEN d).
  { unfold stored_NLEN. rewrite stored_header_embed. cbn [embed buf].
    replace (stored_header d + Z.of_nat (length pre) + 2)
      with (stored_header d + 2 + Z.of_nat (length pre)) by lia.
    replace (stored_header d + Z.of_nat (length pre) + 3)
      with (stored_header d + 3 + Z.of_nat (length pre)) by lia.
    rewrite !idx_embed by lia. reflexivity. }
  rewrite EL, EN, stored_header_embed, buf_len_embed.
  destruct (negb _); [discriminate|].
  match goal with |- (if ?b then _ else _) = _ -> _ => destruct b eqn:E2 end;
    [discriminate|].
  apply orb_false_iff in E2 as [E2a E2b]. apply Z.leb_gt in E2a. apply Z.ltb_ge in E2b.
  unfold buf_len in E2a, E2b. unfold buf_len.
  pose proof (stored_fields_range d) as [HL _].
  replace ((Z.of_nat (length pre) + Z.of_nat (length (buf d)) + Z.of_nat (length post)
            <=? stored_header d + Z.of_nat (length pre))
           || (Z.of_nat (length pre) + Z.of_nat (length (buf d)) + Z.of_nat (length post)
               - (stored_header d + Z.of_nat (length pre)) <? 4)) with false
    by (symmetry; apply orb_false_iff; split; [apply Z.leb_gt|apply Z.ltb_ge]; lia).
  replace ((Z.of_nat (length pre) + Z.of_nat (length (buf d)) + Z.of_nat (length post)
            <=? stored_header d + Z.of_nat (length pre) + 4)
           || (Z.of_nat (length pre) + Z.of_nat (length (buf d)) + Z.of_nat (length post)
               - (stored_header d + Z.of_nat (length pre) + 4) <? stored_LEN d)) with false
    by (symmetry; apply orb_false_iff; split; [apply Z.leb_gt|apply Z.ltb_ge]; lia).
  replace (set_cursor (embed pre post d) (stored_header d + Z.of_nat (length pre) + 4) 0)
    with (embed pre post (set_cursor d (stored_header d + 4) 0))
    by (unfold embed, set_cursor; cbn; f_equal; lia).
  change (buf (embed pre post d)) with (pre ++ buf d ++ post). unfold bind.
  rewrite (handle_literal_codes_take
             (drop (Z.to_nat (stored_header d + Z.of_nat (length pre) + 4))
                (pre ++ buf d ++ post))
             (drop (Z.to_nat (stored_header d + 4)) (buf d))).
  2:{ replace (Z.to_nat (stored_header d + Z.of_nat (length pre) + 4))
        with (length pre + Z.to_nat (stored_header d + 4))%nat by lia.
      rewrite drop_app_add', drop_app_le by lia.
      apply take_app_le. rewrite length_drop. lia. }
  rewrite blind_handle_literal_codes.
  destruct (handle_literal_codes _ _ _) as [[] d1| | |]; try discriminate.
  intros [= <- <-]. cbn [outcome_map]. f_equal.
  unfold embed, set_cursor. cbn. f_equal. lia.
Qed.

Lemma keeps_read_header_bit_from d b d' :
  wf_data d -> buf_pos d < buf_len d -> read_header_bit d = Ret b d' ->
  wf_data d' /\ within_input d' /\ buf_pos d' < buf_len d' /\
  forall pre post, read_header_bit (embed pre post d) = Ret b (embed pre post d').
Proof.
  intros Hw Hp H. destruct (read_header_bit_step d b d' Hw Hp H) as (R & _ & P).
  split; [apply R|]. split; [apply R|]. split; [exact P|].
  intros pre post. unfold read_header_bit in *.
  pose proof Hw as (_ & _ & _ & _ & _ & Hp0).
  rewrite current_bit_embed by lia. rewrite increment_embed.
  destruct (_ <=? _) eqn:E in H; [discriminate|]. injection H as <- <-.
  apply Z.leb_gt in E. rewrite check_embed by exact E. reflexivity.
Qed.

Lemma bind_Ret_inv {A B} (m : M A) (k : A -> M B) d b d' :
  bind m k d = Ret b d' -> exists a d1, m d = Ret a d1 /\ k a d1 = Ret b d'.
Proof.
  unfold bind. destruct (m d) as [a d1| | |]; try discriminate.
  intros H. exists a, d1. split; [reflexivity|exact H].
Qed.

Lemma bind_Ret {A B} (m : M A) (k : A -> M B) d a d1 :
  m d = Ret a d1 -> bind m k d = k a d1.
Proof. unfold bind. intros ->. reflexivity. Qed.

Lemma carries_decompress_blocks_loop fuel :
  carries (decompress_blocks_loop fuel) (decompress_blocks_loop fuel).
Proof.
  induction fuel as [|fuel IH]; [intros pre post d a d' _ _ H; discriminate|].
  intros pre post d a d' Hw Hi. cbn [decompress_blocks_loop].
  destruct (buf_len d <=? buf_pos d) eqn:E0; [discriminate|]. apply Z.leb_gt in E0.
  rewrite check_embed by exact E0.
  intros H. apply bind_Ret_inv in H as (bfinal & d1 & E1 & H).
  destruct (keeps_read_header_bit_from d bfinal d1 Hw E0 E1) as (Hw1 & Hi1 & P1 & C1).
  rewrite (bind_Ret _ _ _ _ _ (C1 pre post)).
  apply bind_Ret_inv in H as (lsb & d2 & E2 & H).
  destruct (keeps_read_header_bit_from d1 lsb d2 Hw1 P1 E2) as (Hw2 & Hi2 & P2 & C2).
  rewrite (bind_Ret _ _ _ _ _ (C2 pre post)).
  apply bind_Ret_inv in H as (msb & d3 & E3 & H).
  destruct (keeps_read_header_bit_from d2 msb d3 Hw2 P2 E3) as (Hw3 & Hi3 & P3 & C3).
  rewrite (bind_Ret _ _ _ _ _ (C3 pre post)).
  destruct (msb && lsb); [discriminate|].
  refine (carries_bind _ _ _ _ _ _ _ pre post d3 a d' Hw3 Hi3 H).
  - destruct msb, lsb; simpl;
      [apply carries_ret|apply carries_decompress_block_type_10
      |apply carries_decompress_block_type_01|apply carries_decompress_block_type_00].
  - apply (block_by_type msb lsb).
  - intros _. destruct bfinal; [apply carries_ret|exact IH].
Qed.

Lemma le_ret_decompress_blocks_loop fuel :
  le_ret (decompress_blocks_loop fuel) (decompress_blocks_loop (S fuel)).
Proof.
  induction fuel as [|fuel IH]; [intros d a d' H; discriminate|].
  intros d a d'.
  change (decompress_blocks_loop (S (S fuel)) d) with
    (if buf_len d <=? buf_pos d then Fail "Unexpected buffer length" d
     else
       (do BFINAL <- read_header_bit;
        do BTYPE_LSB <- read_header_bit;
        do BTYPE_MSB <- read_header_bit;
        if BTYPE_MSB && BTYPE_LSB then fail "Error BTYPE"
        else
          do _ <- (if negb BTYPE_MSB && negb BTYPE_LSB then decompress_block_type_00
                   else if negb BTYPE_MSB && BTYPE_LSB then decompress_block_type_01
                   else if BTYPE_MSB && negb BTYPE_LSB then decompress_block_type_10
                   else ret tt);
          if BFINAL then ret tt else decompress_blocks_loop (S fuel)) d).
  cbn [decompress_blocks_loop].
  destruct (buf_len d <=? buf_pos d); [discriminate|].
  revert d a d'.
  repeat (apply le_ret_bind; intros ?).
  destruct (_ && _); [apply le_ret_refl|].
  apply le_ret_bind. intros _.
  match goal with |- le_ret (if ?b then _ else _) _ => destruct b end;
    [apply le_ret_refl|exact IH].
Qed.

Lemma blind_flush_rest : blind flush_rest.
Proof.
  intros pre post d. unfold flush_rest. cbn [embed out_pos out_buf f].
  destruct (negb _); [|reflexivity].
  destruct (fwrite _ _ _) as [k s]. destruct (negb _); reflexivity.
Qed.

(** What [decompress_blocks] returns on an input, it returns on that input
    placed inside a longer one, with the positions shifted. *)
Lemma decompress_blocks_embed pre post input pos stream pos' d :
  0 <= pos ->
  decompress_blocks input pos stream = Ret pos' d ->
  decompress_blocks (pre ++ input ++ post) (pos + Z.of_nat (length pre)) stream
  = Ret (pos' + Z.of_nat (length pre)) (embed pre post d).
Proof.
  intros Hp. unfold decompress_blocks. cbv zeta.
  change (blocks_data (pre ++ input ++ post) (pos + Z.of_nat (length pre)) stream)
    with (embed pre post (blocks_data input pos stream)).
  assert (Hw : wf_data (blocks_data input pos stream)) by (apply wf_blocks_data; exact Hp).
  assert (Dbuf : buf (blocks_data input pos stream) = input) by reflexivity.
  assert (Dpos : buf_pos (blocks_data input pos stream) = pos) by reflexivity.
  assert (Dbit : byte_pos (blocks_data input pos stream) = 0) by reflexivity.
  generalize dependent (blocks_data input pos stream). intros data Hw Dbuf Dpos Dbit.
  unfold bind at 1 3.
  destruct (decompress_blocks_loop (bits_left data) data) as [[] d1| | |] eqn:E1;
    try discriminate.
  assert (Hin : buf_pos data < buf_len data).
  { destruct (bits_left data) as [|n] eqn:En; [discriminate|].
    cbn [decompress_blocks_loop] in E1.
    destruct (buf_len data <=? buf_pos data) eqn:E; [discriminate|].
    apply Z.leb_gt in E. exact E. }
  assert (Hi : within_input data) by (unfold within_input, bit_index; lia).
  pose proof (carries_decompress_blocks_loop _ pre post data tt d1 Hw Hi E1) as C1.
  apply (le_ret_fuel decompress_blocks_loop le_ret_decompress_blocks_loop
           _ (bits_left (embed pre post data))) in C1;
    [|apply bits_left_embed; lia].
  rewrite C1. unfold bind. rewrite blind_flush_rest.
  destruct (flush_rest d1) as [[] d2| | |]; try discriminate. cbn [outcome_map].
  cbn [embed byte_pos].
  destruct (negb (byte_pos d2 =? 0)); intros [= <- <-]; f_equal;
    try reflexivity; try (cbn; lia);
    unfold embed, set_cursor; cbn; f_equal; lia.
Qed.

Lemma read_at_embed pre post input pos (k k' : Z -> checked) :
  0 <= pos < Z.of_nat (length input) ->
  (forall v, k' v = k v) ->
  read_at (pre ++ input ++ post) (pos + Z.of_nat (length pre)) k'
  = read_at input pos k.
Proof.
  intros Hp Hk. rewrite !read_at_inside; [|lia|rewrite !length_app; lia].
  rewrite idx_embed by exact Hp. apply Hk.
Qed.

Section Embedded.
Variables pre post input : list byte.
Let off := Z.of_nat (length pre).
Let longer := pre ++ input ++ post.

Lemma length_longer :
  Z.of_nat (length longer) = off + Z.of_nat (length input) + Z.of_nat (length post).
Proof. unfold longer, off. rewrite !length_app. lia. Qed.

Lemma read_at_longer pos (k : Z -> checked) :
  0 <= pos < Z.of_nat (length input) ->
  read_at longer (pos + off) k = k (byte_val (idx input pos)).
Proof.
  intros Hp. rewrite read_at_inside by (rewrite length_longer; lia).
  unfold longer, off. rewrite idx_embed by exact Hp. reflexivity.
Qed.

Lemma skip_extra_field_embed pos pos' :
  0 <= pos -> skip_extra_field input pos = Accepted pos' ->
  skip_extra_field longer (pos + off) = Accepted (pos' + off).
Proof.
  intros Hp. unfold skip_extra_field. cbv zeta. rewrite length_longer.
  destruct (_ || _) eqn:E; [discriminate|].
  apply orb_false_iff in E as [E1 E2]. apply Z.leb_gt in E1. apply Z.ltb_ge in E2.
  replace ((off + Z.of_nat (length input) + Z.of_nat (length post) <=? pos + off)
           || (off + Z.of_nat (length input) + Z.of_nat (length post) - (pos + off) <? 2))
    with false
    by (symmetry; apply orb_false_iff; split; [apply Z.leb_gt|apply Z.ltb_ge]; lia).
  rewrite !read_at_inside by lia.
  rewrite (read_at_longer pos) by lia.
  replace (pos + off + 1) with (pos + 1 + off) by lia.
  rewrite (read_at_longer (pos + 1)) by lia.
  pose proof (u16_two_bytes (idx input pos) (idx input (pos + 1))) as Hu.
  pose proof (byte_val_range (idx input pos)).
  pose proof (byte_val_range (idx input (pos + 1))).
  destruct (_ || _) eqn:E'; [discriminate|].
  apply orb_false_iff in E' as [E3 E4]. apply Z.leb_gt in E3. apply Z.ltb_ge in E4.
  intros [= <-]. rewrite Hu in *.
  match goal with |- (if ?b then _ else _) = _ => replace b with false end.
  - f_equal. lia.
  - symmetry. apply orb_false_iff. split; [apply Z.leb_gt|apply Z.ltb_ge]; lia.
Qed.

Lemma skip_to_zero_embed rest : forall pos buf_len buf_len' pos',
  buf_len + off <= buf_len' ->
  skip_to_zero rest pos buf_len = Accepted pos' ->
  skip_to_zero (rest ++ post) (pos + off) buf_len' = Accepted (pos' + off).
Proof.
  induction rest as [|c rest IH]; intros pos buf_len buf_len' pos' Hl; [discriminate|].
  cbn [skip_to_zero app]. cbv zeta.
  destruct (byte_val c =? 0); [intros [= <-]; f_equal; lia|].
  destruct (buf_len <=? pos + 1) eqn:E; [discriminate|]. apply Z.leb_gt in E.
  replace (buf_len' <=? pos + off + 1) with false by (symmetry; apply Z.leb_gt; lia).
  intros H. replace (pos + off + 1) with (pos + 1 + off) by lia.
  exact (IH _ _ _ _ Hl H).
Qed.

Lemma skip_zero_terminated_embed pos pos' :
  0 <= pos -> skip_zero_terminated input pos = Accepted pos' ->
  skip_zero_terminated longer (pos + off) = Accepted (pos' + off).
Proof.
  intros Hp. unfold skip_zero_terminated. cbv zeta. rewrite length_longer.
  destruct (_ <=? pos) eqn:E; [discriminate|]. apply Z.leb_gt in E.
  destruct (pos <? 0) eqn:E0; [discriminate|].
  replace (off + Z.of_nat (length input) + Z.of_nat (length post) <=? pos + off)
    with false by (symmetry; apply Z.leb_gt; lia).
  replace (pos + off <? 0) with false by (symmetry; apply Z.ltb_ge; unfold off; lia).
  intros H.
  replace (drop (Z.to_nat (pos + off)) longer) with (drop (Z.to_nat pos) input ++ post).
  - apply (skip_to_zero_embed _ _ (Z.of_nat (length input))); [lia|exact H].
  - unfold longer, off.
    replace (Z.to_nat (pos + Z.of_nat (length pre))) with (length pre + Z.to_nat pos)%nat by lia.
    rewrite drop_app_add', drop_app_le by lia. reflexivity.
Qed.

Lemma skip_header_crc_embed pos pos' :
  0 <= pos -> skip_header_crc input pos = Accepted pos' ->
  skip_header_crc longer (pos + off) = Accepted (pos' + off).
Proof.
  intros Hp. unfold skip_header_crc. cbv zeta. rewrite length_longer.
  destruct (_ || _) eqn:E; [discriminate|].
  apply orb_false_iff in E as [E1 E2]. apply Z.leb_gt in E1. apply Z.ltb_ge in E2.
  replace ((off + Z.of_nat (length input) + Z.of_nat (length post) <=? pos + off)
           || (off + Z.of_nat (length input) + Z.of_nat (length post) - (pos + off) <? 2))
    with false
    by (symmetry; apply orb_false_iff; split; [apply Z.leb_gt|apply Z.ltb_ge]; lia).
  rewrite !read_at_inside by lia.
  rewrite (read_at_longer pos) by lia.
  replace (pos + off + 1) with (pos + 1 + off) by lia.
  rewrite (read_at_longer (pos + 1)) by lia.
  intros [= <-]. f_equal. lia.
Qed.

Lemma and_then_embed (c c' : checked) (k k' : Z -> checked) lo pos' :
  (c <> OutOfBounds /\ forall p, c = Accepted p -> lo <= p) ->
  (forall p, c = Accepted p -> c' = Accepted (p + off)) ->
  (forall p p', lo <= p -> k p = Accepted p' -> k' (p + off) = Accepted (p' + off)) ->
  and_then c k = Accepted pos' -> and_then c' k' = Accepted (pos' + off).
Proof.
  intros [_ Hlo] Hc Hk. destruct c as [p| |]; simpl; try discriminate.
  rewrite (Hc p eq_refl). simpl. apply Hk. apply Hlo. reflexivity.
Qed.

Lemma optional_embed (flagged : bool) (part part' : Z -> checked) pos :
  (forall p, part pos = Accepted p -> part' (pos + off) = Accepted (p + off)) ->
  forall p, (if flagged then part pos else Accepted pos) = Accepted p ->
    (if flagged then part' (pos + off) else Accepted (pos + off)) = Accepted (p + off).
Proof. intros H p. destruct flagged; [apply H|]. intros [= <-]. reflexivity. Qed.

Lemma optional_lower (flagged : bool) (part : Z -> checked) pos :
  (part pos <> OutOfBounds /\
   forall p, part pos = Accepted p -> pos <= p <= Z.of_nat (length input)) ->
  pos <= Z.of_nat (length input) ->
  (if flagged then part pos else Accepted pos) <> OutOfBounds /\
  forall p, (if flagged then part pos else Accepted pos) = Accepted p -> pos <= p.
Proof.
  intros H Hp. destruct (optional_inside flagged part _ pos H Hp) as [H1 H2].
  split; [exact H1|]. intros p E. specialize (H2 p E). lia.
Qed.

(** What [check_member_header] accepts on an input, it accepts on that
    input placed inside a longer one. *)
Lemma check_member_header_embed pos pos' :
  0 <= pos -> check_member_header input pos = Accepted pos' ->
  check_member_header longer (pos + off) = Accepted (pos' + off).
Proof.
  intros Hp. unfold check_member_header. cbv zeta. rewrite length_longer.
  destruct (_ || _) eqn:E; [discriminate|].
  apply orb_false_iff in E as [E1 E2]. apply Z.leb_gt in E1. apply Z.ltb_ge in E2.
  replace ((off + Z.of_nat (length input) + Z.of_nat (length post) <=? pos + off)
           || (off + Z.of_nat (length input) + Z.of_nat (length post) - (pos + off) <? 10))
    with false
    by (symmetry; apply orb_false_iff; split; [apply Z.leb_gt|apply Z.ltb_ge]; lia).
  rewrite (read_at_inside input pos) by lia. rewrite (read_at_longer pos) by lia.
  destruct (negb _); [discriminate|].
  rewrite (read_at_inside input (pos + 1)) by lia.
  replace (pos + off + 1) with (pos + 1 + off) by lia.
  rewrite (read_at_longer (pos + 1)) by lia.
  destruct (negb _); [discriminate|].
  rewrite (read_at_inside input (pos + 2)) by lia.
  replace (pos + off + 2) with (pos + 2 + off) by lia.
  rewrite (read_at_longer (pos + 2)) by lia.
  destruct (negb _); [discriminate|].
  rewrite (read_at_inside input (pos + 3)) by lia.
  replace (pos + off + 3) with (pos + 3 + off) by lia.
  rewrite (read_at_longer (pos + 3)) by lia.
  destruct (_ || _); [discriminate|].
  rewrite !(read_at_inside input) by lia.
  replace (pos + off + 4) with (pos + 4 + off) by lia.
  replace (pos + 4 + off + 1) with (pos + 4 + 1 + off) by lia.
  replace (pos + 4 + off + 2) with (pos + 4 + 2 + off) by lia.
  replace (pos + 4 + off + 3) with (pos + 4 + 3 + off) by lia.
  replace (pos + 4 + off + 4) with (pos + 4 + 4 + off) by lia.
  replace (pos + 4 + 4 + off + 1) with (pos + 4 + 4 + 1 + off) by lia.
  replace (pos + 4 + 4 + off + 2) with (pos + 4 + 4 + 2 + off) by lia.
  rewrite !read_at_longer by lia.
  set (FLG := byte_val (idx input (pos + 3))).
  apply (and_then_embed _ _ _ _ (pos + 4 + 4 + 2)).
  { apply optional_lower; [|lia]. apply skip_extra_field_inside. lia. }
  { apply optional_embed. intros p. apply skip_extra_field_embed. lia. }
  intros p1 p1' Hp1.
  apply (and_then_embed _ _ _ _ p1).
  { destruct (flag FLG 8).
    - destruct (Z_le_gt_dec p1 (Z.of_nat (length input))) as [Hle|Hgt].
      + destruct (skip_zero_terminated_inside input p1 ltac:(lia)) as [H1 H2].
        split; [exact H1|]. intros p E. specialize (H2 p E). lia.
      + unfold skip_zero_terminated.
        replace (Z.of_nat (length input) <=? p1) with true by (symmetry; apply Z.leb_le; lia).
        split; [discriminate|intros ? [=]].
    - split; [discriminate|]. intros p [= <-]. lia. }
  { apply optional_embed. intros p. apply skip_zero_terminated_embed. lia. }
  intros p2 p2' Hp2.
  apply (and_then_embed _ _ _ _ p2).
  { destruct (flag FLG 16).
    - destruct (Z_le_gt_dec p2 (Z.of_nat (length input))) as [Hle|Hgt].
      + destruct (skip_zero_terminated_inside input p2 ltac:(lia)) as [H1 H2].
        split; [exact H1|]. intros p E. specialize (H2 p E). lia.
      + unfold skip_zero_terminated.
        replace (Z.of_nat (length input) <=? p2) with true by (symmetry; apply Z.leb_le; lia).
        split; [discriminate|intros ? [=]].
    - split; [discriminate|]. intros p [= <-]. lia. }
  { apply optional_embed. intros p. apply skip_zero_terminated_embed. lia. }
  intros p3 p3' Hp3.
  apply (and_then_embed _ _ _ _ p3).
  { destruct (flag FLG 2).
    - destruct (Z_le_gt_dec p3 (Z.of_nat (length input))) as [Hle|Hgt].
      + destruct (skip_header_crc_inside input p3 ltac:(lia)) as [H1 H2].
        split; [exact H1|]. intros p E. specialize (H2 p E). lia.
      + unfold skip_header_crc.
        replace ((Z.of_nat (length input) <=? p3) || (Z.of_nat (length input) - p3 <? 2))
          with true
          by (symmetry; apply orb_true_iff; left; apply Z.leb_le; lia).
        split; [discriminate|intros ? [=]].
    - split; [discriminate|]. intros p [= <-]. lia. }
  { apply optional_embed. intros p. apply skip_header_crc_embed. lia. }
  intros p4 p4' Hp4 [= <-]. reflexivity.
Qed.

Lemma check_member_trailer_embed pos pos' :
  0 <= pos -> check_member_trailer input pos = Accepted pos' ->
  check_member_trailer longer (pos + off) = Accepted (pos' + off).
Proof.
  intros Hp. unfold check_member_trailer. cbv zeta. rewrite length_longer.
  destruct (_ || _) eqn:E; [discriminate|].
  apply orb_false_iff in E as [E1 E2]. apply Z.leb_gt in E1. apply Z.ltb_ge in E2.
  replace ((off + Z.of_nat (length input) + Z.of_nat (length post) <=? pos + off)
           || (off + Z.of_nat (length input) + Z.of_nat (length post) - (pos + off) <? 8))
    with false
    by (symmetry; apply orb_false_iff; split; [apply Z.leb_gt|apply Z.ltb_ge]; lia).
  rewrite !(read_at_inside input) by lia.
  replace (pos + off + 1) with (pos + 1 + off) by lia.
  replace (pos + off + 2) with (pos + 2 + off) by lia.
  replace (pos + off + 3) with (pos + 3 + off) by lia.
  replace (pos + off + 4) with (pos + 4 + off) by lia.
  replace (pos + 4 + off + 1) with (pos + 4 + 1 + off) by lia.
  replace (pos + 4 + off + 2) with (pos + 4 + 2 + off) by lia.
  replace (pos + 4 + off + 3) with (pos + 4 + 3 + off) by lia.
  rewrite !read_at_longer by lia.
  intros [= <-]. f_equal. lia.
Qed.
End Embedded.

(** More fuel changes nothing to a verdict that was reached. *)
Lemma decompress_members_loop_fuel fuel : forall input pos stream,
  decompress_members_loop fuel input pos stream <> NoFuel ->
  decompress_members_loop (S fuel) input pos stream
  = decompress_members_loop fuel input pos stream.
Proof.
  induction fuel as [|fuel IH]; intros input pos stream H; [simpl in H; congruence|].
  change (decompress_members_loop (S (S fuel)) input pos stream) with
    (match check_member_header input pos with
     | Rejected msg => Failed msg stream
     | OutOfBounds => Crashed
     | Accepted pos =>
         match decompress_blocks input pos stream with
         | Fail msg d => Failed msg (f d)
         | Undef => Crashed
         | OutOfFuel => NoFuel
         | Ret pos d =>
             match check_member_trailer input pos with
             | Rejected msg => Failed msg (f d)
             | OutOfBounds => Crashed
             | Accepted pos =>
                 if pos =? Z.of_nat (length input) then Done (f d)
                 else decompress_members_loop (S fuel) input pos (f d)
             end
         end
     end).
  cbn [decompress_members_loop] in *.
  destruct (check_member_header input pos) as [pos1| |]; try reflexivity.
  destruct (decompress_blocks input pos1 stream) as [pos2 d| | |]; try reflexivity.
  destruct (check_member_trailer input pos2) as [pos3| |]; try reflexivity.
  destruct (pos3 =? _); [reflexivity|]. apply IH. exact H.
Qed.

Lemma decompress_members_loop_more fuel fuel' input pos stream :
  (fuel <= fuel')%nat ->
  decompress_members_loop fuel input pos stream <> NoFuel ->
  decompress_members_loop fuel' input pos stream
  = decompress_members_loop fuel input pos stream.
Proof.
  intros Hle H. induction Hle as [|fuel' Hle IH]; [reflexivity|].
  rewrite decompress_members_loop_fuel; [exact IH|]. rewrite IH. exact H.
Qed.

(** The members of an input placed behind other bytes. *)
Lemma decompress_members_loop_shift pre input fuel : forall pos stream stream',
  0 <= pos ->
  decompress_members_loop fuel input pos stream = Done stream' ->
  decompress_members_loop fuel (pre ++ input) (pos + Z.of_nat (length pre)) stream
  = Done stream'.
Proof.
  induction fuel as [|fuel IH]; intros pos stream stream' Hp; [discriminate|].
  cbn [decompress_members_loop].
  destruct (check_member_header_bounds input pos Hp) as [_ Hb1].
  destruct (check_member_header input pos) as [pos1| |] eqn:E1; try discriminate.
  specialize (Hb1 pos1 eq_refl).
  pose proof (check_member_header_embed pre [] input pos pos1 Hp E1) as C1.
  rewrite app_nil_r in C1. rewrite C1.
  pose proof (decompress_blocks_ends input pos1 stream ltac:(lia)) as Hb2.
  destruct (decompress_blocks input pos1 stream) as [pos2 d| | |] eqn:E2; try discriminate.
  destruct Hb2 as (Hp2 & _).
  pose proof (decompress_blocks_embed pre [] input pos1 stream pos2 d ltac:(lia) E2) as C2.
  rewrite app_nil_r in C2. rewrite C2.
  destruct (check_member_trailer_inside input pos2 ltac:(lia)) as [_ Hb3].
  destruct (check_member_trailer input pos2) as [pos3| |] eqn:E3; try discriminate.
  destruct (Hb3 pos3 eq_refl) as [-> Hp3].
  pose proof (check_member_trailer_embed pre [] input pos2 _ ltac:(lia) E3) as C3.
  rewrite app_nil_r in C3. rewrite C3.
  change (f (embed pre [] d)) with (f d). rewrite length_app, Nat2Z.inj_add.
  destruct (Z.eqb_spec (pos2 + 8) (Z.of_nat (length input))) as [He|Hne].
  - intros [= <-].
    replace (pos2 + 8 + Z.of_nat (length pre)
             =? Z.of_nat (length pre) + Z.of_nat (length input)) with true
      by (symmetry; apply Z.eqb_eq; lia). reflexivity.
  - replace (pos2 + 8 + Z.of_nat (length pre)
             =? Z.of_nat (length pre) + Z.of_nat (length input)) with false
      by (symmetry; apply Z.eqb_neq; lia).
    apply IH. lia.
Qed.

(** The members of an input followed by further members. *)
Lemma decompress_members_loop_then post input fuel2 stream2 fuel :
  forall pos stream stream1,
  0 <= pos -> post <> [] ->
  decompress_members_loop fuel input pos stream = Done stream1 ->
  decompress_members_loop fuel2 (input ++ post) (Z.of_nat (length input)) stream1
  = Done stream2 ->
  decompress_members_loop (fuel + fuel2) (input ++ post) pos stream = Done stream2.
Proof.
  induction fuel as [|fuel IH]; intros pos stream stream1 Hp Hpost; [discriminate|].
  cbn [decompress_members_loop Nat.add].
  destruct (check_member_header_bounds input pos Hp) as [_ Hb1].
  destruct (check_member_header input pos) as [pos1| |] eqn:E1; try discriminate.
  specialize (Hb1 pos1 eq_refl).
  pose proof (check_member_header_embed [] post input pos pos1 Hp E1) as C1.
  cbn [app length] in C1. change (Z.of_nat 0) with 0 in C1. rewrite !Z.add_0_r in C1.
  rewrite C1.
  pose proof (decompress_blocks_ends input pos1 stream ltac:(lia)) as Hb2.
  destruct (decompress_blocks input pos1 stream) as [pos2 d| | |] eqn:E2; try discriminate.
  destruct Hb2 as (Hp2 & _).
  pose proof (decompress_blocks_embed [] post input pos1 stream pos2 d ltac:(lia) E2) as C2.
  cbn [app length] in C2. change (Z.of_nat 0) with 0 in C2. rewrite !Z.add_0_r in C2.
  rewrite C2.
  destruct (check_member_trailer_inside input pos2 ltac:(lia)) as [_ Hb3].
  destruct (check_member_trailer input pos2) as [pos3| |] eqn:E3; try discriminate.
  destruct (Hb3 pos3 eq_refl) as [-> Hp3].
  pose proof (check_member_trailer_embed [] post input pos2 _ ltac:(lia) E3) as C3.
  cbn [app length] in C3. change (Z.of_nat 0) with 0 in C3. rewrite !Z.add_0_r in C3.
  rewrite C3.
  change (f (embed [] post d)) with (f d).
  assert (Hlen : Z.of_nat (length input) < Z.of_nat (length (input ++ post))).
  { rewrite length_app. destruct post; [congruence|simpl; lia]. }
  replace (pos2 + 8 =? Z.of_nat (length (input ++ post))) with false
    by (symmetry; apply Z.eqb_neq; lia).
  destruct (Z.eqb_spec (pos2 + 8) (Z.of_nat (length input))) as [He|Hne].
  - intros [= <-] H2. rewrite He.
    rewrite (decompress_members_loop_more fuel2 (fuel + fuel2)); [exact H2|lia|].
    rewrite H2. discriminate.
  - intros H1 H2. apply (IH _ _ stream1); auto. lia.
Qed.

(** X5: a file made of two gzip files one after the other is decompressed to
    what the first gives followed by what the second gives. *)
Theorem decompress_members_concat input1 input2 stream stream1 stream2 :
  decompress_members input1 stream = Done stream1 ->
  decompress_members input2 stream1 = Done stream2 ->
  decompress_members (input1 ++ input2) stream = Done stream2.
Proof.
  unfold decompress_members. intros H1 H2.
  assert (Hne : input2 <> []).
  { intros ->. cbn in H2. discriminate. }
  pose proof (decompress_members_loop_shift input1 input2 _ 0 stream1 stream2
                ltac:(lia) H2) as H2'.
  rewrite Z.add_0_l in H2'.
  pose proof (decompress_members_loop_then input2 input1 _ stream2 _ 0 stream stream1
                ltac:(lia) Hne H1 H2') as H.
  pose proof (decompress_members_loop_settles (input1 ++ input2)
                (S (length (input1 ++ input2))) 0 stream
                ltac:(lia) ltac:(lia) ltac:(lia)) as Hs.
  rewrite <- (decompress_members_loop_more (S (length (input1 ++ input2)))
                (S (length input1) + S (length input2))).
  - exact H.
  - rewrite length_app. lia.
  - intros E. rewrite E in Hs. exact Hs.
Qed.

Lemma decompress_members_concat_witness :
  decompress_members (gzip_example ++ gzip_example) (mk_FILE [] 100)
  = Done (mk_FILE (map byte_of [97; 98; 99; 97; 98; 99]) 94).
Proof.
  apply (decompress_members_concat gzip_example gzip_example (mk_FILE [] 100)
           (mk_FILE (map byte_of [97; 98; 99]) 97)).
  - vm_compute. reflexivity.
  - vm_compute. reflexivity.
Defined.

(** ** The properties of the framing, with an input each *)

(** X1: [check_member_header] reads [buf] below [buf_len] only;
    when it accepts, the new position is at least 10 bytes further on and
    not beyond the end of the input. *)
Theorem check_member_header_inside input pos :
  0 <= pos ->
  check_member_header input pos <> OutOfBounds /\
  forall pos', check_member_header input pos = Accepted pos' ->
    pos + 10 <= pos' <= Z.of_nat (length input).
Proof. exact (check_member_header_bounds input pos). Qed.

Lemma check_member_header_inside_witness :
  check_member_header gzip_example 0 <> OutOfBounds /\
  forall pos', check_member_header gzip_example 0 = Accepted pos' ->
    0 + 10 <= pos' <= Z.of_nat (length gzip_example).
Proof. apply (check_member_header_inside gzip_example 0). lia. Defined.



(** X6: the shape of the data is an invariant of the three block decoders.
    Started on data whose window and output buffer have their declared
    sizes, with [back_refs_pos] and [out_pos] inside them and the cursor not
    beyond the end of the input, each decoder comes to an end without
    leaving the copy buffer, and when it returns [true] the data has that
    shape again, the cursor has not moved back, and the stream has only
    been appended to. *)
Theorem block_decoders_keep_shape d :
  wf_data d -> within_input d ->
  ends_well (fun _ d' => runs_on d d') (decompress_block_type_00 d) /\
  ends_well (fun _ d' => runs_on d d') (decompress_block_type_01 d) /\
  ends_well (fun _ d' => runs_on d d') (decompress_block_type_10 d).
Proof.
  intros Hw Hi.
  assert (H : forall block : M unit,
            keeps block -> safe block -> finishes_from block ->
            ends_well (fun _ d' => runs_on d d') (block d)).
  { intros block Hk Hs Hf. specialize (Hs d). specialize (Hf d ltac:(apply Hw)).
    specialize (Hk d). destruct (block d) as [a d'| | |]; try congruence; [|exact I].
    exact (Hk a d' Hw Hi eq_refl). }
  split; [|split]; apply H.
  - apply keeps_decompress_block_type_00.
  - apply safe_decompress_block_type_00.
  - intros d0 _. apply finishes_decompress_block_type_00.
  - apply keeps_decompress_block_type_01.
  - apply safe_decompress_block_type_01.
  - intros d0. apply decompress_block_type_01_finishes.
  - apply keeps_decompress_block_type_10.
  - apply safe_decompress_block_type_10.
  - intros d0. apply decompress_block_type_10_finishes.
Qed.

Lemma block_decoders_keep_shape_witness :
  ends_well (fun _ d' => runs_on stored_example d') (decompress_block_type_00 stored_example) /\
  ends_well (fun _ d' => runs_on stored_example d') (decompress_block_type_01 stored_example) /\
  ends_well (fun _ d' => runs_on stored_example d') (decompress_block_type_10 stored_example).
Proof.
  apply (block_decoders_keep_shape stored_example).
  - apply wf_start_data; lia.
  - unfold within_input. vm_compute. discriminate.
Defined.

Lemma read_bits_stream_witness :
  (bit_index (start_data [5] 0 0) + 3 <= 8 * buf_len (start_data [5] 0 0) ->
   read_bits 3 (start_data [5] 0 0)
   = Ret (bits_value (bits_from (start_data [5] 0 0) (Z.to_nat 3)))
       (advance (start_data [5] 0 0) 3)) /\
  (0 < 3 -> 8 * buf_len (start_data [5] 0 0) < bit_index (start_data [5] 0 0) + 3 ->
   failure (read_bits 3 (start_data [5] 0 0)) = Some "Unexpected buffer length"%string).
Proof.
  apply (read_bits_stream 3 (start_data [5] 0 0)).
  - unfold cursor_ok. simpl. lia.
  - lia.
Defined.

Lemma find_huffman_code_is_code_witness :
  let d := mk_data [byte_of 1] 0 0 [] 0 false [] 0 (mk_FILE [] 0) in
  exists codes s c,
    generate_huffman_codes [2; 1; 3; 3] 15 = Some codes /\
    codes !! s = Some c /\ [2; 1; 3; 3] !! s = Some (len c) /\ 0 < len c /\
    node_code (Node NULL NULL 0) = Z.of_nat s /\
    bits_from d (Z.to_nat (len c)) = code_path c /\
    advance d 2 = advance d (len c).
Proof.
  apply (find_huffman_code_is_code [2; 1; 3; 3] 15
           (mk_data [byte_of 1] 0 0 [] 0 false [] 0 (mk_FILE [] 0))
           (Node NULL NULL 0)
           (advance (mk_data [byte_of 1] 0 0 [] 0 false [] 0 (mk_FILE [] 0)) 2)).
  - repeat constructor; lia.
  - unfold cursor_ok. simpl. lia.
  - vm_compute. reflexivity.
Defined.
